(** * Shallow embedding of igraph's [src/flow/st-cuts.c]

    Even-Tarjan reduction, (reverse) residual graphs, the Lengauer-Tarjan
    dominator tree and the Provan-Shier enumeration of (s,t)-cuts.

    Conventions of the embedding:
    - [igraph_integer_t] is [Z]; vectors are lists read and written by
      index ([VECTOR v i], [vset v i x]).  Reading or writing outside a
      vector is undefined behaviour in C; here a read yields the default
      element and a write changes nothing.
    - [igraph_real_t] is [Q]: the code only compares, subtracts and stores
      reals, NaN and infinities are outside the model.
    - A function returning [igraph_error_t] returns [result A]: either the
      values written through its output pointers, or the error code.
    - Loops run over the index range they iterate on; unbounded loops and
      the recursion of [igraph_provan_shier_list] take explicit fuel. *)

From Stdlib Require Import ZArith QArith Lia List Bool Sorted.
From stdpp Require Import base tactics option list.
Import ListNotations.

Local Open Scope Z_scope.

(** ** Vectors *)

Module Vec.

Definition get {A} (d : A) (v : list A) (i : Z) : A :=
    if i <? 0 then d else nth (Z.to_nat i) v d.

Definition set {A} (v : list A) (i : Z) (x : A) : list A :=
    if i <? 0 then v else <[Z.to_nat i := x]> v.

Definition size {A} (v : list A) : Z := Z.of_nat (length v).

  (** [igraph_vector_resize]: keeps the prefix, new cells are zeroed here
      (they are unspecified in C and always overwritten by the callers). *)
Definition resize {A} (d : A) (v : list A) (n : Z) : list A :=
    take (Z.to_nat n) v ++ replicate (Z.to_nat n - length v)%nat d.

Definition init {A} (d : A) (n : Z) : list A := replicate (Z.to_nat n) d.

  (** The index range [0, n) of a counting [for] loop. *)
Definition range (n : Z) : list Z := map Z.of_nat (seq 0 (Z.to_nat n)).

  (** The index range [lo, hi). *)
Definition range_from (lo hi : Z) : list Z := map (fun i => lo + i) (range (hi - lo)).

End Vec.

Abbreviation VECTOR := (Vec.get 0%Z).
Abbreviation VECTORB := (Vec.get false).
Abbreviation vset := Vec.set.

(** ** Error codes and results *)

Inductive igraph_error_t : Type :=
| IGRAPH_SUCCESS
| IGRAPH_EINVAL
| IGRAPH_EINVVID
| IGRAPH_EINVEVECTOR
| IGRAPH_EINVMODE
| IGRAPH_EOVERFLOW
| IGRAPH_UNIMPLEMENTED
| IGRAPH_FAILURE.

Inductive result (A : Type) : Type :=
| Ok (a : A)
| IGRAPH_ERROR (e : igraph_error_t).
Arguments Ok {A} a.
Arguments IGRAPH_ERROR {A} e.

(** [IGRAPH_CHECK]: propagate the error of a callee. *)
Definition IGRAPH_CHECK {A B} (r : result A) (k : A -> result B) : result B :=
  match r with
  | Ok a => k a
  | IGRAPH_ERROR e => IGRAPH_ERROR e
  end.

Notation "'check!' x <- e ; k" := (IGRAPH_CHECK e (fun x => k))
  (at level 10, x name, e at level 100, k at level 200).

Definition is_error {A} (r : result A) (e : igraph_error_t) : Prop :=
  r = IGRAPH_ERROR e.

(** ** Graphs

    The graph container is an external collaborator; only what the code
    reads from it is kept: the vertex count, the directedness flag and the
    endpoints of every edge in edge-id order. *)

Record igraph_t : Type := mk_graph {
  igraph_vcount : Z;
  igraph_is_directed : bool;
  igraph_edges : list (Z * Z)
}.

Definition igraph_ecount (g : igraph_t) : Z := Vec.size (igraph_edges g).
Definition IGRAPH_FROM (g : igraph_t) (e : Z) : Z := fst (Vec.get (0, 0) (igraph_edges g) e).
Definition IGRAPH_TO (g : igraph_t) (e : Z) : Z := snd (Vec.get (0, 0) (igraph_edges g) e).

(** Invariant of the container: every endpoint is a vertex. *)
Definition graph_wf (g : igraph_t) : Prop :=
  0 <= igraph_vcount g /\
  Forall (fun e => 0 <= fst e < igraph_vcount g /\ 0 <= snd e < igraph_vcount g) (igraph_edges g).

Inductive igraph_neimode_t : Type := IGRAPH_OUT | IGRAPH_IN | IGRAPH_ALL.

Definition IGRAPH_REVERSE_MODE (mode : igraph_neimode_t) : igraph_neimode_t :=
  match mode with
  | IGRAPH_OUT => IGRAPH_IN
  | IGRAPH_IN => IGRAPH_OUT
  | IGRAPH_ALL => IGRAPH_ALL
  end.

(** Pairs up a flat edge vector [u0; v0; u1; v1; ...]. *)
Fixpoint edge_pairs (v : list Z) : list (Z * Z) :=
  match v with
  | a :: b :: rest => (a, b) :: edge_pairs rest
  | _ => []
  end.

(** Modelled from the spec: [igraph_create] of the graph container (not in
    this file).  It builds a graph from a flat edge vector; the vertex count
    is [n], raised to the largest vertex id plus one if needed.  Odd-length
    vectors and negative ids are rejected. *)
Definition igraph_create (edges : list Z) (n : Z) (directed : bool) : result igraph_t :=
  if Nat.odd (length edges) then IGRAPH_ERROR IGRAPH_EINVEVECTOR
  else if negb (forallb (fun x => 0 <=? x) edges) then IGRAPH_ERROR IGRAPH_EINVVID
  else if n <? 0 then IGRAPH_ERROR IGRAPH_EINVAL
  else Ok
         (mk_graph (Z.max n (fold_right (fun x acc => Z.max (x + 1) acc) 0 edges))
                   directed (edge_pairs edges)).

(** ** Machine integers

    [igraph_integer_t] is a signed integer whose largest value depends on
    the build (32 or 64 bits); the largest edge count is a second constant of
    the headers.  Both are parameters of the model. *)

Record platform : Type := mk_platform {
  IGRAPH_INTEGER_MAX : Z;
  IGRAPH_ECOUNT_MAX : Z
}.

Definition IGRAPH_INTEGER_MIN (P : platform) : Z := - IGRAPH_INTEGER_MAX P - 1.

(** Two's complement wrap-around of unchecked arithmetic. *)
Definition wrap (P : platform) (x : Z) : Z :=
  let modulus := 2 * (IGRAPH_INTEGER_MAX P + 1) in
  (x - IGRAPH_INTEGER_MIN P) mod modulus + IGRAPH_INTEGER_MIN P.

Definition in_range (P : platform) (x : Z) : bool :=
  (IGRAPH_INTEGER_MIN P <=? x) && (x <=? IGRAPH_INTEGER_MAX P).

(** Modelled from the spec: the checked arithmetic macros of
    [math/safe_intop.h] (not in this file); they fail with the overflow error
    when the exact result is not representable. *)
Definition IGRAPH_SAFE_MULT (P : platform) (a b : Z) : result Z :=
  if in_range P (a * b) then Ok (a * b) else IGRAPH_ERROR IGRAPH_EOVERFLOW.

Definition IGRAPH_SAFE_ADD (P : platform) (a b : Z) : result Z :=
  if in_range P (a + b) then Ok (a + b) else IGRAPH_ERROR IGRAPH_EOVERFLOW.

(** The 64-bit build: [IGRAPH_ECOUNT_MAX] is [IGRAPH_INTEGER_MAX / 2]. *)
Definition platform64 : platform :=
  mk_platform (2 ^ 63 - 1) ((2 ^ 63 - 1) / 2).

(** Comparison of reals. *)
Definition Qltb (x y : Q) : bool := negb (Qle_bool y x).

(** ** Even-Tarjan reduction *)

Module EvenTarjan.

  (** State of the two filling loops. *)
Record fill : Type := mk_fill {
    edges : list Z;
    edgeptr : Z;
    capacity : option (list Q);
    capptr : Z
  }.

Definition write_edge (st : fill) (x : Z) : fill :=
    mk_fill (vset (edges st) (edgeptr st) x) (edgeptr st + 1) (capacity st) (capptr st).

Definition write_cap (st : fill) (c : Q) : fill :=
    match capacity st with
    | Some cap => mk_fill (edges st) (edgeptr st) (Some (vset cap (capptr st) c)) (capptr st + 1)
    | None => st
    end.

  (** Body of the loop over the vertices: the edge (i', i''). *)
Definition vertex_step (no_of_nodes : Z) (st : fill) (i : Z) : fill :=
    let st := write_edge st i in
    let st := write_edge st (i + no_of_nodes) in
    write_cap st 1%Q.

  (** Body of the loop over the edges: (from'', to') and (to'', from'). *)
Definition edge_step (graph : igraph_t) (no_of_nodes : Z) (st : fill) (i : Z) : fill :=
    let from := IGRAPH_FROM graph i in
    let to := IGRAPH_TO graph i in
    let st := write_edge st (from + no_of_nodes) in
    let st := write_edge st to in
    let st := write_edge st (to + no_of_nodes) in
    let st := write_edge st from in
    let st := write_cap st (inject_Z no_of_nodes) in
    write_cap st (inject_Z no_of_nodes).

Definition igraph_even_tarjan_reduction (P : platform) (graph : igraph_t)
      (capacity : option (list Q)) : result (igraph_t * option (list Q)) :=
    let no_of_nodes := igraph_vcount graph in
    let no_of_edges := igraph_ecount graph in
    let new_no_of_edges := wrap P (no_of_edges * 2) in
    check! new_no_of_nodes <- IGRAPH_SAFE_MULT P no_of_nodes 2 ;
    check! new_no_of_edges <- IGRAPH_SAFE_ADD P new_no_of_edges no_of_nodes ;
    if new_no_of_edges >? IGRAPH_ECOUNT_MAX P then IGRAPH_ERROR IGRAPH_EOVERFLOW
    else
      let edges := Vec.init 0 (wrap P (new_no_of_edges * 2)) in
      let capacity := option_map (fun c => Vec.resize 0%Q c new_no_of_edges) capacity in
      let st := mk_fill edges 0 capacity 0 in
      let st := fold_left (vertex_step no_of_nodes) (Vec.range no_of_nodes) st in
      let st := fold_left (edge_step graph no_of_nodes) (Vec.range no_of_edges) st in
      check! graphbar <- igraph_create (EvenTarjan.edges st) new_no_of_nodes true ;
      Ok (graphbar, EvenTarjan.capacity st).

End EvenTarjan.

(** ** Residual and reverse residual graphs *)

Module Residual.

Definition cap_at (capacity : option (list Q)) (i : Z) : Q :=
    match capacity with
    | Some c => Vec.get 0%Q c i
    | None => 1%Q
    end.

  (** First loop of [igraph_i_reverse_residual_graph]: count the new edges. *)
Definition count_step (capacity : option (list Q)) (flow : list Q)
      (no_new_edges : Z) (i : Z) : Z :=
    let cap := cap_at capacity i in
    let no_new_edges :=
      if Qltb 0 (Vec.get 0%Q flow i) then no_new_edges + 1 else no_new_edges in
    if Qltb (Vec.get 0%Q flow i) cap then no_new_edges + 1 else no_new_edges.

  (** Second loop: write the endpoints. *)
Definition write_step (graph : igraph_t) (capacity : option (list Q)) (flow : list Q)
      (st : list Z * Z) (i : Z) : list Z * Z :=
    let '(tmp, edgeptr) := st in
    let from := IGRAPH_FROM graph i in
    let to := IGRAPH_TO graph i in
    let cap := cap_at capacity i in
    let '(tmp, edgeptr) :=
      if Qltb 0 (Vec.get 0%Q flow i)
      then (vset (vset tmp edgeptr from) (edgeptr + 1) to, edgeptr + 2)
      else (tmp, edgeptr) in
    if Qltb (Vec.get 0%Q flow i) cap
    then (vset (vset tmp edgeptr to) (edgeptr + 1) from, edgeptr + 2)
    else (tmp, edgeptr).

Definition igraph_i_reverse_residual_graph (graph : igraph_t)
      (capacity : option (list Q)) (flow : list Q) (tmp : list Z) : result igraph_t :=
    let no_of_nodes := igraph_vcount graph in
    let no_of_edges := igraph_ecount graph in
    let no_new_edges := fold_left (count_step capacity flow) (Vec.range no_of_edges) 0 in
    let tmp := Vec.resize 0 tmp (no_new_edges * 2) in
    let '(tmp, _) := fold_left (write_step graph capacity flow) (Vec.range no_of_edges) (tmp, 0) in
    igraph_create tmp no_of_nodes true.

Definition igraph_reverse_residual_graph (graph : igraph_t)
      (capacity : option (list Q)) (flow : list Q) : result igraph_t :=
    let no_of_edges := igraph_ecount graph in
    if match capacity with
       | Some c => negb (Vec.size c =? no_of_edges)
       | None => false
       end
    then IGRAPH_ERROR IGRAPH_EINVAL
    else if negb (Vec.size flow =? no_of_edges) then IGRAPH_ERROR IGRAPH_EINVAL
    else igraph_i_reverse_residual_graph graph capacity flow [].

End Residual.

(** ** Graph accessors and visitors

    Adjacency queries, depth-first and breadth-first search belong to the
    graph library around this file.  They are modelled here by their
    documented behaviour, as far as the callers in this file use them. *)

Module Visitor.

Fixpoint insert_sorted (x : Z) (l : list Z) : list Z :=
    match l with
    | [] => [x]
    | y :: r => if x <=? y then x :: l else y :: insert_sorted x r
    end.

Definition sort (l : list Z) : list Z := fold_right insert_sorted [] l.

Definition out_list (g : igraph_t) (v : Z) : list Z :=
    map snd (List.filter (fun e => fst e =? v) (igraph_edges g)).

Definition in_list (g : igraph_t) (v : Z) : list Z :=
    map fst (List.filter (fun e => snd e =? v) (igraph_edges g)).

  (** Modelled from the spec: [igraph_neighbors] (graph container).  The
      neighbours of [v] along [mode], one entry per edge, in increasing
      order of vertex id; an undirected graph is always read with
      [IGRAPH_ALL]. *)
Definition igraph_neighbors (g : igraph_t) (v : Z) (mode : igraph_neimode_t) : list Z :=
    let mode := if igraph_is_directed g then mode else IGRAPH_ALL in
    match mode with
    | IGRAPH_OUT => sort (out_list g v)
    | IGRAPH_IN => sort (in_list g v)
    | IGRAPH_ALL => sort (out_list g v ++ in_list g v)
    end.

  (** Modelled from the spec: [igraph_adjlist_init] (adjacency lists of the
      graph container): the neighbour list of every vertex. *)
Definition igraph_adjlist_init (g : igraph_t) (mode : igraph_neimode_t) : list (list Z) :=
    map (fun v => igraph_neighbors g v mode) (Vec.range (igraph_vcount g)).

Definition igraph_adjlist_get (al : list (list Z)) (i : Z) : list Z :=
    Vec.get [] al i.

  (** Modelled from the spec: [igraph_degree] with [IGRAPH_IN], loops
      counted. *)
Definition igraph_indegree (g : igraph_t) : list Z :=
    map (fun v => Vec.size (in_list g v)) (Vec.range (igraph_vcount g)).

  (** *** Depth-first search *)

Section DFS.
Context {X : Type}.
Variable graph : igraph_t.
Variable mode : igraph_neimode_t.
    (** The callbacks of this file never stop the search and never fail. *)
Variable in_callback : Z -> X -> X.
Variable out_callback : Z -> X -> X.

Record dfs_state : Type := mk_dfs {
      dfs_stack : list Z;          (* top of the stack first *)
      dfs_added : list bool;
      dfs_nptr : list Z;
      dfs_order : list Z;          (* visited vertices, latest first *)
      dfs_parents : list Z;
      dfs_extra : X
    }.

    (** Advance the neighbour pointer to the first vertex not yet added. *)
Fixpoint dfs_scan (neis : list Z) (added : list bool) (ptr : Z) : option Z * Z :=
      match neis with
      | [] => (None, ptr)
      | nei :: rest =>
          if VECTORB added nei then dfs_scan rest added (ptr + 1)
          else (Some nei, ptr + 1)
      end.

Definition dfs_step (st : dfs_state) : option dfs_state :=
      match dfs_stack st with
      | [] => None
      | actvect :: below =>
          let ptr := VECTOR (dfs_nptr st) actvect in
          let neis := igraph_neighbors graph actvect mode in
          match dfs_scan (drop (Z.to_nat ptr) neis) (dfs_added st) ptr with
          | (Some nei, ptr') =>
              Some (mk_dfs (nei :: dfs_stack st)
                           (vset (dfs_added st) nei true)
                           (vset (dfs_nptr st) actvect ptr')
                           (nei :: dfs_order st)
                           (vset (dfs_parents st) nei actvect)
                           (in_callback nei (dfs_extra st)))
          | (None, ptr') =>
              Some (mk_dfs below
                           (dfs_added st)
                           (vset (dfs_nptr st) actvect ptr')
                           (dfs_order st)
                           (dfs_parents st)
                           (out_callback actvect (dfs_extra st)))
          end
      end.

Fixpoint dfs_loop (fuel : nat) (st : dfs_state) : dfs_state :=
      match fuel with
      | O => st
      | S fuel =>
          match dfs_step st with
          | Some st' => dfs_loop fuel st'
          | None => st
          end
      end.

    (** Modelled from the spec: [igraph_dfs] with [unreachable = false].
        Returns the [order] vector (visited vertices in preorder, padded
        with -1 to the vertex count), the [parents] vector (-1 for the
        root, -2 for a vertex never reached) and the callbacks' state.
        Every vertex is pushed and popped once, so [2 n] steps suffice. *)
Definition igraph_dfs (root : Z) (extra : X) : result (list Z * list Z * X) :=
      let no_of_nodes := igraph_vcount graph in
      if (root <? 0) || (root >=? no_of_nodes) then IGRAPH_ERROR IGRAPH_EINVAL
      else
        let st := mk_dfs [root]
                         (vset (Vec.init false no_of_nodes) root true)
                         (Vec.init 0 no_of_nodes)
                         [root]
                         (vset (Vec.init (-2) no_of_nodes) root (-1))
                         (in_callback root extra) in
        let st := dfs_loop (2 * Z.to_nat no_of_nodes) st in
        let visited := rev (dfs_order st) in
        Ok (visited ++ replicate (Z.to_nat no_of_nodes - length visited)%nat (-1),
            dfs_parents st, dfs_extra st).
End DFS.

  (** *** Breadth-first search *)

Section BFS.
Variable graph : igraph_t.
Variable mode : igraph_neimode_t.

Definition bfs_enqueue (st : list Z * list bool) (nei : Z) : list Z * list bool :=
      let '(Q, added) := st in
      if VECTORB added nei then (Q, added) else (Q ++ [nei], vset added nei true).

    (** [order] is kept latest first. *)
Fixpoint bfs_loop (fuel : nat) (Q : list Z) (added : list bool) (order : list Z)
        : list bool * list Z :=
      match fuel with
      | O => (added, order)
      | S fuel =>
          match Q with
          | [] => (added, order)
          | actvect :: Q =>
              let neis := igraph_neighbors graph actvect mode in
              let '(Q, added) := fold_left bfs_enqueue neis (Q, added) in
              bfs_loop fuel Q added (actvect :: order)
          end
      end.

Definition bfs_root (fuel : nat) (st : list bool * list Z) (actroot : Z)
        : list bool * list Z :=
      let '(added, order) := st in
      if VECTORB added actroot then st
      else bfs_loop fuel [actroot] (vset added actroot true) order.

Definition in_interval (lo hi : Z) (v : list Z) : bool :=
      forallb (fun x => (lo <=? x) && (x <=? hi)) v.

    (** Modelled from the spec: [igraph_bfs] with [unreachable = false].
        The search starts from each root in turn and only ever enters the
        vertices of [restricted] (when given); a root outside [restricted]
        is skipped.  Returns the [order] vector, padded with -1. *)
Definition igraph_bfs (roots : list Z) (restricted : option (list Z))
        : result (list Z) :=
      let no_of_nodes := igraph_vcount graph in
      if negb (in_interval 0 (no_of_nodes - 1) roots) then IGRAPH_ERROR IGRAPH_EINVVID
      else if match restricted with
              | Some r => negb (in_interval 0 (no_of_nodes - 1) r)
              | None => false
              end
      then IGRAPH_ERROR IGRAPH_EINVVID
      else
        let added :=
          match restricted with
          | Some r => fold_left (fun added v => vset added v false) r (Vec.init true no_of_nodes)
          | None => Vec.init false no_of_nodes
          end in
        let '(_, order) :=
          fold_left (bfs_root (Z.to_nat no_of_nodes)) roots (added, []) in
        let visited := rev order in
        Ok (visited ++ replicate (Z.to_nat no_of_nodes - length visited)%nat (-1)).
End BFS.

  (** The next kept vertex gets the next new id. *)
Definition subgraph_map_step (st : list Z * Z) (v : Z) : list Z * Z :=
    let '(m, k) := st in (vset m v (k + 1), k + 1).

  (** Modelled from the spec: [igraph_induced_subgraph_map] with a vertex
      vector in increasing order.  The subgraph keeps the listed vertices,
      renumbered in that order, and the edges between them; [map] holds the
      new id plus one of every kept vertex and 0 elsewhere, [invmap] the old
      id of every new vertex. *)
Definition igraph_induced_subgraph_map (g : igraph_t) (keep : list Z)
      : igraph_t * list Z * list Z :=
    let map_ :=
      fst (fold_left subgraph_map_step keep (Vec.init 0 (igraph_vcount g), 0)) in
    let kept e := (0 <? VECTOR map_ (fst e)) && (0 <? VECTOR map_ (snd e)) in
    let edges :=
      map (fun e => (VECTOR map_ (fst e) - 1, VECTOR map_ (snd e) - 1))
          (List.filter kept (igraph_edges g)) in
    (mk_graph (Vec.size keep) (igraph_is_directed g) edges, map_, keep).

End Visitor.

(** ** Lengauer-Tarjan dominator tree *)

Module Dominator.

Record igraph_i_dbucket_t : Type := mk_dbucket {
    head : list Z;
    next : list Z
  }.

Definition igraph_i_dbucket_init (size : Z) : igraph_i_dbucket_t :=
    mk_dbucket (Vec.init 0 size) (Vec.init 0 size).

Definition igraph_i_dbucket_insert (buck : igraph_i_dbucket_t) (bid elem : Z)
      : igraph_i_dbucket_t :=
    let next' := vset (next buck) elem (VECTOR (head buck) bid) in
    mk_dbucket (vset (head buck) bid (elem + 1)) next'.

Definition igraph_i_dbucket_empty (buck : igraph_i_dbucket_t) (bid : Z) : bool :=
    VECTOR (head buck) bid =? 0.

Definition igraph_i_dbucket_delete (buck : igraph_i_dbucket_t) (bid : Z)
      : igraph_i_dbucket_t * Z :=
    let elem := VECTOR (head buck) bid - 1 in
    (mk_dbucket (vset (head buck) bid (VECTOR (next buck) elem)) (next buck), elem).

Definition igraph_i_dominator_LINK (v w : Z) (ancestor : list Z) : list Z :=
    vset ancestor w (v + 1).

  (** The first loop of COMPRESS: the path from [w] up to the child of the
      forest root, kept as a stack (top first). *)
Fixpoint compress_path (fuel : nat) (ancestor : list Z) (w : Z) (path : list Z) : list Z :=
    match fuel with
    | O => path
    | S fuel =>
        if VECTOR ancestor w =? 0 then path
        else compress_path fuel ancestor (VECTOR ancestor w - 1) (w :: path)
    end.

  (** The second loop of COMPRESS, for one popped [pretop]. *)
Definition compress_step (semi : list Z) (st : list Z * list Z * Z) (pretop : Z)
      : list Z * list Z * Z :=
    let '(ancestor, label, top) := st in
    let label :=
      if VECTOR semi (VECTOR label top) <? VECTOR semi (VECTOR label pretop)
      then vset label pretop (VECTOR label top)
      else label in
    let ancestor := vset ancestor pretop (VECTOR ancestor top) in
    (ancestor, label, pretop).

Definition igraph_i_dominator_COMPRESS (v : Z) (ancestor label semi : list Z)
      : list Z * list Z :=
    match compress_path (length ancestor) ancestor v [] with
    | [] => (ancestor, label)
    | top :: path =>
        let '(ancestor, label, _) := fold_left (compress_step semi) path (ancestor, label, top) in
        (ancestor, label)
    end.

Definition igraph_i_dominator_EVAL (v : Z) (ancestor label semi : list Z)
      : Z * list Z * list Z :=
    if VECTOR ancestor v =? 0 then (v, ancestor, label)
    else
      let '(ancestor, label) := igraph_i_dominator_COMPRESS v ancestor label semi in
      (VECTOR label v, ancestor, label).

  (** Scratch state of steps 2 and 3. *)
Record lt_state : Type := mk_lt {
    semi : list Z;
    ancestor : list Z;
    label : list Z;
    bucket : igraph_i_dbucket_t;
    mydom : list Z
  }.

  (** Step 1, after the DFS: number the visited vertices. *)
Definition number_step (st : list Z * list Z * Z) (i : Z) : list Z * list Z * Z :=
    let '(semi, vertex, component_size) := st in
    if VECTOR vertex i >=? 0 then
      let t := VECTOR vertex i in
      (vset semi t (component_size + 1), vset vertex component_size (t + 1), component_size + 1)
    else st.

Definition leftout_step (parent : list Z) (n : Z) (st : list Z * Z) (j : Z) : list Z * Z :=
    let '(leftout, p) := st in
    if p <? n then
      if VECTOR parent j <? -1 then (vset leftout p j, p + 1) else st
    else st.

  (** Removal of the unreachable predecessors of one vertex. *)
Fixpoint prune_pred (fuel : nat) (parent : list Z) (v : list Z) (j n : Z) : list Z :=
    match fuel with
    | O => v
    | S fuel =>
        if j <? n then
          let v2 := VECTOR v j in
          if VECTOR parent v2 >=? -1 then prune_pred fuel parent v (j + 1) n
          else
            let v := vset v j (VECTOR v (n - 1)) in
            let v := removelast v in
            prune_pred fuel parent v j (n - 1)
        else v
    end.

  (** Step 2 for one predecessor [v] of [w]. *)
Definition semi_step (w : Z) (st : lt_state) (v : Z) : lt_state :=
    let '(u, ancestor, label) := igraph_i_dominator_EVAL v (ancestor st) (label st) (semi st) in
    let semi :=
      if VECTOR (semi st) u <? VECTOR (semi st) w
      then vset (semi st) w (VECTOR (semi st) u)
      else semi st in
    mk_lt semi ancestor label (bucket st) (mydom st).

  (** Step 3: drain the bucket of [parent w]. *)
Fixpoint drain_bucket (fuel : nat) (pw : Z) (st : lt_state) : lt_state :=
    match fuel with
    | O => st
    | S fuel =>
        if igraph_i_dbucket_empty (bucket st) pw then st
        else
          let '(bucket, v) := igraph_i_dbucket_delete (bucket st) pw in
          let '(u, ancestor, label) :=
            igraph_i_dominator_EVAL v (ancestor st) (label st) (semi st) in
          let d := if VECTOR (semi st) u <? VECTOR (semi st) v then u else pw in
          drain_bucket fuel pw (mk_lt (semi st) ancestor label bucket (vset (mydom st) v d))
    end.

Definition main_step (vertex parent : list Z) (pred : list (list Z))
      (st : lt_state) (i : Z) : lt_state :=
    let w := VECTOR vertex i - 1 in
    let predw := Visitor.igraph_adjlist_get pred w in
    let st := fold_left (semi_step w) predw st in
    let bucket :=
      igraph_i_dbucket_insert (bucket st) (VECTOR vertex (VECTOR (semi st) w - 1) - 1) w in
    let ancestor := igraph_i_dominator_LINK (VECTOR parent w) w (ancestor st) in
    let st := mk_lt (semi st) ancestor (label st) bucket (mydom st) in
    drain_bucket (length parent) (VECTOR parent w) st.

  (** Step 4. *)
Definition fixup_step (vertex semi : list Z) (mydom : list Z) (i : Z) : list Z :=
    let w := VECTOR vertex i - 1 in
    if negb (VECTOR mydom w =? VECTOR vertex (VECTOR semi w - 1) - 1)
    then vset mydom w (VECTOR mydom (VECTOR mydom w))
    else mydom.

Definition domtree_step (root : Z) (mode : igraph_neimode_t) (mydom : list Z)
      (st : list Z * Z) (i : Z) : list Z * Z :=
    let '(edges, ptr) := st in
    if negb (i =? root) && (VECTOR mydom i >=? 0) then
      match mode with
      | IGRAPH_OUT => (vset (vset edges ptr (VECTOR mydom i)) (ptr + 1) i, ptr + 2)
      | _ => (vset (vset edges ptr i) (ptr + 1) (VECTOR mydom i), ptr + 2)
      end
    else st.

  (** Which of the optional outputs the caller asked for (non-null
      pointers), and what they point to. *)
Record outputs : Type := mk_out {
    dom : option (list Z);
    domtree : option (option igraph_t);   (* [Some None]: requested, not yet built *)
    leftout : option (list Z)
  }.

Definition igraph_dominator_tree (graph : igraph_t) (root : Z) (out : outputs)
      (mode : igraph_neimode_t) : igraph_error_t * outputs :=
    let no_of_nodes := igraph_vcount graph in
    let invmode := IGRAPH_REVERSE_MODE mode in
    if (root <? 0) || (root >=? no_of_nodes) then (IGRAPH_EINVAL, out)
    else if negb (igraph_is_directed graph) then (IGRAPH_EINVAL, out)
    else if match mode with IGRAPH_ALL => true | _ => false end then (IGRAPH_EINVAL, out)
    else
      let mydom := Vec.init (-2) no_of_nodes in
      let with_dom d := mk_out (option_map (fun _ => d) (dom out)) (domtree out) (leftout out) in
      let semi := Vec.init 0 no_of_nodes in
      let ancestor := Vec.init 0 no_of_nodes in
      let label := Vec.range no_of_nodes in
      let pred := Visitor.igraph_adjlist_init graph invmode in
      let bucket := igraph_i_dbucket_init no_of_nodes in
      (* DFS first, to set semi, vertex and parent, step 1 *)
      match Visitor.igraph_dfs graph mode (fun _ x => x) (fun _ x => x) root tt with
      | IGRAPH_ERROR e => (e, with_dom mydom)
      | Ok (vertex, parent, _) =>
          let '(semi, vertex, component_size) :=
            fold_left number_step (Vec.range no_of_nodes) (semi, vertex, 0) in
          let leftout' :=
            match leftout out with
            | Some l =>
                let n := no_of_nodes - component_size in
                Some (fst (fold_left (leftout_step parent n) (Vec.range no_of_nodes)
                                     (Vec.resize 0 l n, 0)))
            | None => None
            end in
          let pred :=
            map (fun v => prune_pred (length v) parent v 0 (Vec.size v)) pred in
          (* steps 2 & 3 *)
          let st :=
            fold_left (main_step vertex parent pred)
                      (rev (Vec.range_from 1 component_size))
                      (mk_lt semi ancestor label bucket mydom) in
          (* step 4 *)
          let mydom :=
            fold_left (fixup_step vertex (Dominator.semi st))
                      (Vec.range_from 1 component_size) (Dominator.mydom st) in
          let mydom := vset mydom root (-1) in
          let out := mk_out (option_map (fun _ => mydom) (dom out)) (domtree out) leftout' in
          match domtree out with
          | Some _ =>
              let edges := Vec.init 0 (component_size * 2 - 2) in
              let '(edges, _) :=
                fold_left (domtree_step root mode mydom) (Vec.range no_of_nodes) (edges, 0) in
              match igraph_create edges no_of_nodes true with
              | IGRAPH_ERROR e => (e, out)
              | Ok g => (IGRAPH_SUCCESS, mk_out (dom out) (Some (Some g)) (Dominator.leftout out))
              end
          | None => (IGRAPH_SUCCESS, out)
          end
      end.

  (** All three outputs requested, nothing in them yet. *)
Definition all_outputs : outputs := mk_out (Some []) (Some None) (Some []).

End Dominator.

(** ** The set S: a queue with batches and a membership bitmap *)

Module MarkedQueue.

Record igraph_marked_queue_int_t : Type := mk_queue {
    items : list Z;         (* insertion order, oldest first *)
    member : list bool;     (* membership bitmap, indexed by vertex *)
    batches : list Z        (* stack of batch boundaries, innermost first *)
  }.

  (** Modelled from the spec: the batched marked queue of
      [core/marked_queue.h] (not in this file): an ordered list of vertices,
      a membership bitmap and a stack of batch boundaries. *)
Definition igraph_marked_queue_int_init (size : Z) : igraph_marked_queue_int_t :=
    mk_queue [] (Vec.init false size) [].

Definition igraph_marked_queue_int_iselement (q : igraph_marked_queue_int_t) (elem : Z) : bool :=
    VECTORB (member q) elem.

Definition igraph_marked_queue_int_size (q : igraph_marked_queue_int_t) : Z :=
    Vec.size (items q).

Definition igraph_marked_queue_int_as_vector (q : igraph_marked_queue_int_t) : list Z :=
    items q.

  (** Modelled from the spec: [push] fails if the vertex is already
      present. *)
Definition igraph_marked_queue_int_push (q : igraph_marked_queue_int_t) (elem : Z)
      : result igraph_marked_queue_int_t :=
    if igraph_marked_queue_int_iselement q elem then IGRAPH_ERROR IGRAPH_FAILURE
    else Ok (mk_queue (items q ++ [elem]) (vset (member q) elem true) (batches q)).

Definition igraph_marked_queue_int_start_batch (q : igraph_marked_queue_int_t)
      : igraph_marked_queue_int_t :=
    mk_queue (items q) (member q) (igraph_marked_queue_int_size q :: batches q).

  (** Modelled from the spec: [pop_back_batch] removes exactly the vertices
      pushed since the last [start_batch] (everything when no batch is
      open). *)
Definition igraph_marked_queue_int_pop_back_batch (q : igraph_marked_queue_int_t)
      : igraph_marked_queue_int_t :=
    let boundary := match batches q with b :: _ => b | [] => 0 end in
    let removed := drop (Z.to_nat boundary) (items q) in
    mk_queue (take (Z.to_nat boundary) (items q))
             (fold_left (fun m elem => vset m elem false) removed (member q))
             (tail (batches q)).

End MarkedQueue.

(** ** The set T: a stack with a membership bitmap *)

Module EStack.

Record igraph_estack_t : Type := mk_estack {
    stack : list Z;        (* top first *)
    isin : list bool
  }.

  (** Modelled from the spec: the element stack of [core/estack.h] (not in
      this file); a vertex is absent or present exactly once, and [push]
      fails if it is present. *)
Definition igraph_estack_init (setsize : Z) : igraph_estack_t :=
    mk_estack [] (Vec.init false setsize).

Definition igraph_estack_iselement (s : igraph_estack_t) (elem : Z) : bool :=
    VECTORB (isin s) elem.

Definition igraph_estack_push (s : igraph_estack_t) (elem : Z) : result igraph_estack_t :=
    if igraph_estack_iselement s elem then IGRAPH_ERROR IGRAPH_FAILURE
    else Ok (mk_estack (elem :: stack s) (vset (isin s) elem true)).

Definition igraph_estack_pop (s : igraph_estack_t) : igraph_estack_t :=
    match stack s with
    | elem :: rest => mk_estack rest (vset (isin s) elem false)
    | [] => s
    end.

End EStack.

(** ** Provan-Shier enumeration *)

Module ProvanShier.
Import MarkedQueue EStack.

  (** A pivot reads the graph, S and T and writes the vertex [v] and the
      set [Isv]; the caller passes [v = 0] and an empty [Isv], which is what
      the pivot leaves there when it fails before writing them. *)
Definition igraph_provan_shier_pivot_t : Type :=
    igraph_t -> igraph_marked_queue_int_t -> igraph_estack_t -> Z -> Z ->
    igraph_error_t * Z * list Z.

  (** "Add Isv to S". *)
Definition add_Isv (r : result igraph_marked_queue_int_t) (u : Z)
      : result igraph_marked_queue_int_t :=
    check! S1 <- r ;
    if igraph_marked_queue_int_iselement S1 u then Ok S1
    else igraph_marked_queue_int_push S1 u.

  (** [None]: the recursion is deeper than [fuel]. *)
Fixpoint igraph_provan_shier_list (fuel : nat) (graph : igraph_t)
      (S : igraph_marked_queue_int_t) (T : igraph_estack_t) (source target : Z)
      (result_ : list (list Z)) (pivot : igraph_provan_shier_pivot_t)
      : option (result (igraph_marked_queue_int_t * igraph_estack_t * list (list Z))) :=
    match fuel with
    | O => None
    | S fuel =>
        let no_of_nodes := igraph_vcount graph in
        (* the error code of the pivot is not looked at *)
        let '(_, v, Isv) := pivot graph S T source target in
        match Isv with
        | [] =>
            if negb (igraph_marked_queue_int_size S =? 0)
               && negb (igraph_marked_queue_int_size S =? no_of_nodes)
            then Some (Ok (S, T, result_ ++ [igraph_marked_queue_int_as_vector S]))
            else Some (Ok (S, T, result_))
        | _ :: _ =>
            (* Put v into T *)
            match igraph_estack_push T v with
            | IGRAPH_ERROR e => Some (IGRAPH_ERROR e)
            | Ok T1 =>
                (* Go down left in the search tree *)
                match igraph_provan_shier_list fuel graph S T1 source target result_ pivot with
                | None => None
                | Some (IGRAPH_ERROR e) => Some (IGRAPH_ERROR e)
                | Some (Ok (S1, T2, result1)) =>
                    (* Take out v from T *)
                    let T3 := igraph_estack_pop T2 in
                    (* Add Isv to S *)
                    let S2 := igraph_marked_queue_int_start_batch S1 in
                    match fold_left add_Isv Isv (Ok S2) with
                    | IGRAPH_ERROR e => Some (IGRAPH_ERROR e)
                    | Ok S3 =>
                        (* Go down right in the search tree *)
                        match igraph_provan_shier_list fuel graph S3 T3 source target
                                                       result1 pivot with
                        | None => None
                        | Some (IGRAPH_ERROR e) => Some (IGRAPH_ERROR e)
                        | Some (Ok (S4, T4, result2)) =>
                            (* Take out Isv from S *)
                            Some (Ok (igraph_marked_queue_int_pop_back_batch S4, T4, result2))
                        end
                    end
                end
            end
        end
    end.

End ProvanShier.

(** ** All (s,t)-cuts *)

Module AllStCuts.
Import MarkedQueue EStack ProvanShier.

  (** State of the callbacks of the minimal-element search. *)
Record igraph_i_all_st_cuts_minimal_dfs_data_t : Type := mk_data {
    stack : list Z;          (* top first *)
    nomark : list bool
  }.

Definition igraph_i_all_st_cuts_minimal_dfs_incb (GammaX : list bool) (map_ : list Z)
      (vid : Z) (data : igraph_i_all_st_cuts_minimal_dfs_data_t)
      : igraph_i_all_st_cuts_minimal_dfs_data_t :=
    let realvid := VECTOR map_ vid in
    if VECTORB GammaX realvid then
      let nomark :=
        match stack data with
        | top :: _ => vset (nomark data) top true   (* we just found a smaller one *)
        | [] => nomark data
        end in
      mk_data (realvid :: stack data) nomark
    else data.

Definition igraph_i_all_st_cuts_minimal_dfs_outcb (map_ : list Z)
      (vid : Z) (data : igraph_i_all_st_cuts_minimal_dfs_data_t)
      : igraph_i_all_st_cuts_minimal_dfs_data_t :=
    let realvid := VECTOR map_ vid in
    match stack data with
    | top :: rest => if top =? realvid then mk_data rest (nomark data) else data
    | [] => data
    end.

Definition igraph_i_all_st_cuts_minimal (graph domtree : igraph_t) (root : Z)
      (GammaX : list bool) (invmap : list Z) : result (list Z) :=
    let no_of_nodes := igraph_vcount graph in
    let nomark := map (fun i => negb (VECTORB GammaX i)) (Vec.range no_of_nodes) in
    check! r <- Visitor.igraph_dfs domtree IGRAPH_IN
                  (igraph_i_all_st_cuts_minimal_dfs_incb GammaX invmap)
                  (igraph_i_all_st_cuts_minimal_dfs_outcb invmap)
                  root (mk_data [] nomark) ;
    let data := snd r in
    Ok (List.filter (fun i => negb (VECTORB (AllStCuts.nomark data) i)) (Vec.range no_of_nodes)).

  (** "Remove the negative values from the end of the vector": the entries
      before the first negative one. *)
Fixpoint nonneg_prefix (v : list Z) : list Z :=
    match v with
    | [] => []
    | t :: rest => if t >=? 0 then t :: nonneg_prefix rest else []
    end.

  (** Gamma(S) when S is not empty: the out-neighbours of S outside S. *)
Definition GammaS_step (graph : igraph_t) (S : igraph_marked_queue_int_t)
      (GammaS : list bool) (i : Z) : list bool :=
    if igraph_marked_queue_int_iselement S i then
      fold_left (fun GammaS nei =>
                   if negb (igraph_marked_queue_int_iselement S nei)
                   then vset GammaS nei true else GammaS)
                (Visitor.igraph_neighbors graph i IGRAPH_OUT) GammaS
    else GammaS.

Definition relabel_leftout (Sbar_invmap : list Z) (st : list Z * list bool) (i : Z)
      : list Z * list bool :=
    let '(leftout, GammaS) := st in
    let leftout := vset leftout i (VECTOR Sbar_invmap (VECTOR leftout i)) in
    (leftout, vset GammaS (VECTOR leftout i) false).

  (** The loop over the minimal elements; it stops at the first one whose
      I(S,v)-K avoids T and the target. *)
Fixpoint pivot_loop (graph domtree : igraph_t) (T : igraph_estack_t) (target : Z)
      (Sbar_map Sbar_invmap leftout GammaS_vec : list Z) (Sbar_size : Z)
      (M : list Z) : igraph_error_t * Z * list Z :=
    match M with
    | [] => (IGRAPH_SUCCESS, 0, [])
    | m :: M =>
        let no_of_nodes := igraph_vcount graph in
        let min := VECTOR Sbar_map m - 1 in
        match Visitor.igraph_dfs domtree IGRAPH_IN (fun _ x => x) (fun _ x => x) min tt with
        | IGRAPH_ERROR e => (e, 0, [])
        | Ok (Nuv, _, _) =>
            let Nuv := map (VECTOR Sbar_invmap)
                           (nonneg_prefix (take (Z.to_nat Sbar_size) Nuv)) in
            match Visitor.igraph_bfs graph IGRAPH_OUT GammaS_vec (Some Nuv) with
            | IGRAPH_ERROR e => (e, 0, [])
            | Ok Isv_min =>
                let Isv_min := nonneg_prefix (take (Z.to_nat no_of_nodes) Isv_min) in
                if existsb (fun u => igraph_estack_iselement T u || (u =? target)) Isv_min
                then pivot_loop graph domtree T target Sbar_map Sbar_invmap leftout
                                GammaS_vec Sbar_size M
                else
                  (* We might have found one *)
                  let v := m in
                  let Nuv := Nuv ++ leftout in
                  match Visitor.igraph_bfs graph IGRAPH_OUT [v] (Some Nuv) with
                  | IGRAPH_ERROR e => (e, v, [])
                  | Ok Isv_min =>
                      (IGRAPH_SUCCESS, v, nonneg_prefix (take (Z.to_nat no_of_nodes) Isv_min))
                  end
            end
        end
    end.

Definition igraph_i_all_st_cuts_pivot : igraph_provan_shier_pivot_t :=
    fun graph S T source target =>
    let no_of_nodes := igraph_vcount graph in
    (* We need to create the graph induced by Sbar *)
    let keep := List.filter (fun i => negb (igraph_marked_queue_int_iselement S i))
                       (Vec.range no_of_nodes) in
    let Sbar_size := Vec.size keep in
    let '(Sbar, Sbar_map, Sbar_invmap) := Visitor.igraph_induced_subgraph_map graph keep in
    let root := VECTOR Sbar_map target - 1 in
    (* Construct the dominator tree of Sbar *)
    match Dominator.igraph_dominator_tree Sbar root
            (Dominator.mk_out None (Some None) (Some [])) IGRAPH_IN with
    | (IGRAPH_SUCCESS, Dominator.mk_out _ (Some (Some domtree)) (Some leftout)) =>
        (* First we create GammaS *)
        let GammaS := Vec.init false no_of_nodes in
        let GammaS :=
          if igraph_marked_queue_int_size S =? 0
          then vset GammaS (VECTOR Sbar_map source - 1) true
          else fold_left (GammaS_step graph S) (Vec.range no_of_nodes) GammaS in
        (* Relabel left out vertices *)
        let '(leftout, GammaS) :=
          fold_left (relabel_leftout Sbar_invmap) (Vec.range (Vec.size leftout))
                    (leftout, GammaS) in
        match (if igraph_ecount domtree >? 0
               then igraph_i_all_st_cuts_minimal graph domtree root GammaS Sbar_invmap
               else Ok []) with
        | IGRAPH_ERROR e => (e, 0, [])
        | Ok M =>
            let GammaS_vec := List.filter (VECTORB GammaS) (Vec.range no_of_nodes) in
            pivot_loop graph domtree T target Sbar_map Sbar_invmap leftout GammaS_vec
                       Sbar_size M
        end
    | (IGRAPH_SUCCESS, _) => (IGRAPH_FAILURE, 0, [])   (* not reachable *)
    | (e, _) => (e, 0, [])
    end.

  (** Edge cut of partition number [i]. *)
Definition mark_step (i : Z) (inS : list Z) (v : Z) : list Z := vset inS v (i + 1).

Definition crosses (graph : igraph_t) (inS : list Z) (i j : Z) : bool :=
    let from := IGRAPH_FROM graph j in
    let to := IGRAPH_TO graph j in
    let pfrom := VECTOR inS from in
    let pto := VECTOR inS to in
    (pfrom =? i + 1) && negb (pto =? i + 1).

Definition count_step (graph : igraph_t) (inS : list Z) (i : Z) (cutsize j : Z) : Z :=
    if crosses graph inS i j then cutsize + 1 else cutsize.

Definition add_step (graph : igraph_t) (inS : list Z) (i : Z) (st : list Z * Z) (j : Z)
      : list Z * Z :=
    let '(cut, cutsize) := st in
    if crosses graph inS i j then (vset cut cutsize j, cutsize + 1) else st.

Definition cut_step (graph : igraph_t) (partition1s : list (list Z))
      (st : list Z * list Z * list (list Z)) (i : Z) : list Z * list Z * list (list Z) :=
    let '(inS, cut, cuts) := st in
    let no_of_edges := igraph_ecount graph in
    let part := Vec.get [] partition1s i in
    (* Mark elements *)
    let inS := fold_left (mark_step i) part inS in
    (* Check how many edges *)
    let cutsize := fold_left (count_step graph inS i) (Vec.range no_of_edges) 0 in
    (* Add the edges *)
    let cut := Vec.resize 0 cut cutsize in
    let '(cut, _) := fold_left (add_step graph inS i) (Vec.range no_of_edges) (cut, 0) in
    (inS, cut, cuts ++ [cut]).

  (** Returns the list of cuts (when asked for) and the list of partitions. *)
Definition igraph_all_st_cuts (fuel : nat) (graph : igraph_t) (want_cuts : bool)
      (source target : Z) : option (result (option (list (list Z)) * list (list Z))) :=
    let no_of_nodes := igraph_vcount graph in
    if negb (igraph_is_directed graph) then Some (IGRAPH_ERROR IGRAPH_UNIMPLEMENTED)
    else
      let S := igraph_marked_queue_int_init no_of_nodes in
      let T := igraph_estack_init no_of_nodes in
      (* We call it with S={}, T={} *)
      match igraph_provan_shier_list fuel graph S T source target []
                                     igraph_i_all_st_cuts_pivot with
      | None => None
      | Some (IGRAPH_ERROR e) => Some (IGRAPH_ERROR e)
      | Some (Ok (_, _, mypartition1s)) =>
          let nocuts := Vec.size mypartition1s in
          if want_cuts then
            let inS := Vec.init 0 no_of_nodes in
            let '(_, _, cuts) :=
              fold_left (cut_step graph mypartition1s) (Vec.range nocuts) (inS, [], []) in
            Some (Ok (Some cuts, mypartition1s))
          else Some (Ok (None, mypartition1s))
      end.

End AllStCuts.

(** ** All minimum (s,t)-cuts *)

Module AllStMinCuts.
Import MarkedQueue EStack ProvanShier.

  (** The maximum flow and the strongly connected components are computed
      outside this file; the facade takes them as oracles.  [igraph_maxflow]
      yields the flow value and the flow of every edge,
      [igraph_connected_components] the component id of every vertex and the
      number of components. *)
Definition maxflow_t : Type :=
    igraph_t -> Z -> Z -> option (list Q) -> result (Q * list Q).
Definition components_t : Type := igraph_t -> result (list Z * Z).

  (** Modelled from the spec: [igraph_contract_vertices] (operators of the
      library): every edge is mapped through [mapping]; the vertex count is
      the largest new id plus one. *)
Definition igraph_contract_vertices (g : igraph_t) (mapping : list Z) : result igraph_t :=
    if negb (Vec.size mapping =? igraph_vcount g) then IGRAPH_ERROR IGRAPH_EINVAL
    else
      let edges :=
        flat_map (fun e => [VECTOR mapping (fst e); VECTOR mapping (snd e)]) (igraph_edges g) in
      let last := fold_right Z.max (-1) (mapping ++ edges) in
      igraph_create edges (last + 1) (igraph_is_directed g).

  (** Modelled from the spec: [igraph_simplify] with loops and multiple
      edges removed; the remaining edges come out sorted. *)
Definition igraph_simplify (g : igraph_t) : igraph_t :=
    let has u w := existsb (fun e => (fst e =? u) && (snd e =? w)) (igraph_edges g) in
    let vs := Vec.range (igraph_vcount g) in
    mk_graph (igraph_vcount g) (igraph_is_directed g)
             (flat_map (fun u => map (fun w => (u, w))
                                     (List.filter (fun w => negb (u =? w) && has u w) vs)) vs).

Definition ACTIVE (active : list bool) (invmap : list Z) (x : Z) : bool :=
    VECTORB active (VECTOR invmap x).

  (** The out-edges of a vertex that is not active are discounted. *)
Definition discount_step (Sbar : igraph_t) (active : list bool) (invmap : list Z)
      (indeg : list Z) (i : Z) : list Z :=
    if negb (ACTIVE active invmap i) then
      fold_left (fun indeg nei => vset indeg nei (VECTOR indeg nei - 1))
                (Visitor.igraph_neighbors Sbar i IGRAPH_OUT) indeg
    else indeg.

Definition igraph_i_all_st_mincuts_minimal (Sbar : igraph_t) (active : list bool)
      (invmap : list Z) : list Z :=
    let no_of_nodes := igraph_vcount Sbar in
    let indeg := Visitor.igraph_indegree Sbar in
    let indeg := fold_left (discount_step Sbar active invmap) (Vec.range no_of_nodes) indeg in
    List.filter (fun i => ACTIVE active invmap i && (VECTOR indeg i =? 0)) (Vec.range no_of_nodes).

  (** "Now find a minimal element that is not in T". *)
Fixpoint find_pivot (T : igraph_estack_t) (target : Z) (Sbar_invmap : list Z) (M : list Z)
      : option Z :=
    match M with
    | [] => None
    | m :: M =>
        let min := VECTOR Sbar_invmap m in
        if negb (min =? target) && negb (igraph_estack_iselement T min) then Some m
        else find_pivot T target Sbar_invmap M
    end.

Definition igraph_i_all_st_mincuts_pivot (active : list bool) : igraph_provan_shier_pivot_t :=
    fun graph S T source target =>
    let no_of_nodes := igraph_vcount graph in
    if igraph_marked_queue_int_size S =? no_of_nodes then (IGRAPH_SUCCESS, 0, [])
    else
      (* Create the graph induced by Sbar *)
      let keep := List.filter (fun i => negb (igraph_marked_queue_int_iselement S i))
                         (Vec.range no_of_nodes) in
      let '(Sbar, Sbar_map, Sbar_invmap) := Visitor.igraph_induced_subgraph_map graph keep in
      (* Identify the set M of minimal elements that are active *)
      let M := igraph_i_all_st_mincuts_minimal Sbar active Sbar_invmap in
      match find_pivot T target Sbar_invmap M with
      | None => (IGRAPH_SUCCESS, 0, [])
      | Some m =>
          (* I(S,v) contains all elements that can reach the pivot element *)
          let v := VECTOR Sbar_invmap m in
          match Visitor.igraph_bfs graph IGRAPH_IN [v] (Some keep) with
          | IGRAPH_ERROR e => (e, v, [])
          | Ok Isv_min =>
              (IGRAPH_SUCCESS, v,
               List.filter (fun u => negb (igraph_estack_iselement T u))
                      (AllStCuts.nonneg_prefix (take (Z.to_nat no_of_nodes) Isv_min)))
          end
      end.

  (** Active vertices of the projection: the components that touch an edge
      carrying flow. *)
Definition active_step (graph : igraph_t) (flow : list Q) (NtoL : list Z)
      (VE1bool : list bool) (i : Z) : list bool :=
    if Qltb 0 (Vec.get 0%Q flow i) then
      let pfrom := VECTOR NtoL (IGRAPH_FROM graph i) in
      let pto := VECTOR NtoL (IGRAPH_TO graph i) in
      vset (vset VE1bool pfrom true) pto true
    else VE1bool.

  (** The inverse of the component map, as linked lists. *)
Definition revmap_step (NtoL : list Z) (st : list Z * list Z) (i : Z) : list Z * list Z :=
    let '(revmap_ptr, revmap_next) := st in
    let id := VECTOR NtoL i in
    (vset revmap_ptr id (i + 1), vset revmap_next i (VECTOR revmap_ptr id)).

Fixpoint expand_vertex (fuel : nat) (revmap_next : list Z) (ovtx : Z) (cut : list Z) : list Z :=
    match fuel with
    | O => cut
    | S fuel =>
        if ovtx =? 0 then cut
        else
          let ovtx := ovtx - 1 in
          expand_vertex fuel revmap_next (VECTOR revmap_next ovtx) (cut ++ [ovtx])
    end.

Definition expand_step (no_of_nodes : Z) (revmap_ptr revmap_next : list Z)
      (cut : list Z) (vtx : Z) : list Z :=
    expand_vertex (Z.to_nat no_of_nodes) revmap_next (VECTOR revmap_ptr vtx) cut.

Definition mincut_step (graph : igraph_t) (flow : list Q) (partition1s : list (list Z))
      (st : list Z * list (list Z)) (i : Z) : list Z * list (list Z) :=
    let '(memb, cuts) := st in
    let part := Vec.get [] partition1s i in
    let memb := fold_left (fun memb vtx => vset memb vtx (i + 1)) part memb in
    let cut :=
      List.filter (fun j => Qltb 0 (Vec.get 0%Q flow j)
                       && (VECTOR memb (IGRAPH_FROM graph j) =? i + 1)
                       && negb (VECTOR memb (IGRAPH_TO graph j) =? i + 1))
             (Vec.range (igraph_ecount graph)) in
    (memb, cuts ++ [cut]).

  (** Minimum of a vector of reals (of a non-empty vector in the library). *)
Definition igraph_vector_min (v : list Q) : option Q :=
    match v with
    | [] => None
    | x :: rest => Some (fold_left (fun m y => if Qltb y m then y else m) rest x)
    end.

  (** Returns the flow value, the cuts (when asked for) and the partitions. *)
Definition igraph_all_st_mincuts (igraph_maxflow : maxflow_t)
      (igraph_connected_components : components_t)
      (fuel : nat) (graph : igraph_t) (want_cuts : bool)
      (source target : Z) (capacity : option (list Q))
      : option (result (Q * option (list (list Z)) * list (list Z))) :=
    let no_of_nodes := igraph_vcount graph in
    let no_of_edges := igraph_ecount graph in
    (* Error checks *)
    if negb (igraph_is_directed graph) then Some (IGRAPH_ERROR IGRAPH_UNIMPLEMENTED)
    else if (source <? 0) || (source >=? no_of_nodes) then Some (IGRAPH_ERROR IGRAPH_EINVAL)
    else if (target <? 0) || (target >=? no_of_nodes) then Some (IGRAPH_ERROR IGRAPH_EINVAL)
    else if source =? target then Some (IGRAPH_ERROR IGRAPH_EINVAL)
    else if match capacity with
            | Some c =>
                match igraph_vector_min c with
                | Some m => Qle_bool m 0
                | None => false
                end
            | None => false
            end
    then Some (IGRAPH_ERROR IGRAPH_EINVAL)
    else
      (* We need to calculate the maximum flow first *)
      match igraph_maxflow graph source target capacity with
      | IGRAPH_ERROR e => Some (IGRAPH_ERROR e)
      | Ok (value, flow) =>
      (* Then we need the reverse residual graph *)
      match Residual.igraph_reverse_residual_graph graph capacity flow with
      | IGRAPH_ERROR e => Some (IGRAPH_ERROR e)
      | Ok residual =>
      (* We shrink it to its strongly connected components *)
      match igraph_connected_components residual with
      | IGRAPH_ERROR e => Some (IGRAPH_ERROR e)
      | Ok (NtoL, proj_nodes) =>
      match igraph_contract_vertices residual NtoL with
      | IGRAPH_ERROR e => Some (IGRAPH_ERROR e)
      | Ok residual =>
          let residual := igraph_simplify residual in
          let newsource := VECTOR NtoL source in
          let newtarget := VECTOR NtoL target in
          (* Determine the active vertices in the projection *)
          let VE1bool :=
            fold_left (active_step graph flow NtoL) (Vec.range no_of_edges)
                      (Vec.init false proj_nodes) in
          (* Everything is ready, list the cuts, using the right PIVOT function *)
          let S := igraph_marked_queue_int_init no_of_nodes in
          let T := igraph_estack_init no_of_nodes in
          match igraph_provan_shier_list fuel residual S T newsource newtarget []
                                         (igraph_i_all_st_mincuts_pivot VE1bool) with
          | None => None
          | Some (IGRAPH_ERROR e) => Some (IGRAPH_ERROR e)
          | Some (Ok (_, _, closedsets)) =>
              (* Convert the closed sets in the contracted graphs to cutsets in
                 the original graph *)
              let '(revmap_ptr, revmap_next) :=
                fold_left (revmap_step NtoL) (Vec.range no_of_nodes)
                          (Vec.init 0 (igraph_vcount residual), Vec.init 0 no_of_nodes) in
              let mypartition1s :=
                map (fun supercut =>
                       fold_left (expand_step no_of_nodes revmap_ptr revmap_next) supercut [])
                    closedsets in
              let nocuts := Vec.size closedsets in
              (* Create cuts in original graph *)
              if want_cuts then
                let '(_, cuts) :=
                  fold_left (mincut_step graph flow mypartition1s) (Vec.range nocuts)
                            (Vec.init 0 no_of_nodes, []) in
                Some (Ok (value, Some cuts, mypartition1s))
              else Some (Ok (value, None, mypartition1s))
          end
      end end end end.

End AllStMinCuts.

(** ** Closed forms used in the statements *)

Module EvenTarjanSpec.
Import EvenTarjan.

  (** Writing a run of cells. *)
Definition put_edges (st : fill) (xs : list Z) : fill := fold_left write_edge xs st.
Definition put_caps (st : fill) (cs : list Q) : fill := fold_left write_cap cs st.

  (** The flat edge vector that the two loops build. *)
Definition inner_flat (n : Z) : list Z := flat_map (fun i => [i; i + n]) (Vec.range n).
Definition outer_flat (g : igraph_t) (n : Z) : list Z :=
    flat_map (fun e => [fst e + n; snd e; snd e + n; fst e]) (igraph_edges g).

  (** The inner edge (v, v + n) of every vertex, in vertex order. *)
Definition inner_edges (n : Z) : list (Z * Z) := map (fun v => (v, v + n)) (Vec.range n).

  (** The two outer edges (u + n, v) and (v + n, u) of every edge (u, v), in
      edge order. *)
Definition outer_edges (g : igraph_t) : list (Z * Z) :=
    flat_map (fun e => [(fst e + igraph_vcount g, snd e); (snd e + igraph_vcount g, fst e)])
             (igraph_edges g).

End EvenTarjanSpec.

Module ResidualSpec.

  (** What edge [e] contributes to the reverse residual graph: the edge
      itself when it carries flow, then its reversal when it is not
      saturated. *)
Definition contribution (graph : igraph_t) (capacity : option (list Q)) (flow : list Q)
      (e : Z) : list (Z * Z) :=
    (if Qltb 0 (Vec.get 0%Q flow e)
     then [(IGRAPH_FROM graph e, IGRAPH_TO graph e)] else []) ++
    (if Qltb (Vec.get 0%Q flow e) (Residual.cap_at capacity e)
     then [(IGRAPH_TO graph e, IGRAPH_FROM graph e)] else []).

  (** The reading of the data-model section: the forward edge is present
      iff the edge is not saturated, the reverse edge iff it carries flow. *)
Definition forward_iff_unsaturated (graph : igraph_t) (capacity : option (list Q))
      (flow : list Q) (residual : igraph_t) : Prop :=
    forall e, 0 <= e < igraph_ecount graph ->
      (In (IGRAPH_FROM graph e, IGRAPH_TO graph e) (igraph_edges residual) <->
       (Vec.get 0%Q flow e < Residual.cap_at capacity e)%Q) /\
      (In (IGRAPH_TO graph e, IGRAPH_FROM graph e) (igraph_edges residual) <->
       (0 < Vec.get 0%Q flow e)%Q).

End ResidualSpec.

Module SearchSpec.
Import MarkedQueue EStack ProvanShier.

  (** The bitmap of S covers the vertices and agrees with the list. *)
Definition queue_wf (n : Z) (S : igraph_marked_queue_int_t) : Prop :=
    n <= Vec.size (member S) /\
    forall i, VECTORB (member S) i = true -> In i (items S).

Definition estack_wf (n : Z) (T : igraph_estack_t) : Prop :=
    n <= Vec.size (isin T).

  (** The vertices that are neither in S nor in T. *)
Definition free (n : Z) (S : igraph_marked_queue_int_t) (T : igraph_estack_t) : list Z :=
    List.filter (fun i => negb (igraph_marked_queue_int_iselement S i) &&
                          negb (igraph_estack_iselement T i))
                (Vec.range n).

  (** The contract of a pivot: a non-empty [Isv] comes with a vertex [v] of
      the graph that is in neither S nor T and belongs to [Isv]. *)
Definition pivot_contract (pivot : igraph_provan_shier_pivot_t) : Prop :=
    forall graph S T source target code v Isv,
      graph_wf graph ->
      queue_wf (igraph_vcount graph) S ->
      estack_wf (igraph_vcount graph) T ->
      pivot graph S T source target = (code, v, Isv) ->
      Isv <> [] ->
      0 <= v < igraph_vcount graph /\
      igraph_marked_queue_int_iselement S v = false /\
      igraph_estack_iselement T v = false /\
      In v Isv.

  (** S as a set: no vertex twice, every vertex in range and marked. *)
Definition queue_exact (n : Z) (S : igraph_marked_queue_int_t) : Prop :=
    queue_wf n S /\ List.NoDup (items S) /\
    forall x, In x (items S) -> 0 <= x < n /\ igraph_marked_queue_int_iselement S x = true.

End SearchSpec.

Module DominatorSpec.

  (** An edge of the tree built for mode IN starts at a vertex other than
      the root; a cell of the edge vector that was never written holds the
      pair (0, 0). *)
Definition domtree_edge_ok (root n : Z) (p : Z * Z) : Prop :=
    (fst p <> root /\ 0 <= fst p < n) \/ p = (0, 0).

  (** Tree ancestors along a parent vector: [anc parents u v] when [u] is
      [v] or an ancestor of [v] ([parents] holds -1 at the root and -2 at a
      vertex out of the tree). *)
Inductive anc (parents : list Z) : Z -> Z -> Prop :=
  | anc_refl v : anc parents v v
  | anc_step u v :
      0 <= VECTOR parents v -> anc parents u (VECTOR parents v) -> anc parents u v.

  (** The preorder number of a vertex, read off the list of visited
      vertices kept latest first. *)
Fixpoint rank (ord : list Z) (x : Z) : nat :=
    match ord with
    | [] => 0
    | y :: t => if y =? x then length t else rank t x
    end.

  (** The stack of a depth-first search is a path of the tree up to the
      root. *)
Fixpoint is_chain (parents : list Z) (root : Z) (stack : list Z) : Prop :=
    match stack with
    | [] => True
    | x :: t =>
        match t with
        | [] => x = root
        | y :: _ => VECTOR parents x = y /\ is_chain parents root t
        end
    end.

  (** A depth-first search tree of the part of the graph that can be
      reached from [root] along [mode]: [ord] lists the visited vertices,
      latest first, and [parents] holds their parents. *)
Record search_tree (graph : igraph_t) (mode : igraph_neimode_t) (root : Z)
      (ord parents : list Z) : Prop := mk_search_tree {
    st_root : exists l, ord = l ++ [root];
    st_nodup : NoDup ord;
    st_range : forall x, In x ord -> 0 <= x < igraph_vcount graph;
    st_len : length parents = Z.to_nat (igraph_vcount graph);
    st_proot : VECTOR parents root = -1;
    st_unvisited : forall j, 0 <= j < igraph_vcount graph -> ~ In j ord ->
      VECTOR parents j = -2;
    st_par : forall x, In x ord -> x <> root ->
      In (VECTOR parents x) ord /\
      In x (Visitor.igraph_neighbors graph (VECTOR parents x) mode) /\
      (rank ord (VECTOR parents x) < rank ord x)%nat;
    st_interval : forall i j k, In j ord -> In k ord -> anc parents i k ->
      (rank ord i <= rank ord j <= rank ord k)%nat -> anc parents i j;
    st_closed : forall x y, In x ord -> In y (Visitor.igraph_neighbors graph x mode) ->
      In y ord;
    st_cross : forall i j, In i ord -> In j ord ->
      In j (Visitor.igraph_neighbors graph i mode) ->
      (rank ord i < rank ord j)%nat -> anc parents i j
  }.

  (** An edge leads from [u] to [v] when the graph is read along [mode]. *)
Definition arc (graph : igraph_t) (mode : igraph_neimode_t) (u v : Z) : Prop :=
    match mode with
    | IGRAPH_OUT => In (u, v) (igraph_edges graph)
    | IGRAPH_IN => In (v, u) (igraph_edges graph)
    | IGRAPH_ALL => In (u, v) (igraph_edges graph) \/ In (v, u) (igraph_edges graph)
    end.

  (** [path graph mode a l c]: a path from [a] to [c]; [l] lists the
      vertices after [a], up to [c]. *)
Inductive path (graph : igraph_t) (mode : igraph_neimode_t) : Z -> list Z -> Z -> Prop :=
  | path_nil a : path graph mode a [] a
  | path_cons a b l c :
      arc graph mode a b -> path graph mode b l c -> path graph mode a (b :: l) c.

Definition reachable (graph : igraph_t) (mode : igraph_neimode_t) (r v : Z) : Prop :=
    exists l, path graph mode r l v.

  (** [d] dominates [v]: every path from the root to [v] contains [d]. *)
Definition dominates (graph : igraph_t) (mode : igraph_neimode_t) (r d v : Z) : Prop :=
    forall l, path graph mode r l v -> In d (r :: l).

  (** The immediate dominator of [v]: the dominator of [v] other than [v]
      that every other dominator of [v] dominates. *)
Definition is_idom (graph : igraph_t) (mode : igraph_neimode_t) (r d v : Z) : Prop :=
    d <> v /\ dominates graph mode r d v /\
    forall d', d' <> v -> dominates graph mode r d' v -> dominates graph mode r d' d.

  (** A path from [v] to [w] whose inner vertices all have a larger number
      than [w]; the semidominator of [w] is the visited vertex with the least
      number that starts such a path. *)
Definition semipath (graph : igraph_t) (mode : igraph_neimode_t) (ord : list Z)
      (v w : Z) : Prop :=
    exists inner, path graph mode v (inner ++ [w]) w /\
      forall x, In x inner -> (rank ord w < rank ord x)%nat.

Definition is_sdom (graph : igraph_t) (mode : igraph_neimode_t) (ord : list Z)
      (s w : Z) : Prop :=
    In s ord /\ semipath graph mode ord s w /\
    forall v, In v ord -> semipath graph mode ord v w -> (rank ord s <= rank ord v)%nat.

  (** A bucket is a linked list threaded through [next]; [h] is the cell of
      [head], a vertex id plus one or 0 at the end. *)
Fixpoint bucket_chain (next : list Z) (h : Z) (l : list Z) : Prop :=
    match l with
    | [] => h = 0
    | e :: l' => h = e + 1 /\ bucket_chain next (VECTOR next e) l'
    end.

Definition bucket_rep (n : Z) (b : Dominator.igraph_i_dbucket_t) (B : Z -> list Z) : Prop :=
    length (Dominator.head b) = Z.to_nat n /\ length (Dominator.next b) = Z.to_nat n /\
    forall x, bucket_chain (Dominator.next b) (VECTOR (Dominator.head b) x) (B x).

  (** [x] lies on the tree path from [a] (left out) down to [v]. *)
Definition between (parents : list Z) (a v x : Z) : Prop :=
    anc parents a x /\ x <> a /\ anc parents x v.

  (** [m] has the least [semi] on the tree path from [a] (left out) down
      to [v]. *)
Definition seg_min (parents semi : list Z) (a v m : Z) : Prop :=
    between parents a v m /\
    forall x, between parents a v x -> VECTOR semi m <= VECTOR semi x.

  (** The forest of LINK and EVAL when the vertices numbered [k] and above
      are linked: a linked vertex points to one of its proper ancestors, all
      vertices in between are linked, and its label has the least [semi] in
      between. *)
Record forest_ok (ord parents : list Z) (k : nat) (semi ancestor label : list Z)
      : Prop := mk_forest_ok {
    f_len_anc : length ancestor = length parents;
    f_len_lab : length label = length parents;
    f_unlinked : forall v, In v ord -> (rank ord v < k)%nat ->
      VECTOR ancestor v = 0 /\ VECTOR label v = v;
    f_linked : forall v, In v ord -> (k <= rank ord v)%nat ->
      exists a, VECTOR ancestor v = a + 1 /\ anc parents a v /\ a <> v /\
        (forall x, between parents a v x -> (k <= rank ord x)%nat) /\
        seg_min parents semi a v (VECTOR label v)
  }.

  (** The vertices that COMPRESS stacks: the chain of [ancestor] pointers
      from [w] up to the root [r] of its tree (left out), topmost first. *)
Inductive achain (ancestor : list Z) : Z -> list Z -> Z -> Prop :=
  | achain_nil r : VECTOR ancestor r = 0 -> achain ancestor r [] r
  | achain_snoc r l a w :
      VECTOR ancestor w = a + 1 -> 0 <= a -> achain ancestor r l a ->
      achain ancestor r (l ++ [w]) w.

  (** What step 3 stores in [dom] for [v]: the vertex [u] of least [semi]
      below the semidominator [s] of [v] when it beats [v], and [s] itself
      otherwise. *)
Definition rel_dom (ord parents : list Z) (k : nat) (semi : list Z) (v d : Z) : Prop :=
    exists s u, In s ord /\ VECTOR semi v = Z.of_nat (rank ord s) + 1 /\
      seg_min parents semi s v u /\
      (forall y, between parents s v y -> (k <= rank ord y)%nat) /\
      ((VECTOR semi u < VECTOR semi v /\ d = u) \/
       (VECTOR semi v <= VECTOR semi u /\ d = s)).

  (** The state of steps 2 and 3 when the vertices numbered [k] and above
      have been processed; [B] lists the content of every bucket, and a
      vertex waits in the bucket of its semidominator [x] until the child of
      [x] above it, numbered below [kp], is processed. *)
Record lt_inv (graph : igraph_t) (mode : igraph_neimode_t) (root : Z)
      (ord parents : list Z) (k kp : nat) (st : Dominator.lt_state) (B : Z -> list Z)
      : Prop := mk_lt_inv {
    i_len_semi : length (Dominator.semi st) = Z.to_nat (igraph_vcount graph);
    i_len_dom : length (Dominator.mydom st) = Z.to_nat (igraph_vcount graph);
    i_forest : forest_ok ord parents k (Dominator.semi st) (Dominator.ancestor st)
                         (Dominator.label st);
    i_semi_done : forall v, In v ord -> (k <= rank ord v)%nat ->
      exists s, is_sdom graph mode ord s v /\
                VECTOR (Dominator.semi st) v = Z.of_nat (rank ord s) + 1;
    i_semi_todo : forall v, In v ord -> (rank ord v < k)%nat ->
      VECTOR (Dominator.semi st) v = Z.of_nat (rank ord v) + 1;
    i_bucket : bucket_rep (igraph_vcount graph) (Dominator.bucket st) B;
    i_bucket_in : forall x v, In v (B x) ->
      In v ord /\ (k <= rank ord v)%nat /\ is_sdom graph mode ord x v /\
      exists c, In c ord /\ c <> root /\ VECTOR parents c = x /\ anc parents c v /\
                (rank ord c < kp)%nat;
    i_bucket_nodup : forall x, NoDup (B x);
    i_dom : forall v, In v ord -> (k <= rank ord v)%nat ->
      (exists x, In v (B x)) \/
      rel_dom ord parents k (Dominator.semi st) v (VECTOR (Dominator.mydom st) v);
    i_dom_unvisited : forall x, 0 <= x < igraph_vcount graph -> ~ In x ord ->
      VECTOR (Dominator.mydom st) x = -2
  }.

End DominatorSpec.

Module CutsSpec.

  (** A source-side partition: a set of vertices holding [s] and not [t]. *)
Definition source_side (n s t : Z) (P : list Z) : Prop :=
    List.NoDup P /\ (forall x, In x P -> 0 <= x < n) /\ In s P /\ ~ In t P.

Definition same_set (P P' : list Z) : Prop := forall x, In x P <-> In x P'.

  (** The reading of the completeness property: every source-side partition
      is listed. *)
Definition lists_every_source_side (graph : igraph_t) (s t : Z)
      (partition1s : list (list Z)) : Prop :=
    forall P, source_side (igraph_vcount graph) s t P ->
      exists P', In P' partition1s /\ same_set P P'.

Definition inb (x : Z) (P : list Z) : bool := existsb (Z.eqb x) P.

  (** The ids of the edges that leave [P], in increasing order. *)
Definition crossing_edges (graph : igraph_t) (P : list Z) : list Z :=
    List.filter (fun j => inb (IGRAPH_FROM graph j) P && negb (inb (IGRAPH_TO graph j) P))
                (Vec.range (igraph_ecount graph)).

  (** Total capacity of a list of edges. *)
Definition cut_capacity (capacity : list Q) (cut : list Z) : Q :=
    fold_left (fun acc j => (acc + Vec.get 0%Q capacity j)%Q) cut 0%Q.

Definition Qeqb (x y : Q) : bool := Qle_bool x y && Qle_bool y x.

  (** Net flow out of a vertex. *)
Definition net_outflow (graph : igraph_t) (flow : list Q) (v : Z) : Q :=
    fold_left (fun acc j =>
                 let acc := if IGRAPH_FROM graph j =? v
                            then (acc + Vec.get 0%Q flow j)%Q else acc in
                 if IGRAPH_TO graph j =? v then (acc - Vec.get 0%Q flow j)%Q else acc)
              (Vec.range (igraph_ecount graph)) 0%Q.

  (** A feasible flow of the given value from [s] to [t]. *)
Definition is_flow (graph : igraph_t) (capacity flow : list Q) (s t : Z) (value : Q)
      : bool :=
    (Vec.size flow =? igraph_ecount graph) &&
    forallb (fun j => Qle_bool 0 (Vec.get 0%Q flow j) &&
                      Qle_bool (Vec.get 0%Q flow j) (Vec.get 0%Q capacity j))
            (Vec.range (igraph_ecount graph)) &&
    forallb (fun v => (v =? s) || (v =? t) || Qeqb (net_outflow graph flow v) 0)
            (Vec.range (igraph_vcount graph)) &&
    Qeqb (net_outflow graph flow s) value.

  (** [v] can be reached from [u]. *)
Definition reaches (g : igraph_t) (u v : Z) : bool :=
    match Visitor.igraph_bfs g IGRAPH_OUT [u] None with
    | Ok order => inb v order
    | IGRAPH_ERROR _ => false
    end.

  (** [membership] names the strongly connected components of [g]. *)
Definition is_scc_labelling (g : igraph_t) (membership : list Z) (no : Z) : bool :=
    (Vec.size membership =? igraph_vcount g) &&
    forallb (fun u => (0 <=? VECTOR membership u) && (VECTOR membership u <? no) &&
               forallb (fun v => Bool.eqb (VECTOR membership u =? VECTOR membership v)
                                          (reaches g u v && reaches g v u))
                       (Vec.range (igraph_vcount g)))
            (Vec.range (igraph_vcount g)).

End CutsSpec.

(** ** Example inputs *)

Module Examples.

  (** The 3-cycle of scenario S2. *)
Definition cycle3 : igraph_t := mk_graph 3 true [(0, 1); (1, 2); (2, 0)].

  (** A single edge. *)
Definition one_edge : igraph_t := mk_graph 2 true [(0, 1)].

  (** The 4-node diamond of scenario S3. *)
Definition diamond : igraph_t := mk_graph 4 true [(0, 1); (0, 2); (1, 3); (2, 3)].

  (** Two routes from 0 that meet in 2 before the target 3. *)
Definition funnel : igraph_t := mk_graph 4 true [(0, 1); (0, 2); (1, 2); (2, 3)].

  (** The flowgraph of scenario S1. *)
Definition flowgraph13 : igraph_t :=
    mk_graph 13 true
      [(0, 1); (0, 2); (0, 3); (1, 4); (2, 1); (2, 4); (2, 5); (3, 6); (3, 7); (4, 12);
       (5, 8); (6, 9); (7, 9); (7, 10); (8, 5); (8, 11); (9, 11); (10, 9); (11, 0);
       (11, 9); (12, 8)].

  (** A network with source 0 and target 9.  The source feeds 1 and 2 with
      two units each; 1 feeds 3 and 8, 2 feeds 7 and 4, and 3, 4, 7, 8 each
      send one unit to the target.  The edges 7 -> 5 -> 3 and 8 -> 6 -> 4 exist
      but cannot carry flow. *)
Definition network10 : igraph_t :=
    mk_graph 10 true
      [(0, 1); (0, 2); (1, 3); (1, 8); (2, 7); (2, 4); (3, 9); (4, 9); (7, 9); (8, 9);
       (7, 5); (5, 3); (8, 6); (6, 4)].
Definition capacity10 : list Q := [2; 2; 1; 1; 1; 1; 1; 1; 1; 1; 1; 1; 1; 1]%Q.
  (** Its maximum flow (the only one): value 4. *)
Definition flow10 : list Q := [2; 2; 1; 1; 1; 1; 1; 1; 1; 1; 0; 0; 0; 0]%Q.

  (** Oracles that return a given answer. *)
Definition maxflow_oracle (value : Q) (flow : list Q) : AllStMinCuts.maxflow_t :=
    fun _ _ _ _ => Ok (value, flow).
Definition components_oracle (membership : list Z) (no : Z) : AllStMinCuts.components_t :=
    fun _ => Ok (membership, no).

End Examples.

(** ** Residual graph *)

Module ResidualGraph.
Import EvenTarjan.

  (** A capacity or a flow is an [igraph_real_t], a double: its value is a
      rational and two of them are compared exactly, but their difference
      is rounded.  [real_sub] is the subtraction of the machine. *)
Section MachineReals.
Variable real_sub : Q -> Q -> Q.

    (** First loop of [igraph_i_residual_graph]: count the edges with room
        left. *)
Definition count_step (capacity flow : list Q) (no_new_edges : Z) (i : Z) : Z :=
      if Qltb (Vec.get 0%Q flow i) (Vec.get 0%Q capacity i)
      then no_new_edges + 1 else no_new_edges.

    (** Second loop: the endpoints and the residual capacity of every edge
        with room left.  The state is the pair of output vectors with their
        write positions, as in the Even-Tarjan reduction. *)
Definition write_step (graph : igraph_t) (capacity flow : list Q) (st : fill) (i : Z)
        : fill :=
      let c := real_sub (Vec.get 0%Q capacity i) (Vec.get 0%Q flow i) in
      if Qltb 0 c then
        let from := IGRAPH_FROM graph i in
        let to := IGRAPH_TO graph i in
        let st := write_edge st from in
        let st := write_edge st to in
        write_cap st c
      else st.

    (** [residual_capacity] is [None] for a null pointer; the result holds
        the residual graph and the vector written through
        [residual_capacity]. *)
Definition igraph_i_residual_graph (graph : igraph_t) (capacity : list Q)
        (residual_capacity : option (list Q)) (flow : list Q) (tmp : list Z)
        : result (igraph_t * option (list Q)) :=
      let no_of_nodes := igraph_vcount graph in
      let no_of_edges := igraph_ecount graph in
      let no_new_edges := fold_left (count_step capacity flow) (Vec.range no_of_edges) 0 in
      let tmp := Vec.resize 0 tmp (no_new_edges * 2) in
      let residual_capacity :=
        option_map (fun rc => Vec.resize 0%Q rc no_new_edges) residual_capacity in
      let st := fold_left (write_step graph capacity flow) (Vec.range no_of_edges)
                          (mk_fill tmp 0 residual_capacity 0) in
      check! residual <- igraph_create (edges st) no_of_nodes true ;
      Ok (residual, EvenTarjan.capacity st).

Definition igraph_residual_graph (graph : igraph_t) (capacity : list Q)
        (residual_capacity : option (list Q)) (flow : list Q)
        : result (igraph_t * option (list Q)) :=
      let no_of_edges := igraph_ecount graph in
      if negb (Vec.size capacity =? no_of_edges) then IGRAPH_ERROR IGRAPH_EINVAL
      else if negb (Vec.size flow =? no_of_edges) then IGRAPH_ERROR IGRAPH_EINVAL
      else igraph_i_residual_graph graph capacity residual_capacity flow [].
End MachineReals.

End ResidualGraph.

Module ResidualGraphSpec.

  (** The edges that are not saturated, by increasing id. *)
Definition unsaturated (graph : igraph_t) (capacity flow : list Q) : list Z :=
    List.filter (fun e => Qltb (Vec.get 0%Q flow e) (Vec.get 0%Q capacity e))
                (Vec.range (igraph_ecount graph)).

End ResidualGraphSpec.

Module DomtreeSpec.

  (** The vertices that get an edge of the dominator tree. *)
Definition tree_vertex (root : Z) (md : list Z) (i : Z) : bool :=
    negb (i =? root) && (VECTOR md i >=? 0).

  (** The edge of vertex [i]: from its dominator with mode OUT, towards it
      otherwise. *)
Definition tree_edge (mode : igraph_neimode_t) (md : list Z) (i : Z) : Z * Z :=
    match mode with
    | IGRAPH_OUT => (VECTOR md i, i)
    | _ => (i, VECTOR md i)
    end.

End DomtreeSpec.

Module MinCutsSpec.

  (** How often [i] occurs in [l]. *)
Definition occ (i : Z) (l : list Z) : Z := Z.of_nat (length (List.filter (Z.eqb i) l)).

  (** The edges that carry flow and leave [P], in increasing order. *)
Definition flow_crossing_edges (graph : igraph_t) (flow : list Q) (P : list Z) : list Z :=
    List.filter (fun j => Qltb 0 (Vec.get 0%Q flow j)
                          && CutsSpec.inb (IGRAPH_FROM graph j) P
                          && negb (CutsSpec.inb (IGRAPH_TO graph j) P))
                (Vec.range (igraph_ecount graph)).

  (** The vertices of component [c], latest first. *)
Definition component_members (NtoL : list Z) (n c : Z) : list Z :=
    rev (List.filter (fun i => VECTOR NtoL i =? c) (Vec.range n)).

End MinCutsSpec.

Module MoreExamples.

  (** A path of four vertices. *)
Definition chain4 : igraph_t := mk_graph 4 true [(0, 1); (1, 2); (2, 3)].

End MoreExamples.

(** ** Minimal cuts *)

Module MinimalCutSpec.

  (** [reach_in graph A a c]: a walk along the edges leads from [a] to [c]
      and stays in [A], both ends included. *)
Inductive reach_in (graph : igraph_t) (A : Z -> Prop) : Z -> Z -> Prop :=
  | reach_refl a : A a -> reach_in graph A a a
  | reach_step a b c :
      A a -> In (a, b) (igraph_edges graph) -> reach_in graph A b c ->
      reach_in graph A a c.

  (** The source side of a minimal cut between [s] and [t]: a set of
      vertices with [s] and without [t], every vertex of which is reached
      from [s] inside the set, such that the head of every edge that leaves
      the set reaches [t] outside the set, and that some edge leaves. *)
Definition minimal_side (graph : igraph_t) (s t : Z) (P : list Z) : Prop :=
    (forall x, In x P -> 0 <= x < igraph_vcount graph) /\
    In s P /\ ~ In t P /\
    (forall x, In x P -> reach_in graph (fun y => In y P) s x) /\
    (forall u w, In u P -> In (u, w) (igraph_edges graph) -> ~ In w P ->
       reach_in graph (fun y => ~ In y P) w t) /\
    (exists u w, In u P /\ In (u, w) (igraph_edges graph) /\ ~ In w P).

  (** *** The sets of the pivot

      With the vertices of [S] taken out of the graph: *)
Section Pivot.
Variables (graph : igraph_t) (s t : Z) (S : list Z).

Definition outside (x : Z) : Prop := 0 <= x < igraph_vcount graph /\ ~ In x S.

    (** the vertices that still reach the target, *)
Definition live (x : Z) : Prop := reach_in graph outside x t.

    (** the vertices whose walks to the target all pass through [v] (the
        subtree of [v] in the dominator tree), *)
Definition dominated (v x : Z) : Prop :=
      live x /\ ~ reach_in graph (fun y => outside y /\ y <> v) x t.

    (** Gamma(S): the source when [S] is empty, else the heads of the edges
        that leave [S]; only its vertices that reach the target count, *)
Definition front (x : Z) : Prop :=
      live x /\ ((S = [] /\ x = s) \/ exists u, In u S /\ In (u, x) (igraph_edges graph)).

    (** the vertices reached from [v] inside its subtree, *)
Definition below (v x : Z) : Prop := reach_in graph (dominated v) v x.

    (** and the vertices reached from [v] inside its subtree and the
        vertices cut off from the target. *)
Definition region (v x : Z) : Prop := dominated v x \/ (outside x /\ ~ live x).
Definition closure (v x : Z) : Prop := reach_in graph (region v) v x.
End Pivot.

  (** What a pivot that returns [v] and [Isv] has found: a vertex of
      Gamma(S) other than the target that dominates no other vertex of
      Gamma(S), with nothing of T below it; [Isv] is its closure. *)
Definition pivot_found (graph : igraph_t) (s t : Z) (S : list Z) (T : Z -> Prop)
      (v : Z) (Isv : list Z) : Prop :=
    front graph s t S v /\ v <> t /\
    (forall w, front graph s t S w -> dominated graph t S v w -> w = v) /\
    (forall x, below graph t S v x -> ~ T x) /\
    (forall x, In x Isv <-> closure graph t S v x).

  (** What holds when the pivot returns nothing: every vertex of Gamma(S)
      dominates one that is the target or has a vertex of T below it. *)
Definition pivot_none (graph : igraph_t) (s t : Z) (S : list Z) (T : Z -> Prop) : Prop :=
    forall w, front graph s t S w ->
      exists m, front graph s t S m /\ dominated graph t S w m /\
        (m = t \/ exists x, below graph t S m x /\ T x).

  (** T as a set of vertices. *)
Definition in_T (T : EStack.igraph_estack_t) (x : Z) : Prop :=
    EStack.igraph_estack_iselement T x = true.

  (** The state of the search: S is empty or a set grown from the source,
      the edges that leave it lead to vertices that reach the target
      outside S, and T lies in Gamma(S). *)
Definition search_inv (graph : igraph_t) (s t : Z) (S : list Z) (T : Z -> Prop) : Prop :=
    (forall x, In x S -> 0 <= x < igraph_vcount graph) /\ ~ In t S /\
    (S <> [] -> In s S /\ (forall x, In x S -> reach_in graph (fun y => In y S) s x) /\
                exists u w, In u S /\ In (u, w) (igraph_edges graph) /\ ~ In w S) /\
    (forall u w, In u S -> In (u, w) (igraph_edges graph) -> ~ In w S ->
       live graph t S w) /\
    (forall x, T x -> front graph s t S x).

End MinimalCutSpec.

(** * Properties *)

(** ** Vectors *)

Lemma Qltb_lt x y : Qltb x y = true <-> (x < y)%Q.
Proof.
  unfold Qltb. rewrite negb_true_iff, <- not_true_iff_false, Qle_bool_iff.
  split; [apply Qnot_le_lt | apply Qlt_not_le].
Qed.

Lemma Qltb_ge x y : Qltb x y = false <-> (y <= x)%Q.
Proof. unfold Qltb. rewrite negb_false_iff. apply Qle_bool_iff. Qed.

Section VecFacts.
Context {A : Type}.
  Implicit Types (v l : list A) (d x : A).

Lemma vsize_nonneg v : 0 <= Vec.size v.
  Proof. unfold Vec.size. lia. Qed.

Lemma vset_length v i x : length (vset v i x) = length v.
  Proof. unfold Vec.set. destruct (i <? 0); [done | apply length_insert]. Qed.

Lemma vget_vset_eq d v i x :
    0 <= i < Vec.size v -> Vec.get d (vset v i x) i = x.
  Proof.
    unfold Vec.get, Vec.set, Vec.size. intros Hi.
    destruct (Z.ltb_spec i 0); [lia |].
    rewrite nth_lookup, list_lookup_insert_eq by lia. done.
  Qed.

Lemma vget_vset_ne d v i j x :
    i <> j -> Vec.get d (vset v i x) j = Vec.get d v j.
  Proof.
    unfold Vec.get, Vec.set. intros Hne.
    destruct (Z.ltb_spec j 0); [done |].
    destruct (Z.ltb_spec i 0); [done |].
    rewrite !nth_lookup, list_lookup_insert_ne by lia. done.
  Qed.

Lemma vget_out d v i : Vec.size v <= i -> Vec.get d v i = d.
  Proof.
    unfold Vec.get, Vec.size. intros Hi.
    destruct (Z.ltb_spec i 0); [done |]. apply nth_overflow. lia.
  Qed.

Lemma vget_neg d v i : i < 0 -> Vec.get d v i = d.
  Proof. unfold Vec.get. intros Hi. destruct (Z.ltb_spec i 0); [done | lia]. Qed.

Lemma vget_of_nat d v (k : nat) : Vec.get d v (Z.of_nat k) = nth k v d.
  Proof.
    unfold Vec.get. destruct (Z.ltb_spec (Z.of_nat k) 0); [lia |].
    by rewrite Nat2Z.id.
  Qed.

Lemma vget_In d v i : 0 <= i < Vec.size v -> In (Vec.get d v i) v.
  Proof.
    unfold Vec.get, Vec.size. intros Hi.
    destruct (Z.ltb_spec i 0); [lia |]. apply nth_In. lia.
  Qed.

  (** Writing the next cell of a vector that is filled from the left. *)
Lemma vset_next_cell l y rest x :
    vset (l ++ y :: rest) (Vec.size l) x = (l ++ [x]) ++ rest.
  Proof.
    unfold Vec.set, Vec.size.
    destruct (Z.ltb_spec (Z.of_nat (length l)) 0); [lia |].
    rewrite Nat2Z.id, insert_app_r_alt, Nat.sub_diag by lia.
    by rewrite <- app_assoc.
  Qed.

Lemma vinit_length d n : length (Vec.init d n) = Z.to_nat n.
  Proof. unfold Vec.init. apply length_replicate. Qed.

Lemma vresize_length d v n : length (Vec.resize d v n) = Z.to_nat n.
  Proof.
    unfold Vec.resize. rewrite length_app, length_take, length_replicate. lia.
  Qed.
End VecFacts.

Lemma range_length n : length (Vec.range n) = Z.to_nat n.
Proof. unfold Vec.range. by rewrite length_map, length_seq. Qed.

Lemma range_In n i : In i (Vec.range n) <-> 0 <= i < n.
Proof.
  unfold Vec.range. rewrite in_map_iff. split.
  - intros (k & <- & Hk%in_seq). lia.
  - intros Hi. exists (Z.to_nat i). split; [lia |]. apply in_seq. lia.
Qed.

Lemma range_succ (k : nat) :
  Vec.range (Z.of_nat (S k)) = Vec.range (Z.of_nat k) ++ [Z.of_nat k].
Proof.
  unfold Vec.range. rewrite !Nat2Z.id, seq_S, map_app. done.
Qed.

Lemma range_nth n (k : nat) d : (k < Z.to_nat n)%nat -> nth k (Vec.range n) d = Z.of_nat k.
Proof.
  intros Hk. unfold Vec.range.
  rewrite (nth_indep _ d (Z.of_nat 0)) by (rewrite length_map, length_seq; lia).
  rewrite map_nth, seq_nth by lia. done.
Qed.

Lemma range_nil n : n <= 0 -> Vec.range n = [].
Proof. intros Hn. unfold Vec.range. by replace (Z.to_nat n) with 0%nat by lia. Qed.

Lemma range_NoDup n : NoDup (Vec.range n).
Proof.
  unfold Vec.range. apply NoDup_fmap_2; [intros ???; lia | apply NoDup_seq].
Qed.

(** A counting loop that reads cell [i] of a vector is a loop over the
    vector. *)
Lemma fold_range_list {St B} (d : B) (es : list B) (f : St -> Z -> St) (h : St -> B -> St) :
  (forall st i, 0 <= i < Vec.size es -> f st i = h st (Vec.get d es i)) ->
  forall st, fold_left f (Vec.range (Vec.size es)) st = fold_left h es st.
Proof.
  intros Hf st.
  assert (Hk : forall k, (k <= length es)%nat ->
             fold_left f (Vec.range (Z.of_nat k)) st = fold_left h (take k es) st).
  { induction k as [| k IH]; intros Hle; [done |].
    rewrite range_succ, fold_left_app, IH by lia. simpl.
    destruct (lookup_lt_is_Some_2 es k) as [e He]; [lia |].
    rewrite (take_S_r _ _ _ He), fold_left_app. simpl.
    rewrite Hf by (unfold Vec.size; lia). rewrite vget_of_nat.
    by rewrite (nth_lookup_Some _ _ _ _ He). }
  unfold Vec.size. rewrite Hk by lia. by rewrite firstn_all.
Qed.

Lemma range_map_get {B} (d : B) (es : list B) :
  map (Vec.get d es) (Vec.range (Vec.size es)) = es.
Proof.
  unfold Vec.size. induction es as [| e l IH] using rev_ind; [done |].
  rewrite length_app, Nat.add_1_r, range_succ, map_app. simpl.
  rewrite vget_of_nat, app_nth2, Nat.sub_diag by lia. simpl. f_equal.
  etrans; [| exact IH]. apply map_ext_in. intros i Hi%range_In.
  unfold Vec.get. destruct (Z.ltb_spec i 0); [lia |].
  apply app_nth1. lia.
Qed.

Lemma flat_map_range_list {B C} (d : B) (es : list B) (h : B -> list C) :
  flat_map (fun i => h (Vec.get d es i)) (Vec.range (Vec.size es)) = flat_map h es.
Proof.
  rewrite !flat_map_concat_map, <- (map_map (Vec.get d es) h), range_map_get. done.
Qed.

(** ** Even-Tarjan reduction *)

Section EvenTarjanFacts.
Import EvenTarjan EvenTarjanSpec.


Lemma write_edge_cap st x c :
    write_edge (write_cap st c) x = write_cap (write_edge st x) c.
  Proof. destruct st as [e ep [cap |] cp]; reflexivity. Qed.

Lemma put_edges_write_cap xs : forall st c,
    put_edges (write_cap st c) xs = write_cap (put_edges st xs) c.
  Proof.
    induction xs as [| x xs IH]; intros st c; [done |].
    simpl. by rewrite write_edge_cap, IH.
  Qed.

Lemma put_edges_caps xs cs : forall st,
    put_edges (put_caps st cs) xs = put_caps (put_edges st xs) cs.
  Proof.
    induction cs as [| c cs IH]; intros st; [done |].
    simpl. by rewrite IH, put_edges_write_cap.
  Qed.

Lemma put_edges_app st xs ys : put_edges st (xs ++ ys) = put_edges (put_edges st xs) ys.
  Proof. apply fold_left_app. Qed.

Lemma put_caps_app st xs ys : put_caps st (xs ++ ys) = put_caps (put_caps st xs) ys.
  Proof. apply fold_left_app. Qed.

  (** A loop whose body writes [E i] then [C i] writes all the [E i] and
      all the [C i]. *)
Lemma fold_put {I} (E : I -> list Z) (C : I -> list Q) (is_ : list I) : forall st,
    fold_left (fun st i => put_caps (put_edges st (E i)) (C i)) is_ st =
    put_caps (put_edges st (flat_map E is_)) (flat_map C is_).
  Proof.
    induction is_ as [| i is_ IH]; intros st; [done |].
    simpl. rewrite IH, put_edges_app, put_caps_app. f_equal.
    by rewrite put_edges_caps.
  Qed.

Lemma put_edges_spec xs : forall l rest cap cp,
    (length xs <= length rest)%nat ->
    put_edges (mk_fill (l ++ rest) (Vec.size l) cap cp) xs =
    mk_fill ((l ++ xs) ++ drop (length xs) rest) (Vec.size (l ++ xs)) cap cp.
  Proof.
    induction xs as [| x xs IH]; intros l rest cap cp Hlen.
    - simpl. by rewrite app_nil_r.
    - destruct rest as [| y rest]; [simpl in Hlen; lia |].
      simpl. unfold write_edge at 1. simpl.
      rewrite vset_next_cell.
      replace (Vec.size l + 1) with (Vec.size (l ++ [x]))
        by (unfold Vec.size; rewrite length_app; simpl; lia).
      rewrite IH by (simpl in Hlen; lia).
      by rewrite <- !(app_assoc l [x]).
  Qed.

Lemma put_caps_spec cs : forall edges ep l rest,
    (length cs <= length rest)%nat ->
    put_caps (mk_fill edges ep (Some (l ++ rest)) (Vec.size l)) cs =
    mk_fill edges ep (Some ((l ++ cs) ++ drop (length cs) rest)) (Vec.size (l ++ cs)).
  Proof.
    induction cs as [| c cs IH]; intros edges ep l rest Hlen.
    - simpl. by rewrite app_nil_r.
    - destruct rest as [| y rest]; [simpl in Hlen; lia |].
      simpl. unfold write_cap at 1. simpl.
      rewrite vset_next_cell.
      replace (Vec.size l + 1) with (Vec.size (l ++ [c]))
        by (unfold Vec.size; rewrite length_app; simpl; lia).
      rewrite IH by (simpl in Hlen; lia).
      by rewrite <- !(app_assoc l [c]).
  Qed.

Lemma put_caps_none edges ep cp cs :
    put_caps (mk_fill edges ep None cp) cs = mk_fill edges ep None cp.
  Proof. induction cs as [| c cs IH]; [done |]. simpl. by rewrite <- IH at 2. Qed.

Lemma length_flat_map_const {B C} (f : B -> list C) (k : nat) (l : list B) :
    (forall x, length (f x) = k) -> length (flat_map f l) = (k * length l)%nat.
  Proof.
    intros Hf. induction l as [| x l IH]; simpl; [lia |].
    rewrite length_app, Hf, IH. lia.
  Qed.

Lemma loops_spec (g : igraph_t) (st : fill) :
    let n := igraph_vcount g in
    fold_left (edge_step g n) (Vec.range (igraph_ecount g))
      (fold_left (vertex_step n) (Vec.range n) st) =
    put_caps (put_edges st (inner_flat n ++ outer_flat g n))
             (flat_map (fun _ => [1%Q]) (Vec.range n) ++
              flat_map (fun _ => [inject_Z n; inject_Z n]) (igraph_edges g)).
  Proof.
    intros n.
    change (vertex_step n) with
      (fun st i => put_caps (put_edges st [i; i + n]) [1%Q]).
    rewrite fold_put.
    change (edge_step g n) with
      (fun st i =>
         put_caps (put_edges st
                     ((fun e => [fst e + n; snd e; snd e + n; fst e])
                        (Vec.get (0, 0) (igraph_edges g) i)))
                  ((fun _ => [inject_Z n; inject_Z n]) (Vec.get (0, 0) (igraph_edges g) i))).
    rewrite fold_put. unfold igraph_ecount.
    rewrite (flat_map_range_list (0, 0) (igraph_edges g)
               (fun e => [fst e + n; snd e; snd e + n; fst e])).
    rewrite (flat_map_range_list (0, 0) (igraph_edges g)
               (fun _ => [inject_Z n; inject_Z n])).
    rewrite put_edges_caps, <- put_edges_app, <- put_caps_app. done.
  Qed.

Lemma edge_pairs_app_pair a b l : edge_pairs (a :: b :: l) = (a, b) :: edge_pairs l.
  Proof. done. Qed.

Lemma edge_pairs_inner n l :
    edge_pairs (inner_flat n ++ l) = inner_edges n ++ edge_pairs l.
  Proof.
    unfold inner_flat, inner_edges.
    induction (Vec.range n) as [| i r IH]; [done |]. simpl. by rewrite IH.
  Qed.

Lemma edge_pairs_outer g :
    edge_pairs (outer_flat g (igraph_vcount g)) = outer_edges g.
  Proof.
    unfold outer_flat, outer_edges.
    induction (igraph_edges g) as [| e r IH]; [done |]. simpl. by rewrite IH.
  Qed.

Lemma wrap_id P x :
    0 <= IGRAPH_INTEGER_MAX P ->
    IGRAPH_INTEGER_MIN P <= x <= IGRAPH_INTEGER_MAX P -> wrap P x = x.
  Proof.
    unfold wrap, IGRAPH_INTEGER_MIN. intros HM Hx.
    rewrite Z.mod_small by lia. lia.
  Qed.

Lemma in_range_true P x :
    in_range P x = true <-> IGRAPH_INTEGER_MIN P <= x <= IGRAPH_INTEGER_MAX P.
  Proof. unfold in_range. rewrite andb_true_iff, !Z.leb_le. done. Qed.

Lemma max_id_bound (k : Z) (l : list Z) :
    0 <= k -> Forall (fun x => x < k) l ->
    Z.max k (fold_right (fun x acc => Z.max (x + 1) acc) 0 l) = k.
  Proof.
    intros Hk Hl.
    assert (fold_right (fun x acc => Z.max (x + 1) acc) 0 l <= k); [| lia].
    induction Hl as [| x l Hx Hl IH]; simpl; lia.
  Qed.
End EvenTarjanFacts.

Section EvenTarjanProof.
Import EvenTarjan EvenTarjanSpec.

Lemma flat_map_const_replicate {B C} (x : C) (l : list B) :
    flat_map (fun _ => [x]) l = replicate (length l) x.
  Proof. induction l as [| y l IH]; [done |]. simpl. by rewrite IH. Qed.

Lemma flat_map_const2_replicate {B C} (x : C) (l : list B) :
    flat_map (fun _ => [x; x]) l = replicate (2 * length l) x.
  Proof.
    induction l as [| y l IH]; [done |]. simpl.
    rewrite IH. replace (length l + S (length l + 0))%nat with (S (2 * length l)) by lia.
    done.
  Qed.

Lemma inner_flat_length n : length (inner_flat n) = (2 * Z.to_nat n)%nat.
  Proof.
    unfold inner_flat. rewrite (length_flat_map_const _ 2%nat) by done.
    by rewrite range_length.
  Qed.

Lemma outer_flat_length g n : length (outer_flat g n) = (4 * length (igraph_edges g))%nat.
  Proof. unfold outer_flat. by rewrite (length_flat_map_const _ 4%nat). Qed.

Lemma inner_flat_bounds n : Forall (fun x => 0 <= x < 2 * n) (inner_flat n).
  Proof.
    unfold inner_flat. apply Forall_forall. intros x Hx%list_elem_of_In%in_flat_map.
    destruct Hx as (i & Hi%range_In & Hx). simpl in Hx. intuition lia.
  Qed.

Lemma outer_flat_bounds g :
    graph_wf g -> Forall (fun x => 0 <= x < 2 * igraph_vcount g) (outer_flat g (igraph_vcount g)).
  Proof.
    intros [Hn Hwf]. unfold outer_flat. apply Forall_forall.
    intros x Hx%list_elem_of_In%in_flat_map.
    destruct Hx as (e & He & Hx).
    rewrite Forall_forall in Hwf. specialize (Hwf e (proj2 (list_elem_of_In _ _) He)).
    simpl in Hx. intuition lia.
  Qed.

Lemma create_flat (xs : list Z) (k : Z) (directed : bool) :
    Nat.even (length xs) = true -> 0 <= k -> Forall (fun x => 0 <= x < k) xs ->
    igraph_create xs k directed = Ok (mk_graph k directed (edge_pairs xs)).
  Proof.
    intros Hev Hk Hxs. unfold igraph_create.
    rewrite <- Nat.negb_even, Hev. simpl.
    replace (forallb (fun x => 0 <=? x) xs) with true; simpl.
    2:{ symmetry. apply forallb_forall. intros x Hx%list_elem_of_In.
        rewrite Forall_forall in Hxs. apply Z.leb_le. by apply Hxs. }
    destruct (Z.ltb_spec k 0); [lia |].
    rewrite max_id_bound; [done | done |].
    eapply Forall_impl; [exact Hxs |]. simpl. lia.
  Qed.

Lemma even_tarjan_run (P : platform) (graph : igraph_t) (capacity : option (list Q)) :
    let n := igraph_vcount graph in
    let m := igraph_ecount graph in
    graph_wf graph ->
    2 * IGRAPH_ECOUNT_MAX P <= IGRAPH_INTEGER_MAX P ->
    2 * m + n <= IGRAPH_ECOUNT_MAX P ->
    igraph_even_tarjan_reduction P graph capacity =
    Ok (mk_graph (2 * n) true (inner_edges n ++ outer_edges graph),
        option_map (fun _ => replicate (Z.to_nat n) 1%Q ++
                             replicate (Z.to_nat (2 * m)) (inject_Z n)) capacity).
  Proof.
    intros n m Hwf HP Hfit.
    assert (Hn : 0 <= n) by apply Hwf.
    assert (Hm : 0 <= m) by apply vsize_nonneg.
    assert (HM : 0 <= IGRAPH_INTEGER_MAX P) by lia.
    unfold igraph_even_tarjan_reduction. fold n m.
    rewrite (wrap_id P (m * 2)) by (unfold IGRAPH_INTEGER_MIN; lia).
    unfold IGRAPH_SAFE_MULT, IGRAPH_SAFE_ADD.
    rewrite (proj2 (in_range_true P (n * 2))) by (unfold IGRAPH_INTEGER_MIN; lia).
    simpl.
    rewrite (proj2 (in_range_true P (m * 2 + n))) by (unfold IGRAPH_INTEGER_MIN; lia).
    simpl.
    destruct (Z.gtb_spec (m * 2 + n) (IGRAPH_ECOUNT_MAX P)) as [? | _]; [lia |].
    rewrite (wrap_id P ((m * 2 + n) * 2)) by (unfold IGRAPH_INTEGER_MIN; lia).
    subst n m. rewrite loops_spec. set (n := igraph_vcount graph) in *.
    set (m := igraph_ecount graph) in *.
    assert (Hlen : length (inner_flat n ++ outer_flat graph n) = Z.to_nat ((m * 2 + n) * 2)).
    { rewrite length_app, inner_flat_length, outer_flat_length.
      subst m. unfold igraph_ecount, Vec.size. lia. }
    assert (Hedges : forall cap,
      put_edges (mk_fill (Vec.init 0 ((m * 2 + n) * 2)) 0 cap 0)
                (inner_flat n ++ outer_flat graph n) =
      mk_fill (inner_flat n ++ outer_flat graph n)
              (Vec.size (inner_flat n ++ outer_flat graph n)) cap 0).
    { intros cap.
      change (Vec.init 0 ((m * 2 + n) * 2)) with ([] ++ Vec.init 0 ((m * 2 + n) * 2)).
      change 0 with (Vec.size (@nil Z)) at 1.
      rewrite put_edges_spec by (rewrite vinit_length; lia).
      rewrite drop_ge by (rewrite vinit_length; lia).
      by rewrite app_nil_r. }
    rewrite Hedges.
    assert (Hcaps :
      put_caps
        (mk_fill (inner_flat n ++ outer_flat graph n)
                 (Vec.size (inner_flat n ++ outer_flat graph n))
                 (option_map (fun c => Vec.resize 0%Q c (m * 2 + n)) capacity) 0)
        (flat_map (fun _ => [1%Q]) (Vec.range n) ++
         flat_map (fun _ => [inject_Z n; inject_Z n]) (igraph_edges graph)) =
      mk_fill (inner_flat n ++ outer_flat graph n)
              (Vec.size (inner_flat n ++ outer_flat graph n))
              (option_map (fun _ => replicate (Z.to_nat n) 1%Q ++
                                    replicate (Z.to_nat (2 * m)) (inject_Z n)) capacity)
              (match capacity with Some _ => m * 2 + n | None => 0 end)).
    { rewrite flat_map_const_replicate, flat_map_const2_replicate, range_length.
      replace (2 * length (igraph_edges graph))%nat with (Z.to_nat (2 * m))
        by (subst m; unfold igraph_ecount, Vec.size; lia).
      destruct capacity as [c |]; simpl; [| apply put_caps_none].
      change (Vec.resize 0%Q c (m * 2 + n)) with ([] ++ Vec.resize 0%Q c (m * 2 + n)).
      change 0 with (Vec.size (@nil Q)) at 1.
      rewrite put_caps_spec
        by (rewrite vresize_length, length_app, !length_replicate; lia).
      rewrite drop_ge
        by (rewrite vresize_length, length_app, !length_replicate; lia).
      rewrite app_nil_r. simpl. f_equal.
      unfold Vec.size. rewrite length_app, !length_replicate. lia. }
    rewrite Hcaps. simpl.
    rewrite create_flat; simpl.
    - rewrite edge_pairs_inner, edge_pairs_outer.
      by replace (n * 2) with (2 * n) by lia.
    - rewrite Hlen. replace (Z.to_nat ((m * 2 + n) * 2)) with (2 * Z.to_nat (m * 2 + n))%nat by lia.
      rewrite Nat.even_mul. done.
    - lia.
    - apply Forall_app. split.
      + eapply Forall_impl; [apply inner_flat_bounds |]. simpl. lia.
      + eapply Forall_impl; [apply (outer_flat_bounds graph Hwf) |]. simpl. fold n. lia.
  Qed.

Lemma inner_edges_length n : length (inner_edges n) = Z.to_nat n.
  Proof. unfold inner_edges. by rewrite length_map, range_length. Qed.

Lemma outer_edges_length g : length (outer_edges g) = (2 * length (igraph_edges g))%nat.
  Proof. unfold outer_edges. by rewrite (length_flat_map_const _ 2%nat). Qed.

End EvenTarjanProof.



Lemma cycle3_wf : graph_wf Examples.cycle3.
Proof. split; [simpl; lia |]. repeat constructor; simpl; lia. Defined.

(** C7.  When [2 m + n] fits the edge-count limit, the Even-Tarjan
    reduction of a graph with [n] vertices and [m] edges succeeds with a
    directed graph of [2 n] vertices and [2 m + n] edges: first the inner edge
    [(v, v + n)] of every vertex, then for every edge [(u, v)] the two edges
    [(u + n, v)] and [(v + n, u)].  A requested capacity vector has length
    [2 m + n]: [n] ones followed by [2 m] entries equal to [n]. *)
Theorem even_tarjan_reduction_shape (P : platform) (graph : igraph_t)
    (capacity : option (list Q)) :
  let n := igraph_vcount graph in
  let m := igraph_ecount graph in
  graph_wf graph ->
  2 * IGRAPH_ECOUNT_MAX P <= IGRAPH_INTEGER_MAX P ->
  2 * m + n <= IGRAPH_ECOUNT_MAX P ->
  exists graphbar cap,
    EvenTarjan.igraph_even_tarjan_reduction P graph capacity = Ok (graphbar, cap) /\
    igraph_is_directed graphbar = true /\
    igraph_vcount graphbar = 2 * n /\
    igraph_ecount graphbar = 2 * m + n /\
    igraph_edges graphbar =
      EvenTarjanSpec.inner_edges n ++ EvenTarjanSpec.outer_edges graph /\
    cap = option_map (fun _ => replicate (Z.to_nat n) 1%Q ++
                               replicate (Z.to_nat (2 * m)) (inject_Z n)) capacity /\
    forall c, cap = Some c -> Vec.size c = 2 * m + n.
Proof.
  intros n m Hwf HP Hfit.
  assert (Hn : 0 <= n) by apply Hwf.
  eexists _, _. split; [by apply even_tarjan_run |].
  repeat split.
  - simpl. unfold igraph_ecount, Vec.size. simpl.
    rewrite length_app, inner_edges_length, outer_edges_length.
    subst m. unfold igraph_ecount, Vec.size. lia.
  - intros c Hc. destruct capacity; [| done]. simpl in Hc.
    injection Hc as <-. unfold Vec.size.
    rewrite length_app, !length_replicate.
    assert (0 <= m) by apply vsize_nonneg. lia.
Qed.

Lemma even_tarjan_reduction_shape_witness :
  exists graphbar cap,
    EvenTarjan.igraph_even_tarjan_reduction platform64 Examples.cycle3 (Some ([] : list Q)) = Ok (graphbar, cap) /\
    igraph_is_directed graphbar = true /\
    igraph_vcount graphbar = 2 * 3 /\
    igraph_ecount graphbar = 2 * 3 + 3 /\
    igraph_edges graphbar =
      EvenTarjanSpec.inner_edges 3 ++ EvenTarjanSpec.outer_edges Examples.cycle3 /\
    cap = option_map (fun _ => replicate (Z.to_nat 3) 1%Q ++
                               replicate (Z.to_nat (2 * 3)) (inject_Z 3)) (Some ([] : list Q)) /\
    forall c, cap = Some c -> Vec.size c = 2 * 3 + 3.
Proof.
  apply (even_tarjan_reduction_shape platform64 Examples.cycle3 (Some ([] : list Q))).
  - exact cycle3_wf.
  - vm_compute. discriminate.
  - vm_compute. discriminate.
Defined.



(** ** Reverse residual graph *)

Section ResidualFacts.
Import Residual ResidualSpec.
Variables (graph : igraph_t) (capacity : option (list Q)) (flow : list Q).

Definition flat_contribution (e : Z) : list Z :=
    flat_map (fun p => [fst p; snd p]) (contribution graph capacity flow e).

Lemma count_step_spec k e :
    count_step capacity flow k e =
    k + Z.of_nat (length (contribution graph capacity flow e)).
  Proof.
    unfold count_step, contribution.
    destruct (Qltb 0 _), (Qltb _ (cap_at capacity e)); simpl; lia.
  Qed.

Lemma count_loop_spec is_ : forall k,
    fold_left (count_step capacity flow) is_ k =
    k + Z.of_nat (length (flat_map (contribution graph capacity flow) is_)).
  Proof.
    induction is_ as [| e is_ IH]; intros k; simpl; [lia |].
    rewrite IH, count_step_spec, length_app. lia.
  Qed.

Lemma write_step_spec l rest e :
    (length (flat_contribution e) <= length rest)%nat ->
    write_step graph capacity flow (l ++ rest, Vec.size l) e =
    ((l ++ flat_contribution e) ++ drop (length (flat_contribution e)) rest,
     Vec.size (l ++ flat_contribution e)).
  Proof.
    unfold write_step, flat_contribution, contribution.
    assert (Hsz : forall (a : list Z) x, Vec.size a + 1 = Vec.size (a ++ [x])).
    { intros. unfold Vec.size. rewrite length_app. simpl. lia. }
    assert (Hsz2 : forall (a : list Z) x y, Vec.size a + 2 = Vec.size (a ++ [x; y])).
    { intros. unfold Vec.size. rewrite length_app. simpl. lia. }
    destruct (Qltb 0 _), (Qltb _ (cap_at capacity e)); simpl; intros Hlen.
    - destruct rest as [| y1 [| y2 [| y3 [| y4 rest]]]]; simpl in Hlen; try lia.
      rewrite vset_next_cell, (Hsz l (IGRAPH_FROM graph e)), vset_next_cell.
      rewrite <- (app_assoc l [_] [_]). simpl.
      rewrite (Hsz2 l (IGRAPH_FROM graph e) (IGRAPH_TO graph e)).
      rewrite vset_next_cell.
      rewrite (Hsz (l ++ [IGRAPH_FROM graph e; IGRAPH_TO graph e]) (IGRAPH_TO graph e)).
      rewrite vset_next_cell.
      rewrite <- !app_assoc. simpl.
      f_equal. unfold Vec.size. rewrite !length_app. simpl. lia.
    - destruct rest as [| y1 [| y2 rest]]; simpl in Hlen; try lia.
      rewrite vset_next_cell, (Hsz l (IGRAPH_FROM graph e)), vset_next_cell.
      rewrite <- !app_assoc. simpl.
      f_equal. unfold Vec.size. rewrite !length_app. simpl. lia.
    - destruct rest as [| y1 [| y2 rest]]; simpl in Hlen; try lia.
      rewrite vset_next_cell, (Hsz l (IGRAPH_TO graph e)), vset_next_cell.
      rewrite <- !app_assoc. simpl.
      f_equal. unfold Vec.size. rewrite !length_app. simpl. lia.
    - by rewrite drop_0, app_nil_r.
  Qed.

Lemma write_loop_spec is_ : forall l rest,
    (length (flat_map flat_contribution is_) <= length rest)%nat ->
    fold_left (write_step graph capacity flow) is_ (l ++ rest, Vec.size l) =
    ((l ++ flat_map flat_contribution is_) ++
       drop (length (flat_map flat_contribution is_)) rest,
     Vec.size (l ++ flat_map flat_contribution is_)).
  Proof.
    induction is_ as [| e is_ IH]; intros l rest Hlen; cbn [fold_left flat_map].
    - by rewrite drop_0, !app_nil_r.
    - cbn [flat_map] in Hlen. rewrite length_app in Hlen.
      rewrite write_step_spec by lia.
      rewrite IH by (rewrite length_drop; lia).
      rewrite drop_drop, length_app, <- !app_assoc. done.
  Qed.

Lemma flat_contribution_length e :
    length (flat_contribution e) = (2 * length (contribution graph capacity flow e))%nat.
  Proof. unfold flat_contribution. by rewrite (length_flat_map_const _ 2%nat). Qed.

Lemma flat_contributions_length is_ :
    length (flat_map flat_contribution is_) =
    (2 * length (flat_map (contribution graph capacity flow) is_))%nat.
  Proof.
    induction is_ as [| e is_ IH]; simpl; [done |].
    rewrite !length_app, IH, flat_contribution_length. lia.
  Qed.

Lemma edge_pairs_flat (ps : list (Z * Z)) :
    edge_pairs (flat_map (fun p => [fst p; snd p]) ps) = ps.
  Proof. induction ps as [| [a b] ps IH]; [done |]. simpl. by rewrite IH. Qed.

Lemma flat_contributions_pairs is_ :
    flat_map flat_contribution is_ =
    flat_map (fun p => [fst p; snd p]) (flat_map (contribution graph capacity flow) is_).
  Proof.
    induction is_ as [| e is_ IH]; simpl; [done |].
    rewrite IH. unfold flat_contribution. by rewrite flat_map_app.
  Qed.

Lemma contribution_bounds e :
    graph_wf graph -> 0 <= e < igraph_ecount graph ->
    Forall (fun p => 0 <= fst p < igraph_vcount graph /\ 0 <= snd p < igraph_vcount graph)
           (contribution graph capacity flow e).
  Proof.
    intros [Hn Hwf] He. rewrite Forall_forall in Hwf.
    assert (Hin : 0 <= IGRAPH_FROM graph e < igraph_vcount graph /\
                  0 <= IGRAPH_TO graph e < igraph_vcount graph).
    { apply Hwf, list_elem_of_In, vget_In. exact He. }
    unfold contribution.
    destruct (Qltb 0 _), (Qltb _ (cap_at capacity e)); simpl;
      repeat constructor; simpl; lia.
  Qed.

Lemma reverse_residual_run :
    graph_wf graph ->
    match capacity with Some c => Vec.size c = igraph_ecount graph | None => True end ->
    Vec.size flow = igraph_ecount graph ->
    igraph_reverse_residual_graph graph capacity flow =
    Ok (mk_graph (igraph_vcount graph) true
          (flat_map (contribution graph capacity flow) (Vec.range (igraph_ecount graph)))).
  Proof.
    intros Hwf Hcap Hflow. unfold igraph_reverse_residual_graph.
    replace (match capacity with
             | Some c => negb (Vec.size c =? igraph_ecount graph)
             | None => false
             end) with false
      by (destruct capacity; [by rewrite Hcap, Z.eqb_refl | done]).
    rewrite Hflow, Z.eqb_refl. simpl.
    unfold igraph_i_reverse_residual_graph.
    rewrite count_loop_spec. simpl.
    set (is_ := Vec.range (igraph_ecount graph)).
    set (k := length (flat_map (contribution graph capacity flow) is_)).
    assert (Hres : Vec.resize 0 [] ((0 + Z.of_nat k) * 2) = [] ++ replicate (2 * k) 0).
    { unfold Vec.resize. rewrite take_nil. simpl. f_equal. lia. }
    rewrite Hres. change 0 with (Vec.size (@nil Z)) at 2.
    rewrite write_loop_spec
      by (rewrite flat_contributions_length, length_replicate; fold k; lia).
    rewrite drop_ge by (rewrite flat_contributions_length, length_replicate; fold k; lia).
    rewrite app_nil_r. simpl.
    rewrite create_flat.
    - by rewrite flat_contributions_pairs, edge_pairs_flat.
    - rewrite flat_contributions_length. by rewrite Nat.even_mul.
    - apply Hwf.
    - rewrite flat_contributions_pairs. apply Forall_forall.
      intros x Hx%list_elem_of_In%in_flat_map.
      destruct Hx as (p & Hp%in_flat_map & Hx).
      destruct Hp as (e & He%range_In & Hp).
      pose proof (contribution_bounds e Hwf He) as Hb.
      rewrite Forall_forall in Hb. specialize (Hb p (proj2 (list_elem_of_In _ _) Hp)).
      simpl in Hx. intuition lia.
  Qed.
End ResidualFacts.

Lemma one_edge_wf : graph_wf Examples.one_edge.
Proof. split; [simpl; lia |]. repeat constructor; simpl; lia. Defined.

(** C5, as stated, fails: a saturated edge 0 -> 1 (capacity 2, flow 2)
    contributes the forward edge (0, 1) although its flow is not below its
    capacity. *)
Lemma reverse_residual_counterexample :
  exists residual,
    Residual.igraph_reverse_residual_graph Examples.one_edge (Some [2%Q]) [2%Q] = Ok residual /\
    ~ ResidualSpec.forward_iff_unsaturated Examples.one_edge (Some [2%Q]) [2%Q] residual.
Proof.
  exists (mk_graph 2 true [(0, 1)]). split; [vm_compute; reflexivity |].
  intros Hclaim.
  destruct (Hclaim 0) as [[Hfwd _] _]; [vm_compute; split; [discriminate | reflexivity] |].
  assert (Hlt : (2 < 2)%Q) by (apply Hfwd; left; reflexivity).
  revert Hlt. apply Qlt_irrefl.
Qed.

(** C5, amended.  For capacity and flow vectors of length [|E|], the reverse
    residual graph has the vertices of the input and, edge by edge in the
    order of the input, the edge [(from e, to e)] iff [f e > 0] followed by
    the reversed edge [(to e, from e)] iff [f e < c e]; a missing capacity
    vector counts as all ones. *)
Theorem reverse_residual_edges (graph : igraph_t) (capacity : option (list Q))
    (flow : list Q) :
  graph_wf graph ->
  match capacity with Some c => Vec.size c = igraph_ecount graph | None => True end ->
  Vec.size flow = igraph_ecount graph ->
  exists residual,
    Residual.igraph_reverse_residual_graph graph capacity flow = Ok residual /\
    igraph_vcount residual = igraph_vcount graph /\
    igraph_is_directed residual = true /\
    igraph_edges residual =
      flat_map (ResidualSpec.contribution graph capacity flow)
               (Vec.range (igraph_ecount graph)) /\
    forall u v,
      In (u, v) (igraph_edges residual) <->
      exists e, 0 <= e < igraph_ecount graph /\
        ((u = IGRAPH_FROM graph e /\ v = IGRAPH_TO graph e /\
          (0 < Vec.get 0%Q flow e)%Q) \/
         (u = IGRAPH_TO graph e /\ v = IGRAPH_FROM graph e /\
          (Vec.get 0%Q flow e < Residual.cap_at capacity e)%Q)).
Proof.
  intros Hwf Hcap Hflow.
  eexists. split; [by apply reverse_residual_run |].
  repeat split; simpl.
  - intros (e & He%range_In & Hin)%in_flat_map. exists e. split; [done |].
    unfold ResidualSpec.contribution in Hin.
    apply in_app_or in Hin as [Hin | Hin].
    + destruct (Qltb 0 _) eqn:Hq; [| done]. apply Qltb_lt in Hq.
      destruct Hin as [[= -> ->] | []]. by left.
    + destruct (Qltb _ (Residual.cap_at capacity e)) eqn:Hq; [| done]. apply Qltb_lt in Hq.
      destruct Hin as [[= -> ->] | []]. by right.
  - intros (e & He & Hcase). apply in_flat_map. exists e.
    split; [by apply range_In |].
    unfold ResidualSpec.contribution. apply in_or_app.
    destruct Hcase as [(-> & -> & Hq) | (-> & -> & Hq)]; apply Qltb_lt in Hq;
      rewrite Hq; [left | right]; by left.
Qed.

Lemma reverse_residual_edges_witness :
  exists residual,
    Residual.igraph_reverse_residual_graph Examples.one_edge (Some [2%Q]) [1%Q] = Ok residual /\
    igraph_vcount residual = igraph_vcount Examples.one_edge /\
    igraph_is_directed residual = true /\
    igraph_edges residual =
      flat_map (ResidualSpec.contribution Examples.one_edge (Some [2%Q]) [1%Q])
               (Vec.range (igraph_ecount Examples.one_edge)) /\
    forall u v,
      In (u, v) (igraph_edges residual) <->
      exists e, 0 <= e < igraph_ecount Examples.one_edge /\
        ((u = IGRAPH_FROM Examples.one_edge e /\ v = IGRAPH_TO Examples.one_edge e /\
          (0 < Vec.get 0%Q [1%Q] e)%Q) \/
         (u = IGRAPH_TO Examples.one_edge e /\ v = IGRAPH_FROM Examples.one_edge e /\
          (Vec.get 0%Q [1%Q] e < Residual.cap_at (Some [2%Q]) e)%Q)).
Proof.
  apply (reverse_residual_edges Examples.one_edge (Some [2%Q]) [1%Q]).
  - exact one_edge_wf.
  - reflexivity.
  - reflexivity.
Defined.

(** ** Dominator tree: argument checks *)

Lemma igraph_dfs_valid_root {X} (g : igraph_t) mode (incb outcb : Z -> X -> X) root extra :
  0 <= root < igraph_vcount g ->
  exists r, Visitor.igraph_dfs g mode incb outcb root extra = Ok r.
Proof.
  intros Hr. unfold Visitor.igraph_dfs.
  destruct (Z.ltb_spec root 0); [lia |].
  destruct (Z.geb_spec root (igraph_vcount g)); [lia |].
  simpl. eauto.
Qed.

Lemma igraph_create_not_einval edges n directed :
  0 <= n -> igraph_create edges n directed <> IGRAPH_ERROR IGRAPH_EINVAL.
Proof.
  intros Hn. unfold igraph_create.
  destruct (Nat.odd _); [discriminate |].
  destruct (negb _); [discriminate |].
  destruct (Z.ltb_spec n 0); [lia | discriminate].
Qed.

Definition dominator_bad_arguments (graph : igraph_t) (root : Z) (mode : igraph_neimode_t)
    : Prop :=
  igraph_is_directed graph = false \/
  root < 0 \/ root >= igraph_vcount graph \/
  mode = IGRAPH_ALL.

(** C9.  [igraph_dominator_tree] fails with the invalid-argument error
    exactly when the graph is undirected, the root is outside [0, n) or the
    mode is ALL; in that case none of the outputs is touched. *)
Theorem dominator_tree_invalid_argument (graph : igraph_t) (root : Z)
    (out : Dominator.outputs) (mode : igraph_neimode_t) :
  (fst (Dominator.igraph_dominator_tree graph root out mode) = IGRAPH_EINVAL <->
   dominator_bad_arguments graph root mode) /\
  (dominator_bad_arguments graph root mode ->
   snd (Dominator.igraph_dominator_tree graph root out mode) = out).
Proof.
  unfold dominator_bad_arguments, Dominator.igraph_dominator_tree.
  destruct (Z.ltb_spec root 0) as [Hneg | Hnonneg]; simpl.
  { split; [split; [intros _ | done] | done]. lia. }
  destruct (Z.geb_spec root (igraph_vcount graph)) as [Hbig | Hsmall]; simpl.
  { split; [split; [intros _ | done] | done]. lia. }
  destruct (igraph_is_directed graph) eqn:Hdir; simpl.
  2:{ split; [split; [intros _ | done] | done]. by left. }
  destruct mode; simpl.
  3:{ split; [split; [intros _ | done] | done]. by repeat right. }
  all: match goal with |- context [Visitor.igraph_dfs ?g ?m ?i ?o ?r ?e] =>
         destruct (igraph_dfs_valid_root g m i o r e (conj Hnonneg Hsmall))
           as [[[vertex parent] u] ->]
       end.
  all: destruct (fold_left Dominator.number_step _ _) as [[semi vertex'] component_size].
  all: simpl; destruct (Dominator.domtree out) as [dt |]; simpl.
  all: try (destruct (fold_left (Dominator.domtree_step _ _ _) _ _) as [edges ptr];
            pose proof (igraph_create_not_einval edges (igraph_vcount graph) true
                          ltac:(lia)) as Hcreate;
            destruct (igraph_create edges (igraph_vcount graph) true) as [g | e]; simpl).
  all: split; [split; [intros Heq | intros [? | [? | [? | ?]]]] |
               intros [? | [? | [? | ?]]]]; try congruence; try lia.
Qed.

(** ** Bitmaps *)

Lemma vec_ext {A} (d : A) (l1 l2 : list A) :
  length l1 = length l2 ->
  (forall i, 0 <= i < Vec.size l1 -> Vec.get d l1 i = Vec.get d l2 i) ->
  l1 = l2.
Proof.
  intros Hlen Hget. apply (nth_ext _ _ d d Hlen). intros k Hk.
  specialize (Hget (Z.of_nat k)). rewrite !vget_of_nat in Hget.
  apply Hget. unfold Vec.size. lia.
Qed.

Lemma vget_vset {A} (d : A) (v : list A) i j x :
  Vec.get d (vset v i x) j =
  if (i =? j) && (0 <=? j) && (j <? Vec.size v) then x else Vec.get d v j.
Proof.
  destruct (Z.eqb_spec i j) as [-> | Hne]; simpl.
  - destruct (Z.leb_spec 0 j); simpl.
    + destruct (Z.ltb_spec j (Vec.size v)).
      * by apply vget_vset_eq.
      * rewrite !vget_out; [done | done |]. unfold Vec.size. rewrite vset_length. done.
    + by rewrite !vget_neg by lia.
  - by apply vget_vset_ne.
Qed.

Lemma fold_vset_length {A} (b : A) (us : list Z) : forall m,
  length (fold_left (fun m u => vset m u b) us m) = length m.
Proof.
  induction us as [| u us IH]; intros m; [done |]. simpl. by rewrite IH, vset_length.
Qed.

(** Setting a run of bits. *)
Lemma fold_vset_get (b : bool) (us : list Z) : forall m i,
  0 <= i < Vec.size m ->
  VECTORB (fold_left (fun m u => vset m u b) us m) i =
  if existsb (Z.eqb i) us then b else VECTORB m i.
Proof.
  induction us as [| u us IH]; intros m i Hi; [done |].
  simpl. rewrite IH by (unfold Vec.size in *; by rewrite vset_length).
  destruct (existsb (Z.eqb i) us); [by rewrite orb_true_r |].
  rewrite orb_false_r, vget_vset, (Z.eqb_sym i u).
  destruct (Z.eqb_spec u i) as [-> | Hne]; simpl; [| done].
  destruct (Z.leb_spec 0 i); [| lia]. destruct (Z.ltb_spec i (Vec.size m)); [done | lia].
Qed.

Lemma fold_vset_get_out (b : bool) (us : list Z) m i :
  ~ (0 <= i < Vec.size m) ->
  VECTORB (fold_left (fun m u => vset m u b) us m) i = false.
Proof.
  intros Hi. destruct (Z.ltb_spec i 0); [by apply vget_neg |].
  apply vget_out. unfold Vec.size in *. rewrite fold_vset_length. lia.
Qed.

Lemma existsb_eqb_In (i : Z) (us : list Z) : existsb (Z.eqb i) us = true <-> In i us.
Proof.
  rewrite existsb_exists. split.
  - intros (u & Hu & ->%Z.eqb_eq). done.
  - intros Hi. exists i. by rewrite Z.eqb_refl.
Qed.

(** ** The frame of [igraph_provan_shier_list] *)

Section Frame.
Import MarkedQueue EStack ProvanShier.

Lemma estack_push_pop T v T1 :
    igraph_estack_push T v = Ok T1 -> igraph_estack_pop T1 = T.
  Proof.
    unfold igraph_estack_push, igraph_estack_iselement, igraph_estack_pop.
    destruct (VECTORB (isin T) v) eqn:Hv; [discriminate |].
    intros [= <-]. simpl. destruct T as [st m]. simpl in *. f_equal.
    apply (vec_ext false); [by rewrite !vset_length |].
    intros i Hi. rewrite !vget_vset.
    destruct (Z.eqb_spec v i) as [-> | Hne]; simpl; [| done].
    destruct (0 <=? i); simpl; [| done].
    unfold Vec.size. rewrite vset_length.
    by destruct (_ <? _).
  Qed.

  (** [S'] is [S] with one more batch, holding the vertices [added]. *)
Definition batch_over (S S' : igraph_marked_queue_int_t) (added : list Z) : Prop :=
    items S' = items S ++ added /\
    batches S' = igraph_marked_queue_int_size S :: batches S /\
    member S' = fold_left (fun m u => vset m u true) added (member S) /\
    Forall (fun u => VECTORB (member S) u = false) added.

Lemma batch_over_start S : batch_over S (igraph_marked_queue_int_start_batch S) [].
  Proof. split; [| split; [| split]]; simpl; [by rewrite app_nil_r | done | done | constructor]. Qed.

Lemma batch_over_add S S' added u S'' :
    batch_over S S' added -> add_Isv (Ok S') u = Ok S'' ->
    exists added', batch_over S S'' added'.
  Proof.
    intros (Hitems & Hbatches & Hmember & Hfresh). unfold add_Isv. simpl.
    unfold igraph_marked_queue_int_push.
    destruct (igraph_marked_queue_int_iselement S' u) eqn:Hu.
    - intros [= <-]. exists added. done.
    - simpl. intros [= <-]. exists (added ++ [u]).
      split; [| split; [| split]]; simpl.
      + by rewrite Hitems, app_assoc.
      + done.
      + by rewrite Hmember, fold_left_app.
      + apply Forall_app. split; [done |]. constructor; [| constructor].
        unfold igraph_marked_queue_int_iselement in Hu. rewrite Hmember in Hu.
        destruct (decide (0 <= u < Vec.size (member S))) as [Hin | Hout].
        * rewrite fold_vset_get in Hu by done.
          by destruct (existsb _ _).
        * destruct (Z.ltb_spec u 0); [by apply vget_neg |]. apply vget_out. lia.
  Qed.

Lemma add_Isv_error e Isv : fold_left add_Isv Isv (IGRAPH_ERROR e) = IGRAPH_ERROR e.
  Proof. induction Isv as [| u Isv IH]; [done |]. simpl. exact IH. Qed.

Lemma batch_over_fold Isv : forall S S' added S'',
    batch_over S S' added -> fold_left add_Isv Isv (Ok S') = Ok S'' ->
    exists added', batch_over S S'' added'.
  Proof.
    induction Isv as [| u Isv IH]; intros S S' added S'' Hb Hfold.
    - injection Hfold as <-. eauto.
    - cbn [fold_left] in Hfold. destruct (add_Isv (Ok S') u) as [S1 | e] eqn:Hadd.
      + destruct (batch_over_add _ _ _ _ _ Hb Hadd) as [added1 Hb1]. eauto.
      + by rewrite add_Isv_error in Hfold.
  Qed.

Lemma batch_over_pop S S' added :
    batch_over S S' added -> igraph_marked_queue_int_pop_back_batch S' = S.
  Proof.
    intros (Hitems & Hbatches & Hmember & Hfresh).
    unfold igraph_marked_queue_int_pop_back_batch. rewrite Hbatches, Hitems. simpl.
    unfold igraph_marked_queue_int_size, Vec.size. rewrite Nat2Z.id.
    rewrite take_app_length, drop_app_length.
    destruct S as [it m bs]. simpl in *. f_equal.
    rewrite Hmember. apply (vec_ext false); [by rewrite !fold_vset_length |].
    intros i Hi. unfold Vec.size in Hi. rewrite !fold_vset_length in Hi.
    rewrite fold_vset_get by (unfold Vec.size; by rewrite fold_vset_length).
    rewrite fold_vset_get by done.
    destruct (existsb (Z.eqb i) added) eqn:Hex; [| done].
    apply existsb_eqb_In in Hex. rewrite Forall_forall in Hfresh.
    symmetry. apply Hfresh. by apply list_elem_of_In.
  Qed.

Lemma provan_shier_frame (pivot : igraph_provan_shier_pivot_t) (graph : igraph_t)
      (source target : Z) (fuel : nat) :
    forall S T result_ S' T' result',
      igraph_provan_shier_list fuel graph S T source target result_ pivot =
        Some (Ok (S', T', result')) ->
      S' = S /\ T' = T.
  Proof.
    induction fuel as [| fuel IH]; intros S T result_ S' T' result' Hrun; [done |].
    simpl in Hrun.
    destruct (pivot graph S T source target) as [[code v] Isv].
    destruct Isv as [| u Isv].
    { destruct (_ && _); by injection Hrun as <- <- _. }
    destruct (igraph_estack_push T v) as [T1 |] eqn:Hpush; [| done].
    destruct (igraph_provan_shier_list fuel graph S T1 source target result_ pivot)
      as [[[[S1 T2] result1] |] |] eqn:Hleft; [| done | done].
    apply IH in Hleft as [-> ->].
    destruct (fold_left add_Isv (u :: Isv) _) as [S3 |] eqn:Hadd; [| done].
    destruct (igraph_provan_shier_list fuel graph S3 _ source target result1 pivot)
      as [[[[S4 T4] result2] |] |] eqn:Hright; [| done | done].
    apply IH in Hright as [-> ->].
    injection Hrun as <- <- _.
    destruct (batch_over_fold _ _ _ _ _ (batch_over_start S) Hadd) as [added Hb].
    split; [by eapply batch_over_pop | by eapply estack_push_pop].
  Qed.
End Frame.

(** ** Neighbours *)

Lemma insert_sorted_In x y l : In y (Visitor.insert_sorted x l) <-> y = x \/ In y l.
Proof.
  induction l as [| z l IH]; simpl; [intuition |].
  destruct (x <=? z); simpl; [intuition |]. rewrite IH. intuition.
Qed.

Lemma sort_In y l : In y (Visitor.sort l) <-> In y l.
Proof.
  induction l as [| x l IH]; simpl; [done |].
  rewrite insert_sorted_In, IH. intuition.
Qed.

Lemma out_list_In g v w : In w (Visitor.out_list g v) <-> In (v, w) (igraph_edges g).
Proof.
  unfold Visitor.out_list. rewrite in_map_iff. split.
  - intros ([a b] & <- & [Hin Heq%Z.eqb_eq]%filter_In). simpl in *. by subst.
  - intros Hin. exists (v, w). split; [done |]. apply filter_In. split; [done |].
    simpl. apply Z.eqb_refl.
Qed.

Lemma in_list_In g v w : In w (Visitor.in_list g v) <-> In (w, v) (igraph_edges g).
Proof.
  unfold Visitor.in_list. rewrite in_map_iff. split.
  - intros ([a b] & <- & [Hin Heq%Z.eqb_eq]%filter_In). simpl in *. by subst.
  - intros Hin. exists (w, v). split; [done |]. apply filter_In. split; [done |].
    simpl. apply Z.eqb_refl.
Qed.

Lemma neighbors_In g v mode w :
  In w (Visitor.igraph_neighbors g v mode) ->
  In (v, w) (igraph_edges g) \/ In (w, v) (igraph_edges g).
Proof.
  unfold Visitor.igraph_neighbors.
  destruct (if igraph_is_directed g then mode else IGRAPH_ALL);
    rewrite sort_In, ?in_app_iff, ?out_list_In, ?in_list_In; intuition.
Qed.

Lemma neighbors_range g v mode w :
  graph_wf g -> In w (Visitor.igraph_neighbors g v mode) -> 0 <= w < igraph_vcount g.
Proof.
  intros [_ Hwf] Hin. rewrite Forall_forall in Hwf.
  destruct (neighbors_In _ _ _ _ Hin) as [He | He];
    apply list_elem_of_In, Hwf in He; simpl in He; lia.
Qed.

Lemma neighbors_directed_out g v w :
  igraph_is_directed g = true ->
  (In w (Visitor.igraph_neighbors g v IGRAPH_OUT) <-> In (v, w) (igraph_edges g)).
Proof.
  intros Hd. unfold Visitor.igraph_neighbors. rewrite Hd, sort_In. apply out_list_In.
Qed.

Lemma neighbors_directed_in g v w :
  igraph_is_directed g = true ->
  (In w (Visitor.igraph_neighbors g v IGRAPH_IN) <-> In (w, v) (igraph_edges g)).
Proof.
  intros Hd. unfold Visitor.igraph_neighbors. rewrite Hd, sort_In. apply in_list_In.
Qed.

(** ** Counting the cells of a bitmap that are still clear *)

Lemma filter_length_le {A} (p q : A -> bool) (l : list A) :
  (forall x, In x l -> q x = true -> p x = true) ->
  (length (List.filter q l) <= length (List.filter p l))%nat.
Proof.
  induction l as [| a l IH]; intros Hpq; simpl; [lia |].
  assert (IH' : (length (List.filter q l) <= length (List.filter p l))%nat).
  { apply IH. intros x Hx. apply Hpq. by right. }
  destruct (q a) eqn:Hq; simpl.
  - rewrite (Hpq a) by (by left || done). simpl. lia.
  - destruct (p a); simpl; lia.
Qed.

Lemma filter_length_lt {A} (p q : A -> bool) (l : list A) (x : A) :
  (forall y, In y l -> q y = true -> p y = true) ->
  In x l -> p x = true -> q x = false ->
  (length (List.filter q l) < length (List.filter p l))%nat.
Proof.
  induction l as [| a l IH]; intros Hpq Hin Hp Hq; [done |].
  simpl. destruct Hin as [-> | Hin].
  - rewrite Hp, Hq. simpl.
    assert ((length (List.filter q l) <= length (List.filter p l))%nat); [| lia].
    apply filter_length_le. intros y Hy. apply Hpq. by right.
  - assert (IH' : (length (List.filter q l) < length (List.filter p l))%nat).
    { apply IH; [| done..]. intros y Hy. apply Hpq. by right. }
    destruct (q a) eqn:Hqa; simpl.
    + rewrite (Hpq a) by (by left || done). simpl. lia.
    + destruct (p a); simpl; lia.
Qed.

Lemma filter_length_split {A} (p : A -> bool) (l : list A) :
  (length (List.filter p l) + length (List.filter (fun x => negb (p x)) l) = length l)%nat.
Proof.
  induction l as [| a l IH]; [done |]. simpl.
  destruct (p a); simpl; lia.
Qed.

(** ** Breadth-first search *)

Section BFSFacts.
Import Visitor.
Variables (graph : igraph_t) (mode : igraph_neimode_t).
Hypothesis Hwf : graph_wf graph.
Let n := igraph_vcount graph.

Definition unmarked (added : list bool) : nat :=
    length (List.filter (fun i => negb (VECTORB added i)) (Vec.range n)).

Lemma unmarked_vset added x :
    length added = Z.to_nat n -> 0 <= x < n -> VECTORB added x = false ->
    (unmarked (vset added x true) < unmarked added)%nat.
  Proof.
    intros Hlen Hx Hfalse. unfold unmarked.
    apply (filter_length_lt _ _ _ x).
    - intros y Hy. rewrite vget_vset.
      destruct (_ && _); [done |]. done.
    - by apply range_In.
    - by rewrite Hfalse.
    - rewrite vget_vset_eq; [done |]. unfold Vec.size. lia.
  Qed.

  (** Invariant of the search: [added0] is the bitmap at the start. *)
Record bfs_inv (added0 : list bool) (Q : list Z) (added : list bool) (order : list Z)
      : Prop := mk_bfs_inv {
    inv_len : length added = Z.to_nat n;
    inv_range : forall x, In x (Q ++ order) -> 0 <= x < n;
    inv_nodup : NoDup (Q ++ order);
    inv_marked : forall x, In x (Q ++ order) -> VECTORB added x = true;
    inv_found : forall x, 0 <= x < n -> VECTORB added0 x = false ->
                  VECTORB added x = true -> In x (Q ++ order);
    inv_mono : forall x, VECTORB added0 x = true -> VECTORB added x = true;
    inv_fresh : forall x, In x (Q ++ order) -> VECTORB added0 x = false
  }.

Lemma bfs_enqueue_inv added0 Q added order nei :
    bfs_inv added0 Q added order -> 0 <= nei < n ->
    bfs_inv added0 (fst (bfs_enqueue (Q, added) nei)) (snd (bfs_enqueue (Q, added) nei)) order /\
    (length (fst (bfs_enqueue (Q, added) nei)) + unmarked (snd (bfs_enqueue (Q, added) nei))
     <= length Q + unmarked added)%nat.
  Proof.
    intros [Hlen Hrange Hnodup Hmarked Hfound Hmono Hfresh] Hnei. unfold bfs_enqueue.
    destruct (VECTORB added nei) eqn:Hadded; simpl; [split; [done | lia] |].
    split.
    - constructor.
      + by rewrite vset_length.
      + intros x. rewrite <- app_assoc, !in_app_iff. simpl.
        intros [? | [[<- | []] | ?]]; [| done |]; apply Hrange, in_app_iff; auto.
      + rewrite <- app_assoc. apply NoDup_app. apply NoDup_app in Hnodup as (HQ & Hdisj & Ho).
        split; [done |]. split.
        * intros x Hx [-> | Hxo]%list_elem_of_In.
          -- apply list_elem_of_In in Hx.
             rewrite Hmarked in Hadded by (apply in_app_iff; auto). done.
          -- by apply (Hdisj x), list_elem_of_In.
        * apply NoDup_cons. split; [| done]. intros Hin%list_elem_of_In.
          rewrite Hmarked in Hadded by (apply in_app_iff; auto). done.
      + intros x. rewrite <- app_assoc, !in_app_iff. simpl. rewrite vget_vset.
        intros [? | [[<- | []] | ?]].
        * destruct (_ && _); [done |]. apply Hmarked, in_app_iff. auto.
        * rewrite Z.eqb_refl. destruct (Z.leb_spec 0 nei); [| lia].
          destruct (Z.ltb_spec nei (Vec.size added)); [done |].
          unfold Vec.size in *. lia.
        * destruct (_ && _); [done |]. apply Hmarked, in_app_iff. auto.
      + intros x Hx H0. rewrite vget_vset, <- app_assoc, !in_app_iff. simpl.
        destruct (Z.eqb_spec nei x) as [-> | Hne]; simpl.
        * auto.
        * intros Ha. specialize (Hfound x Hx H0 Ha). apply in_app_iff in Hfound.
          intuition.
      + intros x H0. rewrite vget_vset. destruct (_ && _); [done | by apply Hmono].
      + intros x. rewrite <- app_assoc, !in_app_iff. simpl.
        intros [? | [[<- | []] | ?]]; [apply Hfresh, in_app_iff; auto | |
                                        apply Hfresh, in_app_iff; auto].
        destruct (VECTORB added0 nei) eqn:H0; [| done].
        by rewrite (Hmono _ H0) in Hadded.
    - rewrite length_app. simpl.
      pose proof (unmarked_vset added nei Hlen Hnei Hadded). lia.
  Qed.

Lemma bfs_enqueue_fold_inv added0 order neis : forall Q added,
    bfs_inv added0 Q added order -> (forall x, In x neis -> 0 <= x < n) ->
    bfs_inv added0 (fst (fold_left bfs_enqueue neis (Q, added)))
                   (snd (fold_left bfs_enqueue neis (Q, added))) order /\
    (length (fst (fold_left bfs_enqueue neis (Q, added))) +
       unmarked (snd (fold_left bfs_enqueue neis (Q, added)))
     <= length Q + unmarked added)%nat /\
    exists l, fst (fold_left bfs_enqueue neis (Q, added)) = Q ++ l.
  Proof.
    induction neis as [| nei neis IH]; intros Q added Hinv Hneis.
    - simpl. split; [done |]. split; [lia |]. exists []. by rewrite app_nil_r.
    - cbn [fold_left].
      destruct (bfs_enqueue_inv _ _ _ _ nei Hinv) as [Hinv1 Hmeas1];
        [apply Hneis; by left |].
      assert (Hpre : exists l, fst (bfs_enqueue (Q, added) nei) = Q ++ l).
      { unfold bfs_enqueue. destruct (VECTORB added nei); simpl;
          [exists []; by rewrite app_nil_r | eauto]. }
      destruct (bfs_enqueue (Q, added) nei) as [Q1 added1]. simpl in *.
      destruct (IH Q1 added1 Hinv1) as (Hinv2 & Hmeas2 & l2 & Hl2);
        [intros x Hx; apply Hneis; by right |].
      split; [done |]. split; [lia |].
      destruct Hpre as [l1 ->]. exists (l1 ++ l2). by rewrite Hl2, app_assoc.
  Qed.

Lemma bfs_loop_inv added0 fuel : forall Q added order,
    bfs_inv added0 Q added order ->
    (length Q + unmarked added <= fuel)%nat ->
    bfs_inv added0 [] (fst (bfs_loop graph mode fuel Q added order))
                      (snd (bfs_loop graph mode fuel Q added order)) /\
    exists l, snd (bfs_loop graph mode fuel Q added order) = l ++ rev Q ++ order.
  Proof.
    induction fuel as [| fuel IH]; intros Q added order Hinv Hfuel.
    - destruct Q; [| simpl in Hfuel; lia]. simpl. split; [done |]. by exists [].
    - destruct Q as [| a Q]; [simpl; split; [done | by exists []] |].
      cbn [bfs_loop].
      assert (Hinv' : bfs_inv added0 Q added (a :: order)).
      { destruct Hinv as [Hlen Hrange Hnodup Hmarked Hfound Hmono Hfresh].
        constructor; [done | | | | | done |].
        - intros x Hx. apply Hrange. apply in_app_iff in Hx. simpl in *.
          rewrite in_app_iff. intuition.
        - simpl in Hnodup. apply NoDup_cons in Hnodup as [Hna Hnd].
          apply NoDup_app in Hnd as (HQ & Hdisj & Ho).
          apply NoDup_app. split; [done |]. split.
          + intros x Hx [-> | Hxo]%list_elem_of_In%in_inv.
            * apply Hna, list_elem_of_In, in_app_iff. left. by apply list_elem_of_In.
            * by apply (Hdisj x), list_elem_of_In.
          + apply NoDup_cons. split; [| done].
            intros Hin. apply Hna. apply list_elem_of_In, in_app_iff. right.
            by apply list_elem_of_In.
        - intros x Hx. apply Hmarked. apply in_app_iff in Hx. simpl in *.
          rewrite in_app_iff. intuition.
        - intros x Hx H0 Ha. specialize (Hfound x Hx H0 Ha). simpl in *.
          rewrite in_app_iff in *. simpl. intuition.
        - intros x Hx. apply Hfresh. apply in_app_iff in Hx. simpl in *.
          rewrite in_app_iff. intuition. }
      destruct (bfs_enqueue_fold_inv added0 (a :: order)
                  (igraph_neighbors graph a mode) Q added Hinv')
        as (Hinv2 & Hmeas2 & l2 & Hl2).
      { intros x Hx. by apply (neighbors_range graph a mode). }
      destruct (fold_left bfs_enqueue _ (Q, added)) as [Q2 added2]. simpl in *.
      destruct (IH Q2 added2 (a :: order) Hinv2) as (Hinv3 & l3 & Hl3); [lia |].
      split; [done |]. subst Q2. rewrite Hl3, rev_app_distr.
      exists (l3 ++ rev l2). by rewrite <- !app_assoc.
  Qed.

Lemma bfs_inv_unmarked_bound added0 Q added order :
    bfs_inv added0 Q added order -> (length Q + unmarked added <= Z.to_nat n)%nat.
  Proof.
    intros [Hlen Hrange Hnodup Hmarked Hfound _ _].
    (* the queue and the clear cells are disjoint parts of the vertex range *)
    assert (HQ : NoDup Q) by (apply NoDup_app in Hnodup; tauto).
    assert (Hincl : incl Q (List.filter (fun i => VECTORB added i) (Vec.range n))).
    { intros x Hx. apply filter_In. split.
      - apply range_In, Hrange, in_app_iff. auto.
      - apply Hmarked, in_app_iff. auto. }
    apply NoDup_ListNoDup in HQ.
    pose proof (NoDup_incl_length HQ Hincl) as Hle.
    assert (Hsplit : (length (List.filter (fun i => VECTORB added i) (Vec.range n)) +
                      unmarked added = Z.to_nat n)%nat).
    { unfold unmarked. rewrite <- (range_length n). apply filter_length_split. }
    lia.
  Qed.

Lemma bfs_root_inv added0 added order r :
    bfs_inv added0 [] added order -> 0 <= r < n ->
    bfs_inv added0 [] (fst (bfs_root graph mode (Z.to_nat n) (added, order) r))
                      (snd (bfs_root graph mode (Z.to_nat n) (added, order) r)) /\
    (exists l, snd (bfs_root graph mode (Z.to_nat n) (added, order) r) = l ++ order) /\
    (VECTORB added0 r = false ->
     In r (snd (bfs_root graph mode (Z.to_nat n) (added, order) r))) /\
    (VECTORB added r = false ->
     exists l, snd (bfs_root graph mode (Z.to_nat n) (added, order) r) = l ++ r :: order).
  Proof.
    intros Hinv Hr. unfold bfs_root.
    destruct (VECTORB added r) eqn:Hadded.
    - simpl. split; [done |]. split; [by exists [] |]. split; [| done].
      intros H0. apply (inv_found _ _ _ _ Hinv r Hr H0 Hadded).
    - assert (Hinv1 : bfs_inv added0 [r] (vset added r true) order).
      { apply (bfs_enqueue_inv added0 [] added order r Hinv) in Hr as [Hi _].
        unfold bfs_enqueue in Hi. by rewrite Hadded in Hi. }
      assert (H0 : VECTORB added0 r = false).
      { apply (inv_fresh _ _ _ _ Hinv1). by left. }
      destruct (bfs_loop_inv added0 (Z.to_nat n) [r] (vset added r true) order Hinv1)
        as (Hinv2 & l & Hl).
      { by apply (bfs_inv_unmarked_bound added0 _ _ order). }
      split; [done |]. rewrite Hl. simpl. split; [| split].
      + exists (l ++ [r]). by rewrite <- app_assoc.
      + intros _. apply in_app_iff. right. by left.
      + intros _. by exists l.
  Qed.

Lemma bfs_roots_inv added0 roots : forall added order,
    bfs_inv added0 [] added order -> (forall r, In r roots -> 0 <= r < n) ->
    bfs_inv added0 [] (fst (fold_left (bfs_root graph mode (Z.to_nat n)) roots (added, order)))
                      (snd (fold_left (bfs_root graph mode (Z.to_nat n)) roots (added, order))) /\
    (forall x, In x order ->
       In x (snd (fold_left (bfs_root graph mode (Z.to_nat n)) roots (added, order)))) /\
    (forall r, In r roots -> VECTORB added0 r = false ->
       In r (snd (fold_left (bfs_root graph mode (Z.to_nat n)) roots (added, order)))) /\
    (exists l, snd (fold_left (bfs_root graph mode (Z.to_nat n)) roots (added, order)) =
               l ++ order).
  Proof.
    induction roots as [| r roots IH]; intros added order Hinv Hroots.
    - simpl. split; [done |]. split; [done |]. split; [intros r [] | by exists []].
    - cbn [fold_left].
      destruct (bfs_root_inv added0 added order r Hinv) as (Hinv1 & [l Hl] & Hr & _);
        [apply Hroots; by left |].
      destruct (bfs_root graph mode (Z.to_nat n) (added, order) r) as [added1 order1].
      simpl in *.
      destruct (IH added1 order1 Hinv1) as (Hinv2 & Hkeep & Hfound & [l2 Hl2]);
        [intros; apply Hroots; by right |].
      split; [done |]. split; [| split].
      + intros x Hx. apply Hkeep. rewrite Hl. apply in_app_iff. by right.
      + intros r' [<- | Hr'] H0; [apply Hkeep; by apply Hr | by apply Hfound].
      + exists (l2 ++ l). by rewrite Hl2, Hl, app_assoc.
  Qed.

Lemma nonneg_prefix_padded visited k :
    (forall x, In x visited -> 0 <= x) ->
    AllStCuts.nonneg_prefix (visited ++ replicate k (-1)) = visited.
  Proof.
    intros Hpos. induction visited as [| x visited IH]; simpl.
    - by destruct k.
    - destruct (Z.geb_spec x 0) as [_ | Hneg].
      + f_equal. apply IH. intros y Hy. apply Hpos. by right.
      + specialize (Hpos x (or_introl eq_refl)). lia.
  Qed.

Lemma in_interval_In lo hi v x :
    in_interval lo hi v = true -> In x v -> lo <= x <= hi.
  Proof.
    unfold in_interval. rewrite forallb_forall. intros Hall Hx.
    apply Hall in Hx. lia.
  Qed.

Lemma restricted_bitmap restricted x :
    0 <= x < n ->
    (VECTORB (fold_left (fun added v => vset added v false) restricted (Vec.init true n)) x
       = false <-> In x restricted).
  Proof.
    intros Hx. rewrite fold_vset_get by (unfold Vec.size; rewrite vinit_length; lia).
    destruct (existsb (Z.eqb x) restricted) eqn:Hex.
    - apply existsb_eqb_In in Hex. done.
    - split; [| intros Hin%existsb_eqb_In; congruence].
      unfold Vec.init, Vec.get. destruct (Z.ltb_spec x 0); [lia |].
      rewrite nth_lookup, lookup_replicate_2 by lia. done.
  Qed.

  (** What the callers read off a restricted search: the visited vertices,
      i.e. the [order] vector up to its first negative entry. *)
Lemma igraph_bfs_restricted roots restricted order :
    igraph_bfs graph mode roots (Some restricted) = Ok order ->
    let visited := AllStCuts.nonneg_prefix (take (Z.to_nat n) order) in
    NoDup visited /\
    (forall x, In x visited -> 0 <= x < n /\ In x restricted) /\
    (forall r, In r roots -> In r restricted -> In r visited) /\
    (forall r roots', roots = r :: roots' -> In r restricted ->
       exists rest, visited = r :: rest).
  Proof.
    unfold igraph_bfs. fold n.
    destruct (in_interval 0 (n - 1) roots) eqn:Hroots; [| done].
    destruct (in_interval 0 (n - 1) restricted) eqn:Hrestr; [| done].
    simpl. set (added0 := fold_left _ restricted _).
    assert (Hinv0 : bfs_inv added0 [] added0 []).
    { constructor; try done.
      - subst added0. by rewrite fold_vset_length, vinit_length.
      - simpl. constructor.
      - intros x _ H0 H1. congruence. }
    assert (Hroots' : forall r, In r roots -> 0 <= r < n).
    { intros r Hr. pose proof (in_interval_In _ _ _ _ Hroots Hr). lia. }
    destruct (bfs_roots_inv added0 roots added0 [] Hinv0 Hroots')
      as (Hinv & _ & Hfound & [l Hl]).
    destruct (fold_left (bfs_root graph mode (Z.to_nat n)) roots (added0, []))
      as [added' order'] eqn:Hfold.
    simpl in *. intros [= <-].
    destruct Hinv as [Hlen Hrange Hnodup Hmarked _ _ Hfresh]. simpl in *.
    assert (Hlenv : (length (rev order') <= Z.to_nat n)%nat).
    { rewrite length_rev. rewrite <- (range_length n).
      apply NoDup_incl_length; [by apply NoDup_ListNoDup |].
      intros x Hx. by apply range_In, Hrange. }
    rewrite firstn_all2 by (rewrite length_app, length_replicate; lia).
    rewrite nonneg_prefix_padded
      by (intros x Hx%in_rev; apply Hrange in Hx; lia).
    split; [by apply NoDup_ListNoDup, NoDup_rev, NoDup_ListNoDup |].
    split; [| split].
    - intros x Hx%in_rev. split; [by apply Hrange |].
      apply restricted_bitmap; [by apply Hrange | by apply Hfresh].
    - intros r Hr Hrr. apply -> in_rev. apply Hfound; [done |].
      apply restricted_bitmap; [by apply Hroots' | done].
    - intros r roots' -> Hrr. cbn [fold_left] in Hfold.
      assert (Hr : 0 <= r < n) by (apply Hroots'; by left).
      destruct (bfs_root_inv added0 added0 [] r Hinv0 Hr) as (Hinv1 & _ & _ & Hhead).
      destruct Hhead as [l1 Hl1]; [by apply restricted_bitmap |].
      destruct (bfs_root graph mode (Z.to_nat n) (added0, []) r) as [added1 order1].
      simpl in *.
      destruct (bfs_roots_inv added0 roots' added1 order1 Hinv1) as (_ & _ & _ & [l2 Hl2]).
      { intros r' Hr'. apply Hroots'. by right. }
      rewrite Hfold in Hl2. simpl in Hl2. rewrite Hl2, Hl1.
      rewrite !rev_app_distr. simpl. eauto.
  Qed.
End BFSFacts.

(** ** Depth-first search *)

Section DFSFacts.
Import Visitor.
Context {X : Type}.
Variables (graph : igraph_t) (mode : igraph_neimode_t).
Variables (in_callback out_callback : Z -> X -> X).
Hypothesis Hwf : graph_wf graph.
Let n := igraph_vcount graph.

  (** [P] is a set of vertices closed under taking neighbours, [PX] a
      property of the callbacks' state that they preserve. *)
Variables (P : Z -> Prop) (PX : X -> Prop).
Hypothesis P_closed :
    forall y x, P y -> In x (igraph_neighbors graph y mode) -> P x.
Hypothesis PX_in : forall v x, PX x -> PX (in_callback v x).
Hypothesis PX_out : forall v x, PX x -> PX (out_callback v x).

Variable root : Z.

Record dfs_inv (st : dfs_state) : Prop := mk_dfs_inv {
    d_len_added : length (dfs_added st) = Z.to_nat n;
    d_len_parents : length (dfs_parents st) = Z.to_nat n;
    d_suffix : exists l, dfs_order st = l ++ [root];
    d_range : forall x, In x (dfs_order st) -> 0 <= x < n;
    d_stack : forall x, In x (dfs_stack st) -> In x (dfs_order st);
    d_nodup : NoDup (dfs_order st);
    d_marked : forall x, 0 <= x < n ->
                 (VECTORB (dfs_added st) x = true <-> In x (dfs_order st));
    d_parent_root : VECTOR (dfs_parents st) root = -1;
    d_parent_unvisited : forall j, 0 <= j < n -> ~ In j (dfs_order st) ->
                           VECTOR (dfs_parents st) j = -2;
    d_parent_visited : forall j, In j (dfs_order st) -> -1 <= VECTOR (dfs_parents st) j;
    d_closed : forall x, In x (dfs_order st) -> P x;
    d_extra : PX (dfs_extra st)
  }.

Lemma dfs_scan_some neis added : forall ptr nei ptr',
    dfs_scan neis added ptr = (Some nei, ptr') ->
    In nei neis /\ VECTORB added nei = false.
  Proof.
    induction neis as [| a neis IH]; intros ptr nei ptr' Hscan; [done |].
    simpl in Hscan. destruct (VECTORB added a) eqn:Ha.
    - apply IH in Hscan as [? ?]. split; [by right | done].
    - injection Hscan as <- _. split; [by left | done].
  Qed.

Lemma In_drop {A} (x : A) k l : In x (drop k l) -> In x l.
  Proof. rewrite <- (take_drop k l) at 2. rewrite in_app_iff. auto. Qed.

Lemma dfs_step_inv st st' :
    dfs_inv st -> dfs_step graph mode in_callback out_callback st = Some st' -> dfs_inv st'.
  Proof.
    intros [Hla Hlp [l Hl] Hrange Hstack Hnodup Hmarked Hproot Hpun Hpvis Hclosed Hextra].
    unfold dfs_step. destruct (dfs_stack st) as [| actvect below] eqn:Hst; [done |].
    assert (Hact : In actvect (dfs_order st)) by (apply Hstack; by left).
    destruct (dfs_scan _ _ _) as [[nei |] ptr'] eqn:Hscan; intros [= <-].
    - apply dfs_scan_some in Hscan as [Hnei%In_drop Hfresh].
      assert (Hneir : 0 <= nei < n) by (by apply (neighbors_range graph actvect mode)).
      assert (Hnotin : ~ In nei (dfs_order st)).
      { intros Hin%Hmarked; [congruence | done]. }
      constructor; simpl.
      + by rewrite vset_length.
      + by rewrite vset_length.
      + exists (nei :: l). by rewrite Hl.
      + intros x [<- | Hx]; [done | by apply Hrange].
      + intros x [<- | Hx]; [by left | right; by apply Hstack].
      + apply NoDup_cons. split; [by rewrite list_elem_of_In | done].
      + intros x Hx. rewrite vget_vset.
        destruct (Z.eqb_spec nei x) as [-> | Hne]; simpl.
        * destruct (Z.leb_spec 0 x); [| lia].
          destruct (Z.ltb_spec x (Vec.size (dfs_added st))); [| unfold Vec.size in *; lia].
          simpl. intuition.
        * rewrite Hmarked by done. intuition.
      + rewrite vget_vset_ne; [done |]. intros ->. apply Hnotin.
        rewrite Hl. apply in_app_iff. right. by left.
      + intros j Hjr Hj. rewrite vget_vset_ne; [by apply Hpun; intuition | ]; intuition.
      + intros j [<- | Hj].
        * rewrite vget_vset_eq by (unfold Vec.size; lia).
          apply Hrange in Hact. lia.
        * rewrite vget_vset_ne by (intros ->; done). by apply Hpvis.
      + intros x [<- | Hx]; [| by apply Hclosed].
        apply (P_closed actvect); [by apply Hclosed | done].
      + by apply PX_in.
    - constructor; simpl; try done.
      + by exists l.
      + intros x Hx. apply Hstack. by right.
      + by apply PX_out.
  Qed.

Lemma dfs_loop_inv fuel : forall st,
    dfs_inv st -> dfs_inv (dfs_loop graph mode in_callback out_callback fuel st).
  Proof.
    induction fuel as [| fuel IH]; intros st Hinv; [done |].
    simpl. destruct (dfs_step _ _ _ _ st) as [st' |] eqn:Hstep; [| done].
    apply IH. by eapply dfs_step_inv.
  Qed.

  (** The state the search starts from. *)
Lemma dfs_inv_init extra :
    0 <= root < n -> P root -> PX extra ->
    dfs_inv (mk_dfs [root] (vset (Vec.init false n) root true) (Vec.init 0 n) [root]
                    (vset (Vec.init (-2) n) root (-1)) (in_callback root extra)).
  Proof.
    intros Hr HP HPX.
    constructor; simpl.
    - by rewrite vset_length, vinit_length.
    - by rewrite vset_length, vinit_length.
    - by exists [].
    - intros x [<- | []]. lia.
    - done.
    - apply NoDup_singleton.
    - intros x Hx. rewrite vget_vset.
      destruct (Z.eqb_spec root x) as [-> | Hne]; simpl.
      + destruct (Z.leb_spec 0 x); [| lia].
        destruct (Z.ltb_spec x (Vec.size (Vec.init false n)));
          [| unfold Vec.size in *; rewrite vinit_length in *; lia].
        simpl. intuition.
      + unfold Vec.init, Vec.get. destruct (Z.ltb_spec x 0); [lia |].
        rewrite nth_lookup, lookup_replicate_2 by lia. simpl.
        split; [done | intros [? | []]; done].
    - apply vget_vset_eq. unfold Vec.size. rewrite vinit_length. lia.
    - intros j Hjr Hj. rewrite vget_vset_ne by (intros Heq; apply Hj; left; exact Heq).
      unfold Vec.init, Vec.get. destruct (Z.ltb_spec j 0); [lia |].
      by rewrite nth_lookup, lookup_replicate_2 by lia.
    - intros j [<- | []]. rewrite vget_vset_eq; [lia |].
      unfold Vec.size. rewrite vinit_length. lia.
    - intros x [<- | []]. done.
    - by apply PX_in.
  Qed.

  (** What the callers read off a search. *)
Lemma igraph_dfs_spec extra order parents extra' :
    P root -> PX extra ->
    igraph_dfs graph mode in_callback out_callback root extra = Ok (order, parents, extra') ->
    exists visited,
      order = visited ++ replicate (Z.to_nat n - length visited)%nat (-1) /\
      (exists rest, visited = root :: rest) /\
      NoDup visited /\
      (forall x, In x visited -> 0 <= x < n /\ P x) /\
      length parents = Z.to_nat n /\
      VECTOR parents root = -1 /\
      (forall j, 0 <= j < n -> ~ In j visited -> VECTOR parents j = -2) /\
      (forall j, In j visited -> -1 <= VECTOR parents j) /\
      PX extra'.
  Proof.
    intros HP HPX. unfold igraph_dfs. fold n.
    destruct (Z.ltb_spec root 0); [done |].
    destruct (Z.geb_spec root n); [done |].
    simpl. set (st0 := mk_dfs _ _ _ _ _ _).
    assert (Hinv0 : dfs_inv st0) by (apply dfs_inv_init; [lia | done | done]).
    pose proof (dfs_loop_inv (2 * Z.to_nat n) st0 Hinv0) as Hinv.
    destruct (dfs_loop _ _ _ _ _ st0) as [stack added nptr ord par ext].
    destruct Hinv as [Hla Hlp [l Hl] Hrange Hstack Hnodup Hmarked Hproot Hpun Hpvis Hclosed Hextra].
    simpl in *. intros [= <- <- <-].
    exists (rev ord). split; [done |].
    split; [exists (rev l); by rewrite Hl, rev_app_distr |].
    split; [by apply NoDup_ListNoDup, NoDup_rev, NoDup_ListNoDup |].
    split; [intros x Hx%in_rev; split; [by apply Hrange | by apply Hclosed] |].
    split; [done |]. split; [done |].
    split; [intros j Hjr Hj; apply Hpun; [done | by rewrite in_rev] |].
    split; [intros j Hj%in_rev; by apply Hpvis | done].
  Qed.
End DFSFacts.

(** The same search on a graph that need not be well formed: the order
    starts at the root, stays inside a set closed under neighbours and the
    callbacks' invariant holds at the end. *)
Section DFSBasic.
Import Visitor.
Context {X : Type}.
Variables (graph : igraph_t) (mode : igraph_neimode_t).
Variables (in_callback out_callback : Z -> X -> X).
Variables (P : Z -> Prop) (PX : X -> Prop).
Hypothesis P_closed :
    forall y x, P y -> In x (igraph_neighbors graph y mode) -> P x.
Hypothesis PX_in : forall v x, PX x -> PX (in_callback v x).
Hypothesis PX_out : forall v x, PX x -> PX (out_callback v x).
Variable root : Z.

Definition dfs_basic (st : dfs_state) : Prop :=
    (exists l, dfs_order st = l ++ [root]) /\
    (forall x, In x (dfs_stack st) -> P x) /\
    (forall x, In x (dfs_order st) -> P x) /\
    PX (dfs_extra st).

Lemma dfs_step_basic st st' :
    dfs_basic st -> dfs_step graph mode in_callback out_callback st = Some st' ->
    dfs_basic st'.
  Proof.
    intros ([l Hl] & Hstack & Hclosed & Hextra). unfold dfs_step.
    destruct (dfs_stack st) as [| actvect below] eqn:Hst; [done |].
    destruct (dfs_scan _ _ _) as [[nei |] ptr'] eqn:Hscan; intros [= <-].
    - apply dfs_scan_some in Hscan as [Hnei%In_drop Hfresh].
      assert (HPnei : P nei) by (apply (P_closed actvect); [apply Hstack; by left | done]).
      repeat split; simpl.
      + exists (nei :: l). by rewrite Hl.
      + intros x [<- | Hx]; [done | by apply Hstack].
      + intros x [<- | Hx]; [done | by apply Hclosed].
      + by apply PX_in.
    - repeat split; simpl.
      + by exists l.
      + intros x Hx. apply Hstack. by right.
      + done.
      + by apply PX_out.
  Qed.

Lemma dfs_loop_basic fuel : forall st,
    dfs_basic st -> dfs_basic (dfs_loop graph mode in_callback out_callback fuel st).
  Proof.
    induction fuel as [| fuel IH]; intros st Hinv; [done |].
    simpl. destruct (dfs_step _ _ _ _ st) as [st' |] eqn:Hstep; [| done].
    apply IH. by eapply dfs_step_basic.
  Qed.

Lemma igraph_dfs_basic extra order parents extra' :
    P root -> PX extra ->
    igraph_dfs graph mode in_callback out_callback root extra = Ok (order, parents, extra') ->
    0 <= root < igraph_vcount graph /\
    (exists visited,
       order = (root :: visited) ++
               replicate (Z.to_nat (igraph_vcount graph) - length (root :: visited))%nat (-1) /\
       forall x, In x visited -> P x) /\
    PX extra'.
  Proof.
    intros HP HPX. unfold igraph_dfs.
    destruct (Z.ltb_spec root 0); [done |].
    destruct (Z.geb_spec root (igraph_vcount graph)); [done |].
    simpl. set (st0 := mk_dfs _ _ _ _ _ _).
    assert (Hinv0 : dfs_basic st0).
    { repeat split; simpl.
      - by exists [].
      - intros x [<- | []]. done.
      - intros x [<- | []]. done.
      - by apply PX_in. }
    pose proof (dfs_loop_basic (2 * Z.to_nat (igraph_vcount graph)) st0 Hinv0) as Hinv.
    destruct (dfs_loop _ _ _ _ _ st0) as [stack added nptr ord par ext].
    destruct Hinv as ([l Hl] & Hstack & Hclosed & Hextra).
    simpl in *. intros [= <- <- <-].
    split; [lia |]. split; [| done].
    exists (rev l). subst ord. rewrite rev_app_distr. simpl. split; [done |].
    intros x Hx%in_rev. apply Hclosed, in_app_iff. by left.
  Qed.
End DFSBasic.

(** ** The induced subgraph on the complement of S *)

Section Induced.
Import Visitor MarkedQueue.

Lemma submap_length keep : forall m k,
    length (fst (fold_left subgraph_map_step keep (m, k))) = length m.
  Proof.
    induction keep as [| a keep IH]; intros m k; [done |].
    simpl. by rewrite IH, vset_length.
  Qed.

Lemma submap_other keep x : forall m k,
    ~ In x keep -> VECTOR (fst (fold_left subgraph_map_step keep (m, k))) x = VECTOR m x.
  Proof.
    induction keep as [| a keep IH]; intros m k Hx; [done |].
    simpl. rewrite IH by (intros ?; apply Hx; by right).
    apply vget_vset_ne. intros ->. apply Hx. by left.
  Qed.

Lemma submap_lookup keep : forall m k (j : nat) x,
    NoDup keep -> (forall y, In y keep -> 0 <= y < Vec.size m) ->
    nth_error keep j = Some x ->
    VECTOR (fst (fold_left subgraph_map_step keep (m, k))) x = k + Z.of_nat j + 1.
  Proof.
    induction keep as [| a keep IH]; intros m k j x Hnd Hr Hj.
    - by destruct j.
    - apply NoDup_cons in Hnd as [Ha Hnd]. simpl. destruct j as [| j]; simpl in Hj.
      + injection Hj as ->. rewrite submap_other by (by rewrite <- list_elem_of_In).
        rewrite vget_vset_eq; [lia |]. apply Hr. by left.
      + rewrite (IH _ _ j x); [lia | done | | done].
        intros y Hy. unfold Vec.size. rewrite vset_length. apply Hr. by right.
  Qed.

Variables (graph : igraph_t) (S : igraph_marked_queue_int_t).
Let n := igraph_vcount graph.
Let keep := List.filter (fun i => negb (igraph_marked_queue_int_iselement S i)) (Vec.range n).

Lemma keep_In x :
    In x keep <-> 0 <= x < n /\ igraph_marked_queue_int_iselement S x = false.
  Proof.
    unfold keep. rewrite filter_In, range_In, negb_true_iff. done.
  Qed.

Lemma keep_NoDup : NoDup keep.
  Proof. apply NoDup_ListNoDup, List.NoDup_filter, NoDup_ListNoDup, range_NoDup. Qed.

Lemma induced_subgraph_map_eq :
    igraph_induced_subgraph_map graph keep =
    (fst (fst (igraph_induced_subgraph_map graph keep)),
     fst (fold_left subgraph_map_step keep (Vec.init 0 n, 0)), keep).
  Proof. reflexivity. Qed.

  (** A vertex outside S has a place in the subgraph, and the inverse map
      leads back to it. *)
Lemma induced_map_inverse x :
    In x keep ->
    let map_ := fst (fold_left subgraph_map_step keep (Vec.init 0 n, 0)) in
    0 <= VECTOR map_ x - 1 < Vec.size keep /\
    VECTOR keep (VECTOR map_ x - 1) = x.
  Proof.
    intros Hx. destruct (In_nth_error _ _ Hx) as [j Hj].
    assert (Hjlt : (j < length keep)%nat) by (apply nth_error_Some; congruence).
    simpl. rewrite (submap_lookup keep _ _ j x keep_NoDup); [| | done].
    - split; [unfold Vec.size; lia |].
      replace (0 + Z.of_nat j + 1 - 1) with (Z.of_nat j) by lia.
      rewrite vget_of_nat. by apply nth_error_nth.
    - intros y Hy%keep_In. unfold Vec.size. rewrite vinit_length. lia.
  Qed.

Lemma induced_map_index (j : Z) :
    0 <= j < Vec.size keep ->
    let map_ := fst (fold_left subgraph_map_step keep (Vec.init 0 n, 0)) in
    In (VECTOR keep j) keep /\ VECTOR map_ (VECTOR keep j) = j + 1.
  Proof.
    intros Hj. split; [by apply vget_In |]. simpl.
    assert (Hnth : nth_error keep (Z.to_nat j) = Some (VECTOR keep j)).
    { unfold Vec.get. destruct (Z.ltb_spec j 0); [lia |].
      apply nth_error_nth'. unfold Vec.size in Hj. lia. }
    rewrite (submap_lookup keep _ _ (Z.to_nat j) _ keep_NoDup); [lia | | exact Hnth].
    intros y Hy%keep_In. unfold Vec.size. rewrite vinit_length. lia.
  Qed.

Lemma induced_map_outside x :
    ~ In x keep ->
    VECTOR (fst (fold_left subgraph_map_step keep (Vec.init 0 n, 0))) x = 0.
  Proof.
    intros Hx. rewrite submap_other by done.
    unfold Vec.init, Vec.get. destruct (Z.ltb_spec x 0); [done |].
    destruct (decide (Z.to_nat x < Z.to_nat n)%nat).
    - by rewrite nth_lookup, lookup_replicate_2.
    - apply nth_overflow. rewrite length_replicate. lia.
  Qed.
End Induced.

(** ** The pivot of [igraph_all_st_cuts] *)

Lemma vget_map_range {A} (d : A) (f : Z -> A) n i :
  0 <= i < n -> Vec.get d (map f (Vec.range n)) i = f i.
Proof.
  intros Hi. unfold Vec.get. destruct (Z.ltb_spec i 0); [lia |].
  rewrite (nth_indep _ d (f 0)) by (rewrite length_map, range_length; lia).
  rewrite map_nth, range_nth by lia. f_equal. lia.
Qed.

Lemma vget_true_range (v : list bool) i :
  VECTORB v i = true -> 0 <= i < Vec.size v.
Proof.
  intros Hi. destruct (Z.ltb_spec i 0); [by rewrite vget_neg in Hi |].
  destruct (Z.ltb_spec i (Vec.size v)); [lia |]. by rewrite vget_out in Hi.
Qed.

Lemma nonneg_prefix_In x l : In x (AllStCuts.nonneg_prefix l) -> In x l /\ 0 <= x.
Proof.
  induction l as [| a l IH]; simpl; [done |].
  destruct (Z.geb_spec a 0); [| done].
  intros [<- | Hx]; [split; [by left | lia] |].
  apply IH in Hx as [? ?]. split; [by right | done].
Qed.

Section AllCutsPivot.
Import Visitor MarkedQueue EStack ProvanShier AllStCuts SearchSpec.
Variables (graph : igraph_t) (S : igraph_marked_queue_int_t) (T : igraph_estack_t).
Variables (source target : Z).
Hypothesis Hwf : graph_wf graph.
Let n := igraph_vcount graph.

  (** Gamma(S) never holds a vertex of S. *)
Definition outside_S (G : list bool) : Prop :=
    forall i, VECTORB G i = true -> igraph_marked_queue_int_iselement S i = false.

Lemma outside_S_set G x :
    outside_S G -> igraph_marked_queue_int_iselement S x = false ->
    outside_S (vset G x true).
  Proof.
    intros HG Hx i. rewrite vget_vset.
    destruct (Z.eqb_spec x i) as [-> | Hne]; simpl; [| by apply HG].
    destruct (_ && _); [done | by apply HG].
  Qed.

Lemma outside_S_clear G x : outside_S G -> outside_S (vset G x false).
  Proof.
    intros HG i. rewrite vget_vset. destruct (_ && _); [done | by apply HG].
  Qed.

Lemma GammaS_step_outside G i : outside_S G -> outside_S (GammaS_step graph S G i).
  Proof.
    intros HG. unfold GammaS_step.
    destruct (igraph_marked_queue_int_iselement S i); [| done].
    revert G HG. induction (igraph_neighbors graph i IGRAPH_OUT) as [| nei neis IH];
      intros G HG; [done |].
    simpl. apply IH.
    destruct (igraph_marked_queue_int_iselement S nei) eqn:Hnei; simpl; [done |].
    by apply outside_S_set.
  Qed.

Lemma GammaS_fold_outside is_ : forall G,
    outside_S G -> outside_S (fold_left (GammaS_step graph S) is_ G).
  Proof.
    induction is_ as [| i is_ IH]; intros G HG; [done |].
    simpl. by apply IH, GammaS_step_outside.
  Qed.

Lemma GammaS_fold_length is_ : forall G,
    length (fold_left (GammaS_step graph S) is_ G) = length G.
  Proof.
    assert (Hstep : forall G i, length (GammaS_step graph S G i) = length G).
    { intros G i. unfold GammaS_step.
      destruct (igraph_marked_queue_int_iselement S i); [| done].
      revert G. induction (igraph_neighbors graph i IGRAPH_OUT) as [| nei neis IH];
        intros G; [done |].
      simpl. rewrite IH. destruct (negb _); [apply vset_length | done]. }
    induction is_ as [| i is_ IH]; intros G; [done |].
    simpl. by rewrite IH, Hstep.
  Qed.

Lemma relabel_leftout_outside invmap is_ : forall leftout G,
    outside_S G ->
    outside_S (snd (fold_left (relabel_leftout invmap) is_ (leftout, G))).
  Proof.
    induction is_ as [| i is_ IH]; intros leftout G HG; [done |].
    simpl. by apply IH, outside_S_clear.
  Qed.

Lemma relabel_leftout_length invmap is_ : forall leftout G,
    length (snd (fold_left (relabel_leftout invmap) is_ (leftout, G))) = length G.
  Proof.
    induction is_ as [| i is_ IH]; intros leftout G; [done |].
    simpl. by rewrite IH, vset_length.
  Qed.

  (** The minimal elements are taken from Gamma(S). *)
Lemma minimal_in_Gamma domtree root G invmap M :
    igraph_i_all_st_cuts_minimal graph domtree root G invmap = Ok M ->
    forall m, In m M -> 0 <= m < n /\ VECTORB G m = true.
  Proof.
    unfold igraph_i_all_st_cuts_minimal. fold n.
    destruct (igraph_dfs _ _ _ _ _ _) as [[[order parents] data] |] eqn:Hdfs; [| done].
    simpl. intros [= <-] m [Hm Hnm]%filter_In. apply range_In in Hm.
    split; [done |].
    apply (igraph_dfs_basic domtree IGRAPH_IN _ _ (fun _ => True)
             (fun data => forall i, 0 <= i < n ->
                VECTORB (nomark data) i = false -> VECTORB G i = true))
      in Hdfs as (_ & _ & Hdata); try done.
    - apply Hdata; [done |]. by apply negb_true_iff.
    - intros v data' Hd i Hi. unfold igraph_i_all_st_cuts_minimal_dfs_incb.
      destruct (VECTORB G (VECTOR invmap v)); [| by apply Hd]. simpl.
      destruct (AllStCuts.stack data') as [| top rest]; [by apply Hd |].
      rewrite vget_vset. destruct (_ && _); [done | by apply Hd].
    - intros v data' Hd i Hi. unfold igraph_i_all_st_cuts_minimal_dfs_outcb.
      destruct (AllStCuts.stack data') as [| top rest]; [by apply Hd |].
      destruct (top =? _); by apply Hd.
    - intros i Hi. simpl. rewrite vget_map_range by done.
      by intros ->%negb_false_iff.
  Qed.

  (** The loop over the minimal elements. *)
Lemma pivot_loop_spec domtree Sbar_map Sbar_invmap leftout GammaS_vec Sbar_size M :
    forall code v Isv,
    (forall m, In m M ->
       In m GammaS_vec /\ 0 <= VECTOR Sbar_map m - 1 < Sbar_size /\
       VECTOR Sbar_invmap (VECTOR Sbar_map m - 1) = m) ->
    pivot_loop graph domtree T target Sbar_map Sbar_invmap leftout GammaS_vec Sbar_size M
      = (code, v, Isv) ->
    Isv <> [] ->
    In v M /\ igraph_estack_iselement T v = false /\ v <> target /\
    (exists rest, Isv = v :: rest) /\
    exists Nuv0 parents,
      igraph_dfs domtree IGRAPH_IN (fun _ (x : unit) => x) (fun _ x => x)
                 (VECTOR Sbar_map v - 1) tt = Ok (Nuv0, parents, tt) /\
      forall u, In u Isv ->
        0 <= u < n /\
        In u (map (VECTOR Sbar_invmap) (nonneg_prefix (take (Z.to_nat Sbar_size) Nuv0))
              ++ leftout).
  Proof.
    induction M as [| m M IH]; intros code v Isv HM Hloop Hne; [by injection Hloop as _ _ <- |].
    cbn [pivot_loop] in Hloop. fold n in Hloop.
    destruct (HM m (or_introl eq_refl)) as (HmG & Hmin & Hinv).
    destruct (igraph_dfs domtree _ _ _ _ _) as [[[Nuv0 parents] []] |] eqn:Hdfs;
      [| by injection Hloop as _ _ <-].
    destruct (igraph_bfs graph IGRAPH_OUT GammaS_vec _) as [order1 |] eqn:Hbfs1;
      [| by injection Hloop as _ _ <-].
    destruct (existsb _ _) eqn:Hex.
    { destruct (IH code v Isv) as (Hin & ?); [| done | done |].
      - intros m' Hm'. apply HM. by right.
      - split; [by right | done]. }
    destruct (igraph_bfs graph IGRAPH_OUT [m] _) as [order2 |] eqn:Hbfs2;
      [| by injection Hloop as _ _ <-].
    injection Hloop as <- <- <-.
    (* the subtree of [m] starts at [m] *)
    pose proof (igraph_dfs_basic domtree IGRAPH_IN _ _ (fun _ => True) (fun _ => True)
                  ltac:(done) ltac:(done) ltac:(done) _ _ _ _ _ I I Hdfs)
      as (_ & (visited & Hord & _) & _).
    set (Nuv := map (VECTOR Sbar_invmap) (nonneg_prefix (take (Z.to_nat Sbar_size) Nuv0))) in *.
    assert (HmNuv : In m Nuv).
    { subst Nuv. rewrite Hord. simpl.
      destruct (Z.to_nat Sbar_size) as [| k] eqn:Hk; [lia |]. simpl.
      destruct (Z.geb_spec (VECTOR Sbar_map m - 1) 0); [| lia].
      simpl. by left. }
    (* [m] is among the vertices checked against T and the target *)
    pose proof (igraph_bfs_restricted graph IGRAPH_OUT Hwf _ _ _ Hbfs1)
      as (_ & _ & Hroots1 & _).
    specialize (Hroots1 m HmG HmNuv). fold n in Hroots1.
    assert (Hcheck : igraph_estack_iselement T m = false /\ m <> target).
    { apply not_true_iff_false in Hex. split.
      - destruct (igraph_estack_iselement T m) eqn:HT; [| done].
        exfalso. apply Hex, existsb_exists. exists m. by rewrite HT.
      - intros ->. apply Hex, existsb_exists. exists target.
        split; [done |]. by rewrite Z.eqb_refl, orb_true_r. }
    pose proof (igraph_bfs_restricted graph IGRAPH_OUT Hwf _ _ _ Hbfs2)
      as (_ & Hvis2 & _ & Hhead2).
    fold n in Hvis2, Hhead2.
    destruct (Hhead2 m [] eq_refl) as [rest Hrest]; [apply in_app_iff; by left |].
    split; [by left |]. split; [apply Hcheck |]. split; [apply Hcheck |].
    split; [by exists rest |].
    exists Nuv0, parents. split; [done |]. exact Hvis2.
  Qed.
End AllCutsPivot.

Section AllCutsContract.
Import Visitor MarkedQueue EStack ProvanShier AllStCuts SearchSpec.

Lemma queue_empty_no_member n S i :
    queue_wf n S -> igraph_marked_queue_int_size S = 0 ->
    igraph_marked_queue_int_iselement S i = false.
  Proof.
    intros [_ Hmem] Hsize. unfold igraph_marked_queue_int_size, Vec.size in Hsize.
    destruct (items S) eqn:Hit; [| simpl in Hsize; lia].
    unfold igraph_marked_queue_int_iselement.
    destruct (VECTORB (member S) i) eqn:Hi; [| done].
    by apply Hmem in Hi.
  Qed.

  (** What the pivot hands to its loop: Gamma(S) avoids S, and the minimal
      elements come from Gamma(S). *)
Lemma all_st_cuts_pivot_unfold graph S T source target code v Isv :
    graph_wf graph -> queue_wf (igraph_vcount graph) S ->
    igraph_i_all_st_cuts_pivot graph S T source target = (code, v, Isv) ->
    Isv <> [] ->
    let n := igraph_vcount graph in
    let keep := List.filter (fun i => negb (igraph_marked_queue_int_iselement S i))
                            (Vec.range n) in
    let Sbar := fst (fst (igraph_induced_subgraph_map graph keep)) in
    let Sbar_map := fst (fold_left subgraph_map_step keep (Vec.init 0 n, 0)) in
    let root := VECTOR Sbar_map target - 1 in
    exists d domtree leftout0 G0 leftout G M,
      Dominator.igraph_dominator_tree Sbar root
        (Dominator.mk_out None (Some None) (Some [])) IGRAPH_IN =
        (IGRAPH_SUCCESS, Dominator.mk_out d (Some (Some domtree)) (Some leftout0)) /\
      G0 = (if igraph_marked_queue_int_size S =? 0
            then vset (Vec.init false n) (VECTOR Sbar_map source - 1) true
            else fold_left (GammaS_step graph S) (Vec.range n) (Vec.init false n)) /\
      fold_left (relabel_leftout keep) (Vec.range (Vec.size leftout0)) (leftout0, G0) =
        (leftout, G) /\
      outside_S S G /\ length G = Z.to_nat n /\
      (forall m, In m M -> 0 <= m < n /\ VECTORB G m = true) /\
      pivot_loop graph domtree T target Sbar_map keep leftout
                 (List.filter (VECTORB G) (Vec.range n)) (Vec.size keep) M = (code, v, Isv).
  Proof.
    intros Hwf HS Hpivot Hne n keep Sbar Sbar_map root.
    unfold igraph_i_all_st_cuts_pivot in Hpivot.
    rewrite (induced_subgraph_map_eq graph S) in Hpivot. fold n keep Sbar Sbar_map in Hpivot.
    cbv zeta in Hpivot. fold root in Hpivot.
    destruct (Dominator.igraph_dominator_tree Sbar root _ IGRAPH_IN)
      as [dcode [d dt lo]] eqn:Hdom.
    destruct dcode; try (by injection Hpivot as _ _ <-).
    destruct dt as [[domtree |] |]; try (by injection Hpivot as _ _ <-).
    destruct lo as [leftout0 |]; try (by injection Hpivot as _ _ <-).
    set (G0 := if igraph_marked_queue_int_size S =? 0 then _ else _) in Hpivot.
    destruct (fold_left (relabel_leftout keep) _ (leftout0, G0)) as [leftout G] eqn:Hrel.
    assert (HG0 : outside_S S G0 /\ length G0 = Z.to_nat n).
    { subst G0. destruct (Z.eqb_spec (igraph_marked_queue_int_size S) 0) as [Hz | Hnz].
      - split; [| by rewrite vset_length, vinit_length].
        apply outside_S_set; [| by apply (queue_empty_no_member n)].
        intros i Hi. apply vget_true_range in Hi as Hr.
        unfold Vec.size in Hr. rewrite vinit_length in Hr.
        unfold Vec.init, Vec.get in Hi. destruct (Z.ltb_spec i 0); [done |].
        by rewrite nth_lookup, lookup_replicate_2 in Hi by lia.
      - split.
        + apply GammaS_fold_outside. intros i Hi.
          apply vget_true_range in Hi as Hr.
          unfold Vec.size in Hr. rewrite vinit_length in Hr.
          unfold Vec.init, Vec.get in Hi. destruct (Z.ltb_spec i 0); [done |].
          by rewrite nth_lookup, lookup_replicate_2 in Hi by lia.
        + by rewrite GammaS_fold_length, vinit_length. }
    destruct HG0 as [HG0 HlenG0].
    assert (HG : outside_S S G /\ length G = Z.to_nat n).
    { replace G with (snd (fold_left (relabel_leftout keep) (Vec.range (Vec.size leftout0))
                                     (leftout0, G0))) by (by rewrite Hrel).
      split; [by apply relabel_leftout_outside |].
      by rewrite relabel_leftout_length. }
    destruct (if igraph_ecount domtree >? 0 then _ else _) as [M |] eqn:HM;
      [| by injection Hpivot as _ _ <-].
    exists d, domtree, leftout0, G0, leftout, G, M.
    split; [done |]. split; [done |]. split; [done |].
    split; [apply HG |]. split; [apply HG |]. split; [| done].
    destruct (igraph_ecount domtree >? 0).
    - intros m Hm. by apply (minimal_in_Gamma graph domtree root G keep M).
    - injection HM as <-. intros m [].
  Qed.

Lemma all_st_cuts_pivot_contract : pivot_contract igraph_i_all_st_cuts_pivot.
  Proof.
    intros graph S T source target code v Isv Hwf HS HT Hpivot Hne.
    destruct (all_st_cuts_pivot_unfold _ _ _ _ _ _ _ _ Hwf HS Hpivot Hne)
      as (d & domtree & leftout0 & G0 & leftout & G & M & _ & _ & _ & HG & HlenG & HM & Hloop).
    apply (pivot_loop_spec graph T target Hwf) in Hloop
      as (HvM & HvT & _ & [rest ->] & _); [| | done].
    - destruct (HM v HvM) as [Hv HvG]. split; [done |]. split; [by apply HG |].
      split; [done | by left].
    - intros m Hm. destruct (HM m Hm) as [Hmr HmG].
      split; [apply filter_In; split; [by apply range_In | done] |].
      apply (induced_map_inverse graph S). apply keep_In. split; [done | by apply HG].
  Qed.
End AllCutsContract.

(** ** The pivot of [igraph_all_st_mincuts] *)

Section MinCutsContract.
Import Visitor MarkedQueue EStack ProvanShier AllStMinCuts SearchSpec.

Lemma find_pivot_some T target invmap M m :
    find_pivot T target invmap M = Some m ->
    In m M /\ VECTOR invmap m <> target /\
    igraph_estack_iselement T (VECTOR invmap m) = false.
  Proof.
    induction M as [| a M IH]; [done |]. simpl.
    destruct (negb (VECTOR invmap a =? target) && negb _) eqn:Hc.
    - intros [= ->]. apply andb_true_iff in Hc as [Hne HT].
      apply negb_true_iff in Hne, HT. apply Z.eqb_neq in Hne. split; [by left | done].
    - intros Hm. apply IH in Hm as (? & ? & ?). split; [by right | done].
  Qed.

Lemma all_st_mincuts_pivot_contract active :
    pivot_contract (igraph_i_all_st_mincuts_pivot active).
  Proof.
    intros graph S T source target code v Isv Hwf HS HT Hpivot Hne.
    unfold igraph_i_all_st_mincuts_pivot in Hpivot.
    destruct (_ =? igraph_vcount graph); [by injection Hpivot as _ _ <- |].
    rewrite (induced_subgraph_map_eq graph S) in Hpivot. cbv zeta in Hpivot.
    set (keep := List.filter _ (Vec.range (igraph_vcount graph))) in *.
    destruct (find_pivot T target keep _) as [m |] eqn:Hfind;
      [| by injection Hpivot as _ _ <-].
    apply find_pivot_some in Hfind as (HmM & Hmt & HmT).
    unfold igraph_i_all_st_mincuts_minimal in HmM.
    apply filter_In in HmM as [Hm%range_In _]. simpl in Hm.
    destruct (induced_map_index graph S m Hm) as [Hkeep _]. fold keep in Hkeep.
    apply keep_In in Hkeep as Hv.
    destruct (igraph_bfs graph IGRAPH_IN _ _) as [order |] eqn:Hbfs;
      [| by injection Hpivot as _ _ <-].
    injection Hpivot as <- <- <-.
    pose proof (igraph_bfs_restricted graph IGRAPH_IN Hwf _ _ _ Hbfs) as (_ & _ & _ & Hhead).
    destruct (Hhead _ [] eq_refl Hkeep) as [rest ->].
    split; [apply Hv |]. split; [apply Hv |]. split; [done |].
    simpl. rewrite HmT. simpl. by left.
  Qed.
End MinCutsContract.

(** ** Termination of the search *)

Section Termination.
Import MarkedQueue EStack ProvanShier SearchSpec.

Lemma queue_wf_init n :
    0 <= n -> queue_wf n (igraph_marked_queue_int_init n).
  Proof.
    intros Hn. split; simpl.
    - unfold Vec.size. rewrite vinit_length. lia.
    - intros i Hi. apply vget_true_range in Hi as Hr.
      unfold Vec.size in Hr. rewrite vinit_length in Hr.
      unfold Vec.init, Vec.get in Hi. destruct (Z.ltb_spec i 0); [done |].
      by rewrite nth_lookup, lookup_replicate_2 in Hi by lia.
  Qed.

Lemma estack_wf_init n : 0 <= n -> estack_wf n (igraph_estack_init n).
  Proof. intros Hn. unfold estack_wf. simpl. unfold Vec.size. rewrite vinit_length. lia. Qed.

Lemma estack_push_fresh n T v :
    estack_wf n T -> igraph_estack_iselement T v = false ->
    exists T1, igraph_estack_push T v = Ok T1 /\ estack_wf n T1 /\
      (forall i, igraph_estack_iselement T i = true -> igraph_estack_iselement T1 i = true) /\
      (0 <= v < n -> igraph_estack_iselement T1 v = true).
  Proof.
    intros HT Hv. unfold igraph_estack_push. rewrite Hv. eexists. split; [done |].
    unfold estack_wf, igraph_estack_iselement in *. simpl.
    split; [unfold Vec.size in *; by rewrite vset_length |]. split.
    - intros i Hi. rewrite vget_vset. by destruct (_ && _).
    - intros Hr. apply vget_vset_eq. lia.
  Qed.

Lemma add_Isv_member S1 u S2 :
    add_Isv (Ok S1) u = Ok S2 ->
    length (member S2) = length (member S1) /\
    (forall i, igraph_marked_queue_int_iselement S1 i = true ->
               igraph_marked_queue_int_iselement S2 i = true) /\
    (0 <= u < Vec.size (member S1) -> igraph_marked_queue_int_iselement S2 u = true).
  Proof.
    unfold add_Isv. simpl. unfold igraph_marked_queue_int_push.
    destruct (igraph_marked_queue_int_iselement S1 u) eqn:Hu.
    - intros [= <-]. done.
    - intros [= <-]. unfold igraph_marked_queue_int_iselement. simpl.
      split; [apply vset_length |]. split.
      + intros i Hi. rewrite vget_vset. by destruct (_ && _).
      + intros Hr. by apply vget_vset_eq.
  Qed.

Lemma add_Isv_fold_member Isv : forall S1 S2,
    fold_left add_Isv Isv (Ok S1) = Ok S2 ->
    length (member S2) = length (member S1) /\
    (forall i, igraph_marked_queue_int_iselement S1 i = true ->
               igraph_marked_queue_int_iselement S2 i = true) /\
    (forall u, In u Isv -> 0 <= u < Vec.size (member S1) ->
               igraph_marked_queue_int_iselement S2 u = true).
  Proof.
    induction Isv as [| a Isv IH]; intros S1 S2 Hfold.
    - injection Hfold as <-. split; [done |]. split; [done |]. intros u [].
    - cbn [fold_left] in Hfold.
      destruct (add_Isv (Ok S1) a) as [S1' |] eqn:Hadd;
        [| by rewrite add_Isv_error in Hfold].
      apply add_Isv_member in Hadd as (Hlen1 & Hmono1 & Hset1).
      apply IH in Hfold as (Hlen2 & Hmono2 & Hset2).
      split; [congruence |]. split; [auto |].
      intros u [<- | Hu] Hr; [auto |]. apply Hset2; [done |].
      unfold Vec.size in *. by rewrite Hlen1.
  Qed.

Lemma batch_over_wf n S S' added :
    queue_wf n S -> batch_over S S' added -> queue_wf n S'.
  Proof.
    intros [Hlen Hmem] (Hitems & _ & Hmember & _). split.
    - rewrite Hmember. unfold Vec.size in *. by rewrite fold_vset_length.
    - intros i Hi. rewrite Hitems, in_app_iff. rewrite Hmember in Hi.
      apply vget_true_range in Hi as Hr.
      unfold Vec.size in Hr. rewrite fold_vset_length in Hr.
      rewrite fold_vset_get in Hi by done.
      destruct (existsb (Z.eqb i) added) eqn:Hex.
      + right. by apply existsb_eqb_In.
      + left. by apply Hmem.
  Qed.

Lemma free_shrinks n S T S' T' v :
    (forall i, igraph_marked_queue_int_iselement S i = true ->
               igraph_marked_queue_int_iselement S' i = true) ->
    (forall i, igraph_estack_iselement T i = true -> igraph_estack_iselement T' i = true) ->
    0 <= v < n ->
    igraph_marked_queue_int_iselement S v = false ->
    igraph_estack_iselement T v = false ->
    igraph_marked_queue_int_iselement S' v = true \/ igraph_estack_iselement T' v = true ->
    (length (free n S' T') < length (free n S T))%nat.
  Proof.
    intros HS HT Hv HSv HTv Hnew. unfold free. apply (filter_length_lt _ _ _ v).
    - intros y _. rewrite !andb_true_iff, !negb_true_iff. intros [Hy1 Hy2]. split.
      + destruct (igraph_marked_queue_int_iselement S y) eqn:E; [| done].
        by rewrite (HS _ E) in Hy1.
      + destruct (igraph_estack_iselement T y) eqn:E; [| done].
        by rewrite (HT _ E) in Hy2.
    - by apply range_In.
    - by rewrite HSv, HTv.
    - destruct Hnew as [-> | ->]; [done | apply andb_false_r].
  Qed.

  (** Any pivot that honours the contract makes the search finite: the
      depth is bounded by the number of vertices outside S and T. *)
Lemma provan_shier_fuel (pivot : igraph_provan_shier_pivot_t) (graph : igraph_t)
      (source target : Z) :
    pivot_contract pivot -> graph_wf graph ->
    forall fuel S T result_,
      queue_wf (igraph_vcount graph) S -> estack_wf (igraph_vcount graph) T ->
      (length (free (igraph_vcount graph) S T) < fuel)%nat ->
      exists r, igraph_provan_shier_list fuel graph S T source target result_ pivot = Some r.
  Proof.
    intros Hcontract Hwf. set (n := igraph_vcount graph).
    induction fuel as [| fuel IH]; intros S T result_ HS HT Hfuel; [lia |].
    cbn [igraph_provan_shier_list].
    destruct (pivot graph S T source target) as [[code v] Isv] eqn:Hpivot.
    destruct Isv as [| u Isv]; [destruct (_ && _); eauto |].
    destruct (Hcontract _ _ _ _ _ _ _ _ Hwf HS HT Hpivot ltac:(done))
      as (Hv & HSv & HTv & HvIsv).
    destruct (estack_push_fresh n T v HT HTv) as (T1 & Hpush & HT1 & HTmono & HT1v).
    rewrite Hpush.
    destruct (IH S T1 result_ HS HT1) as [r1 Hleft].
    { pose proof (free_shrinks n S T S T1 v ltac:(done) HTmono Hv HSv HTv
                    (or_intror (HT1v Hv))). lia. }
    rewrite Hleft. destruct r1 as [[[S1 T2] result1] | e]; [| eauto].
    apply provan_shier_frame in Hleft as [-> ->].
    rewrite (estack_push_pop _ _ _ Hpush).
    destruct (fold_left add_Isv (u :: Isv) _) as [S3 | e] eqn:Hadd; [| eauto].
    destruct (batch_over_fold _ _ _ _ _ (batch_over_start S) Hadd) as [added Hb].
    pose proof (batch_over_wf n S S3 added HS Hb) as HS3.
    apply add_Isv_fold_member in Hadd as (_ & HSmono & HSset).
    destruct (IH S3 T result1 HS3 HT) as [r2 Hright].
    { assert (HS3v : igraph_marked_queue_int_iselement S3 v = true).
      { apply HSset; [done |]. simpl. destruct HS as [Hlen _]. lia. }
      pose proof (free_shrinks n S T S3 T v HSmono ltac:(done) Hv HSv HTv
                    (or_introl HS3v)). lia. }
    rewrite Hright. destruct r2 as [[[S4 T4] result2] | e]; eauto.
  Qed.

Lemma free_length_le n S T : 0 <= n -> (length (free n S T) <= Z.to_nat n)%nat.
  Proof.
    intros Hn. unfold free. rewrite <- (range_length n). apply List.filter_length_le.
  Qed.
End Termination.

(** ** The search: termination and frame *)

Lemma diamond_wf : graph_wf Examples.diamond.
Proof. split; [simpl; lia |]. repeat constructor; simpl; lia. Defined.

(** C4.  With either of the two pivots, a non-empty [Isv] comes with a
    vertex [v] outside S and T that belongs to [Isv]: the left branch puts a
    new vertex into T, the right branch a new vertex into S.  Hence the
    recursion of [igraph_provan_shier_list] is at most [n] levels deep: with
    fuel [n + 1] it always returns. *)
Theorem provan_shier_list_terminates (graph : igraph_t)
    (S0 : MarkedQueue.igraph_marked_queue_int_t) (T0 : EStack.igraph_estack_t)
    (source target : Z) (result_ : list (list Z))
    (pivot : ProvanShier.igraph_provan_shier_pivot_t) :
  pivot = AllStCuts.igraph_i_all_st_cuts_pivot \/
  (exists active, pivot = AllStMinCuts.igraph_i_all_st_mincuts_pivot active) ->
  graph_wf graph ->
  SearchSpec.queue_wf (igraph_vcount graph) S0 ->
  SearchSpec.estack_wf (igraph_vcount graph) T0 ->
  SearchSpec.pivot_contract pivot /\
  exists r,
    ProvanShier.igraph_provan_shier_list (S (Z.to_nat (igraph_vcount graph)))
      graph S0 T0 source target result_ pivot = Some r.
Proof.
  intros Hpivot Hwf HS HT.
  assert (Hcontract : SearchSpec.pivot_contract pivot).
  { destruct Hpivot as [-> | [active ->]];
      [apply all_st_cuts_pivot_contract | apply all_st_mincuts_pivot_contract]. }
  split; [done |].
  apply provan_shier_fuel; try done.
  pose proof (free_length_le (igraph_vcount graph) S0 T0 (proj1 Hwf)). lia.
Qed.

Lemma provan_shier_list_terminates_witness :
  SearchSpec.pivot_contract AllStCuts.igraph_i_all_st_cuts_pivot /\
  exists r,
    ProvanShier.igraph_provan_shier_list (S (Z.to_nat (igraph_vcount Examples.diamond)))
      Examples.diamond (MarkedQueue.igraph_marked_queue_int_init 4)
      (EStack.igraph_estack_init 4) 0 3 [] AllStCuts.igraph_i_all_st_cuts_pivot = Some r.
Proof.
  apply (provan_shier_list_terminates Examples.diamond
           (MarkedQueue.igraph_marked_queue_int_init 4) (EStack.igraph_estack_init 4)
           0 3 [] AllStCuts.igraph_i_all_st_cuts_pivot).
  - left. reflexivity.
  - exact diamond_wf.
  - apply queue_wf_init. lia.
  - apply estack_wf_init. lia.
Defined.

(** C10.  A call of [igraph_provan_shier_list] that returns successfully
    hands back S (its vertices, bitmap and batch boundaries) and T (its stack
    and bitmap) exactly as it received them. *)
Theorem provan_shier_list_restores (pivot : ProvanShier.igraph_provan_shier_pivot_t)
    (graph : igraph_t) (source target : Z) (fuel : nat)
    (S0 S' : MarkedQueue.igraph_marked_queue_int_t) (T0 T' : EStack.igraph_estack_t)
    (result_ result' : list (list Z)) :
  ProvanShier.igraph_provan_shier_list fuel graph S0 T0 source target result_ pivot =
    Some (Ok (S', T', result')) ->
  S' = S0 /\ T' = T0.
Proof. apply provan_shier_frame. Qed.

Lemma provan_shier_list_restores_witness :
  ProvanShier.igraph_provan_shier_list 5 Examples.diamond
    (MarkedQueue.igraph_marked_queue_int_init 4) (EStack.igraph_estack_init 4) 0 3 []
    AllStCuts.igraph_i_all_st_cuts_pivot =
    Some (Ok (MarkedQueue.igraph_marked_queue_int_init 4, EStack.igraph_estack_init 4,
              [[0]; [0; 2]; [0; 1]; [0; 1; 2]])) /\
  (MarkedQueue.igraph_marked_queue_int_init 4 = MarkedQueue.igraph_marked_queue_int_init 4 /\
   EStack.igraph_estack_init 4 = EStack.igraph_estack_init 4).
Proof.
  split; [vm_compute; reflexivity |].
  apply (provan_shier_list_restores AllStCuts.igraph_i_all_st_cuts_pivot Examples.diamond
           0 3 5 _ _ _ _ [] [[0]; [0; 2]; [0; 1]; [0; 1; 2]]).
  vm_compute. reflexivity.
Defined.

(** ** The facades on concrete inputs *)

(** Scenario S3: the diamond. *)
Example all_st_cuts_diamond :
  AllStCuts.igraph_all_st_cuts 5 Examples.diamond true 0 3 =
  Some (Ok (Some [[0; 1]; [0; 3]; [1; 2]; [2; 3]], [[0]; [0; 2]; [0; 1]; [0; 1; 2]])).
Proof. vm_compute. reflexivity. Qed.

(** Every error of the search comes from a failed push. *)
Lemma provan_shier_list_error pivot graph source target fuel :
  forall S0 T0 result_ e,
    ProvanShier.igraph_provan_shier_list fuel graph S0 T0 source target result_ pivot =
      Some (IGRAPH_ERROR e) ->
    e = IGRAPH_FAILURE.
Proof.
  induction fuel as [| fuel IH]; intros S0 T0 result_ e Hrun; [done |].
  simpl in Hrun.
  destruct (pivot graph S0 T0 source target) as [[code v] Isv].
  destruct Isv as [| u Isv]; [by destruct (_ && _) |].
  unfold EStack.igraph_estack_push in Hrun.
  destruct (EStack.igraph_estack_iselement T0 v); [by injection Hrun as <- |].
  destruct (ProvanShier.igraph_provan_shier_list fuel graph S0 _ source target result_ pivot)
    as [[[[S1 T2] result1] | e1] |] eqn:Hleft; [| | done].
  2:{ injection Hrun as <-. by eapply IH. }
  destruct (fold_left ProvanShier.add_Isv (u :: Isv) _) as [S3 | e3] eqn:Hadd.
  - destruct (ProvanShier.igraph_provan_shier_list fuel graph S3 _ source target result1 pivot)
      as [[[[S4 T4] result2] | e2] |] eqn:Hright; [done | | done].
    injection Hrun as <-. by eapply IH.
  - injection Hrun as <-.
    clear -Hadd. revert Hadd. generalize (MarkedQueue.igraph_marked_queue_int_start_batch S1).
    induction (u :: Isv) as [| a l IHl]; intros q Hadd; [done |].
    cbn [fold_left] in Hadd.
    destruct (ProvanShier.add_Isv (Ok q) a) as [q' | e'] eqn:Ha; [by eapply IHl |].
    rewrite add_Isv_error in Hadd. injection Hadd as <-.
    unfold ProvanShier.add_Isv in Ha. simpl in Ha.
    destruct (MarkedQueue.igraph_marked_queue_int_iselement q a); [done |].
    unfold MarkedQueue.igraph_marked_queue_int_push in Ha.
    destruct (MarkedQueue.igraph_marked_queue_int_iselement q a); [| done].
    by injection Ha as <-.
Qed.

(** [igraph_all_st_cuts] never reports an invalid argument, whatever the
    source and the target are. *)
Lemma all_st_cuts_never_invalid_argument fuel graph want_cuts source target :
  AllStCuts.igraph_all_st_cuts fuel graph want_cuts source target <>
  Some (IGRAPH_ERROR IGRAPH_EINVAL).
Proof.
  unfold AllStCuts.igraph_all_st_cuts.
  destruct (igraph_is_directed graph); simpl; [| discriminate].
  destruct (ProvanShier.igraph_provan_shier_list _ _ _ _ _ _ _ _)
    as [[[[S1 T1] parts] | e] |] eqn:Hrun; [| | discriminate].
  - destruct want_cuts; [| discriminate].
    by destruct (fold_left _ _ _) as [[? ?] ?].
  - apply provan_shier_list_error in Hrun as ->. discriminate.
Qed.

(** The argument checks of [igraph_all_st_mincuts]. *)
Lemma all_st_mincuts_argument_checks maxflow components fuel graph want_cuts
    source target capacity :
  (igraph_is_directed graph = false ->
   AllStMinCuts.igraph_all_st_mincuts maxflow components fuel graph want_cuts
     source target capacity = Some (IGRAPH_ERROR IGRAPH_UNIMPLEMENTED)) /\
  (igraph_is_directed graph = true ->
   ~ (0 <= source < igraph_vcount graph) \/ ~ (0 <= target < igraph_vcount graph) \/
   source = target \/
   (exists c m, capacity = Some c /\ AllStMinCuts.igraph_vector_min c = Some m /\ (m <= 0)%Q) ->
   AllStMinCuts.igraph_all_st_mincuts maxflow components fuel graph want_cuts
     source target capacity = Some (IGRAPH_ERROR IGRAPH_EINVAL)).
Proof.
  unfold AllStMinCuts.igraph_all_st_mincuts. split.
  - by intros ->.
  - intros -> Hbad. simpl.
    destruct (Z.ltb_spec source 0); [done |].
    destruct (Z.geb_spec source (igraph_vcount graph)); [done |]. simpl.
    destruct (Z.ltb_spec target 0); [done |].
    destruct (Z.geb_spec target (igraph_vcount graph)); [done |]. simpl.
    destruct (Z.eqb_spec source target); [done |].
    destruct Hbad as [? | [? | [? | (c & m & -> & -> & Hm)]]]; try lia.
    apply Qle_bool_iff in Hm. by rewrite Hm.
Qed.

(** C6 (the code misses the checks).  With source = target = 0 on the graph
    0 -> 1, [igraph_all_st_cuts] succeeds with an empty list of cuts, where
    [igraph_all_st_mincuts] fails with the invalid-argument error. *)
Theorem all_st_cuts_accepts_equal_source_target :
  AllStCuts.igraph_all_st_cuts 3 Examples.one_edge true 0 0 = Some (Ok (Some [], [])) /\
  forall maxflow components,
    AllStMinCuts.igraph_all_st_mincuts maxflow components 3 Examples.one_edge true 0 0 None =
    Some (IGRAPH_ERROR IGRAPH_EINVAL).
Proof. split; [vm_compute; reflexivity |]. intros. reflexivity. Qed.

(** On [network10] the components can be numbered in any order; with the
    numbering reversed the cut {1, 2, 7, 9} of capacity 5 is listed. *)
Lemma all_st_mincuts_reversed_labelling :
  exists residual cuts partition1s,
    Residual.igraph_reverse_residual_graph Examples.network10 (Some Examples.capacity10)
      Examples.flow10 = Ok residual /\
    CutsSpec.is_scc_labelling residual (rev (Vec.range 10)) 10 = true /\
    AllStMinCuts.igraph_all_st_mincuts
      (Examples.maxflow_oracle 4 Examples.flow10)
      (Examples.components_oracle (rev (Vec.range 10)) 10)
      11 Examples.network10 true 0 9 (Some Examples.capacity10) =
    Some (Ok (4%Q, Some cuts, partition1s)) /\
    In [1; 2; 7; 9] cuts /\
    (CutsSpec.cut_capacity Examples.capacity10 [1; 2; 7; 9]%Z == 5)%Q.
Proof.
  eexists _, _, _. split; [vm_compute; reflexivity |].
  split; [vm_compute; reflexivity |]. split; [vm_compute; reflexivity |].
  split; [| vm_compute; reflexivity]. simpl. tauto.
Qed.

(** C3 (the code lists cuts that are not minimum).  On [network10] the
    flow [flow10] is feasible, of value 4, and the two edges that leave the
    source have capacity 4 together, so it is a maximum flow; no two vertices
    of the reverse residual graph reach each other, so every vertex is a
    component of its own.  With these answers of the two oracles the edge set
    {0, 5, 6, 8} is listed although its capacity is 5. *)
Theorem all_st_mincuts_lists_non_minimum_cut :
  CutsSpec.is_flow Examples.network10 Examples.capacity10 Examples.flow10 0 9 4 = true /\
  CutsSpec.crossing_edges Examples.network10 [0] = [0; 1] /\
  (CutsSpec.cut_capacity Examples.capacity10 [0; 1]%Z == 4)%Q /\
  exists residual cuts partition1s,
    Residual.igraph_reverse_residual_graph Examples.network10 (Some Examples.capacity10)
      Examples.flow10 = Ok residual /\
    CutsSpec.is_scc_labelling residual (Vec.range 10) 10 = true /\
    AllStMinCuts.igraph_all_st_mincuts
      (Examples.maxflow_oracle 4 Examples.flow10)
      (Examples.components_oracle (Vec.range 10) 10)
      11 Examples.network10 true 0 9 (Some Examples.capacity10) =
    Some (Ok (4%Q, Some cuts, partition1s)) /\
    In [0; 5; 6; 8] cuts /\
    (CutsSpec.cut_capacity Examples.capacity10 [0; 5; 6; 8]%Z == 5)%Q.
Proof.
  split; [vm_compute; reflexivity |]. split; [vm_compute; reflexivity |].
  split; [vm_compute; reflexivity |].
  eexists _, _, _. split; [vm_compute; reflexivity |].
  split; [vm_compute; reflexivity |]. split; [vm_compute; reflexivity |].
  split; [| vm_compute; reflexivity]. simpl. tauto.
Qed.

(** C2, as stated, fails: on the funnel graph with s = 0 and t = 3 the set
    {0, 2} holds s and not t, but it is not listed. *)
Lemma all_st_cuts_counterexample :
  exists cuts partition1s,
    AllStCuts.igraph_all_st_cuts 5 Examples.funnel true 0 3 =
      Some (Ok (Some cuts, partition1s)) /\
    ~ CutsSpec.lists_every_source_side Examples.funnel 0 3 partition1s.
Proof.
  exists [[0; 1]; [1; 2]; [3]], [[0]; [0; 1]; [0; 1; 2]].
  split; [vm_compute; reflexivity |].
  intros Hclaim. destruct (Hclaim [0; 2]) as (P' & HP' & Hsame).
  { split; [| split; [| split]].
    - repeat constructor; simpl; intuition lia.
    - simpl. intros x [<- | [<- | []]]; lia.
    - by left.
    - simpl. intuition lia. }
  destruct HP' as [<- | [<- | [<- | []]]].
  - destruct (proj1 (Hsame 2)) as [? | []]; [simpl; tauto | lia].
  - destruct (proj2 (Hsame 1)) as [? | [? | []]]; [simpl; tauto | lia | lia].
  - destruct (proj2 (Hsame 1)) as [? | [? | []]]; [simpl; tauto | lia | lia].
Qed.

(** ** What the search lists *)

Section SearchResults.
Import MarkedQueue EStack ProvanShier SearchSpec.

Lemma add_Isv_exact n S1 u S2 :
    queue_exact n S1 -> 0 <= u < n -> add_Isv (Ok S1) u = Ok S2 ->
    queue_exact n S2 /\ (forall x, In x (items S2) <-> In x (items S1) \/ x = u).
  Proof.
    intros ([Hlen Hmem] & Hnd & Hin) Hu. unfold add_Isv. simpl.
    unfold igraph_marked_queue_int_push.
    destruct (igraph_marked_queue_int_iselement S1 u) eqn:Hel.
    - intros [= <-]. split; [done |]. intros x. split; [tauto |].
      intros [? | ->]; [done |]. by apply Hmem.
    - intros [= <-]. simpl. split.
      + split; [split |]; simpl.
        * unfold Vec.size in *. by rewrite vset_length.
        * intros i. rewrite vget_vset, in_app_iff.
          destruct (Z.eqb_spec u i) as [-> | Hne]; simpl.
          -- intros _. right. by left.
          -- intros Hi. left. by apply Hmem.
        * split.
          -- apply NoDup_ListNoDup, NoDup_app. split; [by apply NoDup_ListNoDup |].
             split; [| apply NoDup_singleton].
             intros x Hx%list_elem_of_In ->%list_elem_of_singleton.
             apply Hin in Hx as [_ Hx]. congruence.
          -- intros x [Hx | [<- | []]]%in_app_iff.
             ++ destruct (Hin x Hx) as [Hr Hm]. split; [done |].
                unfold igraph_marked_queue_int_iselement in *. simpl.
                rewrite vget_vset. by destruct (_ && _).
             ++ split; [done |]. unfold igraph_marked_queue_int_iselement. simpl.
                apply vget_vset_eq. lia.
      + intros x. rewrite in_app_iff. simpl. intuition.
  Qed.

Lemma add_Isv_fold_exact n Isv : forall S1 S2,
    queue_exact n S1 -> (forall u, In u Isv -> 0 <= u < n) ->
    fold_left add_Isv Isv (Ok S1) = Ok S2 ->
    queue_exact n S2 /\ (forall x, In x (items S2) <-> In x (items S1) \/ In x Isv).
  Proof.
    induction Isv as [| a Isv IH]; intros S1 S2 HS1 Hr Hfold.
    - injection Hfold as <-. split; [done |]. simpl. tauto.
    - cbn [fold_left] in Hfold.
      destruct (add_Isv (Ok S1) a) as [S1' |] eqn:Hadd;
        [| by rewrite add_Isv_error in Hfold].
      apply (add_Isv_exact n) in Hadd as [HS1' Hit1]; [| done | apply Hr; by left].
      apply IH in Hfold as [HS2 Hit2]; [| done | intros u Hu; apply Hr; by right].
      split; [done |]. intros x. rewrite Hit2, Hit1. simpl. intuition.
  Qed.

Lemma start_batch_exact n S :
    queue_exact n S -> queue_exact n (igraph_marked_queue_int_start_batch S).
  Proof. done. Qed.

Lemma queue_exact_init n : 0 <= n -> queue_exact n (igraph_marked_queue_int_init n).
  Proof.
    intros Hn. split; [by apply queue_wf_init |]. split; [constructor |]. intros x [].
  Qed.

Lemma estack_push_wf n T v T1 :
    estack_wf n T -> igraph_estack_push T v = Ok T1 -> estack_wf n T1.
  Proof.
    unfold igraph_estack_push, estack_wf. destruct (igraph_estack_iselement T v); [done |].
    intros HT [= <-]. simpl. unfold Vec.size in *. by rewrite vset_length.
  Qed.

Variable pivot : igraph_provan_shier_pivot_t.
Variables (graph : igraph_t) (source target : Z).
Let n := igraph_vcount graph.
Variable Inv : igraph_marked_queue_int_t -> Prop.
Hypothesis Inv_step : forall S T code v Isv S3,
    Inv S -> estack_wf n T ->
    pivot graph S T source target = (code, v, Isv) -> Isv <> [] ->
    fold_left add_Isv Isv (Ok (igraph_marked_queue_int_start_batch S)) = Ok S3 ->
    Inv S3.

  (** Every set the search lists is the content of S at a leaf of the
      recursion; S is not empty there and the invariant holds. *)
Lemma provan_shier_results fuel : forall S T result_ S' T' result',
    Inv S -> estack_wf n T ->
    igraph_provan_shier_list fuel graph S T source target result_ pivot =
      Some (Ok (S', T', result')) ->
    exists new, result' = result_ ++ new /\
      Forall (fun P => exists S1, Inv S1 /\ P = items S1 /\ P <> []) new.
  Proof.
    induction fuel as [| fuel IH]; intros S T result_ S' T' result' HS HT Hrun; [done |].
    simpl in Hrun.
    destruct (pivot graph S T source target) as [[code v] Isv] eqn:Hpivot.
    destruct Isv as [| u Isv].
    { destruct (_ && _) eqn:Hc; injection Hrun as <- <- <-.
      - exists [items S]. split; [done |]. constructor; [| constructor].
        exists S. split; [done |]. split; [done |].
        apply andb_true_iff in Hc as [Hsz%negb_true_iff%Z.eqb_neq _]. intros Hnil.
        apply Hsz. unfold igraph_marked_queue_int_size. by rewrite Hnil.
      - exists []. by rewrite app_nil_r. }
    destruct (igraph_estack_push T v) as [T1 |] eqn:Hpush; [| done].
    destruct (igraph_provan_shier_list fuel graph S T1 source target result_ pivot)
      as [[[[S1 T2] result1] |] |] eqn:Hleft; [| done | done].
    pose proof (provan_shier_frame _ _ _ _ _ _ _ _ _ _ _ Hleft) as [-> ->].
    apply IH in Hleft as [new1 [-> Hnew1]]; [| done | by eapply estack_push_wf].
    rewrite (estack_push_pop _ _ _ Hpush) in Hrun.
    destruct (fold_left add_Isv (u :: Isv) _) as [S3 |] eqn:Hadd; [| done].
    destruct (igraph_provan_shier_list fuel graph S3 T source target _ pivot)
      as [[[[S4 T4] result2] |] |] eqn:Hright; [| done | done].
    injection Hrun as <- <- <-.
    apply IH in Hright as [new2 [-> Hnew2]]; [| | done].
    - exists (new1 ++ new2). split; [by rewrite app_assoc |]. by apply Forall_app.
    - by eapply (Inv_step S T code v (u :: Isv)).
  Qed.
End SearchResults.

(** ** From partitions to edge cuts *)

Lemma fold_vset_get_any {A} (d b : A) (us : list Z) : forall m i,
  0 <= i < Vec.size m ->
  Vec.get d (fold_left (fun m u => vset m u b) us m) i =
  if existsb (Z.eqb i) us then b else Vec.get d m i.
Proof.
  induction us as [| u us IH]; intros m i Hi; [done |].
  simpl. rewrite IH by (unfold Vec.size in *; by rewrite vset_length).
  destruct (existsb (Z.eqb i) us); [by rewrite orb_true_r |].
  rewrite orb_false_r, vget_vset, (Z.eqb_sym i u).
  destruct (Z.eqb_spec u i) as [-> | Hne]; simpl; [| done].
  destruct (Z.leb_spec 0 i); [| lia]. destruct (Z.ltb_spec i (Vec.size m)); [done | lia].
Qed.

Lemma nth_error_lookup_eq {A} (l : list A) (k : nat) : nth_error l k = l !! k.
Proof. revert k. induction l as [| a l IH]; intros [| k]; simpl; auto. Qed.

Section EdgeCuts.
Import AllStCuts CutsSpec.
Variable graph : igraph_t.
Let n := igraph_vcount graph.

Lemma count_step_fold inS i l : forall c,
    fold_left (count_step graph inS i) l c =
    c + Z.of_nat (length (List.filter (crosses graph inS i) l)).
  Proof.
    induction l as [| j l IH]; intros c; simpl; [lia |].
    rewrite IH. unfold count_step. destruct (crosses graph inS i j); simpl; lia.
  Qed.

Lemma add_step_fold inS i l : forall pre junk,
    length junk = length (List.filter (crosses graph inS i) l) ->
    fst (fold_left (add_step graph inS i) l (pre ++ junk, Vec.size pre)) =
    pre ++ List.filter (crosses graph inS i) l.
  Proof.
    induction l as [| j l IH]; intros pre junk Hlen; simpl in *.
    - destruct junk; [done | discriminate].
    - destruct (crosses graph inS i j); simpl in *.
      + destruct junk as [| y junk]; [discriminate |].
        rewrite vset_next_cell.
        replace (Vec.size pre + 1) with (Vec.size (pre ++ [j]))
          by (unfold Vec.size; rewrite length_app; simpl; lia).
        rewrite IH by (simpl in Hlen; lia). by rewrite <- app_assoc.
      + by apply IH.
  Qed.

Lemma cut_step_spec partition1s inS cut cuts (k : nat) part :
    nth_error partition1s k = Some part ->
    (forall x, In x part -> 0 <= x < n) ->
    length inS = Z.to_nat n ->
    (forall x, VECTOR inS x <= Z.of_nat k) ->
    exists inS',
      cut_step graph partition1s (inS, cut, cuts) (Z.of_nat k) =
        (inS', crossing_edges graph part, cuts ++ [crossing_edges graph part]) /\
      length inS' = Z.to_nat n /\
      (forall x, VECTOR inS' x <= Z.of_nat (S k)).
  Proof.
    intros Hpart Hr Hlen Hle. unfold cut_step.
    rewrite vget_of_nat, (nth_error_nth _ _ _ Hpart).
    set (inS' := fold_left (mark_step (Z.of_nat k)) part inS).
    assert (Hlen' : length inS' = Z.to_nat n).
    { subst inS'. unfold mark_step. by rewrite fold_vset_length. }
    assert (Hget : forall x, VECTOR inS' x =
                     if inb x part then Z.of_nat k + 1 else VECTOR inS x).
    { intros x. destruct (decide (0 <= x < n)) as [Hx | Hx].
      - subst inS'. unfold mark_step. rewrite fold_vset_get_any; [done |].
        unfold Vec.size. lia.
      - assert (Hnot : inb x part = false).
        { apply not_true_iff_false. intros Hin%existsb_eqb_In. by apply Hr in Hin. }
        rewrite Hnot. destruct (Z.ltb_spec x 0); [by rewrite !vget_neg |].
        rewrite !vget_out; [done | |]; unfold Vec.size; lia. }
    assert (Hmark : forall x, (VECTOR inS' x =? Z.of_nat k + 1) = inb x part).
    { intros x. rewrite Hget. destruct (inb x part); [apply Z.eqb_refl |].
      apply Z.eqb_neq. specialize (Hle x). lia. }
    assert (Hcross : forall l, List.filter (crosses graph inS' (Z.of_nat k)) l =
              List.filter (fun j => inb (IGRAPH_FROM graph j) part &&
                                    negb (inb (IGRAPH_TO graph j) part)) l).
    { intros l. apply filter_ext. intros j. unfold crosses. by rewrite !Hmark. }
    rewrite count_step_fold. simpl.
    set (F := List.filter (crosses graph inS' (Z.of_nat k)) (Vec.range (igraph_ecount graph))).
    pose proof (add_step_fold inS' (Z.of_nat k) (Vec.range (igraph_ecount graph)) []
                  (Vec.resize 0 cut (Z.of_nat (length F)))) as Hadd.
    simpl in Hadd. fold F in Hadd.
    destruct (fold_left (add_step graph inS' (Z.of_nat k)) _ _) as [cut' sz].
    simpl in Hadd. rewrite Hadd by (rewrite vresize_length; lia).
    exists inS'. subst F. rewrite Hcross. split; [done |]. split; [done |].
    intros x. rewrite Hget. destruct (inb x part); [lia |]. specialize (Hle x). lia.
  Qed.

Lemma cut_steps_spec partition1s :
    (forall part, In part partition1s -> forall x, In x part -> 0 <= x < n) ->
    forall k, (k <= length partition1s)%nat ->
    exists inS cut,
      fold_left (cut_step graph partition1s) (Vec.range (Z.of_nat k)) (Vec.init 0 n, [], []) =
        (inS, cut, map (crossing_edges graph) (take k partition1s)) /\
      length inS = Z.to_nat n /\
      (forall x, VECTOR inS x <= Z.of_nat k).
  Proof.
    intros Hr. induction k as [| k IH]; intros Hk.
    - exists (Vec.init 0 n), []. split; [done |]. split; [apply vinit_length |].
      intros x. unfold Vec.init, Vec.get. destruct (x <? 0); [done |].
      destruct (nth_in_or_default (Z.to_nat x) (replicate (Z.to_nat n) 0) 0) as [Hin | ->];
        [| done].
      apply list_elem_of_In, elem_of_replicate in Hin as [-> _]. done.
    - destruct IH as (inS & cut & Hfold & Hlen & Hle); [lia |].
      destruct (lookup_lt_is_Some_2 partition1s k) as [part Hpart]; [lia |].
      rewrite range_succ, fold_left_app, Hfold. cbn [fold_left].
      destruct (cut_step_spec partition1s inS cut
                  (map (crossing_edges graph) (take k partition1s)) k part)
        as (inS' & -> & Hlen' & Hle'); try done.
      { by rewrite nth_error_lookup_eq. }
      { intros x Hx. apply (Hr part); [| done].
        apply list_elem_of_In, list_elem_of_lookup. by exists k. }
      exists inS', (crossing_edges graph part). split; [| done].
      by rewrite (take_S_r _ _ _ Hpart), map_app.
  Qed.
End EdgeCuts.

(** ** The subgraph on the complement of S is a graph *)

Lemma induced_subgraph_wf graph S :
  graph_wf graph ->
  graph_wf (fst (fst (Visitor.igraph_induced_subgraph_map graph
     (List.filter (fun i => negb (MarkedQueue.igraph_marked_queue_int_iselement S i))
                  (Vec.range (igraph_vcount graph)))))).
Proof.
  intros Hwf. split; simpl; [apply vsize_nonneg |].
  apply Forall_forall. intros [a b] Hin%list_elem_of_In.
  apply in_map_iff in Hin as ([u w] & [= <- <-] & [_ Hkept]%filter_In).
  simpl in *. apply andb_true_iff in Hkept as [Hu%Z.ltb_lt Hw%Z.ltb_lt].
  assert (Hkeep : forall x,
    0 < VECTOR (fst (fold_left Visitor.subgraph_map_step
      (List.filter (fun i => negb (MarkedQueue.igraph_marked_queue_int_iselement S i))
         (Vec.range (igraph_vcount graph))) (Vec.init 0 (igraph_vcount graph), 0))) x ->
    In x (List.filter (fun i => negb (MarkedQueue.igraph_marked_queue_int_iselement S i))
            (Vec.range (igraph_vcount graph)))).
  { intros x Hx.
    destruct (in_dec Z.eq_dec x
      (List.filter (fun i => negb (MarkedQueue.igraph_marked_queue_int_iselement S i))
         (Vec.range (igraph_vcount graph)))) as [Hin | Hout]; [done |].
    apply (induced_map_outside graph S) in Hout. lia. }
  split; apply (induced_map_inverse graph S); by apply Hkeep.
Qed.

(** ** The edges of the dominator tree *)

Section DomtreeEdges.
Import Dominator DominatorSpec.
Variables (root n : Z) (mydom : list Z).


Lemma edge_pairs_replicate (k : nat) p :
    In p (edge_pairs (replicate k 0)) -> p = (0, 0).
  Proof.
    induction k as [k IH] using lt_wf_ind.
    destruct k as [| [| k]]; simpl; [done | done |].
    intros [<- | Hin]; [done |]. apply (IH k); [lia | done].
  Qed.

Lemma edge_pairs_insert2 a b p : forall (k : nat) e,
    In p (edge_pairs (<[S (2 * k) := b]> (<[(2 * k)%nat := a]> e))) ->
    In p (edge_pairs e) \/ p = (a, b).
  Proof.
    induction k as [| k IH]; intros e.
    - destruct e as [| x [| y e]]; simpl; [tauto | tauto |].
      intros [<- | Hin]; [by right | left; by right].
    - replace (2 * S k)%nat with (S (S (2 * k))) by lia.
      destruct e as [| x [| y e]]; simpl; [tauto | tauto |].
      intros [<- | Hin]; [left; by left |].
      apply IH in Hin as [Hin | ->]; [left; by right | by right].
  Qed.

Lemma domtree_step_ok l : forall edges (k : nat),
    (forall i, In i l -> 0 <= i < n) ->
    (forall p, In p (edge_pairs edges) -> domtree_edge_ok root n p) ->
    forall p,
      In p (edge_pairs (fst (fold_left (domtree_step root IGRAPH_IN mydom) l
                                       (edges, 2 * Z.of_nat k)))) ->
      domtree_edge_ok root n p.
  Proof.
    induction l as [| i l IH]; intros edges k Hr Hok; [done |].
    cbn [fold_left]. unfold domtree_step at 2.
    destruct (negb (i =? root) && (VECTOR mydom i >=? 0)) eqn:Hc.
    - replace (2 * Z.of_nat k + 2) with (2 * Z.of_nat (S k)) by lia.
      apply IH; [intros j Hj; apply Hr; by right |].
      intros p Hp. unfold Vec.set in Hp.
      destruct (Z.ltb_spec (2 * Z.of_nat k + 1) 0); [lia |].
      destruct (Z.ltb_spec (2 * Z.of_nat k) 0); [lia |].
      replace (Z.to_nat (2 * Z.of_nat k + 1)) with (S (2 * k)) in Hp by lia.
      replace (Z.to_nat (2 * Z.of_nat k)) with (2 * k)%nat in Hp by lia.
      apply edge_pairs_insert2 in Hp as [Hp | ->]; [by apply Hok |].
      left. simpl. apply andb_true_iff in Hc as [Hne%negb_true_iff%Z.eqb_neq _].
      split; [done |]. apply Hr. by left.
    - apply IH; [intros j Hj; apply Hr; by right | done].
  Qed.
End DomtreeEdges.

(** ** Step 1 of the dominator tree: numbering, and the vertices left out *)

Lemma In_take {A} (x : A) k l : In x (take k l) -> In x l.
Proof.
  intros (i & Hi & _)%list_elem_of_In%elem_of_take.
  apply list_elem_of_In, list_elem_of_lookup. by exists i.
Qed.

Section DominatorStep1.
Import Dominator.

  (** The numbering loop counts the visited vertices: it overwrites only
      cells it has already read. *)
Lemma number_steps (visited : list Z) (pad : nat) semi0 :
    (forall x, In x visited -> 0 <= x) ->
    let order := visited ++ replicate pad (-1) in
    forall k : nat, (k <= length order)%nat ->
    exists semi vertex,
      fold_left number_step (Vec.range (Z.of_nat k)) (semi0, order, 0) =
        (semi, vertex, Z.of_nat (Nat.min k (length visited))) /\
      length vertex = length order /\
      forall i, Z.of_nat k <= i -> VECTOR vertex i = VECTOR order i.
  Proof.
    intros Hpos order. induction k as [| k IH]; intros Hk.
    - exists semi0, order. done.
    - destruct IH as (semi & vertex & Hfold & Hlen & Hsame); [lia |].
      rewrite range_succ, fold_left_app, Hfold. cbn [fold_left]. unfold number_step.
      rewrite Hsame by lia. rewrite vget_of_nat.
      destruct (decide (k < length visited)%nat) as [Hlt | Hge].
      + assert (Hnth : nth k order 0 = nth k visited 0) by (subst order; by rewrite app_nth1).
        rewrite Hnth.
        assert (0 <= nth k visited 0) by (apply Hpos, nth_In; lia).
        destruct (Z.geb_spec (nth k visited 0) 0); [| lia].
        eexists _, _. split.
        * f_equal. lia.
        * split; [by rewrite vset_length |].
          intros i Hi. rewrite vget_vset_ne by lia. apply Hsame. lia.
      + assert (Hnth : nth k order 0 = -1).
        { subst order. rewrite app_nth2 by lia.
          rewrite length_app, length_replicate in Hk.
          rewrite nth_lookup, lookup_replicate_2; [done | lia]. }
        rewrite Hnth. replace (Nat.min (S k) (length visited)) with (Nat.min k (length visited)) by lia.
        change (-1 >=? 0) with false. cbv iota.
        exists semi, vertex. split; [done |]. split; [done |].
        intros i Hi. apply Hsame. lia.
  Qed.

  (** The loop that collects the vertices the search did not reach. *)
Lemma leftout_steps parent n l : forall pre junk,
    Vec.size pre + Vec.size junk = n ->
    (length junk <= length (List.filter (fun j => (VECTOR parent j <? -1)%Z) l))%nat ->
    fst (fold_left (leftout_step parent n) l (pre ++ junk, Vec.size pre)) =
    pre ++ take (length junk) (List.filter (fun j => (VECTOR parent j <? -1)%Z) l).
  Proof.
    induction l as [| a l IH]; intros pre junk Hn Hlen.
    - simpl in *. destruct junk; [done | simpl in Hlen; lia].
    - cbn [fold_left]. unfold leftout_step at 2. destruct junk as [| y junk].
      + destruct (Z.ltb_spec (Vec.size pre) n);
          [unfold Vec.size in *; simpl in *; lia |].
        rewrite (IH pre []); [done | done | simpl; lia].
      + destruct (Z.ltb_spec (Vec.size pre) n);
          [| unfold Vec.size in *; simpl in *; lia].
        simpl in Hlen |- *. destruct (VECTOR parent a <? -1).
        * rewrite vset_next_cell.
          replace (Vec.size pre + 1) with (Vec.size (pre ++ [a]))
            by (unfold Vec.size; rewrite length_app; simpl; lia).
          rewrite IH; [by rewrite <- app_assoc | | simpl in Hlen; lia].
          unfold Vec.size in *. rewrite length_app. simpl in *. lia.
        * by rewrite (IH pre (y :: junk)).
  Qed.

  (** The vertices with a parent are not more than the visited ones. *)
Lemma unvisited_count n parent (visited : list Z) :
    (forall j, 0 <= j < n -> ~ In j visited -> VECTOR parent j = -2) ->
    (Z.to_nat n - length visited <=
     length (List.filter (fun j => (VECTOR parent j <? -1)%Z) (Vec.range n)))%nat.
  Proof.
    intros Hun.
    pose proof (filter_length_split (fun j => (VECTOR parent j <? -1)%Z) (Vec.range n)) as Hsplit.
    rewrite range_length in Hsplit.
    assert (length (List.filter (fun j => negb (VECTOR parent j <? -1)%Z) (Vec.range n))
            <= length visited)%nat; [| lia].
    apply NoDup_incl_length.
    - apply List.NoDup_filter, NoDup_ListNoDup, range_NoDup.
    - intros j [Hj%range_In Hp%negb_true_iff%Z.ltb_ge]%filter_In.
      destruct (in_dec Z.eq_dec j visited) as [Hin | Hout]; [done |].
      specialize (Hun j Hj Hout). lia.
  Qed.
End DominatorStep1.

Section DominatorOutputs.
Import Dominator DominatorSpec.

  (** What the pivot reads off a successful call with mode IN: the root is
      a vertex, no tree edge starts at the root, and the vertices left out
      are vertices other than the root. *)
Lemma dominator_tree_in_success g root d domtree leftout0 :
    graph_wf g ->
    igraph_dominator_tree g root (mk_out None (Some None) (Some [])) IGRAPH_IN =
      (IGRAPH_SUCCESS, mk_out d (Some (Some domtree)) (Some leftout0)) ->
    0 <= root < igraph_vcount g /\
    igraph_is_directed domtree = true /\
    (forall p, In p (igraph_edges domtree) -> domtree_edge_ok root (igraph_vcount g) p) /\
    (forall j, In j leftout0 -> 0 <= j < igraph_vcount g /\ j <> root).
  Proof.
    intros Hwf. unfold igraph_dominator_tree.
    destruct (Z.ltb_spec root 0); [done |].
    destruct (Z.geb_spec root (igraph_vcount g)); [done |].
    cbn [orb]. destruct (igraph_is_directed g); [| done]. cbn [negb].
    destruct (Visitor.igraph_dfs g IGRAPH_IN _ _ root tt) as [[[order parent] []] |] eqn:Hdfs;
      [| done].
    destruct (fold_left number_step _ _) as [[semi vertex] cs] eqn:Hnum.
    cbv beta iota zeta. cbn [Dominator.domtree Dominator.leftout Dominator.dom option_map].
    set (mydom := vset _ root (-1)).
    destruct (fold_left (domtree_step root IGRAPH_IN mydom) _ _) as [edges ptr] eqn:Hedges.
    unfold igraph_create.
    destruct (Nat.odd (length edges)); [done |].
    destruct (negb (forallb _ edges)); [done |].
    destruct (igraph_vcount g <? 0); [done |].
    intros [= <- <- <-]. split; [lia |]. split; [done |]. split.
    - cbn [igraph_edges]. intros p Hp.
      pose proof (domtree_step_ok root (igraph_vcount g) mydom (Vec.range (igraph_vcount g))
                    (Vec.init 0 (cs * 2 - 2)) 0) as Hok.
      change (2 * Z.of_nat 0) with 0 in Hok. rewrite Hedges in Hok.
      apply Hok; [by intros i Hi%range_In | | done].
      intros q Hq%edge_pairs_replicate. by right.
    - apply (igraph_dfs_spec g IGRAPH_IN _ _ Hwf (fun _ => True) (fun _ => True)) in Hdfs
        as (visited & Horder & _ & Hnd & Hvis & Hlenp & Hproot & Hpun & _); try done.
      assert (Hpos : forall x, In x visited -> 0 <= x) by (intros x [Hx _]%Hvis; lia).
      destruct (number_steps visited (Z.to_nat (igraph_vcount g) - length visited)
                  (Vec.init 0 (igraph_vcount g)) Hpos (length order))
        as (semi' & vertex' & Hfold & _); [by rewrite Horder |].
      assert (Hlo : length order = Z.to_nat (igraph_vcount g)).
      { rewrite Horder, length_app, length_replicate.
        assert (length visited <= Z.to_nat (igraph_vcount g))%nat; [| lia].
        rewrite <- (range_length (igraph_vcount g)). apply NoDup_incl_length.
        - by apply NoDup_ListNoDup.
        - intros x [Hx _]%Hvis. by apply range_In. }
      rewrite Hlo, Z2Nat.id, <- Horder, Hnum in Hfold by lia.
      injection Hfold as _ _ Hcs.
      pose proof (unvisited_count (igraph_vcount g) parent visited Hpun) as Hcount.
      pose proof (leftout_steps parent (igraph_vcount g - cs) (Vec.range (igraph_vcount g)) []
                    (Vec.resize 0 [] (igraph_vcount g - cs))) as Hleft.
      simpl in Hleft. change (Vec.size (@nil Z)) with 0 in Hleft. rewrite Hleft.
      + intros j Hj%In_take. apply filter_In in Hj as [Hj%range_In Hp%Z.ltb_lt].
        split; [done |]. intros ->. lia.
      + unfold Vec.size. rewrite vresize_length. lia.
      + rewrite vresize_length. lia.
  Qed.
End DominatorOutputs.

(** ** The set I(S,v) of the all-cuts pivot *)

Lemma filter_all {A} (f : A -> bool) (l : list A) :
  (forall x, In x l -> f x = true) -> List.filter f l = l.
Proof.
  induction l as [| a l IH]; intros Hf; [done |]. simpl.
  rewrite (Hf a) by (by left). f_equal. apply IH. intros x Hx. apply Hf. by right.
Qed.

Lemma vget_range n j : 0 <= j < n -> VECTOR (Vec.range n) j = j.
Proof.
  intros Hj. unfold Vec.get. destruct (Z.ltb_spec j 0); [lia |].
  rewrite range_nth by lia. lia.
Qed.

Section Relabel.
Import AllStCuts.
Variable keep : list Z.

Lemma relabel_leftout_map l0 G0 :
    fst (fold_left (relabel_leftout keep) (Vec.range (Vec.size l0)) (l0, G0)) =
    map (VECTOR keep) l0.
  Proof.
    assert (Hk : forall k : nat, (k <= length l0)%nat ->
              fst (fold_left (relabel_leftout keep) (Vec.range (Z.of_nat k)) (l0, G0)) =
              map (VECTOR keep) (take k l0) ++ drop k l0).
    { induction k as [| k IH]; intros Hle; [done |].
      rewrite range_succ, fold_left_app.
      destruct (fold_left _ (Vec.range (Z.of_nat k)) _) as [L G]. simpl in IH.
      cbn [fold_left]. unfold relabel_leftout. cbn [fst].
      destruct (lookup_lt_is_Some_2 l0 k) as [y Hy]; [lia |].
      rewrite IH by lia. rewrite (drop_S _ _ _ Hy).
      assert (Hsz : Vec.size (map (VECTOR keep) (take k l0)) = Z.of_nat k).
      { unfold Vec.size. rewrite length_map, length_take. lia. }
      rewrite vget_of_nat, app_nth2 by (rewrite length_map, length_take; lia).
      rewrite <- Hsz at 1. rewrite vset_next_cell.
      rewrite length_map, length_take.
      replace (k - k `min` length l0)%nat with 0%nat by lia. simpl.
      by rewrite (take_S_r _ _ _ Hy), map_app. }
    unfold Vec.size. rewrite Hk by lia.
    by rewrite firstn_all, drop_all, app_nil_r.
  Qed.

Lemma relabel_leftout_clears is_ : forall l0 G0 i,
    VECTORB (snd (fold_left (relabel_leftout keep) is_ (l0, G0))) i = true ->
    VECTORB G0 i = true.
  Proof.
    induction is_ as [| a is_ IH]; intros l0 G0 i; [done |].
    cbn [fold_left]. unfold relabel_leftout at 2. intros Hi%IH.
    rewrite vget_vset in Hi. by destruct (_ && _).
  Qed.
End Relabel.

Section AllCutsIsv.
Import Visitor MarkedQueue EStack ProvanShier AllStCuts SearchSpec DominatorSpec.

  (** The vertices the all-cuts pivot adds to S are vertices of the graph
      other than the target; the pivot vertex is one of them, and it is the
      source when S is empty. *)
Lemma all_st_cuts_pivot_Isv graph S T source target code v Isv :
    graph_wf graph -> queue_wf (igraph_vcount graph) S ->
    igraph_i_all_st_cuts_pivot graph S T source target = (code, v, Isv) ->
    Isv <> [] ->
    (forall u, In u Isv -> 0 <= u < igraph_vcount graph /\ u <> target) /\
    In v Isv /\
    (igraph_marked_queue_int_size S = 0 -> v = source).
  Proof.
    intros Hwf HS Hpivot Hne.
    destruct (all_st_cuts_pivot_unfold _ _ _ _ _ _ _ _ Hwf HS Hpivot Hne)
      as (d & domtree & leftout0 & G0 & leftout & G & M & Hdom & HG0 & Hrel & HG & HlenG
          & HM & Hloop).
    set (n := igraph_vcount graph) in *.
    set (keep := List.filter (fun i => negb (igraph_marked_queue_int_iselement S i))
                             (Vec.range n)) in *.
    set (Sbar_map := fst (fold_left subgraph_map_step keep (Vec.init 0 n, 0))) in *.
    set (root := VECTOR Sbar_map target - 1) in *.
    assert (Hkeep : forall x, 0 <= x < n -> VECTORB G x = true ->
              0 <= VECTOR Sbar_map x - 1 < Vec.size keep /\
              VECTOR keep (VECTOR Sbar_map x - 1) = x).
    { intros x Hx HGx. apply (induced_map_inverse graph S), keep_In.
      split; [done | by apply HG]. }
    apply (pivot_loop_spec graph T target Hwf) in Hloop
      as (HvM & HvT & Hvt & [rest ->] & Nuv0 & parents & Hdfs & Hin); [| | done].
    2:{ intros m Hm. destruct (HM m Hm) as [Hmr HmG].
        split; [apply filter_In; split; [by apply range_In | done] |]. by apply Hkeep. }
    destruct (HM v HvM) as [Hvr HvG].
    destruct (Hkeep v Hvr HvG) as [Hmin Hminv].
    (* the dominator tree of the subgraph *)
    apply dominator_tree_in_success in Hdom
      as (Hroot & Hdir & Hedges & Hleft0); [| by apply induced_subgraph_wf].
    change (igraph_vcount (fst (fst (igraph_induced_subgraph_map graph keep))))
      with (Vec.size keep) in Hroot, Hedges, Hleft0.
    assert (Htarget : In target keep /\ VECTOR keep root = target).
    { assert (Hin' : In target keep).
      { destruct (in_dec Z.eq_dec target keep) as [Hy | Hno]; [done |].
        apply (induced_map_outside graph S) in Hno. fold n keep Sbar_map in Hno.
        subst root. lia. }
      split; [done |]. by apply (induced_map_inverse graph S). }
    destruct Htarget as [Htk Htroot].
    assert (Hinj : forall x, 0 <= x < Vec.size keep -> x <> root -> VECTOR keep x <> target).
    { intros x Hx Hxr Heq.
      destruct (induced_map_index graph S x Hx) as [_ Hix].
      fold n keep Sbar_map in Hix. rewrite Heq in Hix. subst root. lia. }
    assert (Hminr : VECTOR Sbar_map v - 1 <> root).
    { intros Heq. apply Hvt. by rewrite <- Hminv, Heq. }
    (* the subtree below the pivot avoids the root *)
    apply (igraph_dfs_basic domtree IGRAPH_IN _ _
             (fun x => x <> root /\ 0 <= x < Vec.size keep) (fun _ => True)) in Hdfs
      as (_ & (visited & Hord & Hvis) & _); [| | done | done | done | done].
    2:{ intros y x [Hy1 Hy2] Hx%neighbors_directed_in; [| done].
        destruct (Hedges _ Hx) as [Hok | [= -> ->]]; [done | done]. }
    assert (Hrel' : leftout = map (VECTOR keep) leftout0).
    { rewrite <- (relabel_leftout_map keep leftout0 G0). by rewrite Hrel. }
    split; [| split].
    - intros u Hu. destruct (Hin u Hu) as [Hur Hu']. split; [done |].
      apply in_app_iff in Hu' as [Hu' | Hu'].
      + apply in_map_iff in Hu' as (x & <- & [Hx Hx0]%nonneg_prefix_In).
        apply In_take in Hx. rewrite Hord in Hx.
        apply in_app_iff in Hx as [[<- | Hx] | Hx].
        * by apply Hinj.
        * destruct (Hvis x Hx). by apply Hinj.
        * apply list_elem_of_In, elem_of_replicate in Hx as [-> _]. lia.
      + rewrite Hrel' in Hu'. apply in_map_iff in Hu' as (j & <- & Hj).
        destruct (Hleft0 j Hj). by apply Hinj.
    - by left.
    - intros Hsz.
      assert (HG0v : VECTORB G0 v = true).
      { apply (relabel_leftout_clears keep (Vec.range (Vec.size leftout0)) leftout0).
        by rewrite Hrel. }
      rewrite HG0, Hsz in HG0v. simpl in HG0v. rewrite vget_vset in HG0v.
      destruct (Z.eqb_spec (VECTOR Sbar_map source - 1) v) as [Hsv | Hsv]; simpl in HG0v.
      2:{ unfold Vec.init, Vec.get in HG0v. destruct (v <? 0); [done |].
          by rewrite nth_lookup, lookup_replicate_2 in HG0v by lia. }
      assert (Hall : keep = Vec.range n).
      { apply filter_all. intros x _. apply negb_true_iff.
        by apply (queue_empty_no_member n). }
      destruct (in_dec Z.eq_dec source keep) as [Hy | Hno].
      + apply (induced_map_inverse graph S) in Hy as [Hr Hy].
        fold n keep Sbar_map in Hr, Hy. rewrite Hsv in Hy, Hr.
        rewrite Hall in Hy. rewrite vget_range in Hy; [done |].
        rewrite Hall in Hr. unfold Vec.size in Hr. rewrite range_length in Hr. lia.
      + apply (induced_map_outside graph S) in Hno. fold n keep Sbar_map in Hno. lia.
  Qed.
End AllCutsIsv.

(** ** The depth-first search tree *)

Section Rank.
Import DominatorSpec.

Lemma rank_cons_ne ord z x : z <> x -> rank (z :: ord) x = rank ord x.
  Proof. intros Hne. simpl. by destruct (Z.eqb_spec z x). Qed.

Lemma rank_cons_eq ord z : rank (z :: ord) z = length ord.
  Proof. simpl. by rewrite Z.eqb_refl. Qed.

Lemma rank_lt ord x : In x ord -> (rank ord x < length ord)%nat.
  Proof.
    induction ord as [| y t IH]; [done |]. intros Hin. simpl.
    destruct (Z.eqb_spec y x) as [-> | Hne]; [lia |].
    destruct Hin as [-> | Hin]; [done |]. specialize (IH Hin). lia.
  Qed.

Lemma rank_inj ord x y :
    In x ord -> In y ord -> rank ord x = rank ord y -> x = y.
  Proof.
    induction ord as [| z t IH]; [done |]. simpl. intros Hx Hy.
    destruct (Z.eqb_spec z x) as [Hzx | Hnx], (Z.eqb_spec z y) as [Hzy | Hny].
    - congruence.
    - destruct Hy as [Hy | Hy]; [done |]. pose proof (rank_lt t y Hy). lia.
    - destruct Hx as [Hx | Hx]; [done |]. pose proof (rank_lt t x Hx). lia.
    - destruct Hx as [Hx | Hx]; [done |]. destruct Hy as [Hy | Hy]; [done |]. by apply IH.
  Qed.

  (** The vertex with a given number. *)
Lemma rank_nth ord x d : In x ord -> nth (rank ord x) (rev ord) d = x.
  Proof.
    induction ord as [| y t IH]; [done |]. intros Hin. simpl.
    destruct (Z.eqb_spec y x) as [-> | Hne].
    - rewrite app_nth2 by (rewrite length_rev; lia).
      by rewrite length_rev, Nat.sub_diag.
    - destruct Hin as [-> | Hin]; [done |].
      rewrite app_nth1 by (rewrite length_rev; by apply rank_lt). by apply IH.
  Qed.

Lemma nth_rank ord (k : nat) d :
    NoDup ord -> (k < length ord)%nat -> rank ord (nth k (rev ord) d) = k.
  Proof.
    intros Hnd Hk.
    assert (Hin : In (nth k (rev ord) d) ord).
    { apply in_rev, nth_In. by rewrite length_rev. }
    apply NoDup_ListNoDup, List.NoDup_rev in Hnd.
    apply (proj1 (List.NoDup_nth (rev ord) d) Hnd).
    - rewrite length_rev. by apply rank_lt.
    - by rewrite length_rev.
    - by apply rank_nth.
  Qed.
End Rank.

Section Scan.
Import Visitor.

Lemma dfs_scan_some_split added l : forall ptr nei ptr',
    dfs_scan l added ptr = (Some nei, ptr') ->
    exists skipped rest,
      l = skipped ++ nei :: rest /\
      (forall y, In y skipped -> VECTORB added y = true) /\
      VECTORB added nei = false /\
      ptr' = ptr + Z.of_nat (length skipped) + 1.
  Proof.
    induction l as [| a l IH]; intros ptr nei ptr' Hscan; [done |].
    simpl in Hscan. destruct (VECTORB added a) eqn:Ha.
    - apply IH in Hscan as (skipped & rest & -> & Hsk & Hnei & ->).
      exists (a :: skipped), rest. split; [done |]. split.
      + intros y [<- | Hy]; [done | by apply Hsk].
      + split; [done |]. simpl. lia.
    - injection Hscan as <- <-. exists [], l. split; [done |]. split; [by intros y [] |].
      split; [done |]. simpl. lia.
  Qed.

Lemma dfs_scan_none added l : forall ptr ptr',
    dfs_scan l added ptr = (None, ptr') ->
    (forall y, In y l -> VECTORB added y = true) /\ ptr <= ptr'.
  Proof.
    induction l as [| a l IH]; intros ptr ptr' Hscan.
    - injection Hscan as <-. split; [by intros y [] | lia].
    - simpl in Hscan. destruct (VECTORB added a) eqn:Ha; [| done].
      apply IH in Hscan as [Hall Hle]. split; [| lia].
      intros y [<- | Hy]; [done | by apply Hall].
  Qed.

Lemma take_extend {A} (l skipped rest : list A) (x : A) (k : nat) :
    drop k l = skipped ++ x :: rest ->
    take (k + length skipped + 1) l = take k l ++ skipped ++ [x].
  Proof.
    intros Hdrop. rewrite <- (take_drop k l) at 1. rewrite Hdrop.
    assert (Hk : length (take k l) = k).
    { rewrite length_take. apply Nat.min_l.
      destruct (decide (k <= length l)%nat) as [Hle | Hgt]; [done |].
      rewrite drop_ge in Hdrop by lia. by destruct skipped. }
    rewrite take_app_ge by lia. f_equal. rewrite Hk.
    replace (k + length skipped + 1 - k)%nat with (length skipped + 1)%nat by lia.
    rewrite take_app_ge by lia.
    replace (length skipped + 1 - length skipped)%nat with 1%nat by lia. done.
  Qed.
End Scan.

Section AncFacts.
Import DominatorSpec.
Variables (parents : list Z) (root : Z) (ord : list Z).
Hypothesis Hroot : VECTOR parents root = -1.
Hypothesis Hpar : forall x, In x ord -> x <> root ->
    In (VECTOR parents x) ord /\ (rank ord (VECTOR parents x) < rank ord x)%nat.

Lemma anc_in_ord u v : anc parents u v -> In v ord -> In u ord.
  Proof.
    induction 1 as [v | u v Hp _ IH]; [done |]. intros Hv. apply IH, Hpar; [done |].
    intros ->. lia.
  Qed.

Lemma anc_rank u v : anc parents u v -> In v ord -> (rank ord u <= rank ord v)%nat.
  Proof.
    induction 1 as [v | u v Hp _ IH]; [done |]. intros Hv.
    assert (v <> root) by (intros ->; lia).
    destruct (Hpar v Hv) as [Hin Hlt]; [done |]. specialize (IH Hin). lia.
  Qed.

Lemma anc_trans u v w : anc parents u v -> anc parents v w -> anc parents u w.
  Proof.
    intros Huv Hvw. induction Hvw as [v | v w Hp _ IH]; [done |].
    apply anc_step; [done | by apply IH].
  Qed.

Lemma anc_antisym u v : In v ord -> In u ord -> anc parents u v -> anc parents v u -> u = v.
  Proof.
    intros Hv Hu H1%anc_rank H2%anc_rank; try done.
    apply (rank_inj ord); [done | done | lia].
  Qed.

  (** Writing the parent of a vertex that is new leaves the tree of the
      other vertices alone. *)
Lemma anc_vset z a u v :
    ~ In z ord -> In v ord -> (anc (vset parents z a) u v <-> anc parents u v).
  Proof.
    intros Hz Hv. split.
    - induction 1 as [v | u v Hp _ IH]; [constructor |].
      assert (Hvz : z <> v) by (by intros ->).
      rewrite vget_vset_ne in Hp, IH by done.
      apply anc_step; [done |]. apply IH, Hpar; [done |]. intros ->. lia.
    - induction 1 as [v | u v Hp _ IH]; [constructor |].
      assert (Hvz : z <> v) by (by intros ->).
      apply anc_step; rewrite vget_vset_ne by done; [done |].
      apply IH, Hpar; [done |]. intros ->. lia.
  Qed.

Lemma anc_new z a u :
    ~ In z ord -> In a ord -> 0 <= a -> 0 <= z < Vec.size parents ->
    (anc (vset parents z a) u z <-> u = z \/ anc parents u a).
  Proof.
    intros Hz Ha Ha0 Hr. split.
    - intros Hanc. inversion Hanc as [| u' v' Hp Hup]; subst; [by left |].
      rewrite vget_vset_eq in Hup by done. right. by apply (anc_vset z a u a).
    - intros [-> | Hanc]; [constructor |].
      apply anc_step; rewrite vget_vset_eq by done; [lia |].
      by apply (anc_vset z a u a).
  Qed.
End AncFacts.

Section DFSTree.
Import Visitor DominatorSpec.
Context {X : Type}.
Variables (graph : igraph_t) (mode : igraph_neimode_t).
Variables (in_callback out_callback : Z -> X -> X).
Hypothesis Hwf : graph_wf graph.
Variable root : Z.
Let n := igraph_vcount graph.

  (** The search tree while the search runs: the stack is the tree path to
      the vertex at hand, a vertex off the stack has all its neighbours
      visited, the descendants of a vertex are numbered consecutively, and
      an edge to a vertex with a larger number goes to a descendant. *)
Record dfs_tree (st : dfs_state) : Prop := mk_dfs_tree {
    t_base : dfs_inv graph (fun _ => True) (fun _ : X => True) root st;
    t_chain : is_chain (dfs_parents st) root (dfs_stack st);
    t_par : forall x, In x (dfs_order st) -> x <> root ->
      In (VECTOR (dfs_parents st) x) (dfs_order st) /\
      In x (igraph_neighbors graph (VECTOR (dfs_parents st) x) mode) /\
      (rank (dfs_order st) (VECTOR (dfs_parents st) x) < rank (dfs_order st) x)%nat;
    t_desc : forall s j, In s (dfs_stack st) -> In j (dfs_order st) ->
      (rank (dfs_order st) s <= rank (dfs_order st) j)%nat -> anc (dfs_parents st) s j;
    t_interval : forall i j k,
      In j (dfs_order st) -> In k (dfs_order st) -> anc (dfs_parents st) i k ->
      (rank (dfs_order st) i <= rank (dfs_order st) j <= rank (dfs_order st) k)%nat ->
      anc (dfs_parents st) i j;
    t_fin : forall x y, In x (dfs_order st) -> ~ In x (dfs_stack st) ->
      In y (igraph_neighbors graph x mode) -> In y (dfs_order st);
    t_nptr : forall x, 0 <= VECTOR (dfs_nptr st) x;
    t_nptr_len : length (dfs_nptr st) = Z.to_nat n;
    t_nptr0 : forall x, ~ In x (dfs_order st) -> VECTOR (dfs_nptr st) x = 0;
    t_scan : forall x y, In x (dfs_stack st) ->
      In y (take (Z.to_nat (VECTOR (dfs_nptr st) x)) (igraph_neighbors graph x mode)) ->
      In y (dfs_order st);
    t_cross : forall i j, In i (dfs_order st) -> In j (dfs_order st) ->
      In j (igraph_neighbors graph i mode) ->
      (rank (dfs_order st) i < rank (dfs_order st) j)%nat -> anc (dfs_parents st) i j
  }.

Lemma chain_anc parents stack :
    VECTOR parents root = -1 ->
    (forall x, In x stack -> 0 <= x) ->
    is_chain parents root stack ->
    forall a below, stack = a :: below ->
    forall u, (anc parents u a <-> In u stack).
  Proof.
    intros Hroot. induction stack as [| x t IH]; intros Hpos Hch a below Heq u; [done |].
    injection Heq as -> ->. destruct below as [| y t].
    - simpl in Hch. subst a. split.
      + intros Hanc. inversion Hanc; subst; [by left | lia].
      + intros [<- | []]. constructor.
    - destruct Hch as [Hp Hch]. split.
      + intros Hanc. inversion Hanc as [| u' v' Hp' Hup]; subst; [by left |].
        right. apply (IH (fun x Hx => Hpos x (or_intror Hx)) Hch _ t eq_refl). done.
      + intros [<- | Hin]; [constructor |].
        apply anc_step.
        * rewrite Hp. apply Hpos. right. by left.
        * rewrite Hp. by apply (IH (fun x Hx => Hpos x (or_intror Hx)) Hch _ t eq_refl).
  Qed.

Lemma chain_vset parents stack z a :
    ~ In z stack -> is_chain parents root stack -> is_chain (vset parents z a) root stack.
  Proof.
    induction stack as [| x t IH]; intros Hz Hch; [done |].
    destruct t as [| y t]; [done |]. destruct Hch as [Hp Hch]. split.
    - rewrite vget_vset_ne; [done |]. intros ->. apply Hz. by left.
    - apply IH; [| done]. intros Hin. apply Hz. by right.
  Qed.

Lemma dfs_step_tree st st' :
    dfs_tree st -> dfs_step graph mode in_callback out_callback st = Some st' ->
    dfs_tree st'.
  Proof.
    intros [Hbase Hchain Hpar Hdesc Hint Hfin Hnptr Hnlen Hn0 Hscan Hcross] Hstep.
    pose proof (dfs_step_inv graph mode in_callback out_callback Hwf
                  (fun _ => True) (fun _ => True) ltac:(done) ltac:(done) ltac:(done)
                  root st st' Hbase Hstep) as Hbase'.
    destruct Hbase as [Hla Hlp [l Hl] Hrange Hstack Hnodup Hmarked Hproot Hpun Hpvis _ _].
    fold n in Hla, Hlp, Hrange, Hmarked, Hpun.
    unfold dfs_step in Hstep. destruct (dfs_stack st) as [| a below] eqn:Hst; [done |].
    assert (Ha : In a (dfs_order st)) by (apply Hstack; by left).
    assert (Har : 0 <= a < n) by (by apply Hrange).
    assert (Hpar0 : forall x, In x (dfs_order st) -> x <> root ->
              In (VECTOR (dfs_parents st) x) (dfs_order st) /\
              (rank (dfs_order st) (VECTOR (dfs_parents st) x) < rank (dfs_order st) x)%nat).
    { intros x Hx Hxr. destruct (Hpar x Hx Hxr) as (? & _ & ?). done. }
    assert (Hspos : forall x, In x (a :: below) -> 0 <= x).
    { intros x Hx. apply Hstack, Hrange in Hx. lia. }
    assert (Hall_a : (forall y, In y (drop (Z.to_nat (VECTOR (dfs_nptr st) a))
                                        (igraph_neighbors graph a mode)) ->
                        VECTORB (dfs_added st) y = true) ->
                     forall y, In y (igraph_neighbors graph a mode) -> In y (dfs_order st)).
    { intros Hall y Hy.
      rewrite <- (take_drop (Z.to_nat (VECTOR (dfs_nptr st) a))) in Hy.
      apply in_app_iff in Hy as [Hy | Hy]; [apply (Hscan a); [by left | done] |].
      apply Hmarked; [| by apply Hall].
      apply (neighbors_range graph a mode); [done | by apply In_drop in Hy]. }
    destruct (dfs_scan _ _ _) as [[z |] ptr'] eqn:Hsc; injection Hstep as <-.
    - (* a new vertex is pushed *)
      apply dfs_scan_some_split in Hsc as (skipped & rest & Hdrop & Hsk & Hz & ->).
      assert (Hzn : In z (igraph_neighbors graph a mode)).
      { apply (In_drop _ (Z.to_nat (VECTOR (dfs_nptr st) a))). rewrite Hdrop.
        apply in_app_iff. right. by left. }
      assert (Hzr : 0 <= z < n) by (by apply (neighbors_range graph a mode)).
      assert (Hzo : ~ In z (dfs_order st)).
      { intros Hin%Hmarked; [congruence | done]. }
      assert (Hzs : ~ In z (a :: below)) by (intros Hin; by apply Hzo, Hstack).
      assert (Hrk : forall x, In x (dfs_order st) ->
                rank (z :: dfs_order st) x = rank (dfs_order st) x).
      { intros x Hx. apply rank_cons_ne. by intros ->. }
      assert (Hrkz : rank (z :: dfs_order st) z = length (dfs_order st))
        by apply rank_cons_eq.
      assert (Hlift : forall u v, In v (dfs_order st) ->
                (anc (vset (dfs_parents st) z a) u v <-> anc (dfs_parents st) u v)).
      { intros u v Hv. by apply (anc_vset _ root (dfs_order st)). }
      assert (Hnew : forall u, anc (vset (dfs_parents st) z a) u z <->
                               u = z \/ anc (dfs_parents st) u a).
      { intros u. apply (anc_new _ root (dfs_order st)); try done; [lia |].
        unfold Vec.size. lia. }
      assert (Hchain_a : forall u, anc (dfs_parents st) u a <-> In u (a :: below)).
      { by apply (chain_anc (dfs_parents st) (a :: below) Hproot Hspos Hchain a below). }
      constructor; cbn [dfs_stack dfs_order dfs_parents dfs_nptr dfs_added dfs_extra].
      + done.
      + split; [apply vget_vset_eq; unfold Vec.size; lia |]. by apply chain_vset.
      + intros x [<- | Hx] Hxr.
        * rewrite vget_vset_eq by (unfold Vec.size; lia).
          split; [by right |]. split; [done |].
          rewrite Hrk, Hrkz by done. by apply rank_lt.
        * assert (z <> x) by (by intros ->).
          rewrite vget_vset_ne by done.
          destruct (Hpar x Hx Hxr) as (Hp & Hn & Hlt).
          split; [by right |]. split; [done |]. by rewrite !Hrk.
      + intros s j Hs [<- | Hj] Hle.
        * apply Hnew. destruct Hs as [<- | Hs]; [by left |]. right. by apply Hchain_a.
        * destruct Hs as [<- | Hs].
          -- rewrite Hrkz, Hrk in Hle by done. pose proof (rank_lt _ _ Hj). lia.
          -- rewrite !Hrk in Hle by (done || by apply Hstack).
             apply Hlift; [done |]. by apply Hdesc.
      + intros i j k Hj Hk Hanc Hle. destruct Hk as [<- | Hk].
        * apply Hnew in Hanc as [-> | Hanc].
          -- destruct Hj as [<- | Hj]; [constructor |].
             rewrite Hrkz, Hrk in Hle by done. pose proof (rank_lt _ _ Hj). lia.
          -- apply Hchain_a in Hanc as Hi. destruct Hj as [<- | Hj].
             ++ apply Hnew. by right.
             ++ apply Hlift; [done |]. apply Hdesc; [done | done |].
                rewrite !Hrk in Hle by (done || by apply Hstack). lia.
        * apply Hlift in Hanc; [| done].
          assert (Hi : In i (dfs_order st)) by (by apply (anc_in_ord _ root _ Hproot Hpar0 i k)).
          destruct Hj as [<- | Hj].
          -- rewrite Hrkz, (Hrk k) in Hle by done. pose proof (rank_lt _ _ Hk). lia.
          -- apply Hlift; [done |]. apply (Hint i j k); try done.
             by rewrite !Hrk in Hle by done.
      + intros x y [<- | Hx] Hns Hy; [exfalso; apply Hns; by left |].
        right. apply (Hfin x y); [done | | done]. intros Hin. apply Hns. by right.
      + intros x. rewrite vget_vset. destruct (_ && _); [| done].
        specialize (Hnptr a). lia.
      + by rewrite vset_length.
      + intros x Hx. rewrite vget_vset_ne; [apply Hn0 |]; intros Hin; apply Hx; [by right |].
        subst. by right.
      + intros x y Hx Hy. destruct (decide (x = a)) as [-> | Hxa].
        * rewrite vget_vset_eq in Hy by (unfold Vec.size; lia).
          replace (Z.to_nat (VECTOR (dfs_nptr st) a + Z.of_nat (length skipped) + 1))
            with (Z.to_nat (VECTOR (dfs_nptr st) a) + length skipped + 1)%nat in Hy
            by (specialize (Hnptr a); lia).
          rewrite (take_extend _ _ _ _ _ Hdrop) in Hy.
          apply in_app_iff in Hy as [Hy | Hy]; [right; apply (Hscan a); [by left | done] |].
          apply in_app_iff in Hy as [Hy | [<- | []]]; [| by left].
          right. apply Hmarked; [| by apply Hsk].
          apply (neighbors_range graph a mode); [done |].
          apply (In_drop _ (Z.to_nat (VECTOR (dfs_nptr st) a))). rewrite Hdrop.
          apply in_app_iff. by left.
        * rewrite vget_vset_ne in Hy by done. destruct Hx as [<- | Hx].
          -- rewrite Hn0 in Hy by done. by destruct (igraph_neighbors graph z mode).
          -- right. by apply (Hscan x).
      + intros i j Hi [<- | Hj] Hn Hlt.
        * destruct Hi as [<- | Hi]; [lia |]. apply Hnew. right.
          destruct (in_dec Z.eq_dec i (a :: below)) as [Hin | Hnin]; [by apply Hchain_a |].
          exfalso. apply Hzo. by apply (Hfin i z).
        * destruct Hi as [<- | Hi].
          -- rewrite Hrkz, Hrk in Hlt by done. pose proof (rank_lt _ _ Hj). lia.
          -- apply Hlift; [done |]. apply Hcross; try done. by rewrite !Hrk in Hlt.
    - (* the vertex at hand is finished *)
      apply dfs_scan_none in Hsc as [Hall Hle].
      specialize (Hall_a Hall).
      constructor; cbn [dfs_stack dfs_order dfs_parents dfs_nptr dfs_added dfs_extra]; try done.
      + destruct below as [| y t]; [done |]. apply Hchain.
      + intros s j Hs. apply Hdesc. by right.
      + intros x y Hx Hns Hy. destruct (decide (x = a)) as [-> | Hxa]; [by apply Hall_a |].
        apply (Hfin x y); [done | | done]. intros [-> | Hin]; done.
      + intros x. rewrite vget_vset. destruct (_ && _); [| done].
        specialize (Hnptr a). lia.
      + by rewrite vset_length.
      + intros x Hx. rewrite vget_vset_ne; [by apply Hn0 |]. by intros ->.
      + intros x y Hx Hy. destruct (decide (x = a)) as [-> | Hxa].
        * apply Hall_a. by apply In_take in Hy.
        * rewrite vget_vset_ne in Hy by done. apply (Hscan x); [by right | done].
  Qed.

Lemma dfs_loop_tree fuel : forall st,
    dfs_tree st -> dfs_tree (dfs_loop graph mode in_callback out_callback fuel st).
  Proof.
    induction fuel as [| fuel IH]; intros st Hinv; [done |].
    simpl. destruct (dfs_step _ _ _ _ st) as [st' |] eqn:Hstep; [| done].
    apply IH. by eapply dfs_step_tree.
  Qed.

Lemma range_bound (l : list Z) :
    NoDup l -> (forall x, In x l -> 0 <= x < n) -> (length l <= Z.to_nat n)%nat.
  Proof.
    intros Hnd Hr. rewrite <- (range_length n). apply NoDup_incl_length.
    - by apply NoDup_ListNoDup.
    - intros x Hx%Hr. by apply range_In.
  Qed.

  (** Every step pushes a new vertex or pops one: the search ends. *)
Lemma dfs_loop_done fuel : forall st,
    dfs_tree st ->
    (2 * (Z.to_nat n - length (dfs_order st)) + length (dfs_stack st) <= fuel)%nat ->
    dfs_stack (dfs_loop graph mode in_callback out_callback fuel st) = [].
  Proof.
    induction fuel as [| fuel IH]; intros st Hinv Hfuel.
    - simpl. destruct (dfs_stack st); [done | simpl in Hfuel; lia].
    - simpl. destruct (dfs_step _ _ _ _ st) as [st' |] eqn:Hstep.
      + pose proof (dfs_step_tree st st' Hinv Hstep) as Hinv'.
        apply IH; [done |].
        destruct Hinv' as [[_ _ _ Hrange' _ Hnodup' _ _ _ _ _ _] _ _ _ _ _ _ _ _ _ _].
        pose proof (range_bound _ Hnodup' Hrange') as Hb.
        unfold dfs_step in Hstep. destruct (dfs_stack st) as [| a below]; [done |].
        destruct (dfs_scan _ _ _) as [[z |] ptr']; injection Hstep as <-;
          simpl in *; lia.
      + unfold dfs_step in Hstep. destruct (dfs_stack st) as [| a below]; [done |].
        by destruct (dfs_scan _ _ _) as [[z |] ptr'].
  Qed.

Lemma dfs_tree_init extra :
    0 <= root < n ->
    dfs_tree (mk_dfs [root] (vset (Vec.init false n) root true) (Vec.init 0 n) [root]
                     (vset (Vec.init (-2) n) root (-1)) (in_callback root extra)).
  Proof.
    intros Hr.
    assert (Hnptr : forall x, VECTOR (Vec.init 0 n) x = 0).
    { intros x. unfold Vec.init, Vec.get. destruct (x <? 0); [done |].
      destruct (nth_in_or_default (Z.to_nat x) (replicate (Z.to_nat n) 0) 0) as [Hin | ->];
        [| done].
      by apply list_elem_of_In, elem_of_replicate in Hin as [-> _]. }
    constructor; cbn [dfs_stack dfs_order dfs_parents dfs_nptr dfs_added dfs_extra].
    - by apply dfs_inv_init.
    - done.
    - intros x [<- | []]. done.
    - intros s j [<- | []] [<- | []] _. constructor.
    - intros i j k [<- | []] [<- | []] Hanc _. done.
    - intros x y [<- | []] Hns. exfalso. apply Hns. by left.
    - intros x. by rewrite Hnptr.
    - apply vinit_length.
    - intros x _. apply Hnptr.
    - intros x y _. rewrite Hnptr. simpl. by destruct (igraph_neighbors graph x mode).
    - intros i j [<- | []] [<- | []] _ Hlt. lia.
  Qed.

  (** The tree that [igraph_dfs] leaves in its [order] and [parents]
      vectors. *)
Lemma igraph_dfs_tree extra order parents extra' :
    igraph_dfs graph mode in_callback out_callback root extra = Ok (order, parents, extra') ->
    0 <= root < n /\
    exists ord,
      order = rev ord ++ replicate (Z.to_nat n - length ord)%nat (-1) /\
      search_tree graph mode root ord parents.
  Proof.
    unfold igraph_dfs. fold n.
    destruct (Z.ltb_spec root 0); [done |].
    destruct (Z.geb_spec root n); [done |].
    cbn [orb]. set (st0 := mk_dfs _ _ _ _ _ _).
    assert (Hinv0 : dfs_tree st0) by (apply dfs_tree_init; lia).
    pose proof (dfs_loop_tree (2 * Z.to_nat n) st0 Hinv0) as Hinv.
    pose proof (dfs_loop_done (2 * Z.to_nat n) st0 Hinv0) as Hdone.
    destruct (dfs_loop _ _ _ _ _ st0) as [stack added nptr ord par ext].
    cbn [dfs_stack dfs_order dfs_parents dfs_nptr dfs_added dfs_extra] in *.
    rewrite Hdone in Hinv by (simpl; lia). clear Hdone.
    destruct Hinv as [[Hla Hlp Hl Hrange Hstack Hnodup Hmarked Hproot Hpun Hpvis _ _]
                        Hchain Hpar Hdesc Hint Hfin Hnptr Hnlen Hn0 Hscan Hcross].
    cbn [dfs_stack dfs_order dfs_parents dfs_nptr dfs_added dfs_extra] in *.
    intros [= <- <- <-]. split; [lia |].
    exists ord. rewrite length_rev. split; [done |].
    constructor; try done.
    intros x y Hx Hy. apply (Hfin x y); [done | by intros [] | done].
  Qed.
End DFSTree.

(** ** Paths, dominators and semidominators *)

Section Paths.
Import DominatorSpec.
Variables (graph : igraph_t) (mode : igraph_neimode_t).

Lemma arc_neighbors u v :
    igraph_is_directed graph = true ->
    (arc graph mode u v <-> In v (Visitor.igraph_neighbors graph u mode)).
  Proof.
    intros Hd. unfold arc, Visitor.igraph_neighbors. rewrite Hd.
    destruct mode; rewrite sort_In, ?in_app_iff, ?out_list_In, ?in_list_In; done.
  Qed.

Lemma path_app a l1 b l2 c :
    path graph mode a l1 b -> path graph mode b l2 c -> path graph mode a (l1 ++ l2) c.
  Proof.
    induction 1 as [a | a b' l1 b He _ IH]; intros H2; [done |].
    simpl. apply path_cons; [done | by apply IH].
  Qed.

Lemma path_split a l1 x l2 c :
    path graph mode a (l1 ++ x :: l2) c ->
    path graph mode a (l1 ++ [x]) x /\ path graph mode x l2 c.
  Proof.
    revert a. induction l1 as [| y l1 IH]; intros a Hp; simpl in *.
    - inversion Hp; subst. split; [| done]. apply path_cons; [done | constructor].
    - inversion Hp as [| ? ? ? ? He Hp']; subst. apply IH in Hp' as [H1 H2].
      split; [| done]. by apply path_cons.
  Qed.

Lemma path_last a l c : path graph mode a l c -> In c (a :: l).
  Proof.
    induction 1 as [a | a b l c He _ IH]; [by left |]. right. exact IH.
  Qed.

Lemma path_snoc a l b c :
    path graph mode a l b -> arc graph mode b c -> path graph mode a (l ++ [c]) c.
  Proof.
    intros Hp He. apply (path_app a l b [c] c); [done |].
    apply path_cons; [done | constructor].
  Qed.

  (** A path ends in the last vertex of its list. *)
Lemma path_end a l x c : path graph mode a (l ++ [x]) c -> x = c.
  Proof.
    revert a. induction l as [| y l IH]; intros a Hp; simpl in *.
    - inversion Hp as [| ? ? ? ? _ Hp']; subst. by inversion Hp'.
    - inversion Hp as [| ? ? ? ? _ Hp']; subst. by apply (IH y).
  Qed.
End Paths.

Lemma list_min_first {A} (f : A -> nat) (l : list A) :
  l <> [] ->
  exists l1 m l2, l = l1 ++ m :: l2 /\
    (forall x, In x l1 -> (f m < f x)%nat) /\ (forall x, In x l2 -> (f m <= f x)%nat).
Proof.
  induction l as [| a l IH]; [done |]. intros _.
  destruct l as [| b l].
  - exists [], a, []. split; [done |]. split; by intros x [].
  - destruct IH as (l1 & m & l2 & Heq & H1 & H2); [done |].
    destruct (decide (f a <= f m)%nat) as [Hle | Hgt].
    + exists [], a, (b :: l). split; [done |]. split; [by intros x [] |].
      intros x Hx. rewrite Heq in Hx. apply in_app_iff in Hx as [Hx | [<- | Hx]].
      * specialize (H1 x Hx). lia.
      * done.
      * specialize (H2 x Hx). lia.
    + exists (a :: l1), m, l2. split; [by rewrite Heq |]. split; [| done].
      intros x [<- | Hx]; [lia | by apply H1].
Qed.

Lemma list_find_dec {A} (P : A -> Prop) (l : list A) :
  (forall x, In x l -> P x \/ ~ P x) ->
  (exists l1 x l2, l = l1 ++ x :: l2 /\ P x) \/ (forall x, In x l -> ~ P x).
Proof.
  induction l as [| a l IH]; intros Hdec; [right; by intros x [] |].
  destruct (Hdec a (or_introl eq_refl)) as [Ha | Hna].
  - left. by exists [], a, l.
  - destruct IH as [(l1 & x & l2 & -> & Hx) | Hnone].
    + intros x Hx. apply Hdec. by right.
    + left. by exists (a :: l1), x, l2.
    + right. intros x [<- | Hx]; [done | by apply Hnone].
Qed.

Lemma list_snoc_case {A} (l : list A) : l = [] \/ exists l' x, l = l' ++ [x].
Proof.
  destruct l as [| a l]; [by left |]. right.
  destruct (exists_last (l := a :: l)) as (l' & x & ->); [done |]. by exists l', x.
Qed.

Section TreeTheory.
Import DominatorSpec.
Variables (graph : igraph_t) (mode : igraph_neimode_t) (root : Z).
Variables (ord parents : list Z).
Hypothesis Hdir : igraph_is_directed graph = true.
Hypothesis Htree : search_tree graph mode root ord parents.

Lemma root_in : In root ord.
  Proof. destruct (st_root _ _ _ _ _ Htree) as [l ->]. apply in_app_iff. right. by left. Qed.

Lemma num_root : rank ord root = 0%nat.
  Proof.
    pose proof (st_nodup _ _ _ _ _ Htree) as Hnd.
    destruct (st_root _ _ _ _ _ Htree) as [l Hl]. rewrite Hl in Hnd |- *. clear Hl.
    induction l as [| y l IH]; simpl in *; [by rewrite Z.eqb_refl |].
    apply NoDup_cons in Hnd as [Hy Hnd].
    destruct (Z.eqb_spec y root) as [-> | Hne]; [| by apply IH].
    exfalso. apply Hy, list_elem_of_In, in_app_iff. right. by left.
  Qed.

Lemma tree_par x :
    In x ord -> x <> root ->
    In (VECTOR parents x) ord /\ arc graph mode (VECTOR parents x) x /\
    (rank ord (VECTOR parents x) < rank ord x)%nat /\ 0 <= VECTOR parents x.
  Proof.
    intros Hx Hxr. destruct (st_par _ _ _ _ _ Htree x Hx Hxr) as (Hp & He & Hlt).
    split; [done |]. split; [by apply arc_neighbors |]. split; [done |].
    apply (st_range _ _ _ _ _ Htree) in Hp. lia.
  Qed.

Lemma tree_par0 x :
    In x ord -> x <> root ->
    In (VECTOR parents x) ord /\ (rank ord (VECTOR parents x) < rank ord x)%nat.
  Proof. intros Hx Hxr. destruct (tree_par x Hx Hxr) as (? & _ & ? & _). done. Qed.

Lemma anc_ord u v : anc parents u v -> In v ord -> In u ord.
  Proof. apply (anc_in_ord parents root ord (st_proot _ _ _ _ _ Htree) tree_par0). Qed.

Lemma anc_num u v : anc parents u v -> In v ord -> (rank ord u <= rank ord v)%nat.
  Proof. apply (anc_rank parents root ord (st_proot _ _ _ _ _ Htree) tree_par0). Qed.

Lemma anc_eq u v : In v ord -> anc parents u v -> anc parents v u -> u = v.
  Proof.
    intros Hv H1 H2. apply (anc_antisym parents root ord (st_proot _ _ _ _ _ Htree) tree_par0);
      try done. by apply (anc_ord u v).
  Qed.

Lemma anc_proper u v :
    anc parents u v -> u <> v -> In v ord -> (rank ord u < rank ord v)%nat.
  Proof.
    intros Hanc Hne Hv. pose proof (anc_num u v Hanc Hv) as Hle.
    destruct (decide (rank ord u = rank ord v)) as [Heq | Hneq]; [| lia].
    exfalso. apply Hne. apply (rank_inj ord); [by apply (anc_ord u v) | done | done].
  Qed.

Lemma anc_root v : In v ord -> anc parents root v.
  Proof.
    remember (rank ord v) as k eqn:Hk. revert v Hk.
    induction k as [k IH] using lt_wf_ind. intros v Hk Hv.
    destruct (decide (v = root)) as [-> | Hne]; [constructor |].
    destruct (tree_par v Hv Hne) as (Hp & _ & Hlt & Hpos).
    apply anc_step; [done |]. apply (IH (rank ord (VECTOR parents v))); [lia | done | done].
  Qed.

Lemma anc_linear u v w :
    In w ord -> anc parents u w -> anc parents v w ->
    (rank ord u <= rank ord v)%nat -> anc parents u v.
  Proof.
    intros Hw Hu Hv Hle. apply (st_interval _ _ _ _ _ Htree u v w); try done.
    - by apply (anc_ord v w).
    - split; [done | by apply anc_num].
  Qed.

Lemma anc_dec u v : In v ord -> anc parents u v \/ ~ anc parents u v.
  Proof.
    remember (rank ord v) as k eqn:Hk. revert v Hk.
    induction k as [k IH] using lt_wf_ind. intros v Hk Hv.
    destruct (decide (u = v)) as [-> | Hne]; [left; constructor |].
    destruct (decide (v = root)) as [-> | Hnr].
    - right. intros Hanc. inversion Hanc; subst; [done |].
      rewrite (st_proot _ _ _ _ _ Htree) in *. lia.
    - destruct (tree_par v Hv Hnr) as (Hp & _ & Hlt & Hpos).
      destruct (IH (rank ord (VECTOR parents v)) ltac:(lia) _ eq_refl Hp) as [Hy | Hn].
      + left. by apply anc_step.
      + right. intros Hanc. inversion Hanc; subst; done.
  Qed.

Lemma path_ord a l c :
    In a ord -> path graph mode a l c -> forall x, In x l -> In x ord.
  Proof.
    intros Ha Hp. induction Hp as [a | a b l c He _ IH]; [by intros x [] |].
    assert (Hb : In b ord).
    { apply (st_closed _ _ _ _ _ Htree a b Ha). by apply arc_neighbors. }
    intros x [<- | Hx]; [done | by apply IH].
  Qed.

  (** The tree path between a vertex and one of its descendants. *)
Lemma tree_path u v :
    anc parents u v -> In v ord ->
    exists l, path graph mode u l v /\
      forall x, In x l -> anc parents u x /\ anc parents x v /\ x <> u.
  Proof.
    induction 1 as [v | u v Hpos Hanc IH]; intros Hv.
    - exists []. split; [constructor | by intros x []].
    - assert (Hnr : v <> root).
      { intros ->. rewrite (st_proot _ _ _ _ _ Htree) in Hpos. lia. }
      destruct (tree_par v Hv Hnr) as (Hp & He & Hlt & _).
      destruct (IH Hp) as (l & Hpath & Hl).
      exists (l ++ [v]). split; [by apply (path_snoc _ _ _ _ (VECTOR parents v)) |].
      intros x [Hx | [<- | []]]%in_app_iff.
      + destruct (Hl x Hx) as (H1 & H2 & H3). split; [done |]. split; [| done].
        by apply anc_step.
      + split; [by apply anc_step |]. split; [constructor |].
        intros ->. pose proof (anc_num _ _ Hanc Hp). lia.
  Qed.

  (** The path lemma: along a path that never goes below the number of its
      first vertex, every vertex descends from the first. *)
Lemma path_min_start a l c :
    In a ord -> path graph mode a l c ->
    (forall x, In x l -> (rank ord a <= rank ord x)%nat) ->
    forall x, In x l -> anc parents a x.
  Proof.
    intros Ha Hp.
    assert (Hgen : forall y, In y ord -> anc parents a y -> path graph mode y l c ->
              (forall x, In x l -> (rank ord a <= rank ord x)%nat) ->
              forall x, In x l -> anc parents a x).
    { clear Hp. intros y Hy Hay Hp. revert Hy Hay.
      induction Hp as [y | y b l c He _ IH]; intros Hy Hay Hmin; [by intros x [] |].
      assert (Hb : In b ord).
      { apply (st_closed _ _ _ _ _ Htree y b Hy). by apply arc_neighbors. }
      assert (Hab : anc parents a b).
      { destruct (decide (rank ord y < rank ord b)%nat) as [Hlt | Hge].
        - apply (anc_trans parents a y b); [done |].
          apply (st_cross _ _ _ _ _ Htree y b); try done. by apply arc_neighbors.
        - apply (st_interval _ _ _ _ _ Htree a b y); try done.
          split; [apply Hmin; by left | lia]. }
      intros x [<- | Hx]; [done |].
      apply IH; try done. intros x' Hx'. apply Hmin. by right. }
    apply (Hgen a); [done | constructor | done].
  Qed.

Lemma path_pred a l w :
    path graph mode a (l ++ [w]) w ->
    exists v, In v (a :: l) /\ arc graph mode v w /\ path graph mode a l v.
  Proof.
    revert a. induction l as [| b l IH]; intros a Hp; simpl in *.
    - inversion Hp; subst. exists a. split; [by left |]. split; [done | constructor].
    - inversion Hp as [| ? ? ? ? He Hp']; subst.
      destruct (IH b Hp') as (v & Hv & Hvw & Hpv).
      exists v. split; [by right |]. split; [done |]. by apply path_cons.
  Qed.

  (** A visited vertex can be reached from the root, and only those. *)
Lemma visited_reachable v : In v ord <-> reachable graph mode root v.
  Proof.
    split.
    - intros Hv. destruct (tree_path root v)
        as (l & Hp & _); [by apply (anc_root) | done |].
      by exists l.
    - intros [l Hp]. pose proof (path_last _ _ _ _ _ Hp) as [<- | Hin].
      + by apply (root_in).
      + apply (path_ord root l v); [| done | done].
        by apply (root_in).
  Qed.

  (** A dominator of a visited vertex is one of its tree ancestors. *)
Lemma dom_anc d w : In w ord -> dominates graph mode root d w -> anc parents d w.
  Proof.
    intros Hw Hdom.
    destruct (tree_path root w)
      as (l & Hp & Hl); [by apply (anc_root) | done |].
    destruct (Hdom l Hp) as [<- | Hin].
    - by apply (anc_root).
    - by destruct (Hl d Hin) as (_ & ? & _).
  Qed.

  (** A dominator of [w] above the ancestor [x] of [w] dominates [x]. *)
Lemma dom_up d x w :
    In w ord -> anc parents d x -> anc parents x w ->
    dominates graph mode root d w -> dominates graph mode root d x.
  Proof.
    intros Hw Hdx Hxw Hdom l Hp.
    assert (Hx : In x ord) by (by apply (anc_ord x w)).
    destruct (decide (d = x)) as [-> | Hne]; [by apply (path_last graph mode) |].
    destruct (tree_path x w Hxw Hw) as (t & Ht & Htl).
    pose proof (Hdom (l ++ t) (path_app _ _ _ _ _ _ _ Hp Ht)) as Hin.
    rewrite app_comm_cons in Hin. apply in_app_iff in Hin as [Hin | Hin]; [done |].
    destruct (Htl d Hin) as (Hxd & _ & _). exfalso. apply Hne.
    by apply (anc_eq).
  Qed.

Lemma semipath_edge v w : arc graph mode v w -> semipath graph mode ord v w.
  Proof.
    intros He. exists []. split; [| by intros x []].
    apply path_cons; [done | constructor].
  Qed.

  (** The semidominator of a vertex other than the root is one of its proper
      ancestors. *)
Lemma sdom_above s w :
    In w ord -> w <> root -> is_sdom graph mode ord s w ->
    (rank ord s < rank ord w)%nat /\ anc parents s w.
  Proof.
    intros Hw Hwr (Hs & (inner & Hp & Hin) & Hmin).
    destruct (tree_par w Hw Hwr) as (Hp' & He & Hlt & _).
    pose proof (Hmin _ Hp' (semipath_edge _ _ He)) as Hle.
    split; [lia |].
    apply (path_min_start s (inner ++ [w]) w);
      try done.
    - intros x [Hx | [<- | []]]%in_app_iff; [specialize (Hin x Hx) |]; lia.
    - apply in_app_iff. right. by left.
  Qed.

Lemma sdom_unique s s' w :
    is_sdom graph mode ord s w -> is_sdom graph mode ord s' w -> s = s'.
  Proof.
    intros (Hs & Hsp & Hmin) (Hs' & Hsp' & Hmin').
    apply (rank_inj ord); [done | done |].
    specialize (Hmin s' Hs' Hsp'). specialize (Hmin' s Hs Hsp). lia.
  Qed.

  (** A dominator of [w] other than [w] is an ancestor of the semidominator
      of [w]. *)
Lemma dom_above_sdom d s w :
    In w ord -> w <> root -> is_sdom graph mode ord s w ->
    d <> w -> dominates graph mode root d w -> anc parents d s.
  Proof.
    intros Hw Hwr Hsd Hdw Hdom.
    destruct (sdom_above s w Hw Hwr Hsd) as [Hlt Hsw].
    destruct Hsd as (Hs & (inner & Hp & Hin) & _).
    pose proof (dom_anc d w Hw Hdom) as Hdanc.
    destruct (decide (rank ord d <= rank ord s)%nat) as [Hle | Hgt].
    { by apply (anc_linear d s w). }
    exfalso.
    pose proof (anc_proper d w Hdanc Hdw Hw) as Hdlt.
    destruct (tree_path root s)
      as (t & Ht & Htl); [by apply (anc_root) | done |].
    pose proof (Hdom (t ++ inner ++ [w]) (path_app _ _ _ _ _ _ _ Ht Hp)) as Hd.
    assert (Hrs : (rank ord root <= rank ord s)%nat).
    { rewrite (num_root). lia. }
    destruct Hd as [<- | Hd]; [lia |].
    apply in_app_iff in Hd as [Hd | Hd].
    - destruct (Htl d Hd) as (_ & Hds & _).
      pose proof (anc_num d s Hds Hs). lia.
    - apply in_app_iff in Hd as [Hd | [<- | []]]; [| done].
      specialize (Hin d Hd). lia.
  Qed.

  (** A path that starts above [c] (by number) and ends at a proper
      descendant of [c] on the way to [w] passes through [c], unless a path
      of the semidominator kind leads from above [c] to such a descendant. *)
Lemma funnel c w :
    In w ord -> In c ord ->
    (forall x y, In x ord -> (rank ord x < rank ord c)%nat ->
       anc parents c y -> y <> c -> anc parents y w ->
       semipath graph mode ord x y -> False) ->
    forall k l x y, (length l <= k)%nat ->
      In x ord -> (rank ord x < rank ord c)%nat ->
      anc parents c y -> y <> c -> anc parents y w ->
      path graph mode x l y -> In c l.
  Proof.
    intros Hw Hc Hno. induction k as [| k IH]; intros l x y Hlen Hx Hxc Hcy Hyc Hyw Hp.
    - destruct l; [| simpl in Hlen; lia]. inversion Hp; subst.
      pose proof (anc_num c y Hcy ltac:(done)). lia.
    - assert (Hy : In y ord) by (by apply (anc_ord y w)).
      destruct (list_snoc_case l) as [-> | (inner & y' & ->)].
      { inversion Hp; subst. pose proof (anc_num c y Hcy Hy). lia. }
      pose proof (path_end _ _ _ _ _ _ Hp) as ->.
      rewrite length_app in Hlen. simpl in Hlen.
      assert (Hinner : forall v, In v inner -> In v ord).
      { intros v Hv. apply (path_ord x (inner ++ [y]) y); [done | done |].
        apply in_app_iff. by left. }
      destruct (list_find_dec
                  (fun v => (rank ord v < rank ord c)%nat \/ v = c \/
                            (anc parents c v /\ anc parents v w)) inner)
        as [(l1 & v & l2 & -> & Hbad) | Hgood].
      { intros v Hv.
        destruct (decide (rank ord v < rank ord c)%nat); [left; by left |].
        destruct (decide (v = c)); [left; right; by left |].
        destruct (anc_dec c v (Hinner v Hv)) as [H1 | H1]; [| right; tauto].
        destruct (anc_dec v w Hw) as [H2 | H2]; [left; right; right; done | right; tauto]. }
      + assert (Hv : In v ord) by (apply Hinner, in_app_iff; right; by left).
        rewrite <- app_assoc in Hp. simpl in Hp.
        apply path_split in Hp as [Hp1 Hp2].
        rewrite length_app in Hlen. simpl in Hlen.
        destruct Hbad as [Hlt | [-> | [Hcv Hvw]]].
        * rewrite <- app_assoc. simpl. apply in_app_iff. right. right.
          apply (IH (l2 ++ [y]) v y); try done. rewrite length_app. simpl. lia.
        * apply in_app_iff. left. apply in_app_iff. right. by left.
        * destruct (decide (v = c)) as [-> | Hvc].
          { apply in_app_iff. left. apply in_app_iff. right. by left. }
          assert (Hin : In c (l1 ++ [v])).
          { apply (IH (l1 ++ [v]) x v); try done. rewrite length_app. simpl. lia. }
          apply in_app_iff in Hin as [Hin | [<- | []]]; [| done].
          apply in_app_iff. left. apply in_app_iff. by left.
      + exfalso. apply (Hno x y); try done. exists inner. split; [done |].
        destruct inner as [| a inner0]; [by intros v [] |].
        destruct (list_min_first (rank ord) (a :: inner0)) as (l1 & m & l2 & Heq & H1 & H2);
          [done |].
        assert (Hm : In m (a :: inner0)) by (rewrite Heq; apply in_app_iff; right; by left).
        destruct (decide (rank ord y < rank ord m)%nat) as [Hlt | Hge].
        { intros v Hv. rewrite Heq in Hv. apply in_app_iff in Hv as [Hv | [<- | Hv]].
          - specialize (H1 v Hv). lia.
          - done.
          - specialize (H2 v Hv). lia. }
        exfalso. apply (Hgood m Hm).
        rewrite Heq, <- app_assoc in Hp. simpl in Hp.
        apply path_split in Hp as [_ Hp2].
        assert (Hmy : anc parents m y).
        { apply (path_min_start m (l2 ++ [y]) y); try done.
          - by apply Hinner.
          - intros v [Hv | [<- | []]]%in_app_iff; [by apply H2 | lia].
          - apply in_app_iff. right. by left. }
        destruct (decide (rank ord m < rank ord c)%nat) as [Hmc | Hmc]; [by left |].
        right. right. split.
        * apply (anc_linear c m y); try done. lia.
        * by apply (anc_trans parents m y w).
  Qed.

Lemma funnel_dominates c w :
    In w ord -> In c ord -> anc parents c w -> c <> w ->
    (forall x y, In x ord -> (rank ord x < rank ord c)%nat ->
       anc parents c y -> y <> c -> anc parents y w ->
       semipath graph mode ord x y -> False) ->
    dominates graph mode root c w.
  Proof.
    intros Hw Hc Hcw Hne Hno l Hp.
    destruct (decide (c = root)) as [-> | Hcr]; [by left |].
    right. apply (funnel c w Hw Hc Hno (length l) l root w); try done.
    - apply root_in.
    - rewrite num_root.
      destruct (rank ord c) eqn:Hk; [| lia]. exfalso. apply Hcr.
      apply (rank_inj ord); [done | apply root_in |]. by rewrite num_root.
    - constructor.
  Qed.

  (** Theorem 2 of Lengauer and Tarjan: if no vertex between the
      semidominator of [w] and [w] has a smaller semidominator, the
      semidominator of [w] is its immediate dominator. *)
Lemma sdom_is_idom s w :
    In w ord -> w <> root -> is_sdom graph mode ord s w ->
    (forall u x, anc parents s u -> u <> s -> anc parents u w ->
       In x ord -> semipath graph mode ord x u -> (rank ord s <= rank ord x)%nat) ->
    is_idom graph mode root s w.
  Proof.
    intros Hw Hwr Hsd Hmin.
    destruct (sdom_above s w Hw Hwr Hsd) as [Hlt Hsw].
    assert (Hs : In s ord) by apply Hsd.
    assert (Hne : s <> w) by (intros ->; lia).
    split; [done |]. split.
    - apply funnel_dominates; try done.
      intros x y Hx Hxs Hsy Hys Hyw Hsp. specialize (Hmin y x Hsy Hys Hyw Hx Hsp). lia.
    - intros d' Hd' Hdom. apply (dom_up d' s w); try done.
      by apply (dom_above_sdom d' s w).
  Qed.

  (** Theorem 3 of Lengauer and Tarjan: a vertex [u] with the least
      semidominator between the semidominator of [w] and [w] has the same
      immediate dominator as [w]. *)
Lemma idom_of_least u su d s w :
    In w ord -> w <> root -> is_sdom graph mode ord s w ->
    anc parents s u -> u <> s -> anc parents u w ->
    is_sdom graph mode ord su u ->
    (forall u' x, anc parents s u' -> u' <> s -> anc parents u' w ->
       In x ord -> semipath graph mode ord x u' -> (rank ord su <= rank ord x)%nat) ->
    is_idom graph mode root d u -> is_idom graph mode root d w.
  Proof.
    intros Hw Hwr Hsd Hsu Hus Huw Hsdu Hmin (Hdu & Hdom & Hleast).
    destruct (sdom_above s w Hw Hwr Hsd) as [Hlt Hsw].
    assert (Hs : In s ord) by apply Hsd.
    assert (Hu : In u ord) by (by apply (anc_ord u w)).
    assert (Hur : u <> root).
    { intros ->. apply Hus. symmetry. apply (anc_eq s root); [apply root_in | done |].
      by apply anc_root. }
    pose proof (dom_anc d u Hu Hdom) as Hdanc.
    pose proof (dom_above_sdom d su u Hu Hur Hsdu Hdu Hdom) as Hdsu.
    assert (Hd : In d ord) by (by apply (anc_ord d u)).
    assert (Hdlt : (rank ord d < rank ord u)%nat) by (by apply anc_proper).
    assert (Hdsu' : (rank ord d <= rank ord su)%nat) by (apply anc_num; [done | apply Hsdu]).
    assert (Hdw : anc parents d w) by (by apply (anc_trans parents d u w)).
    assert (Hne : d <> w).
    { intros ->. pose proof (anc_num u w Huw Hw). lia. }
    split; [done |]. split.
    - apply funnel_dominates; try done.
      intros x y Hx Hxd Hdy Hyd Hyw Hsp.
      assert (Hy : In y ord) by (by apply (anc_ord y w)).
      destruct (decide (rank ord s < rank ord y)%nat) as [Hsy | Hys].
      + (* [y] lies below the semidominator of [w] *)
        assert (anc parents s y) by (apply (anc_linear s y w); try done; lia).
        assert (y <> s) by (intros ->; lia).
        specialize (Hmin y x ltac:(done) ltac:(done) Hyw Hx Hsp). lia.
      + (* [y] is an ancestor of [u]: a path to [u] avoids [d] *)
        assert (Hyu : anc parents y u).
        { apply (anc_trans parents y s u); [| done].
          apply (anc_linear y s w); try done. lia. }
        destruct Hsp as (inner & Hp & Hin).
        destruct (tree_path root x (anc_root x Hx) Hx) as (t1 & Ht1 & Hl1).
        destruct (tree_path y u Hyu Hu) as (t2 & Ht2 & Hl2).
        pose proof (path_app _ _ _ _ _ _ _ (path_app _ _ _ _ _ _ _ Ht1 Hp) Ht2) as Hpath.
        pose proof (anc_proper d y Hdy ltac:(done) Hy) as Hdy'.
        destruct (Hdom _ Hpath) as [<- | Hdin].
        * rewrite num_root in Hxd. lia.
        * apply in_app_iff in Hdin as [Hdin | Hdin].
          -- apply in_app_iff in Hdin as [Hdin | Hdin].
             ++ destruct (Hl1 d Hdin) as (_ & Hdx & _).
                pose proof (anc_num d x Hdx Hx). lia.
             ++ apply in_app_iff in Hdin as [Hdin | [<- | []]]; [| done].
                specialize (Hin d Hdin). lia.
          -- destruct (Hl2 d Hdin) as (Hyd' & _ & _).
             pose proof (anc_num y d Hyd' Hd). lia.
    - intros d' Hd' Hdom'.
      pose proof (dom_above_sdom d' s w Hw Hwr Hsd Hd' Hdom') as Hd's.
      apply Hleast.
      + intros ->. apply Hus. by apply (anc_eq u s).
      + apply (dom_up d' u w); try done. by apply (anc_trans parents d' s u).
  Qed.

  (** Theorem 4 of Lengauer and Tarjan, the candidates: a path of the
      semidominator kind to [w] ends with an edge from a smaller vertex, or
      with an edge from a descendant [v] of a vertex [u] larger than [w] that
      the path reaches in the semidominator way. *)
Lemma semipath_via x u v w :
    In v ord -> arc graph mode v w -> anc parents u v ->
    (rank ord w < rank ord u)%nat ->
    semipath graph mode ord x u -> semipath graph mode ord x w.
  Proof.
    intros Hv He Huv Hlt (inner & Hp & Hin).
    destruct (tree_path u v Huv Hv) as (t & Ht & Hl).
    exists ((inner ++ [u]) ++ t). split.
    - apply (path_snoc _ _ _ _ v); [| done]. by apply (path_app _ _ _ _ u).
    - intros y [[Hy | [<- | []]]%in_app_iff | Hy]%in_app_iff.
      + specialize (Hin y Hy). lia.
      + done.
      + destruct (Hl y Hy) as (Huy & Hyv & _).
        pose proof (anc_num u y Huy (anc_ord y v Hyv Hv)). lia.
  Qed.

Lemma semipath_cases x w :
    In x ord -> semipath graph mode ord x w ->
    arc graph mode x w \/
    exists u v, In v ord /\ arc graph mode v w /\ anc parents u v /\
      (rank ord w < rank ord u)%nat /\ semipath graph mode ord x u.
  Proof.
    intros Hx (inner & Hp & Hin).
    destruct inner as [| a inner0].
    { left. simpl in Hp. by inversion Hp. }
    right.
    assert (Hinner : forall v, In v (a :: inner0) -> In v ord).
    { intros v Hv. apply (path_ord x ((a :: inner0) ++ [w]) w); [done | done |].
      apply in_app_iff. by left. }
    destruct (list_min_first (rank ord) (a :: inner0)) as (l1 & m & l2 & Heq & H1 & H2);
      [done |].
    assert (Hm : In m (a :: inner0)) by (rewrite Heq; apply in_app_iff; right; by left).
    rewrite Heq, <- app_assoc in Hp. simpl in Hp.
    apply path_split in Hp as [Hp1 Hp2].
    apply path_pred in Hp2 as (v & Hv & Hvw & Hpv).
    exists m, v.
    assert (Hmv : anc parents m v).
    { destruct Hv as [<- | Hv]; [constructor |].
      apply (path_min_start m l2 v); try done. by apply Hinner. }
    split.
    { destruct Hv as [<- | Hv]; [by apply Hinner |].
      apply Hinner. rewrite Heq. apply in_app_iff. right. by right. }
    split; [done |]. split; [done |]. split; [by apply Hin |].
    exists l1. split; [done |]. done.
  Qed.
End TreeTheory.

(** ** Lengauer-Tarjan, step 1: numbers, predecessors, buckets *)

Section Numbering.
Import Dominator DominatorSpec.

Lemma number_steps_full (visited : list Z) (n : Z) :
    NoDup visited -> (forall x, In x visited -> 0 <= x < n) ->
    let order := visited ++ replicate (Z.to_nat n - length visited) (-1) in
    forall k : nat, (k <= Z.to_nat n)%nat ->
    exists semi vertex,
      fold_left number_step (Vec.range (Z.of_nat k)) (Vec.init 0 n, order, 0) =
        (semi, vertex, Z.of_nat (Nat.min k (length visited))) /\
      length semi = Z.to_nat n /\ length vertex = Z.to_nat n /\
      (forall i, Z.of_nat k <= i -> VECTOR vertex i = VECTOR order i) /\
      (forall j : nat, (j < Nat.min k (length visited))%nat ->
         VECTOR vertex (Z.of_nat j) = nth j visited 0 + 1 /\
         VECTOR semi (nth j visited 0) = Z.of_nat j + 1).
  Proof.
    intros Hnd Hr order.
    assert (HN : (length visited <= Z.to_nat n)%nat).
    { rewrite <- (range_length n). apply NoDup_incl_length; [by apply NoDup_ListNoDup |].
      intros x Hx%Hr. by apply range_In. }
    assert (Hlo : length order = Z.to_nat n).
    { subst order. rewrite length_app, length_replicate. lia. }
    induction k as [| k IH]; intros Hk.
    - exists (Vec.init 0 n), order. split; [done |]. split; [apply vinit_length |].
      split; [done |]. split; [done |]. intros j Hj. simpl in Hj. lia.
    - destruct IH as (semi & vertex & Hfold & Hls & Hlv & Hsame & Hdone); [lia |].
      rewrite range_succ, fold_left_app, Hfold. cbn [fold_left]. unfold number_step.
      rewrite Hsame by lia. rewrite vget_of_nat.
      destruct (decide (k < length visited)%nat) as [Hlt | Hge].
      + assert (Hnth : nth k order 0 = nth k visited 0) by (subst order; by rewrite app_nth1).
        rewrite Hnth.
        assert (Hin : In (nth k visited 0) visited) by (apply nth_In; lia).
        pose proof (Hr _ Hin) as Htr.
        destruct (Z.geb_spec (nth k visited 0) 0); [| lia].
        replace (Nat.min k (length visited)) with k by lia.
        eexists _, _. split.
        * f_equal. lia.
        * split; [by rewrite vset_length |]. split; [by rewrite vset_length |]. split.
          -- intros i Hi. rewrite vget_vset_ne by lia. apply Hsame. lia.
          -- intros j Hj. destruct (decide (j = k)) as [-> | Hjk].
             ++ split; apply vget_vset_eq; unfold Vec.size; lia.
             ++ destruct (Hdone j) as [Hv Hs]; [lia |].
                rewrite !vget_vset_ne; [done | | lia].
                intros Heq. apply Hjk. symmetry.
                apply NoDup_ListNoDup in Hnd.
                apply (proj1 (List.NoDup_nth visited 0) Hnd); [lia | lia | done].
      + assert (Hnth : nth k order 0 = -1).
        { subst order. rewrite app_nth2 by lia.
          rewrite nth_lookup, lookup_replicate_2; [done | lia]. }
        rewrite Hnth.
        replace (Nat.min (S k) (length visited)) with (Nat.min k (length visited)) by lia.
        change (-1 >=? 0) with false. cbv iota.
        exists semi, vertex. split; [done |]. split; [done |]. split; [done |].
        split; [| done]. intros i Hi. apply Hsame. lia.
  Qed.

  (** The numbering loop, in terms of the preorder numbers. *)
Lemma number_fold (ord : list Z) (n : Z) :
    NoDup ord -> (forall x, In x ord -> 0 <= x < n) ->
    exists semi vertex,
      fold_left number_step (Vec.range n)
        (Vec.init 0 n, rev ord ++ replicate (Z.to_nat n - length ord) (-1), 0) =
        (semi, vertex, Z.of_nat (length ord)) /\
      length semi = Z.to_nat n /\ length vertex = Z.to_nat n /\
      (forall v, In v ord ->
         VECTOR semi v = Z.of_nat (rank ord v) + 1 /\
         VECTOR vertex (Z.of_nat (rank ord v)) = v + 1).
  Proof.
    intros Hnd Hr.
    assert (HN : (length ord <= Z.to_nat n)%nat).
    { rewrite <- (range_length n). apply NoDup_incl_length; [by apply NoDup_ListNoDup |].
      intros x Hx%Hr. by apply range_In. }
    destruct (number_steps_full (rev ord) n) with (k := Z.to_nat n)
      as (semi & vertex & Hfold & Hls & Hlv & _ & Hdone).
    - by apply NoDup_ListNoDup, List.NoDup_rev, NoDup_ListNoDup.
    - intros x Hx%in_rev. by apply Hr.
    - done.
    - rewrite length_rev in *.
      destruct (decide (0 <= n)) as [Hn | Hn].
      + rewrite Z2Nat.id in Hfold by done.
        replace (Nat.min (Z.to_nat n) (length ord)) with (length ord) in * by lia.
        exists semi, vertex. split; [done |]. split; [done |]. split; [done |].
        intros v Hv. pose proof (rank_lt ord v Hv) as Hlt.
        destruct (Hdone (rank ord v) Hlt) as [H1 H2].
        rewrite (rank_nth ord v 0 Hv) in H1, H2. done.
      + destruct ord as [| x ord]; [| specialize (Hr x (or_introl eq_refl)); lia].
        rewrite range_nil by lia. simpl.
        eexists _, _. split; [done |]. split; [apply vinit_length |].
        split; [by rewrite length_replicate; lia |]. by intros v [].
  Qed.
End Numbering.

Section Prune.
Import Dominator.
Variable parent : list Z.

Lemma vget_app_mid {A} (d : A) (pre : list A) x rest :
    Vec.get d (pre ++ x :: rest) (Vec.size pre) = x.
  Proof.
    unfold Vec.size. rewrite vget_of_nat, app_nth2 by lia. by rewrite Nat.sub_diag.
  Qed.

  (** Pruning keeps exactly the predecessors that the search has reached. *)
Lemma prune_pred_spec fuel : forall pre rest,
    (length rest <= fuel)%nat ->
    forall x,
      In x (prune_pred fuel parent (pre ++ rest) (Vec.size pre)
                       (Vec.size pre + Vec.size rest)) <->
      In x pre \/ (In x rest /\ -1 <= VECTOR parent x).
  Proof.
    induction fuel as [| fuel IH]; intros pre rest Hlen x.
    - destruct rest; [| simpl in Hlen; lia]. simpl. rewrite app_nil_r. intuition.
    - cbn [prune_pred]. destruct rest as [| xj rest1].
      + destruct (Z.ltb_spec (Vec.size pre) (Vec.size pre + Vec.size (@nil Z)));
          [unfold Vec.size in *; simpl in *; lia |].
        rewrite app_nil_r. simpl. intuition.
      + destruct (Z.ltb_spec (Vec.size pre) (Vec.size pre + Vec.size (xj :: rest1)));
          [| unfold Vec.size in *; simpl in *; lia].
        rewrite vget_app_mid. destruct (Z.geb_spec (VECTOR parent xj) (-1)) as [Hv | Hv].
        * replace (pre ++ xj :: rest1) with ((pre ++ [xj]) ++ rest1)
            by (by rewrite <- app_assoc).
          replace (Vec.size pre + 1) with (Vec.size (pre ++ [xj]))
            by (unfold Vec.size; rewrite length_app; simpl; lia).
          replace (Vec.size pre + Vec.size (xj :: rest1))
            with (Vec.size (pre ++ [xj]) + Vec.size rest1)
            by (unfold Vec.size; rewrite length_app; simpl; lia).
          rewrite IH by (simpl in Hlen; lia).
          rewrite in_app_iff. simpl. split.
          -- intros [[? | [<- | []]] | [? ?]]; auto.
          -- intros [? | [[<- | ?] ?]]; auto.
        * destruct (list_snoc_case rest1) as [-> | (rest2 & z & ->)].
          -- replace (Vec.size pre + Vec.size [xj] - 1) with (Vec.size pre)
               by (unfold Vec.size; simpl; lia).
             rewrite vget_app_mid, vset_next_cell, app_nil_r.
             rewrite removelast_last.
             pose proof (IH pre [] ltac:(simpl; lia) x) as IH'.
             rewrite app_nil_r in IH'. change (Vec.size (@nil Z)) with 0 in IH'.
             rewrite Z.add_0_r in IH'. rewrite IH'. simpl. split.
             ++ intros [? | [[] _]]. by left.
             ++ intros [? | [[<- | []] ?]]; [by left | lia].
          -- replace (pre ++ xj :: rest2 ++ [z]) with ((pre ++ xj :: rest2) ++ [z])
               by (by rewrite <- app_assoc).
             replace (Vec.size pre + Vec.size (xj :: rest2 ++ [z]) - 1)
               with (Vec.size (pre ++ xj :: rest2))
               by (unfold Vec.size; rewrite !length_app; simpl; rewrite length_app; simpl; lia).
             rewrite vget_app_mid.
             replace ((pre ++ xj :: rest2) ++ [z]) with (pre ++ xj :: (rest2 ++ [z]))
               by (by rewrite <- app_assoc).
             rewrite vset_next_cell.
             replace ((pre ++ [z]) ++ rest2 ++ [z]) with ((pre ++ z :: rest2) ++ [z])
               by (by rewrite <- !app_assoc).
             rewrite removelast_last.
             replace (Vec.size (pre ++ xj :: rest2))
               with (Vec.size pre + Vec.size (z :: rest2))
               by (unfold Vec.size; rewrite length_app; simpl; lia).
             rewrite IH by (simpl in *; rewrite length_app in Hlen; simpl in Hlen; lia).
             simpl. rewrite in_app_iff. simpl. split.
             ++ intros [? | [[<- | ?] ?]]; auto 6.
             ++ intros [? | [[<- | [? | [<- | []]]] ?]]; auto; lia.
  Qed.

Lemma prune_pred_In (l : list Z) x :
    In x (prune_pred (length l) parent l 0 (Vec.size l)) <->
    In x l /\ -1 <= VECTOR parent x.
  Proof.
    pose proof (prune_pred_spec (length l) [] l ltac:(lia) x) as H.
    simpl in H. change (Vec.size (@nil Z)) with 0 in H. rewrite Z.add_0_l in H.
    rewrite H. intuition.
  Qed.
End Prune.

Section Buckets.
Import Dominator DominatorSpec.
Variable n : Z.

Lemma bucket_chain_frame next elem y l : forall h,
    ~ In elem l ->
    (bucket_chain (vset next elem y) h l <-> bucket_chain next h l).
  Proof.
    induction l as [| e l IH]; intros h Hnot; [done |]. simpl.
    rewrite vget_vset_ne by (intros ->; apply Hnot; by left).
    rewrite IH by (intros Hin; apply Hnot; by right). done.
  Qed.

Lemma bucket_insert b B bid elem :
    bucket_rep n b B -> 0 <= bid < n -> 0 <= elem < n ->
    (forall x, ~ In elem (B x)) ->
    bucket_rep n (igraph_i_dbucket_insert b bid elem)
               (fun x => if x =? bid then elem :: B bid else B x).
  Proof.
    intros (Hlh & Hln & Hrep) Hbid Helem Hfresh.
    unfold igraph_i_dbucket_insert. split; [| split]; simpl.
    - by rewrite vset_length.
    - by rewrite vset_length.
    - intros x. destruct (Z.eqb_spec x bid) as [-> | Hne].
      + rewrite vget_vset_eq by (unfold Vec.size; lia). simpl. split; [done |].
        rewrite vget_vset_eq by (unfold Vec.size; lia).
        by apply bucket_chain_frame.
      + rewrite vget_vset_ne by done. by apply bucket_chain_frame.
  Qed.

Lemma bucket_empty b B bid :
    bucket_rep n b B -> (forall e, In e (B bid) -> 0 <= e) ->
    (igraph_i_dbucket_empty b bid = true <-> B bid = []).
  Proof.
    intros (_ & _ & Hrep) Hpos. unfold igraph_i_dbucket_empty.
    specialize (Hrep bid). destruct (B bid) as [| e l]; simpl in Hrep.
    - rewrite Hrep. done.
    - destruct Hrep as [-> _]. specialize (Hpos e (or_introl eq_refl)).
      split; [intros ?%Z.eqb_eq; lia | done].
  Qed.

Lemma bucket_delete b B bid e rest :
    bucket_rep n b B -> B bid = e :: rest -> 0 <= bid < n ->
    exists b', igraph_i_dbucket_delete b bid = (b', e) /\
      bucket_rep n b' (fun x => if x =? bid then rest else B x).
  Proof.
    intros (Hlh & Hln & Hrep) HB Hbid. unfold igraph_i_dbucket_delete.
    pose proof (Hrep bid) as Hb. rewrite HB in Hb. destruct Hb as [Hh Hc].
    rewrite Hh. replace (e + 1 - 1) with e by lia.
    eexists. split; [done |]. split; [| split]; simpl.
    - by rewrite vset_length.
    - done.
    - intros x. destruct (Z.eqb_spec x bid) as [-> | Hne].
      + by rewrite vget_vset_eq by (unfold Vec.size; lia).
      + rewrite vget_vset_ne by done. apply Hrep.
  Qed.
End Buckets.

(** ** LINK, COMPRESS and EVAL *)

Section LinkEval.
Import Dominator DominatorSpec.
Variables (graph : igraph_t) (mode : igraph_neimode_t) (root : Z).
Variables (ord parents : list Z).
Hypothesis Hdir : igraph_is_directed graph = true.
Hypothesis Htree : search_tree graph mode root ord parents.
Variables (k : nat) (semi : list Z).

Let Hrange := st_range _ _ _ _ _ Htree.
Let Hplen := st_len _ _ _ _ _ Htree.
Let L_ord := anc_ord graph mode root ord parents Hdir Htree.
Let L_num := anc_num graph mode root ord parents Hdir Htree.
Let L_proper := anc_proper graph mode root ord parents Hdir Htree.
Let L_linear := anc_linear graph mode root ord parents Hdir Htree.
Let L_eq := anc_eq graph mode root ord parents Hdir Htree.

Lemma between_split r a w x :
    In w ord -> anc parents r a -> anc parents a w -> a <> w ->
    between parents r w x -> between parents r a x \/ between parents a w x.
  Proof.
    intros Hw Hra Haw Hne (Hrx & Hxr & Hxw).
    destruct (decide (rank ord x <= rank ord a)%nat) as [Hle | Hgt].
    - left. split; [done |]. split; [done |]. by apply (L_linear x a w).
    - right. split; [apply (L_linear a x w); try done; lia |]. split; [| done].
      intros ->. lia.
  Qed.

Lemma between_left r a w x :
    In w ord -> anc parents a w -> between parents r a x -> between parents r w x.
  Proof.
    intros Hw Haw (Hrx & Hxr & Hxa). split; [done |]. split; [done |].
    by apply (anc_trans parents x a w).
  Qed.

Lemma between_right r a w x :
    In w ord -> anc parents r a -> between parents a w x -> between parents r w x.
  Proof.
    intros Hw Hra (Hax & Hxa & Hxw). split; [by apply (anc_trans parents r a x) |].
    split; [| done]. intros ->. apply Hxa. apply (L_eq r a); [| done | done].
    apply (L_ord a w); [| done]. by apply (anc_trans parents a r w).
  Qed.

Lemma compress_path_app ancestor fuel : forall w path,
    compress_path fuel ancestor w path = compress_path fuel ancestor w [] ++ path.
  Proof.
    induction fuel as [| fuel IH]; intros w path; [done |]. simpl.
    destruct (VECTOR ancestor w =? 0); [done |].
    rewrite (IH _ (w :: path)), (IH _ [w]). by rewrite <- app_assoc.
  Qed.

  (** The stack that COMPRESS builds. *)
Lemma compress_path_chain ancestor label fuel : forall w,
    forest_ok ord parents k semi ancestor label ->
    In w ord -> (rank ord w < fuel)%nat ->
    exists r l,
      compress_path fuel ancestor w [] = l /\
      achain ancestor r l w /\
      In r ord /\ (rank ord r < k)%nat /\ anc parents r w /\
      forall y, In y l -> In y ord /\ between parents r w y.
  Proof.
    intros w Hf. revert w. induction fuel as [| fuel IH]; intros w Hw Hfuel; [lia |].
    simpl. destruct (decide (rank ord w < k)%nat) as [Hlt | Hge].
    - destruct (f_unlinked _ _ _ _ _ _ Hf w Hw Hlt) as [Ha _].
      rewrite Ha. simpl. exists w, []. split; [done |]. split; [by constructor |].
      split; [done |]. split; [done |]. split; [constructor | by intros y []].
    - destruct (f_linked _ _ _ _ _ _ Hf w Hw ltac:(lia)) as (a & Ha & Haw & Hne & Hlk & _).
      assert (Hain : In a ord) by (by apply (L_ord a w)).
      pose proof (Hrange a Hain) as Har.
      rewrite Ha. destruct (Z.eqb_spec (a + 1) 0); [lia |].
      replace (a + 1 - 1) with a by lia.
      pose proof (L_proper a w Haw Hne Hw) as Hlt.
      destruct (IH a Hain ltac:(lia)) as (r & l & Hcp & Hch & Hr & Hrk & Hra & Hl).
      rewrite compress_path_app, Hcp.
      exists r, (l ++ [w]). split; [done |]. split; [apply (achain_snoc _ r l a w); [done | lia | done] |].
      split; [done |]. split; [done |]. split; [by apply (anc_trans parents r a w) |].
      intros y [Hy | [<- | []]]%in_app_iff.
      + destruct (Hl y Hy) as [Hyo Hb]. split; [done |]. by apply (between_left r a w).
      + split; [done |]. split; [by apply (anc_trans parents r a w) |].
        split; [intros ->; lia | constructor].
  Qed.

Lemma linked_of_pointer ancestor label w a :
    forest_ok ord parents k semi ancestor label ->
    In w ord -> VECTOR ancestor w = a + 1 -> 0 <= a ->
    (k <= rank ord w)%nat /\ anc parents a w /\ a <> w /\ In a ord /\
    (forall x, between parents a w x -> (k <= rank ord x)%nat) /\
    seg_min parents semi a w (VECTOR label w).
  Proof.
    intros Hf Hw Ha Ha0.
    destruct (decide (rank ord w < k)%nat) as [Hlt | Hge].
    { destruct (f_unlinked _ _ _ _ _ _ Hf w Hw Hlt) as [Hz _]. lia. }
    destruct (f_linked _ _ _ _ _ _ Hf w Hw ltac:(lia)) as (a' & Ha' & Haw & Hne & Hlk & Hmin).
    assert (a' = a) as -> by lia.
    split; [lia |]. split; [done |]. split; [done |]. split; [by apply (L_ord a w) |]. done.
  Qed.

Lemma achain_members ancestor label r l w :
    forest_ok ord parents k semi ancestor label ->
    achain ancestor r l w -> In w ord ->
    forall y, In y l -> In y ord /\ anc parents y w.
  Proof.
    intros Hf Hch. induction Hch as [r Hr | r l a w Ha Ha0 Hch IH]; intros Hw y Hy; [done |].
    destruct (linked_of_pointer _ _ w a Hf Hw Ha Ha0) as (_ & Haw & _ & Hain & _).
    apply in_app_iff in Hy as [Hy | [<- | []]].
    - destruct (IH Hain y Hy) as [Hyo Hya]. split; [done |].
      by apply (anc_trans parents y a w).
    - split; [done | constructor].
  Qed.

  (** The second loop of COMPRESS: every stacked vertex ends up pointing to
      the root of its tree, with the label of least [semi] below the root. *)
Lemma compress_fold ancestor label r l w :
    forest_ok ord parents k semi ancestor label ->
    achain ancestor r l w -> l <> [] -> In w ord ->
    exists anc' lab',
      fold_left (compress_step semi) (tl l) (ancestor, label, hd 0 l) = (anc', lab', w) /\
      forest_ok ord parents k semi anc' lab' /\
      VECTOR anc' w = r + 1 /\
      (forall y, ~ In y l ->
         VECTOR anc' y = VECTOR ancestor y /\ VECTOR lab' y = VECTOR label y).
  Proof.
    intros Hf Hch. induction Hch as [r Hr | r l a w Ha Ha0 Hch IH]; intros Hne Hw; [done |].
    destruct (linked_of_pointer _ _ w a Hf Hw Ha Ha0) as (Hwk & Haw & Haw' & Hain & Hlkw & Hminw).
    destruct l as [| top l0].
    - (* the child of the root *)
      inversion Hch as [r' Hr' | r' l' a' w' ? ? ? Heq]; subst;
        try (by destruct l'). simpl.
      exists ancestor, label. split; [done |]. split; [done |]. split; [done |]. done.
    - destruct (IH ltac:(done) Hain) as (anc1 & lab1 & Hfold & Hf1 & Hra & Hframe).
      simpl in Hfold |- *. rewrite fold_left_app, Hfold. cbn [fold_left compress_step].
      assert (Hwl : ~ In w (top :: l0)).
      { intros Hin. destruct (achain_members _ _ _ _ _ Hf Hch Hain w Hin) as [_ Hwa].
        apply Haw'. by apply (L_eq a w). }
      destruct (Hframe w Hwl) as [Hanc1w Hlab1w].
      assert (Hak : (k <= rank ord a)%nat).
      { inversion Hch as [r' Hr' | r' l' a' w' Hp Hp0 ? Heq]; subst.
        by destruct (linked_of_pointer _ _ a a' Hf Hain Hp Hp0). }
      destruct (linked_of_pointer _ _ a r Hf1 Hain Hra) as (_ & Hranc & Hrne & Hrin & Hlka & Hmina).
      { destruct (f_linked _ _ _ _ _ _ Hf1 a Hain Hak) as (r' & Hr' & Hr'a & _).
        assert (r' = r) as -> by lia. apply Hrange. by apply (L_ord r a). }
      destruct (linked_of_pointer _ _ w a Hf1 Hw ltac:(by rewrite Hanc1w) Ha0)
        as (_ & _ & _ & _ & _ & Hminw1).
      pose proof (Hrange w Hw) as Hwr.
      set (lab2 := if VECTOR semi (VECTOR lab1 a) <? VECTOR semi (VECTOR lab1 w)
                   then vset lab1 w (VECTOR lab1 a) else lab1).
      assert (Hlab2_other : forall y, y <> w -> VECTOR lab2 y = VECTOR lab1 y).
      { intros y Hy. subst lab2. destruct (_ <? _); [| done]. by apply vget_vset_ne. }
      assert (Hlab2_w : seg_min parents semi r w (VECTOR lab2 w)).
      { subst lab2. destruct Hmina as [Hb1 Hm1], Hminw1 as [Hb2 Hm2].
        destruct (Z.ltb_spec (VECTOR semi (VECTOR lab1 a)) (VECTOR semi (VECTOR lab1 w))).
        - rewrite vget_vset_eq
            by (unfold Vec.size; rewrite (f_len_lab _ _ _ _ _ _ Hf1), Hplen; lia).
          split; [by apply (between_left r a w) |].
          intros x [Hx | Hx]%(between_split r a w); try done.
          + by apply Hm1.
          + specialize (Hm2 x Hx). lia.
        - split; [by apply (between_right r a w) |].
          intros x [Hx | Hx]%(between_split r a w); try done.
          + specialize (Hm1 x Hx). lia.
          + by apply Hm2. }
      exists (vset anc1 w (VECTOR anc1 a)), lab2. split; [done |]. split; [| split].
      + constructor.
        * rewrite vset_length. apply (f_len_anc _ _ _ _ _ _ Hf1).
        * subst lab2. destruct (_ <? _); rewrite ?vset_length; apply (f_len_lab _ _ _ _ _ _ Hf1).
        * intros v Hv Hvk. assert (v <> w) by (intros ->; lia).
          rewrite vget_vset_ne, Hlab2_other by done.
          by apply (f_unlinked _ _ _ _ _ _ Hf1).
        * intros v Hv Hvk. destruct (decide (v = w)) as [-> | Hvw].
          -- exists r. rewrite Hra.
             split; [apply vget_vset_eq; unfold Vec.size;
                     rewrite (f_len_anc _ _ _ _ _ _ Hf1), Hplen; lia |].
             split; [by apply (anc_trans parents r a w) |].
             split; [intros ->; apply Haw'; by apply (L_eq a w) |].
             split; [| done].
             intros x [Hx | Hx]%(between_split r a w); try done; [by apply Hlka | by apply Hlkw].
          -- rewrite vget_vset_ne, Hlab2_other by done.
             by apply (f_linked _ _ _ _ _ _ Hf1).
      + rewrite Hra. apply vget_vset_eq. unfold Vec.size.
        rewrite (f_len_anc _ _ _ _ _ _ Hf1), Hplen. lia.
      + intros y Hy.
        assert (Hyw : y <> w).
        { intros ->. apply Hy. right. apply in_app_iff. right. by left. }
        assert (Hyl : ~ In y (top :: l0)).
        { intros [-> | Hin]; apply Hy; [by left | right; apply in_app_iff; by left]. }
        rewrite vget_vset_ne, Hlab2_other by done. by apply Hframe.
  Qed.

  (** EVAL on a visited vertex: a vertex that is not linked is returned as
      it is; for a linked vertex the result has the least [semi] among the
      vertices from the root of its tree (left out) down to it. *)
Lemma eval_spec ancestor label v :
    forest_ok ord parents k semi ancestor label -> In v ord ->
    exists u ancestor' label',
      igraph_i_dominator_EVAL v ancestor label semi = (u, ancestor', label') /\
      forest_ok ord parents k semi ancestor' label' /\
      ((rank ord v < k)%nat -> u = v) /\
      ((k <= rank ord v)%nat ->
         exists r, In r ord /\ (rank ord r < k)%nat /\ anc parents r v /\
           (forall x, between parents r v x -> (k <= rank ord x)%nat) /\
           seg_min parents semi r v u).
  Proof.
    intros Hf Hv. unfold igraph_i_dominator_EVAL.
    destruct (decide (rank ord v < k)%nat) as [Hlt | Hge].
    - destruct (f_unlinked _ _ _ _ _ _ Hf v Hv Hlt) as [Ha _]. rewrite Ha. simpl.
      exists v, ancestor, label. split; [done |]. split; [done |]. split; [done | lia].
    - destruct (f_linked _ _ _ _ _ _ Hf v Hv ltac:(lia)) as (a & Ha & Hav & Hne & _).
      assert (Ha0 : 0 <= a) by (apply Hrange; by apply (L_ord a v)).
      rewrite Ha. destruct (Z.eqb_spec (a + 1) 0); [lia |].
      unfold igraph_i_dominator_COMPRESS.
      assert (Hfuel : (rank ord v < length ancestor)%nat).
      { rewrite (f_len_anc _ _ _ _ _ _ Hf), Hplen.
        pose proof (rank_lt ord v Hv).
        assert (length ord <= Z.to_nat (igraph_vcount graph))%nat; [| lia].
        rewrite <- (range_length (igraph_vcount graph)). apply NoDup_incl_length.
        - apply NoDup_ListNoDup, (st_nodup _ _ _ _ _ Htree).
        - intros x Hx%Hrange. by apply range_In. }
      destruct (compress_path_chain ancestor label (length ancestor) v Hf Hv Hfuel)
        as (r & l & Hcp & Hch & Hr & Hrk & Hrv & Hl).
      rewrite Hcp. destruct l as [| top l0].
      { inversion Hch as [r' Hr' | r' l' a' w' ? ? ? Heq]; subst; try lia; by destruct l'. }
      destruct (compress_fold ancestor label r (top :: l0) v Hf Hch ltac:(done) Hv)
        as (anc' & lab' & Hfold & Hf' & Hra & _).
      simpl in Hfold. rewrite Hfold.
      exists (VECTOR lab' v), anc', lab'. split; [done |]. split; [done |].
      split; [lia |]. intros _.
      destruct (linked_of_pointer _ _ v r Hf' Hv Hra) as (_ & _ & _ & _ & Hlk & Hmin);
        [by apply Hrange |].
      exists r. done.
  Qed.
End LinkEval.

(** ** Lengauer-Tarjan, steps 2 and 3 *)

Lemma range_from_seq (N : nat) :
  Vec.range_from 1 (Z.of_nat N) = map Z.of_nat (seq 1 (N - 1)).
Proof.
  unfold Vec.range_from, Vec.range. rewrite map_map.
  replace (Z.to_nat (Z.of_nat N - 1)) with (N - 1)%nat by lia.
  rewrite <- seq_shift, map_map. apply map_ext. intros i. lia.
Qed.

Section MainLoop.
Import Dominator DominatorSpec.
Variables (graph : igraph_t) (mode : igraph_neimode_t) (root : Z).
Variables (ord parents : list Z).
Hypothesis Hdir : igraph_is_directed graph = true.
Hypothesis Htree : search_tree graph mode root ord parents.

Let n := igraph_vcount graph.
Let Hrange := st_range _ _ _ _ _ Htree.
Let Hplen := st_len _ _ _ _ _ Htree.
Let Hproot := st_proot _ _ _ _ _ Htree.
Let L_ord := anc_ord graph mode root ord parents Hdir Htree.
Let L_num := anc_num graph mode root ord parents Hdir Htree.
Let L_proper := anc_proper graph mode root ord parents Hdir Htree.
Let L_linear := anc_linear graph mode root ord parents Hdir Htree.
Let L_eq := anc_eq graph mode root ord parents Hdir Htree.
Let L_par := tree_par graph mode root ord parents Hdir Htree.

Lemma between_ord a v x : In v ord -> between parents a v x -> In x ord.
  Proof. intros Hv (_ & _ & Hxv). by apply (L_ord x v). Qed.

Lemma forest_semi_frame k semi semi' ancestor label :
    forest_ok ord parents k semi ancestor label ->
    (forall x, In x ord -> (k <= rank ord x)%nat -> VECTOR semi' x = VECTOR semi x) ->
    forest_ok ord parents k semi' ancestor label.
  Proof.
    intros [Hla Hll Hun Hlk] Hsame. constructor; try done.
    intros v Hv Hk. destruct (Hlk v Hv Hk) as (a & Ha & Hav & Hne & Hlinked & [Hb Hmin]).
    exists a. split; [done |]. split; [done |]. split; [done |]. split; [done |].
    split; [done |]. intros x Hx.
    rewrite !Hsame; [by apply Hmin | | | |]; try (by apply Hlinked);
      by apply (between_ord a v).
  Qed.

Lemma rel_dom_frame k semi semi' v d :
    In v ord -> (k <= rank ord v)%nat ->
    (forall x, In x ord -> (k <= rank ord x)%nat -> VECTOR semi' x = VECTOR semi x) ->
    rel_dom ord parents k semi v d -> rel_dom ord parents k semi' v d.
  Proof.
    intros Hv Hk Hsame (s & u & Hs & Hsv & [Hb Hmin] & Hlinked & Hd).
    assert (Hu : VECTOR semi' u = VECTOR semi u).
    { apply Hsame; [by apply (between_ord s v) | by apply Hlinked]. }
    exists s, u. rewrite Hu, (Hsame v Hv Hk). split; [done |]. split; [done |].
    split; [| done]. split; [done |]. intros x Hx.
    rewrite Hu, Hsame; [by apply Hmin | by apply (between_ord s v) | by apply Hlinked].
  Qed.

Lemma rel_dom_weaken k k' semi v d :
    (k' <= k)%nat -> rel_dom ord parents k semi v d -> rel_dom ord parents k' semi v d.
  Proof.
    intros Hk (s & u & Hs & Hsv & Hmin & Hlinked & Hd).
    exists s, u. split; [done |]. split; [done |]. split; [done |]. split; [| done].
    intros y Hy. specialize (Hlinked y Hy). lia.
  Qed.

Lemma between_parent w x :
    In w ord -> w <> root -> between parents (VECTOR parents w) w x -> x = w.
  Proof.
    intros Hw Hwr (Hpx & Hne & Hxw).
    inversion Hxw as [| x' w' Hp Hxp]; subst; [done |].
    exfalso. apply Hne. apply (L_eq x (VECTOR parents w)); [| done | done].
    by apply (L_par w).
  Qed.

Lemma link_forest k semi ancestor label w :
    forest_ok ord parents (S k) semi ancestor label ->
    In w ord -> rank ord w = k -> w <> root ->
    forest_ok ord parents k semi
      (igraph_i_dominator_LINK (VECTOR parents w) w ancestor) label.
  Proof.
    intros [Hla Hll Hun Hlk] Hw Hrk Hwr. unfold igraph_i_dominator_LINK.
    destruct (L_par w Hw Hwr) as (Hp & _ & Hlt & Hpos).
    constructor.
    - by rewrite vset_length.
    - done.
    - intros v Hv Hvk. rewrite vget_vset_ne by (intros ->; lia). apply Hun; [done | lia].
    - intros v Hv Hvk. destruct (decide (v = w)) as [-> | Hne].
      + exists (VECTOR parents w).
        split; [apply vget_vset_eq; unfold Vec.size; rewrite Hla, Hplen;
                specialize (Hrange w Hw); lia |].
        assert (Haw : anc parents (VECTOR parents w) w) by (apply anc_step; [done | constructor]).
        split; [done |]. split; [intros Heq; rewrite Heq in Hlt; lia |].
        destruct (Hun w Hw ltac:(lia)) as [_ Hlab]. rewrite Hlab.
        split; [intros x ->%between_parent; [lia | done | done] |].
        assert (Hb : between parents (VECTOR parents w) w w).
        { split; [done |]. split; [intros Heq; rewrite <- Heq in Hlt; lia | constructor]. }
        split; [done |]. intros x ->%between_parent; [lia | done | done].
      + rewrite vget_vset_ne by done.
        assert (Hk' : (S k <= rank ord v)%nat).
        { destruct (decide (rank ord v = k)) as [Heq | ?]; [| lia].
          exfalso. apply Hne. apply (rank_inj ord); [done | done | lia]. }
        destruct (Hlk v Hv Hk') as (a & Ha & Hav & Hane & Hlinked & Hmin).
        exists a. split; [done |]. split; [done |]. split; [done |]. split; [| done].
        intros x Hx. specialize (Hlinked x Hx). lia.
  Qed.

  (** The child of a proper ancestor on the way down to a vertex. *)
Lemma child_toward s w :
    anc parents s w -> s <> w -> In w ord ->
    exists c, In c ord /\ c <> root /\ VECTOR parents c = s /\ anc parents c w.
  Proof.
    induction 1 as [w | s w Hpos Hanc IH]; intros Hne Hw; [done |].
    assert (Hwr : w <> root) by (intros ->; rewrite Hproot in Hpos; lia).
    destruct (decide (s = VECTOR parents w)) as [-> | Hsp].
    - exists w. split; [done |]. split; [done |]. split; [done | constructor].
    - destruct (L_par w Hw Hwr) as (Hp & _).
      destruct (IH Hsp Hp) as (c & Hc & Hcr & Hpc & Hcw).
      exists c. split; [done |]. split; [done |]. split; [done |]. by apply anc_step.
  Qed.

  (** The root of the tree of a linked vertex is its lowest ancestor that is
      not linked. *)
Lemma forest_root_unique k r p v :
    In v ord -> In r ord -> In p ord ->
    anc parents r v -> (rank ord r < k)%nat ->
    (forall x, between parents r v x -> (k <= rank ord x)%nat) ->
    anc parents p v -> (rank ord p < k)%nat ->
    (forall x, between parents p v x -> (k <= rank ord x)%nat) ->
    r = p.
  Proof.
    intros Hv Hr Hp Hrv Hrk Hrl Hpv Hpk Hpl.
    apply (rank_inj ord); [done | done |].
    destruct (decide (rank ord r < rank ord p)%nat) as [Hlt | Hge].
    - assert (Hb : between parents r v p).
      { split; [apply (L_linear r p v); try done; lia |]. split; [intros ->; lia | done]. }
      specialize (Hrl p Hb). lia.
    - destruct (decide (rank ord p < rank ord r)%nat) as [Hlt | Hge']; [| lia].
      assert (Hb : between parents p v r).
      { split; [apply (L_linear p r v); try done; lia |]. split; [intros ->; lia | done]. }
      specialize (Hpl r Hb). lia.
  Qed.

  (** *** Step 2: the semidominator of [w] *)

Section SemiPhase.
Variables (k : nat) (w : Z) (st0 : lt_state) (B : Z -> list Z).
Hypothesis Hinv : lt_inv graph mode root ord parents (S k) (S k) st0 B.
Hypothesis Hw : In w ord.
Hypothesis Hwk : rank ord w = k.
Hypothesis Hwr : w <> root.

    (** No candidate that comes through the predecessor [v] beats [c]. *)
Let bound (c : Z) (v : Z) : Prop :=
      ((rank ord v < k)%nat -> c <= Z.of_nat (rank ord v) + 1) /\
      ((k < rank ord v)%nat -> forall u su, anc parents u v -> (k < rank ord u)%nat ->
         is_sdom graph mode ord su u -> c <= Z.of_nat (rank ord su) + 1).

Let phase (st : lt_state) (preds : list Z) : Prop :=
      length (semi st) = Z.to_nat n /\
      bucket st = bucket st0 /\ mydom st = mydom st0 /\
      forest_ok ord parents (S k) (semi st) (ancestor st) (label st) /\
      (forall x, x <> w -> VECTOR (semi st) x = VECTOR (semi st0) x) /\
      VECTOR (semi st) w <= Z.of_nat k + 1 /\
      (VECTOR (semi st) w = Z.of_nat k + 1 \/
       exists x, In x ord /\ semipath graph mode ord x w /\
                 VECTOR (semi st) w = Z.of_nat (rank ord x) + 1) /\
      forall v, In v preds -> bound (VECTOR (semi st) w) v.

Lemma semi_phase preds :
      (forall v, In v preds -> In v ord /\ arc graph mode v w) ->
      phase (fold_left (semi_step w) preds st0) preds.
    Proof.
      induction preds as [| v preds IH] using rev_ind; intros Hpreds.
      - simpl. destruct Hinv as [Hls Hld Hf Hdone Htodo Hb Hbin Hbnd Hdom Hun].
        split; [done |]. split; [done |]. split; [done |]. split; [done |].
        split; [done |]. rewrite (Htodo w Hw ltac:(lia)), Hwk.
        split; [lia |]. split; [by left | by intros v []].
      - rewrite fold_left_app. cbn [fold_left].
        destruct IH as (Hls & Hbk & Hmd & Hf & Hsame & Hle & Hach & Hbound).
        { intros v' Hv'. apply Hpreds, in_app_iff. by left. }
        destruct (Hpreds v) as [Hv Harc]; [apply in_app_iff; right; by left |].
        set (st := fold_left (semi_step w) preds st0) in *.
        destruct (eval_spec graph mode root ord parents Hdir Htree (S k) (semi st)
                    (ancestor st) (label st) v Hf Hv)
          as (u & anc' & lab' & Heval & Hf' & Hu1 & Hu2).
        unfold semi_step. rewrite Heval.
        destruct Hinv as [_ _ _ Hdone Htodo _ _ _ _ _].
        pose proof (Hrange w Hw) as Hwrange.
        (* the semi of the vertex that EVAL returns, and what it stands for *)
        assert (Hcases :
          (u = w /\ v = w) \/
          ((rank ord v < k)%nat /\ u = v /\ VECTOR (semi st) u = Z.of_nat (rank ord v) + 1) \/
          ((k < rank ord v)%nat /\ anc parents u v /\ (k < rank ord u)%nat /\
           (exists su, is_sdom graph mode ord su u /\
                       VECTOR (semi st) u = Z.of_nat (rank ord su) + 1) /\
           forall u', anc parents u' v -> (k < rank ord u')%nat ->
             VECTOR (semi st) u <= VECTOR (semi st) u')).
        { destruct (decide (rank ord v < S k)%nat) as [Hlt | Hge].
          - rewrite (Hu1 Hlt). destruct (decide (v = w)) as [-> | Hvw]; [by left |].
            right. left.
            assert (rank ord v <> k).
            { intros Heq. apply Hvw. apply (rank_inj ord); [done | done | lia]. }
            split; [lia |]. split; [done |].
            rewrite Hsame by done. apply Htodo; [done | lia].
          - right. right.
            destruct (Hu2 ltac:(lia)) as (r & Hr & Hrk & Hrv & Hlinked & [Hb Hmin]).
            pose proof (Hlinked u Hb) as Huk.
            assert (Huo : In u ord) by (by apply (between_ord r v)).
            assert (Huw : u <> w) by (intros ->; lia).
            split; [lia |]. split; [apply Hb |]. split; [lia |]. split.
            + destruct (Hdone u Huo Huk) as (su & Hsu & Hsemi).
              exists su. split; [done |]. by rewrite Hsame.
            + intros u' Hu'v Hu'k. apply Hmin. split; [| split; [| done]].
              * apply (L_linear r u' v); try done. lia.
              * intros ->. lia. }
        set (semi' := if VECTOR (semi st) u <? VECTOR (semi st) w
                      then vset (semi st) w (VECTOR (semi st) u) else semi st).
        assert (Hsemi'_other : forall x, x <> w -> VECTOR semi' x = VECTOR (semi st) x).
        { intros x Hx. subst semi'. destruct (_ <? _); [| done]. by apply vget_vset_ne. }
        assert (Hsemi'_w : VECTOR semi' w = Z.min (VECTOR (semi st) u) (VECTOR (semi st) w)).
        { subst semi'. destruct (Z.ltb_spec (VECTOR (semi st) u) (VECTOR (semi st) w)).
          - rewrite vget_vset_eq by (unfold Vec.size; lia). lia.
          - lia. }
        unfold phase. cbn [semi ancestor label bucket mydom].
        split; [subst semi'; destruct (_ <? _); by rewrite ?vset_length |].
        split; [done |]. split; [done |]. split.
        { apply (forest_semi_frame (S k) (semi st)); [done |].
          intros x Hx Hxk. apply Hsemi'_other. intros ->. lia. }
        split; [intros x Hx; by rewrite Hsemi'_other, Hsame |].
        rewrite Hsemi'_w. split; [lia |]. split.
        { destruct (Z.min_spec (VECTOR (semi st) u) (VECTOR (semi st) w)) as [[Hlt ->] | [Hge ->]];
            [| done].
          destruct Hcases as [[-> _] | [(Hvk & -> & Hsu) | (Hvk & Huv & Huk & (su & Hsu & Hsemi) & _)]].
          - lia.
          - right. exists v. split; [done |]. split; [by apply semipath_edge | done].
          - right. exists su. split; [apply Hsu |]. split; [| done].
            apply (semipath_via graph mode root ord parents Hdir Htree su u v w);
              try done; [lia | apply Hsu]. }
        intros v' [Hv' | [<- | []]]%in_app_iff.
        { destruct (Hbound v' Hv') as [Hb1 Hb2]. split.
          - intros Hlt. specialize (Hb1 Hlt). lia.
          - intros Hgt u0 su0 H1 H2 H3. specialize (Hb2 Hgt u0 su0 H1 H2 H3). lia. }
        destruct Hcases as [[-> ->] | [(Hvk & -> & Hsu) | (Hvk & Huv & Huk & _ & Hmin)]].
        + split; intros; lia.
        + split; [intros _; lia | lia].
        + split; [lia |]. intros _ u' su' Hu'v Hu'k Hsu'.
          specialize (Hmin u' Hu'v Hu'k).
          assert (Hu'o : In u' ord) by (by apply (L_ord u' v)).
          destruct (Hdone u' Hu'o ltac:(lia)) as (su'' & Hsu'' & Hsemi'').
          rewrite <- (sdom_unique graph mode ord su'' su' u' Hsu'' Hsu').
          assert (u' <> w) by (intros ->; lia).
          rewrite (Hsame u') in Hmin by done. lia.
    Qed.

    (** Theorem 4 at work: after the loop over all predecessors, [semi w] is
        the number of the semidominator of [w]. *)
Lemma semi_phase_sdom preds :
      (forall v, In v preds <-> In v ord /\ arc graph mode v w) ->
      let st := fold_left (semi_step w) preds st0 in
      length (semi st) = Z.to_nat n /\
      bucket st = bucket st0 /\ mydom st = mydom st0 /\
      forest_ok ord parents (S k) (semi st) (ancestor st) (label st) /\
      (forall x, x <> w -> VECTOR (semi st) x = VECTOR (semi st0) x) /\
      exists s, is_sdom graph mode ord s w /\
                VECTOR (semi st) w = Z.of_nat (rank ord s) + 1.
    Proof.
      intros Hpreds st.
      destruct (semi_phase preds) as (Hls & Hbk & Hmd & Hf & Hsame & Hle & Hach & Hbound).
      { intros v Hv. by apply Hpreds. }
      fold st in Hls, Hbk, Hmd, Hf, Hsame, Hle, Hach, Hbound.
      split; [done |]. split; [done |]. split; [done |]. split; [done |]. split; [done |].
      destruct Hinv as [_ _ _ Hdone _ _ _ _ _ _].
      destruct (L_par w Hw Hwr) as (Hp & Harc & Hplt & _).
      destruct (Hbound (VECTOR parents w)) as [Hb1 _]; [by apply Hpreds |].
      specialize (Hb1 ltac:(lia)).
      destruct Hach as [Heq | (s & Hs & Hsp & Heq)]; [lia |].
      exists s. split; [| done]. split; [done |]. split; [done |].
      intros x Hx Hxp.
      destruct (semipath_cases graph mode root ord parents Hdir Htree x w Hx Hxp)
        as [Hxw | (u & v & Hv & Hvw & Huv & Hwu & Hxu)].
      - destruct (Hbound x) as [Hx1 Hx2]; [by apply Hpreds |].
        destruct (decide (rank ord x < k)%nat) as [Hlt | Hge]; [specialize (Hx1 Hlt); lia |].
        destruct (decide (rank ord x = k)) as [Hxk | Hxk]; [lia |].
        destruct (Hdone x Hx ltac:(lia)) as (sx & Hsx & _).
        specialize (Hx2 ltac:(lia) x sx (anc_refl _ x) ltac:(lia) Hsx).
        assert (Hxr : x <> root).
        { intros ->. rewrite (num_root graph mode root ord parents Htree) in Hge. lia. }
        destruct (sdom_above graph mode root ord parents Hdir Htree sx x Hx Hxr Hsx). lia.
      - destruct (Hbound v) as [_ Hv2]; [by apply Hpreds |].
        assert (Huo : In u ord) by (by apply (L_ord u v)).
        pose proof (L_num u v Huv Hv) as Hle'.
        destruct (Hdone u Huo ltac:(lia)) as (su & Hsu & _).
        specialize (Hv2 ltac:(lia) u su Huv ltac:(lia) Hsu).
        destruct Hsu as (_ & _ & Hmin). specialize (Hmin x Hx Hxu). lia.
    Qed.
End SemiPhase.

Lemma nodup_range_length (l : list Z) :
    NoDup l -> (forall x, In x l -> 0 <= x < n) -> (length l <= Z.to_nat n)%nat.
  Proof.
    intros Hnd Hr. rewrite <- (range_length n). apply NoDup_incl_length.
    - by apply NoDup_ListNoDup.
    - intros x Hx%Hr. by apply range_In.
  Qed.

  (** *** Step 3: the bucket of the parent of [w] *)

Section DrainPhase.
Variables (k : nat) (w : Z).
Hypothesis Hw : In w ord.
Hypothesis Hwk : rank ord w = k.
Hypothesis Hwr : w <> root.

    (** A vertex that waits in the bucket of the parent of [w] hangs below
        [w]: everything between the parent and the vertex is linked. *)
Lemma bucket_below v c :
      In v ord -> (k <= rank ord v)%nat ->
      In c ord -> c <> root -> VECTOR parents c = VECTOR parents w ->
      anc parents c v -> (rank ord c < S k)%nat ->
      forall y, between parents (VECTOR parents w) v y -> (k <= rank ord y)%nat.
    Proof.
      intros Hv Hvk Hc Hcr Hpc Hcv Hck y (Hpy & Hyp & Hyv).
      destruct (L_par c Hc Hcr) as (_ & _ & Hplt & _).
      assert (Hcge : (k <= rank ord c)%nat).
      { destruct (decide (k <= rank ord c)%nat) as [? | Hlt]; [done |]. exfalso.
        assert (Hcw : anc parents c w).
        { apply (st_interval _ _ _ _ _ Htree c w v); try done. lia. }
        inversion Hcw as [| c' w' Hp Hcp]; subst; [lia |].
        pose proof (L_num c (VECTOR parents w) Hcp ltac:(by apply (L_par w))) as Hle.
        rewrite <- Hpc in Hle. lia. }
      destruct (decide (rank ord c <= rank ord y)%nat) as [? | Hlt]; [lia |]. exfalso.
      assert (Hyc : anc parents y c) by (apply (L_linear y c v); try done; lia).
      inversion Hyc as [| y' c' Hp Hyp']; subst; [lia |].
      apply Hyp. rewrite Hpc in Hyp'.
      apply (L_eq y (VECTOR parents w)); [by apply (L_par w) | done | done].
    Qed.

Lemma drain_spec fuel : forall st B,
      lt_inv graph mode root ord parents k (S k) st B ->
      (length (B (VECTOR parents w)) <= fuel)%nat ->
      exists B',
        lt_inv graph mode root ord parents k (S k)
               (drain_bucket fuel (VECTOR parents w) st) B' /\
        B' (VECTOR parents w) = [] /\
        (forall x v, In v (B' x) -> In v (B x)).
    Proof.
      destruct (L_par w Hw Hwr) as (Hp & _ & Hplt & Hppos).
      pose proof (Hrange _ Hp) as Hpr. fold n in Hpr.
      induction fuel as [| fuel IH]; intros st B Hinv Hlen.
      { exists B. split; [done |]. split; [| done].
        destruct (B (VECTOR parents w)); [done | simpl in Hlen; lia]. }
      cbn [drain_bucket].
      pose proof Hinv as [Hls Hld Hf Hdone Htodo Hb Hbin Hbnd Hdom Hun].
      fold n in Hls, Hld, Hb.
      destruct (B (VECTOR parents w)) as [| v rest] eqn:HB.
      { rewrite (proj2 (bucket_empty n _ B _ Hb ltac:(by rewrite HB))) by done.
        exists B. done. }
      destruct (igraph_i_dbucket_empty (bucket st) (VECTOR parents w)) eqn:Hemp.
      { apply (bucket_empty n _ B _ Hb) in Hemp; [congruence |].
        intros e He. destruct (Hbin _ e He) as (Heo & _). apply Hrange in Heo. lia. }
      destruct (bucket_delete n _ B _ v rest Hb HB Hpr) as (b' & Hdel & Hb').
      rewrite Hdel.
      destruct (Hbin (VECTOR parents w) v) as (Hv & Hvk & Hsd & c & Hc & Hcr & Hpc & Hcv & Hck);
        [rewrite HB; by left |].
      destruct (eval_spec graph mode root ord parents Hdir Htree k (semi st)
                  (ancestor st) (label st) v Hf Hv)
        as (u & anc' & lab' & Heval & Hf' & _ & Hu2).
      rewrite Heval.
      destruct (Hu2 Hvk) as (r & Hr & Hrk & Hrv & Hlinked & Hmin).
      assert (Hvr : v <> root).
      { intros ->. rewrite (num_root graph mode root ord parents Htree) in Hvk. lia. }
      destruct (sdom_above graph mode root ord parents Hdir Htree _ v Hv Hvr Hsd) as [_ Hpv].
      pose proof (bucket_below v c Hv Hvk Hc Hcr Hpc Hcv Hck) as Hbelow.
      assert (r = VECTOR parents w) as ->.
      { apply (forest_root_unique k r (VECTOR parents w) v); try done. lia. }
      destruct (Hdone v Hv Hvk) as (s & Hs & Hsemi).
      pose proof (sdom_unique graph mode ord _ _ v Hs Hsd) as ->.
      pose proof (Hrange v Hv) as Hvrange. fold n in Hvrange.
      set (d := if VECTOR (semi st) u <? VECTOR (semi st) v then u else VECTOR parents w).
      destruct (IH (mk_lt (semi st) anc' lab' b' (vset (mydom st) v d))
                   (fun x => if x =? VECTOR parents w then rest else B x))
        as (B' & HinvB' & HB' & Hsub); [| | ].
      3:{ exists B'. split; [done |]. split; [done |].
        intros x v' Hv'%Hsub. destruct (Z.eqb_spec x (VECTOR parents w)) as [-> | Hne];
          [rewrite HB; by right | done]. }
      - constructor; cbn [semi ancestor label bucket mydom]; fold n; try done.
        + by rewrite vset_length.
        + intros x v' Hv'. apply Hbin.
          destruct (Z.eqb_spec x (VECTOR parents w)) as [-> | Hne];
            [rewrite HB; by right | done].
        + intros x. destruct (Z.eqb_spec x (VECTOR parents w)) as [-> | Hne]; [| done].
          specialize (Hbnd (VECTOR parents w)). rewrite HB in Hbnd.
          by apply NoDup_cons in Hbnd as [_ ?].
        + intros v' Hv' Hv'k. destruct (decide (v' = v)) as [-> | Hne].
          * right. rewrite vget_vset_eq by (unfold Vec.size; lia).
            exists (VECTOR parents w), u. split; [done |]. split; [done |].
            split; [done |]. split; [done |]. subst d.
            destruct (Z.ltb_spec (VECTOR (semi st) u) (VECTOR (semi st) v)); [by left | by right].
          * rewrite vget_vset_ne by done.
            destruct (Hdom v' Hv' Hv'k) as [[x Hx] | Hrd]; [| by right].
            left. exists x. destruct (Z.eqb_spec x (VECTOR parents w)) as [-> | Hne']; [| done].
            rewrite HB in Hx. destruct Hx as [-> | Hx]; done.
        + intros x Hxr Hx. rewrite vget_vset_ne; [by apply Hun |]. by intros ->.
      - rewrite Z.eqb_refl. simpl in Hlen. lia.
    Qed.
End DrainPhase.

  (** *** One round of the main loop *)

Variables (vertex : list Z) (pred : list (list Z)).
Hypothesis Hvertex : forall v, In v ord ->
    VECTOR vertex (Z.of_nat (rank ord v)) = v + 1.
Hypothesis Hpred : forall w v, In w ord ->
    (In v (Visitor.igraph_adjlist_get pred w) <-> In v ord /\ arc graph mode v w).

Lemma main_step_inv k w st B :
    lt_inv graph mode root ord parents (S k) (S k) st B ->
    In w ord -> rank ord w = k -> w <> root ->
    exists B',
      lt_inv graph mode root ord parents k k
             (main_step vertex parents pred st (Z.of_nat k)) B'.
  Proof.
    intros Hinv Hw Hwk Hwr. subst k. set (k := rank ord w) in *.
    assert (Hwk : rank ord w = k) by done.
    unfold main_step. pose proof (Hvertex w Hw) as Hvw. fold k in Hvw. rewrite Hvw.
    replace (w + 1 - 1) with w by lia.
    destruct (semi_phase_sdom k w st B Hinv Hw Hwk Hwr (Visitor.igraph_adjlist_get pred w))
      as (Hls & Hbk & Hmd & Hf & Hsame & s & Hsd & Hsemi).
    { intros v. by apply Hpred. }
    set (st1 := fold_left (semi_step w) (Visitor.igraph_adjlist_get pred w) st) in *.
    destruct Hinv as [_ Hld _ Hdone Htodo Hb Hbin Hbnd Hdom Hun]. fold n in Hld, Hb.
    assert (Hs : In s ord) by apply Hsd.
    rewrite Hsemi. replace (Z.of_nat (rank ord s) + 1 - 1) with (Z.of_nat (rank ord s)) by lia.
    rewrite (Hvertex s Hs). replace (s + 1 - 1) with s by lia.
    destruct (sdom_above graph mode root ord parents Hdir Htree s w Hw Hwr Hsd) as [Hslt Hsw].
    destruct (L_par w Hw Hwr) as (Hp & _ & Hplt & Hppos).
    pose proof (Hrange w Hw) as Hwrange. pose proof (Hrange s Hs) as Hsrange.
    fold n in Hwrange, Hsrange.
    assert (Hfresh : forall x, ~ In w (B x)).
    { intros x Hin. destruct (Hbin x w Hin) as (_ & Hk & _). lia. }
    set (B1 := fun x => if x =? s then w :: B s else B x).
    assert (Hinv1 : lt_inv graph mode root ord parents k (S k)
              (mk_lt (semi st1) (igraph_i_dominator_LINK (VECTOR parents w) w (ancestor st1))
                     (label st1) (igraph_i_dbucket_insert (bucket st1) s w) (mydom st1)) B1).
    { constructor; cbn [semi ancestor label bucket mydom]; fold n.
      - done.
      - by rewrite Hmd.
      - by apply link_forest.
      - intros v Hv Hvk. destruct (decide (v = w)) as [-> | Hne]; [by exists s |].
        rewrite Hsame by done. apply Hdone; [done |].
        destruct (decide (rank ord v = k)) as [Heq | ?]; [| lia].
        exfalso. apply Hne. apply (rank_inj ord); [done | done | lia].
      - intros v Hv Hvk. rewrite Hsame by (intros ->; lia). apply Htodo; [done | lia].
      - rewrite Hbk. by apply bucket_insert.
      - intros x v Hv. subst B1. cbn beta in Hv.
        assert (Hold : In v (B x) ->
                  In v ord /\ (k <= rank ord v)%nat /\ is_sdom graph mode ord x v /\
                  exists c, In c ord /\ c <> root /\ VECTOR parents c = x /\
                            anc parents c v /\ (rank ord c < S k)%nat).
        { intros Hin. destruct (Hbin x v Hin) as (H1 & H2 & H3 & H4).
          split; [done |]. split; [lia |]. done. }
        destruct (Z.eqb_spec x s) as [-> | Hne]; [| by apply Hold].
        destruct Hv as [<- | Hv]; [| by apply Hold].
        split; [done |]. split; [lia |]. split; [done |].
        destruct (child_toward s w Hsw ltac:(intros ->; lia) Hw) as (c & Hc & Hcr & Hpc & Hcw).
        exists c. split; [done |]. split; [done |]. split; [done |]. split; [done |].
        pose proof (L_num c w Hcw Hw). lia.
      - intros x. subst B1. cbn beta. destruct (x =? s); [| done].
        apply NoDup_cons. split; [rewrite list_elem_of_In; apply Hfresh | done].
      - intros v Hv Hvk. destruct (decide (v = w)) as [-> | Hne].
        { left. exists s. subst B1. cbn beta. rewrite Z.eqb_refl. by left. }
        assert (Hvk' : (S k <= rank ord v)%nat).
        { destruct (decide (rank ord v = k)) as [Heq | ?]; [| lia].
          exfalso. apply Hne. apply (rank_inj ord); [done | done | lia]. }
        destruct (Hdom v Hv Hvk') as [[x Hx] | Hrd].
        + left. exists x. subst B1. cbn beta.
          destruct (Z.eqb_spec x s) as [-> | ?]; [by right | done].
        + right. rewrite Hmd. apply (rel_dom_weaken (S k)); [lia |].
          apply (rel_dom_frame (S k) (semi st)); try done.
          intros x Hx Hxk. apply Hsame. intros ->. lia.
      - intros x Hxr Hx. rewrite Hmd. by apply Hun. }
    destruct (drain_spec k w Hw Hwk Hwr (length parents) _ B1 Hinv1)
      as (B' & [Hls' Hld' Hf' Hdone' Htodo' Hb' Hbin' Hbnd' Hdom' Hun'] & Hempty & Hsub).
    { rewrite Hplen. apply nodup_range_length.
      - apply (i_bucket_nodup _ _ _ _ _ _ _ _ _ Hinv1).
      - intros x Hx. apply Hrange.
        by destruct (i_bucket_in _ _ _ _ _ _ _ _ _ Hinv1 _ x Hx) as (? & _). }
    exists B'. constructor; try done.
    intros x v Hv. destruct (Hbin' x v Hv) as (H1 & H2 & H3 & c & Hc & Hcr & Hpc & Hcv & Hck).
    split; [done |]. split; [done |]. split; [done |].
    exists c. split; [done |]. split; [done |]. split; [done |]. split; [done |].
    destruct (decide (rank ord c = k)) as [Heq | ?]; [| lia]. exfalso.
    assert (c = w) as -> by (apply (rank_inj ord); [done | done | lia]).
    rewrite <- Hpc, Hempty in Hv. done.
  Qed.

  (** *** The whole loop *)

Lemma vertex_of_rank (j : nat) :
    (j < length ord)%nat -> exists w, In w ord /\ rank ord w = j.
  Proof.
    intros Hj. exists (nth j (rev ord) 0). split.
    - apply in_rev, nth_In. by rewrite length_rev.
    - apply nth_rank; [apply (st_nodup _ _ _ _ _ Htree) | done].
  Qed.

Lemma main_loop_inv st0 B0 :
    lt_inv graph mode root ord parents (length ord) (length ord) st0 B0 ->
    forall j : nat, (j < length ord)%nat ->
    exists B,
      lt_inv graph mode root ord parents (length ord - j) (length ord - j)
        (fold_left (main_step vertex parents pred)
                   (rev (map Z.of_nat (seq (length ord - j) j))) st0) B.
  Proof.
    intros Hinv0. induction j as [| j IH]; intros Hj.
    - exists B0. simpl. by rewrite Nat.sub_0_r.
    - destruct IH as [B Hinv]; [lia |].
      replace (seq (length ord - S j) (S j))
        with ((length ord - S j)%nat :: seq (length ord - j) j)
        by (simpl; f_equal; f_equal; lia).
      cbn [map rev]. rewrite fold_left_app. cbn [fold_left].
      destruct (vertex_of_rank (length ord - S j)) as (w & Hw & Hwk); [lia |].
      apply (main_step_inv (length ord - S j) w _ B); try done.
      + by replace (S (length ord - S j)) with (length ord - j)%nat by lia.
      + intros ->. rewrite (num_root graph mode root ord parents Htree) in Hwk. lia.
  Qed.


  (** At the end of step 3 every bucket is empty: every visited vertex other
      than the root has its semidominator in [semi] and its relative
      dominator in [dom]. *)
Lemma main_loop_result st0 B0 :
    lt_inv graph mode root ord parents (length ord) (length ord) st0 B0 ->
    let st := fold_left (main_step vertex parents pred)
                        (rev (Vec.range_from 1 (Z.of_nat (length ord)))) st0 in
    length (mydom st) = Z.to_nat n /\
    (forall v, In v ord -> v <> root ->
       (exists s, is_sdom graph mode ord s v /\
                  VECTOR (semi st) v = Z.of_nat (rank ord s) + 1) /\
       rel_dom ord parents 1 (semi st) v (VECTOR (mydom st) v)) /\
    (forall x, 0 <= x < n -> ~ In x ord -> VECTOR (mydom st) x = -2).
  Proof.
    intros Hinv0 st.
    assert (Hnz : (1 <= length ord)%nat).
    { pose proof (rank_lt ord root (root_in graph mode root ord parents Htree)). lia. }
    destruct (main_loop_inv st0 B0 Hinv0 (length ord - 1)) as [B Hinv]; [lia |].
    replace (length ord - (length ord - 1))%nat with 1%nat in Hinv by lia.
    rewrite <- range_from_seq in Hinv. fold st in Hinv.
    destruct Hinv as [Hls Hld Hf Hdone Htodo Hb Hbin Hbnd Hdom Hun].
    split; [done |]. split; [| done].
    intros v Hv Hvr.
    assert (Hvk : (1 <= rank ord v)%nat).
    { destruct (rank ord v) eqn:Hk; [| lia]. exfalso. apply Hvr.
      apply (rank_inj ord); [done | apply (root_in graph mode root ord parents Htree) |].
      by rewrite (num_root graph mode root ord parents Htree). }
    split; [by apply Hdone |].
    destruct (Hdom v Hv Hvk) as [[x Hx] | Hrd]; [| done].
    exfalso. destruct (Hbin x v Hx) as (_ & _ & _ & c & Hc & Hcr & _ & _ & Hck).
    apply Hcr. apply (rank_inj ord); [done | apply (root_in graph mode root ord parents Htree) |].
    rewrite (num_root graph mode root ord parents Htree). lia.
  Qed.
End MainLoop.

(** ** Lengauer-Tarjan, step 4, and the dominator tree *)

Lemma vget_init {A} (d x : A) n i : 0 <= i < n -> Vec.get d (Vec.init x n) i = x.
Proof.
  intros Hi. unfold Vec.init, Vec.get. destruct (Z.ltb_spec i 0); [lia |].
  rewrite nth_lookup, lookup_replicate_2; [done | lia].
Qed.

Section Fixup.
Import Dominator DominatorSpec.
Variables (graph : igraph_t) (mode : igraph_neimode_t) (root : Z).
Variables (ord parents : list Z).
Hypothesis Hdir : igraph_is_directed graph = true.
Hypothesis Htree : search_tree graph mode root ord parents.
Let Hrange := st_range _ _ _ _ _ Htree.
Let L_ord := anc_ord graph mode root ord parents Hdir Htree.
Let L_num := anc_num graph mode root ord parents Hdir Htree.
Let L_proper := anc_proper graph mode root ord parents Hdir Htree.
Let Hrootin := root_in graph mode root ord parents Htree.
Let Hnumroot := num_root graph mode root ord parents Htree.

Lemma rank_pos v : In v ord -> v <> root -> (1 <= rank ord v)%nat.
  Proof.
    intros Hv Hvr. destruct (rank ord v) eqn:Hk; [| lia]. exfalso. apply Hvr.
    apply (rank_inj ord); [done | done |]. by rewrite Hnumroot.
  Qed.

Variables (vertex semi mydom0 : list Z).
Hypothesis Hvertex : forall v, In v ord ->
    VECTOR vertex (Z.of_nat (rank ord v)) = v + 1.
Hypothesis Hsemi : forall v, In v ord -> v <> root ->
    exists s, is_sdom graph mode ord s v /\
              VECTOR semi v = Z.of_nat (rank ord s) + 1.
Hypothesis Hrel : forall v, In v ord -> v <> root ->
    rel_dom ord parents 1 semi v (VECTOR mydom0 v).
Hypothesis Hlen : length mydom0 = Z.to_nat (igraph_vcount graph).

  (** What the relative dominator of [w] says about its immediate
      dominator (Corollary 1 of Lengauer and Tarjan). *)
Lemma rel_dom_idom w d :
    In w ord -> w <> root -> rel_dom ord parents 1 semi w d ->
    exists s, is_sdom graph mode ord s w /\
      VECTOR vertex (VECTOR semi w - 1) - 1 = s /\
      ((d = s /\ is_idom graph mode root s w) \/
       (d <> s /\ In d ord /\ d <> root /\ (rank ord d < rank ord w)%nat /\
        forall i, is_idom graph mode root i d -> is_idom graph mode root i w)).
  Proof.
    intros Hw Hwr (s & u & Hs & Hsw & [Hb Hmin] & _ & Hd).
    destruct (Hsemi w Hw Hwr) as (s' & Hsd & Hsw').
    assert (s' = s) as -> by (apply (rank_inj ord); [apply Hsd | done | lia]).
    exists s. split; [done |]. split.
    { rewrite Hsw. replace (Z.of_nat (rank ord s) + 1 - 1) with (Z.of_nat (rank ord s)) by lia.
      rewrite (Hvertex s Hs). lia. }
    assert (Hbound : forall u' x, anc parents s u' -> u' <> s -> anc parents u' w ->
              In x ord -> semipath graph mode ord x u' ->
              VECTOR semi u <= Z.of_nat (rank ord x) + 1).
    { intros u' x H1 H2 H3 Hx Hsp.
      assert (Hu' : In u' ord) by (by apply (L_ord u' w)).
      assert (Hu'r : u' <> root).
      { intros ->. apply H2. symmetry.
        apply (anc_eq graph mode root ord parents Hdir Htree s root); [done | done |].
        by apply (anc_root graph mode root ord parents Hdir Htree). }
      destruct (Hsemi u' Hu' Hu'r) as (su' & (_ & _ & Hleast) & Hsu').
      specialize (Hmin u' (conj H1 (conj H2 H3))). specialize (Hleast x Hx Hsp). lia. }
    destruct Hb as (Hsu & Hus & Huw).
    destruct Hd as [[Hlt ->] | [Hge ->]].
    - right. split; [done |].
      assert (Hu : In u ord) by (by apply (L_ord u w)).
      assert (Hur : u <> root).
      { intros ->. apply Hus. symmetry.
        apply (anc_eq graph mode root ord parents Hdir Htree s root); [done | done |].
        by apply (anc_root graph mode root ord parents Hdir Htree). }
      split; [done |]. split; [done |].
      split; [apply L_proper; [done | intros ->; lia | done] |].
      intros i Hi. destruct (Hsemi u Hu Hur) as (su & Hsdu & Hsu').
      apply (idom_of_least graph mode root ord parents Hdir Htree u su i s w); try done.
      intros u' x H1 H2 H3 Hx Hsp. specialize (Hbound u' x H1 H2 H3 Hx Hsp). lia.
    - left. split; [done |].
      apply (sdom_is_idom graph mode root ord parents Hdir Htree s w); try done.
      intros u' x H1 H2 H3 Hx Hsp. specialize (Hbound u' x H1 H2 H3 Hx Hsp). lia.
  Qed.

Lemma fixup_fold (j : nat) :
    (j < length ord)%nat ->
    let md := fold_left (fixup_step vertex semi) (map Z.of_nat (seq 1 j)) mydom0 in
    length md = Z.to_nat (igraph_vcount graph) /\
    (forall v, In v ord -> (1 <= rank ord v <= j)%nat ->
       is_idom graph mode root (VECTOR md v) v) /\
    (forall x, ~ (In x ord /\ (1 <= rank ord x <= j)%nat) -> VECTOR md x = VECTOR mydom0 x).
  Proof.
    induction j as [| j IH]; intros Hj md.
    - subst md. simpl. split; [done |]. split; [intros v _ ?; lia | done].
    - destruct IH as (Hlen' & Hdone & Hsame); [lia |].
      subst md. rewrite seq_S, map_app, fold_left_app. cbn [map fold_left].
      set (md := fold_left (fixup_step vertex semi) (map Z.of_nat (seq 1 j)) mydom0) in *.
      destruct (vertex_of_rank graph mode root ord parents Htree (S j) Hj) as (w & Hw & Hwk).
      assert (Hwr : w <> root) by (intros ->; rewrite Hnumroot in Hwk; lia).
      unfold fixup_step. replace (Z.of_nat (1 + j)) with (Z.of_nat (rank ord w)) by lia.
      rewrite (Hvertex w Hw). replace (w + 1 - 1) with w by lia.
      assert (Hmdw : VECTOR md w = VECTOR mydom0 w) by (apply Hsame; intros [_ ?]; lia).
      destruct (rel_dom_idom w (VECTOR md w) Hw Hwr) as (s & Hsd & Hvs & Hcase);
        [rewrite Hmdw; by apply Hrel |].
      rewrite Hvs. pose proof (Hrange w Hw) as Hwrange.
      destruct Hcase as [[Heq Hidom] | (Hne & Hd & Hdr & Hdlt & Hidom)].
      + rewrite Heq, Z.eqb_refl. cbn [negb]. split; [done |]. split.
        * intros v Hv Hvk. destruct (decide (v = w)) as [-> | Hvw]; [by rewrite Heq |].
          apply Hdone; [done |].
          assert (rank ord v <> S j).
          { intros Hk. apply Hvw. apply (rank_inj ord); [done | done | lia]. }
          lia.
        * intros x Hx. apply Hsame. intros [? ?]. apply Hx. split; [done | lia].
      + destruct (Z.eqb_spec (VECTOR md w) s); [done |]. cbn [negb].
        split; [by rewrite vset_length |]. split.
        * intros v Hv Hvk. destruct (decide (v = w)) as [-> | Hvw].
          -- rewrite vget_vset_eq by (unfold Vec.size; lia).
             apply Hidom, Hdone; [done |]. pose proof (rank_pos _ Hd Hdr). lia.
          -- rewrite vget_vset_ne by done. apply Hdone; [done |].
             assert (rank ord v <> S j).
             { intros Hk. apply Hvw. apply (rank_inj ord); [done | done | lia]. }
             lia.
        * intros x Hx. rewrite vget_vset_ne.
          -- apply Hsame. intros [? ?]. apply Hx. split; [done | lia].
          -- intros ->. apply Hx. split; [done | lia].
  Qed.
End Fixup.

Section DominatorTree.
Import Visitor Dominator DominatorSpec.
Variables (graph : igraph_t) (mode : igraph_neimode_t) (root : Z).
Variables (ord parents : list Z).
Hypothesis Hwf : graph_wf graph.
Hypothesis Hdir : igraph_is_directed graph = true.
Hypothesis Htree : search_tree graph mode root ord parents.

Lemma visited_parent v :
    0 <= v < igraph_vcount graph -> (In v ord <-> -1 <= VECTOR parents v).
  Proof.
    intros Hv. split.
    - intros Hin. destruct (decide (v = root)) as [-> | Hne].
      + rewrite (st_proot _ _ _ _ _ Htree). lia.
      + destruct (st_par _ _ _ _ _ Htree v Hin Hne) as [Hp _].
        apply (st_range _ _ _ _ _ Htree) in Hp. lia.
    - intros Hp. destruct (In_dec Z.eq_dec v ord) as [| Hout]; [done |].
      rewrite (st_unvisited _ _ _ _ _ Htree v Hv Hout) in Hp. lia.
  Qed.

Lemma arc_reverse u v :
    arc graph (IGRAPH_REVERSE_MODE mode) u v <-> arc graph mode v u.
  Proof. unfold arc. destruct mode; simpl; tauto. Qed.

  (** The predecessor lists after pruning: the visited vertices with an
      edge into [w]. *)
Lemma pruned_pred w v :
    In w ord ->
    (In v (igraph_adjlist_get
             (map (fun l => prune_pred (length l) parents l 0 (Vec.size l))
                  (igraph_adjlist_init graph (IGRAPH_REVERSE_MODE mode))) w)
     <-> In v ord /\ arc graph mode v w).
  Proof.
    intros Hw. unfold igraph_adjlist_get, igraph_adjlist_init.
    rewrite map_map, vget_map_range by (by apply (st_range _ _ _ _ _ Htree)).
    rewrite prune_pred_In, <- arc_neighbors, arc_reverse by done.
    split; intros [H1 H2].
    - split; [| done]. apply visited_parent; [| done].
      pose proof (proj1 (arc_neighbors graph mode v w Hdir) H1) as Hn.
      destruct (neighbors_In _ _ _ _ Hn) as [He | He];
        destruct Hwf as [_ Hall]; rewrite Forall_forall in Hall;
        apply list_elem_of_In, Hall in He; simpl in He; lia.
    - split; [done |]. apply visited_parent; [| done].
      by apply (st_range _ _ _ _ _ Htree).
  Qed.

Lemma lt_inv_init semi0 :
    length semi0 = Z.to_nat (igraph_vcount graph) ->
    (forall v, In v ord -> VECTOR semi0 v = Z.of_nat (rank ord v) + 1) ->
    lt_inv graph mode root ord parents (length ord) (length ord)
      (mk_lt semi0 (Vec.init 0 (igraph_vcount graph)) (Vec.range (igraph_vcount graph))
             (igraph_i_dbucket_init (igraph_vcount graph))
             (Vec.init (-2) (igraph_vcount graph)))
      (fun _ => []).
  Proof.
    intros Hlen Hsemi.
    pose proof (st_range _ _ _ _ _ Htree) as Hrange.
    constructor; cbn [Dominator.semi Dominator.ancestor Dominator.label
                      Dominator.bucket Dominator.mydom].
    - done.
    - apply vinit_length.
    - constructor.
      + by rewrite vinit_length, (st_len _ _ _ _ _ Htree).
      + by rewrite range_length, (st_len _ _ _ _ _ Htree).
      + intros v Hv _. split; [apply vget_init | apply vget_range]; auto.
      + intros v Hv Hk. pose proof (rank_lt ord v Hv). lia.
    - intros v Hv Hk. pose proof (rank_lt ord v Hv). lia.
    - intros v Hv _. by apply Hsemi.
    - split; [apply vinit_length |]. split; [apply vinit_length |].
      intros x. simpl. unfold Vec.init, Vec.get. destruct (x <? 0); [done |].
      destruct (Nat.lt_ge_cases (Z.to_nat x) (Z.to_nat (igraph_vcount graph))).
      + by rewrite nth_lookup, lookup_replicate_2.
      + apply nth_overflow. by rewrite length_replicate.
    - intros x v [].
    - intros x. apply NoDup_nil. done.
    - intros v Hv Hk. pose proof (rank_lt ord v Hv). lia.
    - intros x Hx _. by apply vget_init.
  Qed.
End DominatorTree.

Section DomtreeEdges.
Import Dominator.

Lemma Forall_vset (P : Z -> Prop) v i x : Forall P v -> P x -> Forall P (vset v i x).
  Proof.
    intros Hv Hx. unfold Vec.set. destruct (i <? 0); [done |]. by apply Forall_insert.
  Qed.

Lemma domtree_steps_nonneg root mode mydom l : forall edges ptr,
    Forall (fun x => 0 <= x) l -> Forall (fun x => 0 <= x) edges ->
    Forall (fun x => 0 <= x) (fst (fold_left (domtree_step root mode mydom) l (edges, ptr))) /\
    length (fst (fold_left (domtree_step root mode mydom) l (edges, ptr))) = length edges.
  Proof.
    induction l as [| i l IH]; intros edges ptr Hl He; [done |].
    apply Forall_cons in Hl as [Hi Hl]. cbn [fold_left]. unfold domtree_step at 2 4.
    destruct (negb (i =? root) && (VECTOR mydom i >=? 0)) eqn:Hc; [| by apply IH].
    apply andb_true_iff in Hc as [_ Hd]. apply Z.geb_le in Hd.
    destruct mode.
    - destruct (IH (vset (vset edges ptr (VECTOR mydom i)) (ptr + 1) i) (ptr + 2)) as [H1 H2];
        [done | by repeat apply Forall_vset |].
      split; [done |]. by rewrite H2, !vset_length.
    - destruct (IH (vset (vset edges ptr i) (ptr + 1) (VECTOR mydom i)) (ptr + 2)) as [H1 H2];
        [done | by repeat apply Forall_vset |].
      split; [done |]. by rewrite H2, !vset_length.
    - destruct (IH (vset (vset edges ptr i) (ptr + 1) (VECTOR mydom i)) (ptr + 2)) as [H1 H2];
        [done | by repeat apply Forall_vset |].
      split; [done |]. by rewrite H2, !vset_length.
  Qed.

  (** The edge list of the dominator tree is accepted by [igraph_create]. *)
Lemma domtree_create_ok root mode mydom n (N : nat) edges ptr :
    0 <= n -> (1 <= N)%nat ->
    fold_left (domtree_step root mode mydom) (Vec.range n)
              (Vec.init 0 (Z.of_nat N * 2 - 2), 0) = (edges, ptr) ->
    exists g, igraph_create edges n true = Ok g.
  Proof.
    intros Hn HN Hfold.
    destruct (domtree_steps_nonneg root mode mydom (Vec.range n)
                (Vec.init 0 (Z.of_nat N * 2 - 2)) 0) as [Hpos Hlen].
    { apply Forall_forall. intros x Hx%list_elem_of_In%range_In. lia. }
    { apply Forall_forall. intros x [-> _]%elem_of_replicate. lia. }
    rewrite Hfold in Hpos, Hlen. cbn [fst] in Hpos, Hlen.
    unfold igraph_create. rewrite Hlen, vinit_length.
    replace (Z.to_nat (Z.of_nat N * 2 - 2)) with (2 * (N - 1))%nat by lia.
    rewrite Nat.odd_even.
    replace (forallb (fun x => 0 <=? x) edges) with true.
    - cbn [negb]. destruct (Z.ltb_spec n 0); [lia |]. by eexists.
    - symmetry. apply forallb_forall. intros x Hx. apply Z.leb_le.
      rewrite Forall_forall in Hpos. by apply Hpos, list_elem_of_In.
  Qed.
End DomtreeEdges.

Section Correct.
Import Visitor Dominator DominatorSpec.

Lemma idom_unique graph mode root ord parents d d' v :
    igraph_is_directed graph = true ->
    search_tree graph mode root ord parents ->
    In v ord -> is_idom graph mode root d v -> is_idom graph mode root d' v -> d = d'.
  Proof.
    intros Hdir Htree Hv (Hdv & Hdom & Hleast) (Hdv' & Hdom' & Hleast').
    pose proof (Hleast d' Hdv' Hdom') as H1. pose proof (Hleast' d Hdv Hdom) as H2.
    assert (Hd : In d ord).
    { apply (anc_ord graph mode root ord parents Hdir Htree d v); [| done].
      by apply (dom_anc graph mode root ord parents Hdir Htree). }
    assert (Hd' : In d' ord).
    { apply (anc_ord graph mode root ord parents Hdir Htree d' v); [| done].
      by apply (dom_anc graph mode root ord parents Hdir Htree). }
    apply (anc_eq graph mode root ord parents Hdir Htree); [done | |];
      by apply (dom_anc graph mode root ord parents Hdir Htree).
  Qed.

Lemma dominator_tree_run graph root out mode :
    graph_wf graph -> igraph_is_directed graph = true ->
    0 <= root < igraph_vcount graph -> mode <> IGRAPH_ALL ->
    exists ord parents md,
      search_tree graph mode root ord parents /\
      fst (igraph_dominator_tree graph root out mode) = IGRAPH_SUCCESS /\
      dom (snd (igraph_dominator_tree graph root out mode)) =
        option_map (fun _ => md) (dom out) /\
      length md = Z.to_nat (igraph_vcount graph) /\
      VECTOR md root = -1 /\
      (forall v, In v ord -> v <> root -> is_idom graph mode root (VECTOR md v) v) /\
      (forall x, 0 <= x < igraph_vcount graph -> ~ In x ord -> VECTOR md x = -2).
  Proof.
    intros Hwf Hdir Hroot Hmode. unfold igraph_dominator_tree.
    destruct (Z.ltb_spec root 0); [lia |].
    destruct (Z.geb_spec root (igraph_vcount graph)); [lia |].
    cbn [orb]. rewrite Hdir. cbn [negb].
    replace (match mode with IGRAPH_ALL => true | _ => false end) with false
      by (by destruct mode).
    destruct (igraph_dfs graph mode _ _ root tt) as [[[order parent] []] | e] eqn:Hdfs.
    2:{ exfalso. unfold igraph_dfs in Hdfs.
        destruct (Z.ltb_spec root 0); [lia |].
        destruct (Z.geb_spec root (igraph_vcount graph)); [lia |]. done. }
    apply (igraph_dfs_tree graph mode _ _ Hwf) in Hdfs as (_ & ord & -> & Htree).
    exists ord, parent.
    destruct (number_fold ord (igraph_vcount graph) (st_nodup _ _ _ _ _ Htree)
                (st_range _ _ _ _ _ Htree))
      as (semi0 & vertex & -> & Hls & Hlv & Hnum).
    cbv beta iota zeta.
    pose proof (main_loop_result graph mode root ord parent Hdir Htree vertex _
                  (fun v Hv => proj2 (Hnum v Hv))
                  (fun w v Hw => pruned_pred graph mode root ord parent Hwf Hdir Htree w v Hw)
                  _ _ (lt_inv_init graph mode root ord parent Htree semi0 Hls
                         (fun v Hv => proj1 (Hnum v Hv))))
      as Hmain.
    cbv zeta in Hmain.
    set (st := fold_left (main_step vertex parent _) _ _) in *.
    destruct Hmain as (Hlen & Hres & Hun).
    assert (HN : (1 <= length ord)%nat).
    { pose proof (rank_lt ord root (root_in graph mode root ord parent Htree)). lia. }
    pose proof (fixup_fold graph mode root ord parent Hdir Htree vertex
                  (Dominator.semi st) (Dominator.mydom st)
                  (fun v Hv => proj2 (Hnum v Hv))
                  (fun v Hv Hr => proj1 (Hres v Hv Hr))
                  (fun v Hv Hr => proj2 (Hres v Hv Hr)) Hlen
                  (length ord - 1) ltac:(lia)) as Hfix.
    cbv zeta in Hfix. rewrite <- range_from_seq in Hfix.
    set (md := fold_left (fixup_step vertex (Dominator.semi st)) _ _) in *.
    destruct Hfix as (Hlmd & Hidom & Hsame).
    exists (vset md root (-1)).
    split; [done |].
    assert (Hrest : length (vset md root (-1)) = Z.to_nat (igraph_vcount graph) /\
      VECTOR (vset md root (-1)) root = -1 /\
      (forall v, In v ord -> v <> root ->
         is_idom graph mode root (VECTOR (vset md root (-1)) v) v) /\
      (forall x, 0 <= x < igraph_vcount graph -> ~ In x ord ->
         VECTOR (vset md root (-1)) x = -2)).
    { split; [by rewrite vset_length |].
      split; [apply vget_vset_eq; unfold Vec.size; lia |]. split.
      - intros v Hv Hvr. rewrite vget_vset_ne by done. apply Hidom; [done |].
        pose proof (rank_lt ord v Hv).
        pose proof (rank_pos graph mode root ord parent Htree v Hv Hvr). lia.
      - intros x Hx Hout. rewrite vget_vset_ne.
        + rewrite Hsame by (by intros [? _]). by apply Hun.
        + intros <-. apply Hout. apply (root_in graph mode root ord parent Htree). }
    cbn [Dominator.domtree]. destruct (Dominator.domtree out) as [t |].
    - destruct (fold_left (domtree_step root mode _) _ _) as [edges ptr] eqn:Hedges.
      destruct (domtree_create_ok root mode _ (igraph_vcount graph) (length ord) edges ptr
                  ltac:(lia) HN Hedges) as [g ->].
      cbn [fst snd Dominator.dom]. done.
    - cbn [fst snd Dominator.dom]. done.
  Qed.
End Correct.

(** ** The dominator tree is right *)

Section DominatorClaim.
Import Visitor Dominator DominatorSpec.

(** C1: on a directed graph, with the root a vertex and mode OUT or IN,
    [igraph_dominator_tree] succeeds and the [dom] vector it fills has one
    entry per vertex: -1 at the root, -2 at every vertex that cannot be
    reached from the root, and at every other reachable vertex [v] the
    immediate dominator of [v], that is the one vertex other than [v] that
    lies on every path from the root to [v] and that every other such
    vertex dominates. *)
Theorem dominator_tree_correct (graph : igraph_t) (root : Z) (mode : igraph_neimode_t)
    (d0 : list Z) (dt : option (option igraph_t)) (lo : option (list Z)) :
  graph_wf graph -> igraph_is_directed graph = true ->
  0 <= root < igraph_vcount graph ->
  mode = IGRAPH_OUT \/ mode = IGRAPH_IN ->
  exists dom' dt' lo',
    igraph_dominator_tree graph root (mk_out (Some d0) dt lo) mode =
      (IGRAPH_SUCCESS, mk_out (Some dom') dt' lo') /\
    length dom' = Z.to_nat (igraph_vcount graph) /\
    VECTOR dom' root = -1 /\
    (forall v, 0 <= v < igraph_vcount graph -> ~ reachable graph mode root v ->
       VECTOR dom' v = -2) /\
    (forall v, reachable graph mode root v -> v <> root ->
       is_idom graph mode root (VECTOR dom' v) v /\
       forall d, is_idom graph mode root d v -> d = VECTOR dom' v).
Proof.
  intros Hwf Hdir Hroot Hmode.
  destruct (dominator_tree_run graph root (mk_out (Some d0) dt lo) mode Hwf Hdir Hroot)
    as (ord & parents & md & Htree & Hcode & Hdom & Hlen & Hr & Hidom & Hun);
    [by destruct Hmode as [-> | ->] |].
  destruct (igraph_dominator_tree graph root _ mode) as [code [d' dt' lo']].
  cbn [fst snd Dominator.dom option_map] in Hcode, Hdom. subst code d'.
  exists md, dt', lo'. split; [done |]. split; [done |]. split; [done |]. split.
  - intros v Hv Hnr. apply Hun; [done |]. intros Hin. apply Hnr.
    by apply (visited_reachable graph mode root ord parents Hdir Htree).
  - intros v Hv%(visited_reachable graph mode root ord parents Hdir Htree) Hvr.
    split; [by apply Hidom |]. intros d Hd.
    apply (idom_unique graph mode root ord parents d (VECTOR md v) v); try done.
    by apply Hidom.
Qed.

Lemma flowgraph13_wf : graph_wf Examples.flowgraph13.
Proof. split; [simpl; lia |]. repeat constructor; simpl; lia. Defined.

Lemma dominator_tree_correct_witness :
  exists dom' dt' lo',
    igraph_dominator_tree Examples.flowgraph13 0 (mk_out (Some []) None None) IGRAPH_OUT =
      (IGRAPH_SUCCESS, mk_out (Some dom') dt' lo') /\
    length dom' = Z.to_nat (igraph_vcount Examples.flowgraph13) /\
    VECTOR dom' 0 = -1 /\
    (forall v, 0 <= v < igraph_vcount Examples.flowgraph13 ->
       ~ reachable Examples.flowgraph13 IGRAPH_OUT 0 v -> VECTOR dom' v = -2) /\
    (forall v, reachable Examples.flowgraph13 IGRAPH_OUT 0 v -> v <> 0 ->
       is_idom Examples.flowgraph13 IGRAPH_OUT 0 (VECTOR dom' v) v /\
       forall d, is_idom Examples.flowgraph13 IGRAPH_OUT 0 d v -> d = VECTOR dom' v).
Proof.
  apply (dominator_tree_correct Examples.flowgraph13 0 IGRAPH_OUT [] None None).
  - exact flowgraph13_wf.
  - reflexivity.
  - simpl. lia.
  - left. reflexivity.
Defined.

(** The flowgraph of scenario S1, rooted at 0: the vector the code fills.  Vertex 12 has the single edge 4 -> 12 into it, and its
    entry is 4. *)
Lemma dominator_tree_flowgraph13 :
  igraph_dominator_tree Examples.flowgraph13 0 (mk_out (Some []) None None) IGRAPH_OUT =
    (IGRAPH_SUCCESS,
     mk_out (Some [-1; 0; 0; 0; 0; 0; 3; 3; 0; 0; 7; 0; 4]) None None).
Proof. vm_compute. reflexivity. Qed.

End DominatorClaim.

(** ** Residual graph *)

Lemma Qltb_minus x y : Qltb 0 (y - x) = Qltb x y.
Proof.
  apply eq_true_iff_eq. rewrite !Qltb_lt. unfold Qminus. symmetry. apply Qlt_minus_iff.
Qed.

Section FillFacts.
Import EvenTarjan EvenTarjanSpec.

  (** Filling freshly sized output vectors from their first cell on. *)
Lemma fill_run (flat : list Z) (caps : list Q) (rc : option (list Q)) (k : nat) :
    length flat = (2 * k)%nat -> length caps = k ->
    put_caps (put_edges (mk_fill (Vec.resize 0 [] (Z.of_nat k * 2)) 0
                                 (option_map (fun c => Vec.resize 0%Q c (Z.of_nat k)) rc) 0)
                        flat) caps =
    mk_fill flat (Vec.size flat) (option_map (fun _ => caps) rc)
            (match rc with Some _ => Vec.size caps | None => 0 end).
  Proof.
    intros Hflat Hcaps.
    assert (Hres : Vec.resize 0 [] (Z.of_nat k * 2) = [] ++ replicate (2 * k) 0).
    { unfold Vec.resize. rewrite take_nil. simpl. f_equal. lia. }
    rewrite Hres.
    etrans; [apply f_equal2; [| reflexivity];
             apply (put_edges_spec flat [] (replicate (2 * k) 0)); rewrite length_replicate; lia |].
    rewrite drop_ge by (rewrite length_replicate; lia).
    rewrite app_nil_r. cbn [app].
    destruct rc as [c |]; cbn [option_map].
    - etrans; [apply (put_caps_spec caps flat (Vec.size flat) [] (Vec.resize 0%Q c (Z.of_nat k)));
               rewrite vresize_length; lia |].
      rewrite drop_ge by (rewrite vresize_length; lia).
      by rewrite app_nil_r.
    - apply put_caps_none.
  Qed.
End FillFacts.

Section ResidualGraphFacts.
Import EvenTarjan EvenTarjanSpec ResidualGraph ResidualGraphSpec.
Variable real_sub : Q -> Q -> Q.
Variables (graph : igraph_t) (capacity flow : list Q).



  (** The machine agrees with the comparison: a difference is positive
      exactly when the first number is the larger one. *)
Hypothesis Hsub : forall a b, Qltb 0 (real_sub a b) = Qltb b a.

Let open (e : Z) : bool := Qltb (Vec.get 0%Q flow e) (Vec.get 0%Q capacity e).
Let E (e : Z) : list Z := if open e then [IGRAPH_FROM graph e; IGRAPH_TO graph e] else [].
Let C (e : Z) : list Q :=
    if open e then [real_sub (Vec.get 0%Q capacity e) (Vec.get 0%Q flow e)] else [].

Lemma residual_write_step st e :
    write_step real_sub graph capacity flow st e = put_caps (put_edges st (E e)) (C e).
  Proof.
    unfold write_step, E, C, open. rewrite Hsub.
    by destruct (Qltb _ _).
  Qed.

Lemma residual_write_loop is_ st :
    fold_left (write_step real_sub graph capacity flow) is_ st =
    put_caps (put_edges st (flat_map E is_)) (flat_map C is_).
  Proof.
    rewrite <- fold_put. revert st.
    induction is_ as [| e is_ IH]; intros st; [done |].
    simpl. by rewrite residual_write_step, IH.
  Qed.

Lemma residual_count_loop is_ : forall k,
    fold_left (count_step capacity flow) is_ k =
    k + Z.of_nat (length (List.filter open is_)).
  Proof.
    induction is_ as [| e is_ IH]; intros k; simpl; [lia |].
    rewrite IH. unfold count_step. fold (open e). destruct (open e); simpl; lia.
  Qed.

Lemma residual_flat_E is_ :
    flat_map E is_ =
    flat_map (fun p => [fst p; snd p])
             (map (fun e => (IGRAPH_FROM graph e, IGRAPH_TO graph e)) (List.filter open is_)).
  Proof.
    induction is_ as [| e is_ IH]; [done |]. simpl. rewrite IH. unfold E.
    by destruct (open e).
  Qed.

Lemma residual_flat_C is_ :
    flat_map C is_ =
    map (fun e => real_sub (Vec.get 0%Q capacity e) (Vec.get 0%Q flow e))
        (List.filter open is_).
  Proof.
    induction is_ as [| e is_ IH]; [done |]. simpl. rewrite IH. unfold C.
    by destruct (open e).
  Qed.

Lemma residual_graph_run (residual_capacity : option (list Q)) :
    graph_wf graph ->
    Vec.size capacity = igraph_ecount graph ->
    Vec.size flow = igraph_ecount graph ->
    igraph_residual_graph real_sub graph capacity residual_capacity flow =
    Ok (mk_graph (igraph_vcount graph) true
          (map (fun e => (IGRAPH_FROM graph e, IGRAPH_TO graph e))
               (unsaturated graph capacity flow)),
        option_map (fun _ => map (fun e => real_sub (Vec.get 0%Q capacity e)
                                                    (Vec.get 0%Q flow e))
                                 (unsaturated graph capacity flow))
                   residual_capacity).
  Proof.
    intros Hwf Hcap Hflow. unfold igraph_residual_graph.
    rewrite Hcap, Hflow, Z.eqb_refl. cbn [negb].
    unfold igraph_i_residual_graph.
    rewrite residual_count_loop, residual_write_loop, residual_flat_E, residual_flat_C.
    change (List.filter open (Vec.range (igraph_ecount graph)))
      with (unsaturated graph capacity flow).
    set (U := unsaturated graph capacity flow).
    set (k := length U).
    set (pairs := map (fun e => (IGRAPH_FROM graph e, IGRAPH_TO graph e)) U).
    set (flat := flat_map (fun p : Z * Z => [fst p; snd p]) pairs).
    assert (Hflat : length flat = (2 * k)%nat).
    { unfold flat. rewrite (length_flat_map_const _ 2%nat) by done.
      unfold pairs. rewrite length_map. done. }
    rewrite !Z.add_0_l.
    rewrite (fill_run flat _ residual_capacity k Hflat)
      by (rewrite length_map; done).
    cbn [edges EvenTarjan.capacity].
    rewrite create_flat.
    - unfold IGRAPH_CHECK. f_equal. f_equal. unfold flat. by rewrite edge_pairs_flat.
    - rewrite Hflat. by rewrite Nat.even_mul.
    - apply Hwf.
    - unfold flat. apply Forall_forall.
      intros x Hx%list_elem_of_In%in_flat_map.
      destruct Hx as (p & Hp%in_map_iff & Hx). destruct Hp as (e & <- & He).
      apply filter_In in He as [He%range_In _].
      destruct Hwf as [_ Hall]. rewrite Forall_forall in Hall.
      assert (Hin : 0 <= IGRAPH_FROM graph e < igraph_vcount graph /\
                    0 <= IGRAPH_TO graph e < igraph_vcount graph).
      { apply Hall, list_elem_of_In, vget_In. exact He. }
      simpl in Hx. intuition lia.
  Qed.
End ResidualGraphFacts.

(** For capacity and flow vectors of length [|E|], [igraph_residual_graph]
    succeeds with a directed graph on the vertices of the input whose edges
    are exactly the edges with flow below capacity, in the order of the
    input.  The residual capacities, when asked for, are the differences of
    capacity and flow of these edges as the machine computes them, one per
    edge of the residual graph, all strictly positive.  The machine
    subtraction may round; it is only taken to give a positive result
    exactly when the capacity is above the flow. *)
Theorem residual_graph_edges (real_sub : Q -> Q -> Q) (graph : igraph_t) (capacity : list Q)
    (residual_capacity : option (list Q)) (flow : list Q) :
  (forall a b, Qltb 0 (real_sub a b) = Qltb b a) ->
  graph_wf graph ->
  Vec.size capacity = igraph_ecount graph ->
  Vec.size flow = igraph_ecount graph ->
  exists residual rc,
    ResidualGraph.igraph_residual_graph real_sub graph capacity residual_capacity flow =
      Ok (residual, rc) /\
    igraph_vcount residual = igraph_vcount graph /\
    igraph_is_directed residual = true /\
    igraph_edges residual =
      map (fun e => (IGRAPH_FROM graph e, IGRAPH_TO graph e))
          (ResidualGraphSpec.unsaturated graph capacity flow) /\
    rc = option_map
           (fun _ => map (fun e => real_sub (Vec.get 0%Q capacity e) (Vec.get 0%Q flow e))
                         (ResidualGraphSpec.unsaturated graph capacity flow))
           residual_capacity /\
    forall c, rc = Some c ->
      Vec.size c = igraph_ecount residual /\ Forall (fun x => (0 < x)%Q) c.
Proof.
  intros Hsub Hwf Hcap Hflow. eexists _, _.
  split; [by apply residual_graph_run |].
  split; [done |]. split; [done |]. split; [done |]. split; [done |].
  intros c Hc. destruct residual_capacity as [rc0 |]; [| done].
  injection Hc as <-. split.
  - unfold igraph_ecount, Vec.size. simpl. by rewrite !length_map.
  - apply Forall_forall. intros x Hx%list_elem_of_In%in_map_iff.
    destruct Hx as (e & <- & He). apply filter_In in He as [_ He].
    rewrite <- (Hsub (Vec.get 0%Q capacity e)) in He. by apply Qltb_lt.
Qed.

Lemma residual_graph_edges_witness :
  exists residual rc,
    ResidualGraph.igraph_residual_graph Qminus Examples.one_edge [2%Q] (Some []) [1%Q] =
      Ok (residual, rc) /\
    igraph_vcount residual = igraph_vcount Examples.one_edge /\
    igraph_is_directed residual = true /\
    igraph_edges residual =
      map (fun e => (IGRAPH_FROM Examples.one_edge e, IGRAPH_TO Examples.one_edge e))
          (ResidualGraphSpec.unsaturated Examples.one_edge [2%Q] [1%Q]) /\
    rc = option_map
           (fun _ => map (fun e => Qminus (Vec.get 0%Q [2%Q] e) (Vec.get 0%Q [1%Q] e))
                         (ResidualGraphSpec.unsaturated Examples.one_edge [2%Q] [1%Q]))
           (Some ([] : list Q)) /\
    forall c, rc = Some c ->
      Vec.size c = igraph_ecount residual /\ Forall (fun x => (0 < x)%Q) c.
Proof.
  apply (residual_graph_edges Qminus Examples.one_edge [2%Q] (Some []) [1%Q]).
  - intros a b. apply Qltb_minus.
  - exact one_edge_wf.
  - reflexivity.
  - reflexivity.
Defined.



(** On a well-formed graph the only error of
    [igraph_reverse_residual_graph] is the invalid-argument error, raised
    exactly when a capacity vector is given that has not one entry per edge,
    or the flow vector has not one entry per edge. *)
Theorem reverse_residual_size_mismatch (graph : igraph_t) (capacity : option (list Q))
    (flow : list Q) :
  graph_wf graph ->
  (Residual.igraph_reverse_residual_graph graph capacity flow = IGRAPH_ERROR IGRAPH_EINVAL <->
   (exists c, capacity = Some c /\ Vec.size c <> igraph_ecount graph) \/
   Vec.size flow <> igraph_ecount graph) /\
  (forall e,
     Residual.igraph_reverse_residual_graph graph capacity flow = IGRAPH_ERROR e ->
     e = IGRAPH_EINVAL).
Proof.
  intros Hwf.
  assert (Hdec : match capacity with
                 | Some c => Vec.size c = igraph_ecount graph
                 | None => True
                 end \/ exists c, capacity = Some c /\ Vec.size c <> igraph_ecount graph).
  { destruct capacity as [c |]; [| by left].
    destruct (Z.eq_dec (Vec.size c) (igraph_ecount graph)); [by left | right; by exists c]. }
  destruct Hdec as [Hcap | (c & -> & Hc)].
  - destruct (Z.eq_dec (Vec.size flow) (igraph_ecount graph)) as [Hflow | Hflow].
    + rewrite (reverse_residual_run graph capacity flow Hwf Hcap Hflow).
      split; [split; [done |] | done].
      intros [(c & -> & Hc) | ?]; done.
    + unfold Residual.igraph_reverse_residual_graph.
      replace (match capacity with
               | Some c => negb (Vec.size c =? igraph_ecount graph)
               | None => false
               end) with false
        by (destruct capacity; [by rewrite Hcap, Z.eqb_refl | done]).
      apply Z.eqb_neq in Hflow as Hf. rewrite Hf. cbn [negb].
      split; [split; [by right | done] | by intros e [= <-]].
  - unfold Residual.igraph_reverse_residual_graph.
    apply Z.eqb_neq in Hc as Hc'. rewrite Hc'. cbn [negb].
    split; [split; [left; by exists c | done] | by intros e [= <-]].
Qed.

Lemma reverse_residual_size_mismatch_witness :
  (Residual.igraph_reverse_residual_graph Examples.one_edge (Some []) [1%Q] =
     IGRAPH_ERROR IGRAPH_EINVAL <->
   (exists c, Some ([] : list Q) = Some c /\ Vec.size c <> igraph_ecount Examples.one_edge) \/
   Vec.size [1%Q] <> igraph_ecount Examples.one_edge) /\
  (forall e,
     Residual.igraph_reverse_residual_graph Examples.one_edge (Some []) [1%Q] =
       IGRAPH_ERROR e -> e = IGRAPH_EINVAL).
Proof.
  apply (reverse_residual_size_mismatch Examples.one_edge (Some []) [1%Q]).
  exact one_edge_wf.
Defined.

(** The two residual graphs of the same flow: the reverse residual graph
    holds every edge of the residual graph turned round, and each of its
    edges is such a turned edge or an edge of the input that carries flow. *)
Theorem reverse_residual_of_residual (real_sub : Q -> Q -> Q) (graph : igraph_t)
    (capacity flow : list Q) (residual reverse : igraph_t) (rc : option (list Q)) :
  (forall a b, Qltb 0 (real_sub a b) = Qltb b a) ->
  graph_wf graph ->
  ResidualGraph.igraph_residual_graph real_sub graph capacity None flow =
    Ok (residual, rc) ->
  Residual.igraph_reverse_residual_graph graph (Some capacity) flow = Ok reverse ->
  (forall u v, In (u, v) (igraph_edges residual) -> In (v, u) (igraph_edges reverse)) /\
  (forall u v, In (u, v) (igraph_edges reverse) ->
     In (v, u) (igraph_edges residual) \/
     exists e, 0 <= e < igraph_ecount graph /\
       u = IGRAPH_FROM graph e /\ v = IGRAPH_TO graph e /\ (0 < Vec.get 0%Q flow e)%Q).
Proof.
  intros Hsub Hwf Hres Hrev.
  assert (Hsizes : Vec.size capacity = igraph_ecount graph /\
                   Vec.size flow = igraph_ecount graph).
  { unfold ResidualGraph.igraph_residual_graph in Hres.
    destruct (Z.eqb_spec (Vec.size capacity) (igraph_ecount graph)); [| done].
    destruct (Z.eqb_spec (Vec.size flow) (igraph_ecount graph)); done. }
  destruct Hsizes as [Hcap Hflow].
  rewrite (residual_graph_run real_sub graph capacity flow Hsub None Hwf Hcap Hflow) in Hres.
  rewrite (reverse_residual_run graph (Some capacity) flow Hwf Hcap Hflow) in Hrev.
  injection Hres as <- _. injection Hrev as <-. cbn [igraph_edges]. split.
  - intros u v (e & [= <- <-] & He)%in_map_iff.
    apply filter_In in He as [He Hopen].
    apply in_flat_map. exists e. split; [done |].
    unfold ResidualSpec.contribution. apply in_or_app. right.
    cbn [Residual.cap_at]. rewrite Hopen. by left.
  - intros u v (e & He & Hin)%in_flat_map.
    unfold ResidualSpec.contribution in Hin. apply in_app_or in Hin as [Hin | Hin].
    + destruct (Qltb 0 _) eqn:Hq; [| done]. destruct Hin as [[= <- <-] | []].
      right. exists e. apply range_In in He. apply Qltb_lt in Hq. done.
    + cbn [Residual.cap_at] in Hin.
      destruct (Qltb _ (Vec.get 0%Q capacity e)) eqn:Hq; [| done].
      destruct Hin as [[= <- <-] | []]. left.
      apply in_map_iff. exists e. split; [done |]. by apply filter_In.
Qed.

Lemma reverse_residual_of_residual_witness :
  (forall u v, In (u, v) (igraph_edges (mk_graph 2 true [(0, 1)])) ->
     In (v, u) (igraph_edges (mk_graph 2 true [(0, 1); (1, 0)]))) /\
  (forall u v, In (u, v) (igraph_edges (mk_graph 2 true [(0, 1); (1, 0)])) ->
     In (v, u) (igraph_edges (mk_graph 2 true [(0, 1)])) \/
     exists e, 0 <= e < igraph_ecount Examples.one_edge /\
       u = IGRAPH_FROM Examples.one_edge e /\ v = IGRAPH_TO Examples.one_edge e /\
       (0 < Vec.get 0%Q [1%Q] e)%Q).
Proof.
  apply (reverse_residual_of_residual Qminus Examples.one_edge [2%Q] [1%Q]
           (mk_graph 2 true [(0, 1)]) (mk_graph 2 true [(0, 1); (1, 0)]) None).
  - intros a b. apply Qltb_minus.
  - exact one_edge_wf.
  - reflexivity.
  - reflexivity.
Defined.

(** ** The buckets of the dominator tree *)

Section BucketDiscipline.
Import Dominator DominatorSpec.

Lemma bucket_rep_ext n b B B' :
    (forall x, B x = B' x) -> bucket_rep n b B -> bucket_rep n b B'.
  Proof.
    intros Hext (H1 & H2 & H3). split; [done |]. split; [done |].
    intros x. rewrite <- Hext. apply H3.
  Qed.

Lemma bucket_rep_init n :
    bucket_rep n (igraph_i_dbucket_init n) (fun _ => []).
  Proof.
    split; [apply vinit_length |]. split; [apply vinit_length |].
    intros x. simpl. unfold Vec.init, Vec.get. destruct (x <? 0); [done |].
    destruct (Nat.lt_ge_cases (Z.to_nat x) (Z.to_nat n)).
    - by rewrite nth_lookup, lookup_replicate_2.
    - apply nth_overflow. by rewrite length_replicate.
  Qed.
End BucketDiscipline.

(** The buckets are stacks threaded through [next].  Inserting [elem],
    which is in no bucket, into bucket [bid] leaves a non-empty bucket;
    the delete that follows hands [elem] back and leaves every bucket with
    the content it had before the insert. *)
Theorem dbucket_insert_delete (n : Z) (b : Dominator.igraph_i_dbucket_t)
    (B : Z -> list Z) (bid elem : Z) :
  DominatorSpec.bucket_rep n b B ->
  0 <= bid < n -> 0 <= elem < n ->
  (forall x, ~ In elem (B x)) ->
  Dominator.igraph_i_dbucket_empty (Dominator.igraph_i_dbucket_insert b bid elem) bid = false /\
  exists b',
    Dominator.igraph_i_dbucket_delete (Dominator.igraph_i_dbucket_insert b bid elem) bid =
      (b', elem) /\
    DominatorSpec.bucket_rep n b' B.
Proof.
  intros Hrep Hbid Helem Hfresh.
  pose proof (bucket_insert n b B bid elem Hrep Hbid Helem Hfresh) as Hins.
  split.
  - unfold Dominator.igraph_i_dbucket_empty, Dominator.igraph_i_dbucket_insert.
    cbn [Dominator.head]. destruct Hrep as (Hlh & _ & _).
    rewrite vget_vset_eq by (unfold Vec.size; lia). apply Z.eqb_neq. lia.
  - destruct (bucket_delete n _ _ bid elem (B bid) Hins) as (b' & Hdel & Hrep');
      [by rewrite Z.eqb_refl | done |].
    exists b'. split; [done |].
    eapply bucket_rep_ext; [| exact Hrep'].
    intros x. simpl. by destruct (Z.eqb_spec x bid) as [-> | ?].
Qed.

Lemma dbucket_insert_delete_witness :
  Dominator.igraph_i_dbucket_empty
    (Dominator.igraph_i_dbucket_insert (Dominator.igraph_i_dbucket_init 2) 0 1) 0 = false /\
  exists b',
    Dominator.igraph_i_dbucket_delete
      (Dominator.igraph_i_dbucket_insert (Dominator.igraph_i_dbucket_init 2) 0 1) 0 =
      (b', 1) /\
    DominatorSpec.bucket_rep 2 b' (fun _ => []).
Proof.
  apply (dbucket_insert_delete 2 (Dominator.igraph_i_dbucket_init 2) (fun _ => []) 0 1).
  - apply bucket_rep_init.
  - lia.
  - lia.
  - intros x [].
Defined.

(** ** The search tree read off the output of the depth-first search *)

Lemma dfs_search_tree {X} (graph : igraph_t) (mode : igraph_neimode_t)
    (in_callback out_callback : Z -> X -> X) (root : Z) (extra extra' : X)
    (order parents : list Z) :
  graph_wf graph ->
  Visitor.igraph_dfs graph mode in_callback out_callback root extra =
    Ok (order, parents, extra') ->
  DominatorSpec.search_tree graph mode root (rev (AllStCuts.nonneg_prefix order)) parents.
Proof.
  intros Hwf Hdfs.
  apply (igraph_dfs_tree graph mode _ _ Hwf) in Hdfs as (_ & ord & -> & Htree).
  rewrite (nonneg_prefix_padded graph).
  - by rewrite rev_involutive.
  - intros x Hx. apply in_rev in Hx. apply (DominatorSpec.st_range _ _ _ _ _ Htree) in Hx. lia.
Qed.

(** ** EVAL with path compression *)

(** EVAL in the forest that LINK builds over the search tree, when the
    vertices numbered [k] and above are linked: a vertex that is not linked
    is returned as it is; for a linked vertex the result has the least
    [semi] among the vertices on the tree path from the root of its tree in
    the forest (left out) down to it.  The compressed [ancestor] and
    [label] vectors describe the same forest. *)
Theorem dominator_EVAL_least_semi (graph : igraph_t) (mode : igraph_neimode_t) (root : Z)
    (ord parents : list Z) (k : nat) (semi ancestor label : list Z) (v : Z) :
  igraph_is_directed graph = true ->
  DominatorSpec.search_tree graph mode root ord parents ->
  DominatorSpec.forest_ok ord parents k semi ancestor label ->
  In v ord ->
  exists u ancestor' label',
    Dominator.igraph_i_dominator_EVAL v ancestor label semi = (u, ancestor', label') /\
    DominatorSpec.forest_ok ord parents k semi ancestor' label' /\
    ((DominatorSpec.rank ord v < k)%nat -> u = v) /\
    ((k <= DominatorSpec.rank ord v)%nat ->
       exists r, In r ord /\ (DominatorSpec.rank ord r < k)%nat /\
         DominatorSpec.anc parents r v /\
         (forall x, DominatorSpec.between parents r v x ->
                    (k <= DominatorSpec.rank ord x)%nat) /\
         DominatorSpec.seg_min parents semi r v u).
Proof.
  intros Hdir Htree Hf Hv.
  exact (eval_spec graph mode root ord parents Hdir Htree k semi ancestor label v Hf Hv).
Qed.

Lemma chain4_wf : graph_wf MoreExamples.chain4.
Proof. split; [simpl; lia |]. repeat constructor; simpl; lia. Defined.

Lemma chain4_tree :
  DominatorSpec.search_tree MoreExamples.chain4 IGRAPH_OUT 0 [3; 2; 1; 0] [-1; 0; 1; 2].
Proof.
  apply (dfs_search_tree MoreExamples.chain4 IGRAPH_OUT (fun _ x => x) (fun _ x => x)
           0 tt tt [0; 1; 2; 3] [-1; 0; 1; 2]).
  - exact chain4_wf.
  - reflexivity.
Defined.

(** The forest after LINK has been called for the vertices 3, 2 and 1 of
    the path, in this order. *)
Lemma chain4_forest :
  DominatorSpec.forest_ok [3; 2; 1; 0] [-1; 0; 1; 2] 1 [1; 1; 2; 3] [0; 1; 2; 3] [0; 1; 2; 3].
Proof.
  apply (link_forest MoreExamples.chain4 IGRAPH_OUT 0 [3; 2; 1; 0] [-1; 0; 1; 2]
           eq_refl chain4_tree 1 [1; 1; 2; 3] [0; 0; 2; 3] [0; 1; 2; 3] 1);
    [| simpl; tauto | reflexivity | lia].
  apply (link_forest MoreExamples.chain4 IGRAPH_OUT 0 [3; 2; 1; 0] [-1; 0; 1; 2]
           eq_refl chain4_tree 2 [1; 1; 2; 3] [0; 0; 0; 3] [0; 1; 2; 3] 2);
    [| simpl; tauto | reflexivity | lia].
  apply (link_forest MoreExamples.chain4 IGRAPH_OUT 0 [3; 2; 1; 0] [-1; 0; 1; 2]
           eq_refl chain4_tree 3 [1; 1; 2; 3] [0; 0; 0; 0] [0; 1; 2; 3] 3);
    [| simpl; tauto | reflexivity | lia].
  constructor.
  - reflexivity.
  - reflexivity.
  - intros v [<- | [<- | [<- | [<- | []]]]] _; split; reflexivity.
  - intros v [<- | [<- | [<- | [<- | []]]]] Hk; simpl in Hk; lia.
Defined.

Lemma dominator_EVAL_least_semi_witness :
  exists u ancestor' label',
    Dominator.igraph_i_dominator_EVAL 3 [0; 1; 2; 3] [0; 1; 2; 3] [1; 1; 2; 3] =
      (u, ancestor', label') /\
    DominatorSpec.forest_ok [3; 2; 1; 0] [-1; 0; 1; 2] 1 [1; 1; 2; 3] ancestor' label' /\
    ((DominatorSpec.rank [3; 2; 1; 0]%Z 3%Z < 1)%nat -> u = 3) /\
    ((1 <= DominatorSpec.rank [3; 2; 1; 0]%Z 3%Z)%nat ->
       exists r, In r [3; 2; 1; 0] /\ (DominatorSpec.rank [3; 2; 1; 0]%Z r < 1)%nat /\
         DominatorSpec.anc [-1; 0; 1; 2] r 3 /\
         (forall x, DominatorSpec.between [-1; 0; 1; 2] r 3 x ->
                    (1 <= DominatorSpec.rank [3; 2; 1; 0]%Z x)%nat) /\
         DominatorSpec.seg_min [-1; 0; 1; 2] [1; 1; 2; 3] r 3 u).
Proof.
  apply (dominator_EVAL_least_semi MoreExamples.chain4 IGRAPH_OUT 0 [3; 2; 1; 0]
           [-1; 0; 1; 2] 1 [1; 1; 2; 3] [0; 1; 2; 3] [0; 1; 2; 3] 3).
  - reflexivity.
  - exact chain4_tree.
  - exact chain4_forest.
  - simpl. tauto.
Defined.

(** ** The other outputs of the dominator tree *)

Lemma range_sorted n : StronglySorted Z.lt (Vec.range n).
Proof.
  unfold Vec.range. generalize 0%nat as a. induction (Z.to_nat n) as [| k IH]; intros a.
  - constructor.
  - simpl. constructor; [apply IH |].
    apply Forall_forall. intros x Hx%list_elem_of_In%in_map_iff.
    destruct Hx as (i & <- & Hi%in_seq). lia.
Qed.

Lemma filter_sorted (f : Z -> bool) l :
  StronglySorted Z.lt l -> StronglySorted Z.lt (List.filter f l).
Proof.
  induction 1 as [| a l Hs IH Ha]; simpl; [constructor |].
  destruct (f a); [| done]. constructor; [done |].
  apply Forall_forall. intros x Hx%list_elem_of_In%filter_In.
  rewrite Forall_forall in Ha. apply Ha, list_elem_of_In, Hx.
Qed.

Section DominatorOutputs2.
Import Visitor Dominator DominatorSpec.

Lemma dominator_tree_unfold graph root out mode :
    graph_wf graph -> igraph_is_directed graph = true ->
    0 <= root < igraph_vcount graph -> mode <> IGRAPH_ALL ->
    exists ord parents md,
      search_tree graph mode root ord parents /\
      length md = Z.to_nat (igraph_vcount graph) /\
      VECTOR md root = -1 /\
      (forall v, In v ord -> v <> root -> is_idom graph mode root (VECTOR md v) v) /\
      (forall x, 0 <= x < igraph_vcount graph -> ~ In x ord -> VECTOR md x = -2) /\
      igraph_dominator_tree graph root out mode =
        (let n := igraph_vcount graph in
         let cs := Z.of_nat (length ord) in
         let out1 :=
           mk_out (option_map (fun _ => md) (dom out)) (domtree out)
                  (option_map
                     (fun l => fst (fold_left (leftout_step parents (n - cs)) (Vec.range n)
                                              (Vec.resize 0 l (n - cs), 0)))
                     (leftout out)) in
         match domtree out with
         | Some _ =>
             match igraph_create
                     (fst (fold_left (domtree_step root mode md) (Vec.range n)
                                     (Vec.init 0 (cs * 2 - 2), 0))) n true with
             | IGRAPH_ERROR e => (e, out1)
             | Ok g => (IGRAPH_SUCCESS, mk_out (dom out1) (Some (Some g)) (leftout out1))
             end
         | None => (IGRAPH_SUCCESS, out1)
         end).
  Proof.
    intros Hwf Hdir Hroot Hmode. unfold igraph_dominator_tree.
    destruct (Z.ltb_spec root 0); [lia |].
    destruct (Z.geb_spec root (igraph_vcount graph)); [lia |].
    cbn [orb]. rewrite Hdir. cbn [negb].
    replace (match mode with IGRAPH_ALL => true | _ => false end) with false
      by (by destruct mode).
    destruct (igraph_dfs graph mode _ _ root tt) as [[[order parent] []] | e] eqn:Hdfs.
    2:{ exfalso. unfold igraph_dfs in Hdfs.
        destruct (Z.ltb_spec root 0); [lia |].
        destruct (Z.geb_spec root (igraph_vcount graph)); [lia |]. done. }
    apply (igraph_dfs_tree graph mode _ _ Hwf) in Hdfs as (_ & ord & -> & Htree).
    exists ord, parent.
    destruct (number_fold ord (igraph_vcount graph) (st_nodup _ _ _ _ _ Htree)
                (st_range _ _ _ _ _ Htree))
      as (semi0 & vertex & -> & Hls & Hlv & Hnum).
    cbv beta iota zeta.
    pose proof (main_loop_result graph mode root ord parent Hdir Htree vertex _
                  (fun v Hv => proj2 (Hnum v Hv))
                  (fun w v Hw => pruned_pred graph mode root ord parent Hwf Hdir Htree w v Hw)
                  _ _ (lt_inv_init graph mode root ord parent Htree semi0 Hls
                         (fun v Hv => proj1 (Hnum v Hv))))
      as Hmain.
    cbv zeta in Hmain.
    set (st := fold_left (main_step vertex parent _) _ _) in *.
    destruct Hmain as (Hlen & Hres & Hun).
    assert (HN : (1 <= length ord)%nat).
    { pose proof (rank_lt ord root (root_in graph mode root ord parent Htree)). lia. }
    pose proof (fixup_fold graph mode root ord parent Hdir Htree vertex
                  (Dominator.semi st) (Dominator.mydom st)
                  (fun v Hv => proj2 (Hnum v Hv))
                  (fun v Hv Hr => proj1 (Hres v Hv Hr))
                  (fun v Hv Hr => proj2 (Hres v Hv Hr)) Hlen
                  (length ord - 1) ltac:(lia)) as Hfix.
    cbv zeta in Hfix. rewrite <- range_from_seq in Hfix.
    set (md := fold_left (fixup_step vertex (Dominator.semi st)) _ _) in *.
    destruct Hfix as (Hlmd & Hidom & Hsame).
    exists (vset md root (-1)).
    split; [done |].
    split; [by rewrite vset_length |].
    split; [apply vget_vset_eq; unfold Vec.size; lia |]. split.
    { intros v Hv Hvr. rewrite vget_vset_ne by done. apply Hidom; [done |].
      pose proof (rank_lt ord v Hv).
      pose proof (rank_pos graph mode root ord parent Htree v Hv Hvr). lia. }
    split.
    { intros x Hx Hout. rewrite vget_vset_ne.
      - rewrite Hsame by (by intros [? _]). by apply Hun.
      - intros <-. apply Hout. apply (root_in graph mode root ord parent Htree). }
    cbn [Dominator.domtree Dominator.dom Dominator.leftout].
    destruct (Dominator.domtree out) as [t |]; [| by destruct (Dominator.leftout out)].
    destruct (fold_left (domtree_step root mode _) _ _) as [edges ptr] eqn:Hedges.
    cbn [fst]. by destruct (Dominator.leftout out).
  Qed.

Section Outputs.
Variables (graph : igraph_t) (mode : igraph_neimode_t) (root : Z).
Variables (ord parents : list Z).
Hypothesis Hwf : graph_wf graph.
Hypothesis Hdir : igraph_is_directed graph = true.
Hypothesis Htree : search_tree graph mode root ord parents.

Lemma ord_length_le : (length ord <= Z.to_nat (igraph_vcount graph))%nat.
    Proof.
      rewrite <- (range_length (igraph_vcount graph)). apply NoDup_incl_length.
      - apply NoDup_ListNoDup, (st_nodup _ _ _ _ _ Htree).
      - intros x Hx%(st_range _ _ _ _ _ Htree). by apply range_In.
    Qed.

    (** The vertices without a parent are the vertices outside the tree. *)
Lemma unvisited_exact :
      length (List.filter (fun j => (VECTOR parents j <? -1)%Z)
                          (Vec.range (igraph_vcount graph))) =
      (Z.to_nat (igraph_vcount graph) - length ord)%nat.
    Proof.
      pose proof (filter_length_split (fun j => (VECTOR parents j <? -1)%Z)
                    (Vec.range (igraph_vcount graph))) as Hsplit.
      rewrite range_length in Hsplit.
      pose proof (unvisited_count (igraph_vcount graph) parents ord
                    (st_unvisited _ _ _ _ _ Htree)) as Hle.
      assert (length ord <=
              length (List.filter (fun j => negb (VECTOR parents j <? -1)%Z)
                                  (Vec.range (igraph_vcount graph))))%nat; [| lia].
      apply NoDup_incl_length.
      - apply NoDup_ListNoDup, (st_nodup _ _ _ _ _ Htree).
      - intros x Hx. apply filter_In.
        pose proof (st_range _ _ _ _ _ Htree x Hx) as Hr.
        split; [by apply range_In |].
        apply (visited_parent graph mode root ord parents Htree x Hr) in Hx.
        apply negb_true_iff, Z.ltb_ge. lia.
    Qed.

Lemma leftout_fold l0 :
      let n := igraph_vcount graph in
      let cs := Z.of_nat (length ord) in
      fst (fold_left (leftout_step parents (n - cs)) (Vec.range n)
                     (Vec.resize 0 l0 (n - cs), 0)) =
      List.filter (fun j => (VECTOR parents j <? -1)%Z) (Vec.range n).
    Proof.
      intros n cs.
      pose proof ord_length_le as Hle. pose proof unvisited_exact as Hex.
      pose proof (proj1 Hwf) as Hn0.
      pose proof (leftout_steps parents (n - cs) (Vec.range n) []
                    (Vec.resize 0 l0 (n - cs))) as Hleft.
      cbn [app] in Hleft. change (Vec.size (@nil Z)) with 0 in Hleft.
      rewrite Hleft.
      - rewrite vresize_length. apply firstn_all2. fold n in Hex. rewrite Hex.
        subst cs. lia.
      - unfold Vec.size. rewrite vresize_length. subst cs n. lia.
      - rewrite vresize_length. fold n in Hex. rewrite Hex. subst cs. lia.
    Qed.
End Outputs.
End DominatorOutputs2.

(** With a [leftout] vector requested, [igraph_dominator_tree] stores in it
    the vertices that cannot be reached from the root, each once and in
    increasing order. *)
Theorem dominator_tree_leftout (graph : igraph_t) (root : Z) (mode : igraph_neimode_t)
    (out : Dominator.outputs) (l0 : list Z) :
  graph_wf graph -> igraph_is_directed graph = true ->
  0 <= root < igraph_vcount graph ->
  mode = IGRAPH_OUT \/ mode = IGRAPH_IN ->
  Dominator.leftout out = Some l0 ->
  exists lo,
    Dominator.leftout (snd (Dominator.igraph_dominator_tree graph root out mode)) = Some lo /\
    (forall v, In v lo <->
       0 <= v < igraph_vcount graph /\ ~ DominatorSpec.reachable graph mode root v) /\
    StronglySorted Z.lt lo.
Proof.
  intros Hwf Hdir Hroot Hmode Hlo.
  destruct (dominator_tree_unfold graph root out mode Hwf Hdir Hroot)
    as (ord & parents & md & Htree & _ & _ & _ & _ & Hrun);
    [by destruct Hmode as [-> | ->] |].
  rewrite Hrun. cbv zeta. rewrite Hlo. cbn [option_map].
  rewrite (leftout_fold graph mode root ord parents Hwf Htree l0).
  exists (List.filter (fun j => (VECTOR parents j <? -1)%Z) (Vec.range (igraph_vcount graph))).
  split.
  { destruct (Dominator.domtree out); [| done]. by destruct (igraph_create _ _ _). }
  split; [| apply filter_sorted, range_sorted].
  intros v. rewrite filter_In, range_In, Z.ltb_lt.
  rewrite <- (visited_reachable graph mode root ord parents Hdir Htree v).
  split; intros [Hv Hp]; (split; [done |]).
  - intros Hin. apply (visited_parent graph mode root ord parents Htree v Hv) in Hin. lia.
  - destruct (Z.lt_ge_cases (VECTOR parents v) (-1)); [done |]. exfalso. apply Hp.
    apply (visited_parent graph mode root ord parents Htree v Hv). lia.
Qed.

Lemma dominator_tree_leftout_witness :
  exists lo,
    Dominator.leftout
      (snd (Dominator.igraph_dominator_tree Examples.one_edge 1 Dominator.all_outputs
              IGRAPH_OUT)) = Some lo /\
    (forall v, In v lo <->
       0 <= v < igraph_vcount Examples.one_edge /\
       ~ DominatorSpec.reachable Examples.one_edge IGRAPH_OUT 1 v) /\
    StronglySorted Z.lt lo.
Proof.
  apply (dominator_tree_leftout Examples.one_edge 1 IGRAPH_OUT Dominator.all_outputs []).
  - exact one_edge_wf.
  - reflexivity.
  - simpl. lia.
  - left. reflexivity.
  - reflexivity.
Defined.

(** ** The dominator tree as a graph *)

Section DomtreeGraph.
Import Visitor Dominator DominatorSpec DomtreeSpec.

Lemma domtree_step_edge root mode md edges ptr i :
    domtree_step root mode md (edges, ptr) i =
    if tree_vertex root md i
    then (vset (vset edges ptr (fst (tree_edge mode md i))) (ptr + 1)
               (snd (tree_edge mode md i)), ptr + 2)
    else (edges, ptr).
  Proof. unfold domtree_step, tree_vertex, tree_edge. by destruct mode. Qed.

Lemma domtree_steps_exact root mode md l : forall pre rest,
    (2 * length (List.filter (tree_vertex root md) l) <= length rest)%nat ->
    fst (fold_left (domtree_step root mode md) l (pre ++ rest, Vec.size pre)) =
    pre ++ flat_map (fun p => [fst p; snd p])
                    (map (tree_edge mode md) (List.filter (tree_vertex root md) l)) ++
      drop (2 * length (List.filter (tree_vertex root md) l)) rest.
  Proof.
    induction l as [| i l IH]; intros pre rest Hlen.
    - simpl. by rewrite drop_0.
    - cbn [fold_left]. rewrite domtree_step_edge. cbn [List.filter] in *.
      destruct (tree_vertex root md i).
      + cbn [length] in Hlen.
        destruct rest as [| y1 [| y2 rest]]; [simpl in Hlen; lia | simpl in Hlen; lia |].
        set (a := fst (tree_edge mode md i)). set (b := snd (tree_edge mode md i)).
        assert (Hw :
          vset (vset (pre ++ y1 :: y2 :: rest) (Vec.size pre) a) (Vec.size pre + 1) b =
          (pre ++ [a; b]) ++ rest).
        { rewrite vset_next_cell.
          replace (Vec.size pre + 1) with (Vec.size (pre ++ [a]))
            by (unfold Vec.size; rewrite length_app; simpl; lia).
          rewrite vset_next_cell. by rewrite <- (app_assoc pre [a] [b]). }
        assert (Hsz : Vec.size pre + 2 = Vec.size (pre ++ [a; b])).
        { unfold Vec.size. rewrite length_app. simpl. lia. }
        rewrite Hw, Hsz, IH by (simpl in Hlen; lia).
        cbn [map flat_map length]. fold a b. rewrite <- !app_assoc. cbn [app].
        replace (2 * S (length (List.filter (tree_vertex root md) l)))%nat
          with (S (S (2 * length (List.filter (tree_vertex root md) l)))) by lia. done.
      + by apply IH.
  Qed.
End DomtreeGraph.

Section DomtreeCount.
Import Visitor Dominator DominatorSpec DomtreeSpec.
Variables (graph : igraph_t) (mode : igraph_neimode_t) (root : Z).
Variables (ord parents md : list Z).
Hypothesis Hwf : graph_wf graph.
Hypothesis Hdir : igraph_is_directed graph = true.
Hypothesis Htree : search_tree graph mode root ord parents.
Hypothesis Hidom : forall v, In v ord -> v <> root ->
    is_idom graph mode root (VECTOR md v) v.
Hypothesis Hun : forall x, 0 <= x < igraph_vcount graph -> ~ In x ord -> VECTOR md x = -2.

Lemma idom_visited v : In v ord -> v <> root -> In (VECTOR md v) ord.
  Proof.
    intros Hv Hvr. destruct (Hidom v Hv Hvr) as (_ & Hdom & _).
    apply (anc_ord graph mode root ord parents Hdir Htree _ v); [| done].
    by apply (dom_anc graph mode root ord parents Hdir Htree).
  Qed.

Lemma tree_vertex_In i :
    In i (List.filter (tree_vertex root md) (Vec.range (igraph_vcount graph))) <->
    In i ord /\ i <> root.
  Proof.
    rewrite filter_In, range_In. unfold tree_vertex.
    rewrite andb_true_iff, negb_true_iff, Z.eqb_neq, Z.geb_le. split.
    - intros (Hr & Hne & Hpos). split; [| done].
      destruct (In_dec Z.eq_dec i ord) as [| Hout]; [done |].
      rewrite (Hun i Hr Hout) in Hpos. lia.
    - intros [Hi Hne]. pose proof (st_range _ _ _ _ _ Htree i Hi) as Hr.
      split; [done |]. split; [done |].
      apply idom_visited, (st_range _ _ _ _ _ Htree) in Hi; [lia | done].
  Qed.

Lemma tree_vertex_count :
    S (length (List.filter (tree_vertex root md) (Vec.range (igraph_vcount graph)))) =
    length ord.
  Proof.
    set (K := List.filter _ _).
    assert (HK : List.NoDup K)
      by apply List.NoDup_filter, NoDup_ListNoDup, range_NoDup.
    pose proof (root_in graph mode root ord parents Htree) as Hroot.
    apply Nat.le_antisymm.
    - change (S (length K)) with (length (root :: K)). apply NoDup_incl_length.
      + constructor; [| done]. intros Hin%tree_vertex_In. by destruct Hin.
      + intros x [<- | Hx%tree_vertex_In]; [done | apply Hx].
    - change (S (length K)) with (length (root :: K)). apply NoDup_incl_length.
      + apply NoDup_ListNoDup, (st_nodup _ _ _ _ _ Htree).
      + intros x Hx. destruct (decide (x = root)) as [-> | Hne]; [by left |].
        right. by apply tree_vertex_In.
  Qed.

Lemma domtree_graph :
    igraph_create
      (fst (fold_left (domtree_step root mode md) (Vec.range (igraph_vcount graph))
                      (Vec.init 0 (Z.of_nat (length ord) * 2 - 2), 0)))
      (igraph_vcount graph) true =
    Ok (mk_graph (igraph_vcount graph) true
          (map (tree_edge mode md)
               (List.filter (tree_vertex root md) (Vec.range (igraph_vcount graph))))).
  Proof.
    pose proof tree_vertex_count as Hcount.
    set (K := List.filter _ _) in *.
    pose proof (domtree_steps_exact root mode md (Vec.range (igraph_vcount graph)) []
                  (Vec.init 0 (Z.of_nat (length ord) * 2 - 2))) as Hsteps.
    cbn [app] in Hsteps. change (Vec.size (@nil Z)) with 0 in Hsteps. fold K in Hsteps.
    rewrite Hsteps by (rewrite vinit_length; lia).
    rewrite drop_ge by (rewrite vinit_length; lia). rewrite app_nil_r.
    rewrite create_flat.
    - by rewrite edge_pairs_flat.
    - rewrite (length_flat_map_const _ 2%nat) by done. by rewrite Nat.even_mul.
    - apply Hwf.
    - apply Forall_forall. intros x Hx%list_elem_of_In%in_flat_map.
      destruct Hx as (p & Hp%in_map_iff & Hx). destruct Hp as (i & <- & Hi).
      apply tree_vertex_In in Hi as [Hi Hne].
      pose proof (st_range _ _ _ _ _ Htree i Hi) as Hr.
      pose proof (st_range _ _ _ _ _ Htree _ (idom_visited i Hi Hne)) as Hr'.
      unfold tree_edge in Hx. destruct mode; simpl in Hx; intuition lia.
  Qed.
End DomtreeCount.

(** With the tree requested, [igraph_dominator_tree] succeeds and builds a
    directed graph on the vertices of the input whose edges are exactly the
    pairs (immediate dominator of [w], [w]) for the vertices [w] other than
    the root that can be reached from it; with mode IN every pair is turned
    round.  There is one edge for each such vertex. *)
Theorem dominator_tree_graph (graph : igraph_t) (root : Z) (mode : igraph_neimode_t)
    (out : Dominator.outputs) (t0 : option igraph_t) :
  graph_wf graph -> igraph_is_directed graph = true ->
  0 <= root < igraph_vcount graph ->
  mode = IGRAPH_OUT \/ mode = IGRAPH_IN ->
  Dominator.domtree out = Some t0 ->
  exists g,
    fst (Dominator.igraph_dominator_tree graph root out mode) = IGRAPH_SUCCESS /\
    Dominator.domtree (snd (Dominator.igraph_dominator_tree graph root out mode)) =
      Some (Some g) /\
    igraph_vcount g = igraph_vcount graph /\
    igraph_is_directed g = true /\
    (forall d w,
       In (match mode with IGRAPH_OUT => (d, w) | _ => (w, d) end) (igraph_edges g) <->
       w <> root /\ DominatorSpec.reachable graph mode root w /\
       DominatorSpec.is_idom graph mode root d w) /\
    List.NoDup (igraph_edges g).
Proof.
  intros Hwf Hdir Hroot Hmode Hdt.
  destruct (dominator_tree_unfold graph root out mode Hwf Hdir Hroot)
    as (ord & parents & md & Htree & _ & _ & Hidom & Hun & Hrun);
    [by destruct Hmode as [-> | ->] |].
  rewrite Hrun. cbv zeta. rewrite Hdt.
  rewrite (domtree_graph graph mode root ord parents md Hwf Hdir Htree Hidom Hun).
  eexists. split; [done |]. split; [done |]. split; [done |]. split; [done |].
  cbn [igraph_edges]. split.
  - intros d w.
    rewrite <- (visited_reachable graph mode root ord parents Hdir Htree w).
    assert (Hedge : In (match mode with IGRAPH_OUT => (d, w) | _ => (w, d) end)
                       (map (DomtreeSpec.tree_edge mode md)
                          (List.filter (DomtreeSpec.tree_vertex root md)
                                       (Vec.range (igraph_vcount graph)))) <->
                    In w ord /\ w <> root /\ d = VECTOR md w).
    { rewrite in_map_iff. split.
      - intros (i & Heq & Hi).
        apply (tree_vertex_In graph mode root ord parents md Hdir Htree Hidom Hun) in Hi.
        unfold DomtreeSpec.tree_edge in Heq.
        destruct Hmode as [-> | ->]; injection Heq as <- <-; tauto.
      - intros (Hw & Hne & ->). exists w. split.
        + unfold DomtreeSpec.tree_edge. by destruct Hmode as [-> | ->].
        + by apply (tree_vertex_In graph mode root ord parents md Hdir Htree Hidom Hun). }
    rewrite Hedge. split.
    + intros (Hw & Hne & ->). split; [done |]. split; [done |]. by apply Hidom.
    + intros (Hne & Hw & Hd). split; [done |]. split; [done |].
      apply (idom_unique graph mode root ord parents d (VECTOR md w) w); try done.
      by apply Hidom.
  - apply List.NoDup_map_inv with (f := fun p => match mode with
                                                 | IGRAPH_OUT => snd p | _ => fst p end).
    rewrite map_map.
    rewrite (map_ext _ (fun i => i)) by (intros i; unfold DomtreeSpec.tree_edge; by destruct mode).
    rewrite map_id. apply List.NoDup_filter, NoDup_ListNoDup, range_NoDup.
Qed.

Lemma dominator_tree_graph_witness :
  exists g,
    fst (Dominator.igraph_dominator_tree Examples.diamond 0 Dominator.all_outputs IGRAPH_OUT) =
      IGRAPH_SUCCESS /\
    Dominator.domtree
      (snd (Dominator.igraph_dominator_tree Examples.diamond 0 Dominator.all_outputs
              IGRAPH_OUT)) = Some (Some g) /\
    igraph_vcount g = igraph_vcount Examples.diamond /\
    igraph_is_directed g = true /\
    (forall d w,
       In (d, w) (igraph_edges g) <->
       w <> 0 /\ DominatorSpec.reachable Examples.diamond IGRAPH_OUT 0 w /\
       DominatorSpec.is_idom Examples.diamond IGRAPH_OUT 0 d w) /\
    List.NoDup (igraph_edges g).
Proof.
  apply (dominator_tree_graph Examples.diamond 0 IGRAPH_OUT Dominator.all_outputs None).
  - exact diamond_wf.
  - reflexivity.
  - simpl. lia.
  - left. reflexivity.
  - reflexivity.
Defined.

(** ** More on the search *)

Section SearchExtras.
Import MarkedQueue EStack ProvanShier SearchSpec CutsSpec.

  (** "Add Isv to S" looks before it pushes. *)
Lemma add_Isv_ok Isv : forall S1, exists S2, fold_left add_Isv Isv (Ok S1) = Ok S2.
  Proof.
    induction Isv as [| u Isv IH]; intros S1; [by eexists |].
    cbn [fold_left]. unfold add_Isv at 2. cbn [IGRAPH_CHECK].
    destruct (igraph_marked_queue_int_iselement S1 u) eqn:Hu; [apply IH |].
    unfold igraph_marked_queue_int_push. rewrite Hu. apply IH.
  Qed.

Lemma provan_shier_no_error (pivot : igraph_provan_shier_pivot_t) (graph : igraph_t)
      (source target : Z) :
    pivot_contract pivot -> graph_wf graph ->
    forall fuel S T result_ r,
      queue_wf (igraph_vcount graph) S -> estack_wf (igraph_vcount graph) T ->
      igraph_provan_shier_list fuel graph S T source target result_ pivot = Some r ->
      exists S' T' result', r = Ok (S', T', result').
  Proof.
    intros Hcontract Hwf. set (n := igraph_vcount graph).
    induction fuel as [| fuel IH]; intros S T result_ r HS HT Hrun; [done |].
    cbn [igraph_provan_shier_list] in Hrun.
    destruct (pivot graph S T source target) as [[code v] Isv] eqn:Hpivot.
    destruct Isv as [| u Isv]; [destruct (_ && _); injection Hrun as <-; by eexists _, _, _ |].
    destruct (Hcontract _ _ _ _ _ _ _ _ Hwf HS HT Hpivot ltac:(done))
      as (Hv & HSv & HTv & HvIsv).
    destruct (estack_push_fresh n T v HT HTv) as (T1 & Hpush & HT1 & _ & _).
    rewrite Hpush in Hrun.
    destruct (igraph_provan_shier_list fuel graph S T1 source target result_ pivot)
      as [r1 |] eqn:Hleft; [| done].
    destruct (IH _ _ _ _ HS HT1 Hleft) as (S1 & T2 & result1 & ->).
    apply provan_shier_frame in Hleft as [-> ->].
    rewrite (estack_push_pop _ _ _ Hpush) in Hrun.
    destruct (add_Isv_ok (u :: Isv) (igraph_marked_queue_int_start_batch S)) as [S3 Hadd].
    rewrite Hadd in Hrun.
    destruct (batch_over_fold _ _ _ _ _ (batch_over_start S) Hadd) as [added Hb].
    pose proof (batch_over_wf n S S3 added HS Hb) as HS3.
    destruct (igraph_provan_shier_list fuel graph S3 T source target result1 pivot)
      as [r2 |] eqn:Hright; [| done].
    destruct (IH _ _ _ _ HS3 HT Hright) as (S4 & T4 & result2 & ->).
    injection Hrun as <-. by eexists _, _, _.
  Qed.

(** A successful call of [igraph_provan_shier_list] only appends to the
    result list, whatever the pivot does.  Every set it appends starts with
    the vertices that S held at the call, in their order, and is neither
    empty nor of the size of the vertex set. *)
Theorem provan_shier_list_appends (pivot : ProvanShier.igraph_provan_shier_pivot_t)
    (graph : igraph_t) (source target : Z) (fuel : nat)
    (S0 S' : MarkedQueue.igraph_marked_queue_int_t) (T0 T' : EStack.igraph_estack_t)
    (result_ result' : list (list Z)) :
  ProvanShier.igraph_provan_shier_list fuel graph S0 T0 source target result_ pivot =
    Some (Ok (S', T', result')) ->
  exists new, result' = result_ ++ new /\
    Forall (fun P => (exists added, P = MarkedQueue.items S0 ++ added) /\
                     Vec.size P <> 0 /\ Vec.size P <> igraph_vcount graph) new.
Proof.
  revert S0 T0 result_ S' T' result'.
  induction fuel as [| fuel IH]; intros S T result_ S' T' result' Hrun; [done |].
  cbn [igraph_provan_shier_list] in Hrun.
  destruct (pivot graph S T source target) as [[code v] Isv] eqn:Hpivot.
  destruct Isv as [| u Isv].
  { destruct (_ && _) eqn:Hc; injection Hrun as <- <- <-.
    - exists [items S]. split; [done |]. constructor; [| constructor].
      apply andb_true_iff in Hc as [H0%negb_true_iff%Z.eqb_neq Hn%negb_true_iff%Z.eqb_neq].
      split; [exists []; by rewrite app_nil_r | done].
    - exists []. by rewrite app_nil_r. }
  destruct (igraph_estack_push T v) as [T1 |] eqn:Hpush; [| done].
  destruct (igraph_provan_shier_list fuel graph S T1 source target result_ pivot)
    as [[[[S1 T2] result1] |] |] eqn:Hleft; [| done | done].
  pose proof (provan_shier_frame _ _ _ _ _ _ _ _ _ _ _ Hleft) as [-> ->].
  apply IH in Hleft as [new1 [-> Hnew1]].
  destruct (fold_left add_Isv (u :: Isv) _) as [S3 |] eqn:Hadd; [| done].
  destruct (batch_over_fold _ _ _ _ _ (batch_over_start S) Hadd) as [added [Hitems _]].
  destruct (igraph_provan_shier_list fuel graph S3 _ source target _ pivot)
    as [[[[S4 T4] result2] |] |] eqn:Hright; [| done | done].
  injection Hrun as <- <- <-.
  apply IH in Hright as [new2 [-> Hnew2]].
  exists (new1 ++ new2). split; [by rewrite app_assoc |].
  apply Forall_app. split; [done |].
  eapply Forall_impl; [exact Hnew2 |]. intros P ([added' ->] & Hsz).
  split; [| done]. exists (added ++ added'). by rewrite Hitems, app_assoc.
Qed.

Lemma provan_shier_list_appends_witness :
  exists new, [[0]; [0; 2]; [0; 1]; [0; 1; 2]] = [] ++ new /\
    Forall (fun P => (exists added,
                        P = MarkedQueue.items (MarkedQueue.igraph_marked_queue_int_init 4)
                            ++ added) /\
                     Vec.size P <> 0 /\ Vec.size P <> igraph_vcount Examples.diamond) new.
Proof.
  apply (provan_shier_list_appends AllStCuts.igraph_i_all_st_cuts_pivot Examples.diamond
           0 3 5 (MarkedQueue.igraph_marked_queue_int_init 4)
           (MarkedQueue.igraph_marked_queue_int_init 4)
           (EStack.igraph_estack_init 4) (EStack.igraph_estack_init 4) []
           [[0]; [0; 2]; [0; 1]; [0; 1; 2]]).
  vm_compute. reflexivity.
Defined.
End SearchExtras.

(** With a pivot that honours its contract (a non-empty [Isv] comes with a
    vertex outside S and T that belongs to it) the search never fails: with
    fuel for [n + 1] levels it returns a result list, not an error. *)
Theorem provan_shier_list_never_fails (pivot : ProvanShier.igraph_provan_shier_pivot_t)
    (graph : igraph_t) (source target : Z)
    (S0 : MarkedQueue.igraph_marked_queue_int_t) (T0 : EStack.igraph_estack_t)
    (result_ : list (list Z)) :
  SearchSpec.pivot_contract pivot ->
  graph_wf graph ->
  SearchSpec.queue_wf (igraph_vcount graph) S0 ->
  SearchSpec.estack_wf (igraph_vcount graph) T0 ->
  exists S' T' result',
    ProvanShier.igraph_provan_shier_list (S (Z.to_nat (igraph_vcount graph)))
      graph S0 T0 source target result_ pivot = Some (Ok (S', T', result')).
Proof.
  intros Hcontract Hwf HS HT.
  destruct (provan_shier_fuel pivot graph source target Hcontract Hwf
              (S (Z.to_nat (igraph_vcount graph))) S0 T0 result_ HS HT) as [r Hr].
  { pose proof (free_length_le (igraph_vcount graph) S0 T0 (proj1 Hwf)). lia. }
  destruct (provan_shier_no_error pivot graph source target Hcontract Hwf _ _ _ _ _ HS HT Hr)
    as (S' & T' & result' & ->).
  by exists S', T', result'.
Qed.

Lemma provan_shier_list_never_fails_witness :
  exists S' T' result',
    ProvanShier.igraph_provan_shier_list (S (Z.to_nat (igraph_vcount Examples.diamond)))
      Examples.diamond (MarkedQueue.igraph_marked_queue_int_init 4)
      (EStack.igraph_estack_init 4) 0 3 [] AllStCuts.igraph_i_all_st_cuts_pivot =
      Some (Ok (S', T', result')).
Proof.
  apply (provan_shier_list_never_fails AllStCuts.igraph_i_all_st_cuts_pivot Examples.diamond
           0 3 (MarkedQueue.igraph_marked_queue_int_init 4) (EStack.igraph_estack_init 4) []).
  - apply all_st_cuts_pivot_contract.
  - exact diamond_wf.
  - apply queue_wf_init. lia.
  - apply estack_wf_init. lia.
Defined.

(** On a directed graph, with source and target among its vertices,
    [igraph_all_st_cuts] does not fail: it returns the list of partitions
    and, when asked for, one cut for each partition. *)
Theorem all_st_cuts_succeeds (graph : igraph_t) (want_cuts : bool) (source target : Z) :
  graph_wf graph -> igraph_is_directed graph = true ->
  0 <= source < igraph_vcount graph -> 0 <= target < igraph_vcount graph ->
  exists cuts partition1s,
    AllStCuts.igraph_all_st_cuts (S (Z.to_nat (igraph_vcount graph))) graph want_cuts
      source target = Some (Ok (cuts, partition1s)) /\
    match cuts with
    | Some cs => want_cuts = true /\ length cs = length partition1s
    | None => want_cuts = false
    end.
Proof.
  intros Hwf Hdir _ _. unfold AllStCuts.igraph_all_st_cuts. rewrite Hdir. cbn [negb].
  destruct (provan_shier_fuel AllStCuts.igraph_i_all_st_cuts_pivot graph source target
              all_st_cuts_pivot_contract Hwf (S (Z.to_nat (igraph_vcount graph)))
              (MarkedQueue.igraph_marked_queue_int_init (igraph_vcount graph))
              (EStack.igraph_estack_init (igraph_vcount graph)) [])
    as [r Hr].
  { apply queue_wf_init, Hwf. }
  { apply estack_wf_init, Hwf. }
  { pose proof (free_length_le (igraph_vcount graph)
                  (MarkedQueue.igraph_marked_queue_int_init (igraph_vcount graph))
                  (EStack.igraph_estack_init (igraph_vcount graph)) (proj1 Hwf)). lia. }
  destruct (provan_shier_no_error _ graph source target all_st_cuts_pivot_contract Hwf
              _ _ _ _ _ (queue_wf_init _ (proj1 Hwf)) (estack_wf_init _ (proj1 Hwf)) Hr)
    as (S' & T' & parts & ->).
  rewrite Hr. destruct want_cuts; [| by eexists _, _].
  assert (Hlen : forall l st,
    length (snd (fold_left (AllStCuts.cut_step graph parts) l st)) =
    (length (snd st) + length l)%nat).
  { induction l as [| i l IH]; intros [[a b] c]; [simpl; lia |].
    cbn [fold_left]. rewrite IH. unfold AllStCuts.cut_step.
    destruct (fold_left (AllStCuts.add_step _ _ _) _ _). simpl.
    rewrite length_app. simpl. lia. }
  specialize (Hlen (Vec.range (Vec.size parts)) (Vec.init 0 (igraph_vcount graph), [], [])).
  destruct (fold_left (AllStCuts.cut_step graph parts) _ _) as [[inS cut] cuts].
  eexists _, _. split; [done |]. split; [done |].
  simpl in Hlen. rewrite range_length in Hlen. unfold Vec.size in Hlen. lia.
Qed.

Lemma all_st_cuts_succeeds_witness :
  exists cuts partition1s,
    AllStCuts.igraph_all_st_cuts (S (Z.to_nat (igraph_vcount Examples.diamond)))
      Examples.diamond true 0 3 = Some (Ok (cuts, partition1s)) /\
    match cuts with
    | Some cs => true = true /\ length cs = length partition1s
    | None => true = false
    end.
Proof.
  apply (all_st_cuts_succeeds Examples.diamond true 0 3).
  - exact diamond_wf.
  - reflexivity.
  - simpl. lia.
  - simpl. lia.
Defined.

(** ** What the pivots hand back *)

(** The pivot of [igraph_all_st_cuts]: a non-empty [Isv] comes with a pivot
    vertex [v] of the graph that is in neither S nor T and belongs to [Isv];
    every vertex of [Isv] is a vertex of the graph other than the target;
    and while S is empty the pivot vertex is the source. *)
Theorem all_st_cuts_pivot_output (graph : igraph_t)
    (S : MarkedQueue.igraph_marked_queue_int_t) (T : EStack.igraph_estack_t)
    (source target : Z) (code : igraph_error_t) (v : Z) (Isv : list Z) :
  graph_wf graph ->
  SearchSpec.queue_wf (igraph_vcount graph) S ->
  SearchSpec.estack_wf (igraph_vcount graph) T ->
  0 <= source < igraph_vcount graph -> 0 <= target < igraph_vcount graph ->
  AllStCuts.igraph_i_all_st_cuts_pivot graph S T source target = (code, v, Isv) ->
  Isv <> [] ->
  0 <= v < igraph_vcount graph /\
  MarkedQueue.igraph_marked_queue_int_iselement S v = false /\
  EStack.igraph_estack_iselement T v = false /\
  In v Isv /\
  (forall u, In u Isv -> 0 <= u < igraph_vcount graph /\ u <> target) /\
  (MarkedQueue.igraph_marked_queue_int_size S = 0 -> v = source).
Proof.
  intros Hwf HS HT _ _ Hpivot Hne.
  destruct (all_st_cuts_pivot_contract _ _ _ _ _ _ _ _ Hwf HS HT Hpivot Hne)
    as (Hv & HSv & HTv & HvIsv).
  destruct (all_st_cuts_pivot_Isv _ _ _ _ _ _ _ _ Hwf HS Hpivot Hne) as (Hr & _ & Hsrc).
  done.
Qed.

Lemma all_st_cuts_pivot_output_witness :
  0 <= 0 < igraph_vcount Examples.diamond /\
  MarkedQueue.igraph_marked_queue_int_iselement
    (MarkedQueue.igraph_marked_queue_int_init 4) 0 = false /\
  EStack.igraph_estack_iselement (EStack.igraph_estack_init 4) 0 = false /\
  In 0 [0] /\
  (forall u, In u [0] -> 0 <= u < igraph_vcount Examples.diamond /\ u <> 3) /\
  (MarkedQueue.igraph_marked_queue_int_size (MarkedQueue.igraph_marked_queue_int_init 4) = 0 ->
   0 = 0).
Proof.
  apply (all_st_cuts_pivot_output Examples.diamond
           (MarkedQueue.igraph_marked_queue_int_init 4) (EStack.igraph_estack_init 4)
           0 3 IGRAPH_SUCCESS 0 [0]).
  - exact diamond_wf.
  - apply queue_wf_init. lia.
  - apply estack_wf_init. lia.
  - simpl. lia.
  - simpl. lia.
  - vm_compute. reflexivity.
  - discriminate.
Defined.

Section MinCutsPivot.
Import Visitor MarkedQueue EStack ProvanShier AllStMinCuts SearchSpec.

Lemma all_st_mincuts_pivot_facts active graph S T source target code v Isv :
    graph_wf graph -> queue_wf (igraph_vcount graph) S ->
    igraph_i_all_st_mincuts_pivot active graph S T source target = (code, v, Isv) ->
    Isv <> [] ->
    code = IGRAPH_SUCCESS /\ v <> target /\ List.NoDup Isv /\
    forall u, In u Isv ->
      0 <= u < igraph_vcount graph /\
      igraph_marked_queue_int_iselement S u = false /\
      igraph_estack_iselement T u = false.
  Proof.
    intros Hwf HS Hpivot Hne.
    unfold igraph_i_all_st_mincuts_pivot in Hpivot.
    destruct (_ =? igraph_vcount graph); [by injection Hpivot as _ _ <- |].
    rewrite (induced_subgraph_map_eq graph S) in Hpivot. cbv zeta in Hpivot.
    set (keep := List.filter _ (Vec.range (igraph_vcount graph))) in *.
    destruct (find_pivot T target keep _) as [m |] eqn:Hfind;
      [| by injection Hpivot as _ _ <-].
    apply find_pivot_some in Hfind as (HmM & Hmt & HmT).
    destruct (igraph_bfs graph IGRAPH_IN _ _) as [order |] eqn:Hbfs;
      [| by injection Hpivot as _ _ <-].
    injection Hpivot as <- <- <-.
    pose proof (igraph_bfs_restricted graph IGRAPH_IN Hwf _ _ _ Hbfs) as (Hnd & Hin & _).
    split; [done |]. split; [done |]. split.
    - apply List.NoDup_filter. by apply NoDup_ListNoDup.
    - intros u [Hu HuT]%filter_In. apply negb_true_iff in HuT.
      destruct (Hin u Hu) as [Hr Hk]. apply (keep_In graph S) in Hk. tauto.
  Qed.
End MinCutsPivot.

(** The pivot of [igraph_all_st_mincuts]: a non-empty [Isv] comes with the
    success code and a pivot vertex [v] other than the target that is in
    neither S nor T and belongs to [Isv]; [Isv] lists vertices of the graph
    that are in neither S nor T, none of them twice. *)
Theorem all_st_mincuts_pivot_output (active : list bool) (graph : igraph_t)
    (S : MarkedQueue.igraph_marked_queue_int_t) (T : EStack.igraph_estack_t)
    (source target : Z) (code : igraph_error_t) (v : Z) (Isv : list Z) :
  graph_wf graph ->
  SearchSpec.queue_wf (igraph_vcount graph) S ->
  SearchSpec.estack_wf (igraph_vcount graph) T ->
  AllStMinCuts.igraph_i_all_st_mincuts_pivot active graph S T source target = (code, v, Isv) ->
  Isv <> [] ->
  code = IGRAPH_SUCCESS /\
  0 <= v < igraph_vcount graph /\ v <> target /\
  In v Isv /\ List.NoDup Isv /\
  forall u, In u Isv ->
    0 <= u < igraph_vcount graph /\
    MarkedQueue.igraph_marked_queue_int_iselement S u = false /\
    EStack.igraph_estack_iselement T u = false.
Proof.
  intros Hwf HS HT Hpivot Hne.
  destruct (all_st_mincuts_pivot_contract active _ _ _ _ _ _ _ _ Hwf HS HT Hpivot Hne)
    as (Hv & _ & _ & HvIsv).
  destruct (all_st_mincuts_pivot_facts _ _ _ _ _ _ _ _ _ Hwf HS Hpivot Hne)
    as (Hcode & Hvt & Hnd & Hall).
  done.
Qed.

Lemma all_st_mincuts_pivot_output_witness :
  IGRAPH_SUCCESS = IGRAPH_SUCCESS /\
  0 <= 0 < igraph_vcount Examples.diamond /\ 0 <> 3 /\
  In 0 [0] /\ List.NoDup [0] /\
  forall u, In u [0] ->
    0 <= u < igraph_vcount Examples.diamond /\
    MarkedQueue.igraph_marked_queue_int_iselement
      (MarkedQueue.igraph_marked_queue_int_init 4) u = false /\
    EStack.igraph_estack_iselement (EStack.igraph_estack_init 4) u = false.
Proof.
  apply (all_st_mincuts_pivot_output [true; true; true; true] Examples.diamond
           (MarkedQueue.igraph_marked_queue_int_init 4) (EStack.igraph_estack_init 4)
           0 3 IGRAPH_SUCCESS 0 [0]).
  - exact diamond_wf.
  - apply queue_wf_init. lia.
  - apply estack_wf_init. lia.
  - vm_compute. reflexivity.
  - discriminate.
Defined.

(** ** No closed set is listed twice *)

Section Distinct.
Import MarkedQueue EStack ProvanShier SearchSpec CutsSpec.

Lemma ForallOrdPairs_app {A} (R : A -> A -> Prop) (l1 l2 : list A) :
    ForallOrdPairs R l1 -> ForallOrdPairs R l2 ->
    (forall a b, In a l1 -> In b l2 -> R a b) ->
    ForallOrdPairs R (l1 ++ l2).
  Proof.
    intros H1 H2 H12. induction H1 as [| a l1 Ha H1 IH]; [done |].
    simpl. constructor.
    - apply Forall_app. split; [done |].
      apply Forall_forall. intros b Hb%list_elem_of_In. apply H12; [by left | done].
    - apply IH. intros x b Hx Hb. apply H12; [by right | done].
  Qed.

Variable pivot : igraph_provan_shier_pivot_t.
Variables (graph : igraph_t) (source target : Z).
Let n := igraph_vcount graph.
Hypothesis Hwf : graph_wf graph.
Hypothesis Hcontract : pivot_contract pivot.
Hypothesis Hfresh : forall S T code v Isv,
    queue_wf n S -> pivot graph S T source target = (code, v, Isv) -> Isv <> [] ->
    forall u, In u Isv -> 0 <= u < n /\ igraph_estack_iselement T u = false.

  (** What is listed below a node of the search tree: sets that hold S and
      avoid T, pairwise different. *)
Lemma provan_shier_distinct fuel : forall S T result_ S' T' result',
    queue_exact n S -> estack_wf n T ->
    (forall x, In x (items S) -> igraph_estack_iselement T x = false) ->
    igraph_provan_shier_list fuel graph S T source target result_ pivot =
      Some (Ok (S', T', result')) ->
    exists new, result' = result_ ++ new /\
      Forall (fun P => List.NoDup P /\ (forall x, In x P -> 0 <= x < n) /\
                       (forall x, In x (items S) -> In x P) /\
                       (forall x, igraph_estack_iselement T x = true -> ~ In x P)) new /\
      ForallOrdPairs (fun P P' => ~ same_set P P') new.
  Proof.
    induction fuel as [| fuel IH]; intros S T result_ S' T' result' HS HT Hdisj Hrun; [done |].
    cbn [igraph_provan_shier_list] in Hrun.
    destruct (pivot graph S T source target) as [[code v] Isv] eqn:Hpivot.
    destruct Isv as [| u Isv].
    { destruct (_ && _) eqn:Hc; injection Hrun as <- <- <-.
      - exists [items S]. split; [done |]. split; [| repeat constructor].
        constructor; [| constructor].
        destruct HS as (_ & Hnd & Hin). split; [done |]. split; [intros x Hx; by apply Hin |].
        split; [done |]. intros x HTx Hx. apply Hdisj in Hx. congruence.
      - exists []. rewrite app_nil_r. split; [done |]. split; constructor. }
    destruct (Hcontract _ _ _ _ _ _ _ _ Hwf (proj1 HS) HT Hpivot ltac:(done))
      as (Hv & HSv & HTv & HvIsv).
    pose proof (Hfresh _ _ _ _ _ (proj1 HS) Hpivot ltac:(done)) as HIsv.
    destruct (igraph_estack_push T v) as [T1 |] eqn:Hpush; [| done].
    pose proof (estack_push_wf n _ _ _ HT Hpush) as HT1.
    assert (HT1el : forall x, igraph_estack_iselement T1 x =
                              if x =? v then true else igraph_estack_iselement T x).
    { intros x. unfold igraph_estack_push in Hpush. rewrite HTv in Hpush.
      injection Hpush as <-. unfold igraph_estack_iselement. cbn [isin].
      rewrite vget_vset. destruct (Z.eqb_spec v x) as [-> | Hne].
      - rewrite Z.eqb_refl. unfold estack_wf in HT.
        destruct (Z.leb_spec 0 x); [| lia]. destruct (Z.ltb_spec x (Vec.size (isin T))); [done | lia].
      - cbn [andb]. destruct (Z.eqb_spec x v); [congruence | done]. }
    destruct (igraph_provan_shier_list fuel graph S T1 source target result_ pivot)
      as [[[[S1 T2] result1] |] |] eqn:Hleft; [| done | done].
    pose proof (provan_shier_frame _ _ _ _ _ _ _ _ _ _ _ Hleft) as [-> ->].
    apply IH in Hleft as (new1 & -> & Hnew1 & Hord1); [| done | done |].
    2:{ intros x Hx. rewrite HT1el. destruct (Z.eqb_spec x v) as [-> | _]; [| by apply Hdisj].
        destruct HS as (_ & _ & Hin). apply Hin in Hx as [_ Hx]. congruence. }
    rewrite (estack_push_pop _ _ _ Hpush) in Hrun.
    destruct (fold_left add_Isv (u :: Isv) _) as [S3 |] eqn:Hadd; [| done].
    apply (add_Isv_fold_exact n) in Hadd as [HS3 Hit];
      [| by apply start_batch_exact | intros y Hy; by apply HIsv].
    cbn [items igraph_marked_queue_int_start_batch] in Hit.
    destruct (igraph_provan_shier_list fuel graph S3 T source target _ pivot)
      as [[[[S4 T4] result2] |] |] eqn:Hright; [| done | done].
    injection Hrun as <- <- <-.
    apply IH in Hright as (new2 & -> & Hnew2 & Hord2); [| done | done |].
    2:{ intros x [Hx | Hx]%Hit; [by apply Hdisj | by apply HIsv]. }
    exists (new1 ++ new2). split; [by rewrite app_assoc |]. split.
    - apply Forall_app. split.
      + eapply Forall_impl; [exact Hnew1 |]. intros P (H1 & H2 & H3 & H4).
        split; [done |]. split; [done |]. split; [done |].
        intros x HTx. apply H4. rewrite HT1el, HTx. by destruct (x =? v).
      + eapply Forall_impl; [exact Hnew2 |]. intros P (H1 & H2 & H3 & H4).
        split; [done |]. split; [done |]. split; [| done].
        intros x Hx. apply H3, Hit. by left.
    - apply ForallOrdPairs_app; [done | done |].
      intros P P' HP HP' Hsame.
      rewrite Forall_forall in Hnew1, Hnew2.
      destruct (Hnew1 P (proj2 (list_elem_of_In _ _) HP)) as (_ & _ & _ & Hout).
      destruct (Hnew2 P' (proj2 (list_elem_of_In _ _) HP')) as (_ & _ & Hin & _).
      apply (Hout v).
      + by rewrite HT1el, Z.eqb_refl.
      + apply Hsame, Hin, Hit. by right.
  Qed.
End Distinct.

(** The search of [igraph_all_st_mincuts], started with S and T empty,
    lists sets of vertices of the graph it searches, none with a vertex
    twice, and no two of them hold the same vertices.  S and T may be
    larger than the searched graph: [igraph_all_st_mincuts] sizes them for
    its input and searches the contracted residual graph. *)
Theorem all_st_mincuts_closed_sets_distinct (active : list bool) (graph : igraph_t)
    (size source target : Z) (fuel : nat)
    (S' : MarkedQueue.igraph_marked_queue_int_t) (T' : EStack.igraph_estack_t)
    (closedsets : list (list Z)) :
  graph_wf graph ->
  igraph_vcount graph <= size ->
  ProvanShier.igraph_provan_shier_list fuel graph
    (MarkedQueue.igraph_marked_queue_int_init size)
    (EStack.igraph_estack_init size) source target []
    (AllStMinCuts.igraph_i_all_st_mincuts_pivot active) = Some (Ok (S', T', closedsets)) ->
  Forall (fun P => List.NoDup P /\ forall x, In x P -> 0 <= x < igraph_vcount graph)
         closedsets /\
  ForallOrdPairs (fun P P' => ~ CutsSpec.same_set P P') closedsets.
Proof.
  intros Hwf Hsize Hrun.
  destruct (provan_shier_distinct (AllStMinCuts.igraph_i_all_st_mincuts_pivot active)
              graph source target Hwf (all_st_mincuts_pivot_contract active)) with
    (fuel := fuel) (S := MarkedQueue.igraph_marked_queue_int_init size)
    (T := EStack.igraph_estack_init size) (result_ := @nil (list Z))
    (S' := S') (T' := T') (result' := closedsets)
    as (new & Hnew & Hall & Hord).
  - intros S T code v Isv HS Hpivot Hne u Hu.
    destruct (all_st_mincuts_pivot_facts active _ _ _ _ _ _ _ _ Hwf HS Hpivot Hne)
      as (_ & _ & _ & Hall).
    destruct (Hall u Hu) as (? & _ & ?). done.
  - assert (H0 : 0 <= size) by (destruct Hwf; lia).
    destruct (queue_wf_init size H0) as [_ Hmem].
    split; [| split; [constructor | intros x []]].
    split; [| exact Hmem].
    simpl. unfold Vec.size. rewrite vinit_length. lia.
  - unfold SearchSpec.estack_wf. simpl. unfold Vec.size. rewrite vinit_length.
    destruct Hwf. lia.
  - intros x [].
  - done.
  - simpl in Hnew. subst new. split; [| done].
    eapply Forall_impl; [exact Hall |]. intros P (H1 & H2 & _). done.
Qed.

Lemma all_st_mincuts_closed_sets_distinct_witness :
  Forall (fun P => List.NoDup P /\ forall x, In x P -> 0 <= x < igraph_vcount Examples.diamond)
         [[0]; [0; 2]; [0; 1]; [0; 1; 2]] /\
  ForallOrdPairs (fun P P' => ~ CutsSpec.same_set P P') [[0]; [0; 2]; [0; 1]; [0; 1; 2]].
Proof.
  apply (all_st_mincuts_closed_sets_distinct [true; true; true; true] Examples.diamond 6 0 3 5
           (MarkedQueue.igraph_marked_queue_int_init 6) (EStack.igraph_estack_init 6)).
  - exact diamond_wf.
  - simpl. lia.
  - vm_compute. reflexivity.
Defined.

(** ** The minimal active vertices of [igraph_all_st_mincuts] *)

Section Counting.
Import Visitor MinCutsSpec.

Lemma occ_cons i a l : occ i (a :: l) = (if i =? a then 1 else 0) + occ i l.
  Proof. unfold occ. simpl. destruct (i =? a); simpl; lia. Qed.

Lemma occ_insert_sorted i x l : occ i (insert_sorted x l) = occ i (x :: l).
  Proof.
    induction l as [| y l IH]; [done |]. simpl.
    destruct (x <=? y); [done |]. rewrite occ_cons, IH, !occ_cons. lia.
  Qed.

Lemma occ_sort i l : occ i (sort l) = occ i l.
  Proof.
    induction l as [| x l IH]; [done |]. simpl.
    by rewrite occ_insert_sorted, !occ_cons, IH.
  Qed.

Lemma occ_map_filter {A} (f : A -> Z) (p : A -> bool) i (l : list A) :
    occ i (map f (List.filter p l)) =
    Z.of_nat (length (List.filter (fun e => p e && (i =? f e)) l)).
  Proof.
    unfold occ. induction l as [| a l IH]; [done |]. simpl.
    destruct (p a); simpl; [| done]. destruct (i =? f a); simpl; lia.
  Qed.

  (** Decrementing the cell of every entry of a list. *)
Lemma decrement_fold l : forall indeg i,
    0 <= i < Vec.size indeg ->
    VECTOR (fold_left (fun indeg nei => vset indeg nei (VECTOR indeg nei - 1)) l indeg) i =
    VECTOR indeg i - occ i l.
  Proof.
    induction l as [| a l IH]; intros indeg i Hi; [unfold occ; simpl; lia |].
    cbn [fold_left]. rewrite IH by (unfold Vec.size in *; by rewrite vset_length).
    rewrite occ_cons, vget_vset. rewrite (Z.eqb_sym i a).
    destruct (Z.eqb_spec a i) as [-> | Hne]; simpl; [| lia].
    destruct (Z.leb_spec 0 i), (Z.ltb_spec i (Vec.size indeg)); simpl; lia.
  Qed.

Lemma decrement_fold_length l : forall indeg,
    length (fold_left (fun indeg nei => vset indeg nei (VECTOR indeg nei - 1)) l indeg) =
    length indeg.
  Proof.
    induction l as [| a l IH]; intros indeg; [done |].
    cbn [fold_left]. by rewrite IH, vset_length.
  Qed.

Lemma filter_length_or {A} (p q : A -> bool) (l : list A) :
    (forall x, In x l -> p x = true -> q x = false) ->
    length (List.filter (fun x => p x || q x) l) =
    (length (List.filter p l) + length (List.filter q l))%nat.
  Proof.
    induction l as [| a l IH]; intros Hdisj; [done |].
    pose proof (Hdisj a (or_introl eq_refl)) as Ha.
    specialize (IH (fun x Hx => Hdisj x (or_intror Hx))).
    cbn [List.filter]. destruct (p a); cbn [orb].
    - rewrite Ha by done. cbn [length]. lia.
    - destruct (q a); cbn [length]; lia.
  Qed.
End Counting.

Section Minimal.
Import Visitor AllStMinCuts CutsSpec MinCutsSpec.
Variables (Sbar : igraph_t) (active : list bool) (invmap : list Z).
Hypothesis Hwf : graph_wf Sbar.
Hypothesis Hdir : igraph_is_directed Sbar = true.
Let n := igraph_vcount Sbar.

  (** The edges into [i] that start at a vertex of [js] that is not
      active. *)
Let discounted (i : Z) (js : list Z) : Z :=
    Z.of_nat (length (List.filter
      (fun e => (snd e =? i) && negb (ACTIVE active invmap (fst e)) && inb (fst e) js)
      (igraph_edges Sbar))).

Lemma discount_fold i js : forall indeg,
    List.NoDup js -> 0 <= i < Vec.size indeg ->
    VECTOR (fold_left (discount_step Sbar active invmap) js indeg) i =
    VECTOR indeg i - discounted i js.
  Proof.
    induction js as [| j js IH]; intros indeg Hnd Hi.
    - unfold discounted. simpl.
      rewrite (filter_ext _ (fun _ => false)) by (intros e; apply andb_false_r).
      assert (H0 : forall l : list (Z * Z), List.filter (fun _ => false) l = [])
        by (induction l; auto).
      rewrite H0. simpl. lia.
    - apply List.NoDup_cons_iff in Hnd as [Hj Hnd]. cbn [fold_left].
      rewrite IH; [| done |].
      2:{ unfold discount_step. destruct (negb _); [| done].
          unfold Vec.size in *. by rewrite decrement_fold_length. }
      assert (Hstep : VECTOR (discount_step Sbar active invmap indeg j) i =
                VECTOR indeg i -
                Z.of_nat (length (List.filter
                  (fun e => (snd e =? i) && negb (ACTIVE active invmap (fst e)) &&
                            (fst e =? j)) (igraph_edges Sbar)))).
      { unfold discount_step. destruct (ACTIVE active invmap j) eqn:Hact; cbn [negb].
        - rewrite (filter_ext _ (fun _ => false)); [| intros e].
          + assert (H0 : forall l : list (Z * Z), List.filter (fun _ => false) l = [])
              by (induction l; auto).
            rewrite H0. simpl. lia.
          + destruct (Z.eqb_spec (fst e) j) as [-> | ?]; [| apply andb_false_r].
            rewrite Hact. simpl. by rewrite andb_false_r.
        - rewrite decrement_fold by done.
          unfold igraph_neighbors. rewrite Hdir. rewrite occ_sort.
          unfold out_list. rewrite occ_map_filter. do 2 f_equal. f_equal.
          apply filter_ext. intros e.
          destruct (Z.eqb_spec (fst e) j) as [-> | ?]; simpl.
          + rewrite Hact. simpl. rewrite ?andb_true_r. apply Z.eqb_sym.
          + by rewrite andb_false_r. }
      rewrite Hstep. unfold discounted.
      rewrite (filter_ext
                 (fun e => (snd e =? i) && negb (ACTIVE active invmap (fst e)) &&
                           inb (fst e) (j :: js))
                 (fun e => ((snd e =? i) && negb (ACTIVE active invmap (fst e)) &&
                            (fst e =? j)) ||
                           ((snd e =? i) && negb (ACTIVE active invmap (fst e)) &&
                            inb (fst e) js))).
      2:{ intros e. unfold inb. simpl. destruct (snd e =? i), (negb _); simpl; done. }
      rewrite filter_length_or; [lia |].
      intros e _ He. apply andb_true_iff in He as [_ He%Z.eqb_eq].
      apply andb_false_iff. right. apply not_true_iff_false.
      intros Hin%existsb_eqb_In. congruence.
  Qed.

Lemma minimal_indegree i :
    0 <= i < n ->
    VECTOR (fold_left (discount_step Sbar active invmap) (Vec.range n) (igraph_indegree Sbar)) i =
    Z.of_nat (length (List.filter
      (fun e => (snd e =? i) && ACTIVE active invmap (fst e)) (igraph_edges Sbar))).
  Proof.
    intros Hi.
    assert (Hsz : Vec.size (igraph_indegree Sbar) = n).
    { unfold igraph_indegree, Vec.size. rewrite length_map, range_length.
      destruct Hwf. subst n. lia. }
    rewrite discount_fold; [| apply NoDup_ListNoDup, range_NoDup | lia].
    - unfold igraph_indegree. rewrite vget_map_range by done.
      unfold in_list, Vec.size. rewrite length_map. unfold discounted.
      pose proof (filter_length_split
                    (fun e : Z * Z => ACTIVE active invmap (fst e))
                    (List.filter (fun e : Z * Z => snd e =? i) (igraph_edges Sbar))) as Hsplit.
      assert (Hcomp : forall (p q : Z * Z -> bool) l,
                List.filter p (List.filter q l) = List.filter (fun e => q e && p e) l).
      { intros p q l. induction l as [| a l IH]; [done |]. simpl.
        destruct (q a); simpl; [destruct (p a); by rewrite IH | done]. }
      rewrite !Hcomp in Hsplit.
      rewrite (filter_ext_in
                 (fun e => (snd e =? i) && negb (ACTIVE active invmap (fst e)) &&
                           inb (fst e) (Vec.range n))
                 (fun e => (snd e =? i) && negb (ACTIVE active invmap (fst e)))).
      + lia.
      + intros e He. replace (inb (fst e) (Vec.range n)) with true; [apply andb_true_r |].
        symmetry. apply existsb_eqb_In, range_In.
        destruct Hwf as [_ Hall]. rewrite Forall_forall in Hall.
        apply list_elem_of_In, Hall in He. subst n. lia.
  Qed.
End Minimal.

(** [igraph_i_all_st_mincuts_minimal] on a directed graph returns, in
    increasing order, the active vertices that no edge enters from an active
    vertex (a loop at an active vertex counts). *)
Theorem all_st_mincuts_minimal_spec (Sbar : igraph_t) (active : list bool)
    (invmap : list Z) :
  graph_wf Sbar -> igraph_is_directed Sbar = true ->
  (forall i,
     In i (AllStMinCuts.igraph_i_all_st_mincuts_minimal Sbar active invmap) <->
     0 <= i < igraph_vcount Sbar /\
     AllStMinCuts.ACTIVE active invmap i = true /\
     forall j, In (j, i) (igraph_edges Sbar) -> AllStMinCuts.ACTIVE active invmap j = false) /\
  StronglySorted Z.lt (AllStMinCuts.igraph_i_all_st_mincuts_minimal Sbar active invmap).
Proof.
  intros Hwf Hdir. unfold AllStMinCuts.igraph_i_all_st_mincuts_minimal.
  split; [| apply filter_sorted, range_sorted].
  intros i. rewrite filter_In, range_In, andb_true_iff. split.
  - intros (Hi & Hact & Hz). split; [done |]. split; [done |].
    rewrite (minimal_indegree Sbar active invmap Hwf Hdir i Hi) in Hz.
    apply Z.eqb_eq in Hz. intros j Hj.
    apply not_true_iff_false. intros Hactj.
    assert (Hin : In (j, i) (List.filter
              (fun e => (snd e =? i) && AllStMinCuts.ACTIVE active invmap (fst e))
              (igraph_edges Sbar))).
    { apply filter_In. split; [done |]. simpl. by rewrite Z.eqb_refl, Hactj. }
    destruct (List.filter _ (igraph_edges Sbar)); [done | simpl in Hz; lia].
  - intros (Hi & Hact & Hnone). split; [done |]. split; [done |].
    rewrite (minimal_indegree Sbar active invmap Hwf Hdir i Hi).
    apply Z.eqb_eq.
    destruct (List.filter _ (igraph_edges Sbar)) as [| [a b] l] eqn:Hf; [done |].
    assert (Hin : In (a, b) (List.filter
              (fun e => (snd e =? i) && AllStMinCuts.ACTIVE active invmap (fst e))
              (igraph_edges Sbar))) by (rewrite Hf; by left).
    apply filter_In in Hin as [Hin [Hb%Z.eqb_eq Ha]%andb_true_iff]. simpl in Hb, Ha.
    subst b. rewrite (Hnone a Hin) in Ha. done.
Qed.

Lemma all_st_mincuts_minimal_spec_witness :
  (forall i,
     In i (AllStMinCuts.igraph_i_all_st_mincuts_minimal Examples.diamond
             [true; false; true; true] [0; 1; 2; 3]) <->
     0 <= i < igraph_vcount Examples.diamond /\
     AllStMinCuts.ACTIVE [true; false; true; true] [0; 1; 2; 3] i = true /\
     forall j, In (j, i) (igraph_edges Examples.diamond) ->
               AllStMinCuts.ACTIVE [true; false; true; true] [0; 1; 2; 3] j = false) /\
  StronglySorted Z.lt
    (AllStMinCuts.igraph_i_all_st_mincuts_minimal Examples.diamond
       [true; false; true; true] [0; 1; 2; 3]).
Proof.
  apply (all_st_mincuts_minimal_spec Examples.diamond [true; false; true; true] [0; 1; 2; 3]).
  - exact diamond_wf.
  - reflexivity.
Defined.

(** ** From closed sets of components to partitions of the graph *)

Section Revmap.
Import AllStMinCuts DominatorSpec MinCutsSpec.
Variables (NtoL : list Z) (n k : Z).
Hypothesis Hn : 0 <= n.
Hypothesis Hk : 0 <= k.
Hypothesis HNtoL : forall i, 0 <= i < n -> 0 <= VECTOR NtoL i < k.

Lemma component_members_succ (j : nat) c :
    component_members NtoL (Z.of_nat (S j)) c =
    if VECTOR NtoL (Z.of_nat j) =? c
    then Z.of_nat j :: component_members NtoL (Z.of_nat j) c
    else component_members NtoL (Z.of_nat j) c.
  Proof.
    unfold component_members. rewrite range_succ, List.filter_app, rev_app_distr. simpl.
    by destruct (VECTOR NtoL (Z.of_nat j) =? c).
  Qed.

Lemma component_members_In c x :
    In x (component_members NtoL n c) <-> 0 <= x < n /\ VECTOR NtoL x = c.
  Proof.
    unfold component_members. rewrite <- in_rev, filter_In, range_In, Z.eqb_eq. done.
  Qed.

Lemma revmap_fold (j : nat) :
    (j <= Z.to_nat n)%nat ->
    exists ptr next,
      fold_left (revmap_step NtoL) (Vec.range (Z.of_nat j)) (Vec.init 0 k, Vec.init 0 n) =
        (ptr, next) /\
      length ptr = Z.to_nat k /\ length next = Z.to_nat n /\
      forall c, bucket_chain next (VECTOR ptr c) (component_members NtoL (Z.of_nat j) c).
  Proof.
    induction j as [| j IH]; intros Hj.
    - exists (Vec.init 0 k), (Vec.init 0 n). split; [done |].
      split; [apply vinit_length |]. split; [apply vinit_length |].
      intros c. simpl. unfold Vec.init, Vec.get. destruct (c <? 0); [done |].
      destruct (Nat.lt_ge_cases (Z.to_nat c) (Z.to_nat k)).
      + by rewrite nth_lookup, lookup_replicate_2.
      + apply nth_overflow. by rewrite length_replicate.
    - destruct IH as (ptr & next & Hfold & Hlp & Hln & Hrep); [lia |].
      rewrite range_succ, fold_left_app, Hfold. cbn [fold_left revmap_step].
      set (i := Z.of_nat j). set (id := VECTOR NtoL i).
      assert (Hid : 0 <= id < k) by (apply HNtoL; lia).
      eexists _, _. split; [done |].
      split; [by rewrite vset_length |]. split; [by rewrite vset_length |].
      assert (Hfresh : forall c, ~ In i (component_members NtoL i c)).
      { intros c Hin. unfold component_members in Hin.
        apply in_rev, filter_In in Hin as [Hin%range_In _]. lia. }
      intros c. rewrite component_members_succ. fold i id.
      destruct (Z.eqb_spec id c) as [Heq | Hne].
      + rewrite <- Heq. rewrite vget_vset_eq by (unfold Vec.size; lia). simpl. split; [done |].
        rewrite vget_vset_eq by (unfold Vec.size; lia).
        by apply bucket_chain_frame.
      + rewrite vget_vset_ne by done. by apply bucket_chain_frame.
  Qed.

Lemma expand_vertex_chain next l : forall fuel h cut,
    bucket_chain next h l -> (forall e, In e l -> 0 <= e) -> (length l <= fuel)%nat ->
    expand_vertex fuel next h cut = cut ++ l.
  Proof.
    induction l as [| e l IH]; intros fuel h cut Hc Hpos Hfuel.
    - simpl in Hc. subst h. rewrite app_nil_r. by destruct fuel.
    - destruct Hc as [-> Hc]. destruct fuel as [| fuel]; [simpl in Hfuel; lia |].
      cbn [expand_vertex]. pose proof (Hpos e (or_introl eq_refl)).
      destruct (Z.eqb_spec (e + 1) 0); [lia |].
      replace (e + 1 - 1) with e by lia.
      rewrite IH; [by rewrite <- app_assoc | done | | simpl in Hfuel; lia].
      intros x Hx. apply Hpos. by right.
  Qed.

Lemma expand_fold supercut ptr next :
    (forall c, bucket_chain next (VECTOR ptr c) (component_members NtoL n c)) ->
    forall cut,
      fold_left (expand_step n ptr next) supercut cut =
      cut ++ flat_map (component_members NtoL n) supercut.
  Proof.
    intros Hrep. induction supercut as [| c supercut IH]; intros cut.
    - simpl. by rewrite app_nil_r.
    - cbn [fold_left flat_map]. unfold expand_step at 2.
      rewrite (expand_vertex_chain next (component_members NtoL n c)).
      + by rewrite IH, app_assoc.
      + apply Hrep.
      + intros e He%component_members_In. lia.
      + unfold component_members. rewrite length_rev.
        etrans; [apply List.filter_length_le |]. by rewrite range_length.
  Qed.
End Revmap.

(** The inverse of the component map is kept as linked lists.  When every
    vertex has a component id in [0, k), expanding a closed set of
    components lists, component by component, the vertices of the
    component, the largest id first: a vertex is listed iff its component
    is in the set. *)
Theorem all_st_mincuts_expand (NtoL : list Z) (n k : Z) (supercut : list Z) :
  0 <= n -> 0 <= k ->
  (forall i, 0 <= i < n -> 0 <= VECTOR NtoL i < k) ->
  let st := fold_left (AllStMinCuts.revmap_step NtoL) (Vec.range n)
                      (Vec.init 0 k, Vec.init 0 n) in
  fold_left (AllStMinCuts.expand_step n (fst st) (snd st)) supercut [] =
    flat_map (MinCutsSpec.component_members NtoL n) supercut /\
  forall x,
    In x (fold_left (AllStMinCuts.expand_step n (fst st) (snd st)) supercut []) <->
    0 <= x < n /\ In (VECTOR NtoL x) supercut.
Proof.
  intros Hn Hk HNtoL st.
  destruct (revmap_fold NtoL n k Hn HNtoL (Z.to_nat n) ltac:(lia))
    as (ptr & next & Hfold & _ & _ & Hrep).
  rewrite Z2Nat.id in Hfold, Hrep by done.
  subst st. rewrite Hfold. cbn [fst snd].
  rewrite (expand_fold NtoL n supercut ptr next Hrep []). cbn [app].
  split; [done |]. intros x. rewrite in_flat_map. split.
  - intros (c & Hc & Hx%component_members_In). destruct Hx as [Hx <-]. done.
  - intros [Hx Hc]. exists (VECTOR NtoL x). split; [done |].
    by apply component_members_In.
Qed.

Lemma all_st_mincuts_expand_witness :
  let st := fold_left (AllStMinCuts.revmap_step [0; 1; 0]) (Vec.range 3)
                      (Vec.init 0 2, Vec.init 0 3) in
  fold_left (AllStMinCuts.expand_step 3 (fst st) (snd st)) [0] [] =
    flat_map (MinCutsSpec.component_members [0; 1; 0] 3) [0] /\
  forall x,
    In x (fold_left (AllStMinCuts.expand_step 3 (fst st) (snd st)) [0] []) <->
    0 <= x < 3 /\ In (VECTOR [0; 1; 0] x) [0].
Proof.
  apply (all_st_mincuts_expand [0; 1; 0] 3 2 [0]).
  - lia.
  - lia.
  - intros i Hi.
    assert (Hcases : i = 0 \/ i = 1 \/ i = 2) by lia.
    destruct Hcases as [-> | [-> | ->]];
      (split; [vm_compute; discriminate | vm_compute; reflexivity]).
Defined.

(** ** The cuts of [igraph_all_st_mincuts] *)

Section MinCutEdges.
Import AllStMinCuts CutsSpec MinCutsSpec.
Variables (graph : igraph_t) (flow : list Q).
Let n := igraph_vcount graph.

Lemma mincut_step_spec partition1s memb cuts (k : nat) part :
    nth_error partition1s k = Some part ->
    (forall x, In x part -> 0 <= x < n) ->
    length memb = Z.to_nat n ->
    (forall x, VECTOR memb x <= Z.of_nat k) ->
    exists memb',
      mincut_step graph flow partition1s (memb, cuts) (Z.of_nat k) =
        (memb', cuts ++ [flow_crossing_edges graph flow part]) /\
      length memb' = Z.to_nat n /\
      (forall x, VECTOR memb' x <= Z.of_nat (S k)).
  Proof.
    intros Hpart Hr Hlen Hle. unfold mincut_step.
    rewrite vget_of_nat, (nth_error_nth _ _ _ Hpart).
    set (memb' := fold_left (fun memb vtx => vset memb vtx (Z.of_nat k + 1)) part memb).
    assert (Hlen' : length memb' = Z.to_nat n).
    { subst memb'. by rewrite fold_vset_length. }
    assert (Hget : forall x, VECTOR memb' x =
                     if inb x part then Z.of_nat k + 1 else VECTOR memb x).
    { intros x. destruct (decide (0 <= x < n)) as [Hx | Hx].
      - subst memb'. rewrite fold_vset_get_any; [done |]. unfold Vec.size. lia.
      - assert (Hnot : inb x part = false).
        { apply not_true_iff_false. intros Hin%existsb_eqb_In. by apply Hr in Hin. }
        rewrite Hnot. destruct (Z.ltb_spec x 0); [by rewrite !vget_neg |].
        rewrite !vget_out; [done | |]; unfold Vec.size; lia. }
    assert (Hmark : forall x, (VECTOR memb' x =? Z.of_nat k + 1) = inb x part).
    { intros x. rewrite Hget. destruct (inb x part); [apply Z.eqb_refl |].
      apply Z.eqb_neq. specialize (Hle x). lia. }
    exists memb'. split; [| split; [done |]].
    - f_equal. f_equal. f_equal. unfold flow_crossing_edges.
      apply filter_ext. intros j. by rewrite !Hmark.
    - intros x. rewrite Hget. destruct (inb x part); [lia |]. specialize (Hle x). lia.
  Qed.

Lemma mincut_steps_spec partition1s :
    (forall part, In part partition1s -> forall x, In x part -> 0 <= x < n) ->
    forall k, (k <= length partition1s)%nat ->
    exists memb,
      fold_left (mincut_step graph flow partition1s) (Vec.range (Z.of_nat k))
                (Vec.init 0 n, []) =
        (memb, map (flow_crossing_edges graph flow) (take k partition1s)) /\
      length memb = Z.to_nat n /\
      (forall x, VECTOR memb x <= Z.of_nat k).
  Proof.
    intros Hr. induction k as [| k IH]; intros Hk.
    - exists (Vec.init 0 n). split; [done |]. split; [apply vinit_length |].
      intros x. unfold Vec.init, Vec.get. destruct (x <? 0); [done |].
      destruct (nth_in_or_default (Z.to_nat x) (replicate (Z.to_nat n) 0) 0) as [Hin | ->];
        [| done].
      apply list_elem_of_In, elem_of_replicate in Hin as [-> _]. done.
    - destruct IH as (memb & Hfold & Hlen & Hle); [lia |].
      destruct (lookup_lt_is_Some_2 partition1s k) as [part Hpart]; [lia |].
      rewrite range_succ, fold_left_app, Hfold. cbn [fold_left].
      destruct (mincut_step_spec partition1s memb
                  (map (flow_crossing_edges graph flow) (take k partition1s)) k part)
        as (memb' & -> & Hlen' & Hle'); try done.
      { by rewrite nth_error_lookup_eq. }
      { intros x Hx. apply (Hr part); [| done].
        apply list_elem_of_In, list_elem_of_lookup. by exists k. }
      exists memb'. split; [| done].
      by rewrite (take_S_r _ _ _ Hpart), map_app.
  Qed.
End MinCutEdges.

Section ExpandRange.
Import AllStMinCuts.
Variables (NtoL : list Z) (n : Z).

Let cell (x : Z) : Prop := 0 <= x <= n.

Lemma vget_cell v i : Forall cell v -> 0 <= n -> cell (VECTOR v i).
  Proof.
    intros Hv Hn. unfold Vec.get. destruct (i <? 0); [unfold cell; lia |].
    destruct (nth_in_or_default (Z.to_nat i) v 0) as [Hin | ->]; [| unfold cell; lia].
    rewrite Forall_forall in Hv. by apply Hv, list_elem_of_In.
  Qed.

Lemma revmap_cells l : forall ptr next,
    0 <= n -> Forall cell ptr -> Forall cell next -> (forall i, In i l -> 0 <= i < n) ->
    Forall cell (fst (fold_left (revmap_step NtoL) l (ptr, next))) /\
    Forall cell (snd (fold_left (revmap_step NtoL) l (ptr, next))).
  Proof.
    induction l as [| i l IH]; intros ptr next Hn Hp Hx Hl; [done |].
    cbn [fold_left revmap_step]. apply IH; [done | | |].
    - apply Forall_vset; [done |]. specialize (Hl i (or_introl eq_refl)). unfold cell. lia.
    - apply Forall_vset; [done |]. by apply vget_cell.
    - intros j Hj. apply Hl. by right.
  Qed.

Lemma expand_vertex_range next : forall fuel h cut,
    0 <= n -> Forall cell next -> cell h ->
    (forall x, In x cut -> 0 <= x < n) ->
    forall x, In x (expand_vertex fuel next h cut) -> 0 <= x < n.
  Proof.
    induction fuel as [| fuel IH]; intros h cut Hn Hx Hh Hcut; [done |].
    cbn [expand_vertex]. destruct (Z.eqb_spec h 0); [done |].
    apply IH; [done | done | by apply vget_cell |].
    intros x [Hin | [<- | []]]%in_app_iff; [by apply Hcut |]. unfold cell in Hh. lia.
  Qed.

Lemma expand_fold_range ptr next supercut : forall cut,
    0 <= n -> Forall cell ptr -> Forall cell next ->
    (forall x, In x cut -> 0 <= x < n) ->
    forall x, In x (fold_left (expand_step n ptr next) supercut cut) -> 0 <= x < n.
  Proof.
    induction supercut as [| c supercut IH]; intros cut Hn Hp Hx Hcut; [done |].
    cbn [fold_left]. apply IH; [done | done | done |].
    unfold expand_step. apply expand_vertex_range; [done | done | by apply vget_cell | done].
  Qed.
End ExpandRange.

(** A successful [igraph_all_st_mincuts] returns the flow value of
    [igraph_maxflow]; its partitions hold vertices of the graph; and, when
    the cuts are asked for, the cut of each partition lists by increasing id
    the edges that carry flow and go from the partition to its complement. *)
Theorem all_st_mincuts_cuts_of_partitions (igraph_maxflow : AllStMinCuts.maxflow_t)
    (igraph_connected_components : AllStMinCuts.components_t) (fuel : nat)
    (graph : igraph_t) (want_cuts : bool) (source target : Z) (capacity : option (list Q))
    (value : Q) (cuts : option (list (list Z))) (partition1s : list (list Z)) :
  AllStMinCuts.igraph_all_st_mincuts igraph_maxflow igraph_connected_components fuel graph
    want_cuts source target capacity = Some (Ok (value, cuts, partition1s)) ->
  exists flow,
    igraph_maxflow graph source target capacity = Ok (value, flow) /\
    Forall (fun P => forall x, In x P -> 0 <= x < igraph_vcount graph) partition1s /\
    cuts = if want_cuts
           then Some (map (MinCutsSpec.flow_crossing_edges graph flow) partition1s)
           else None.
Proof.
  unfold AllStMinCuts.igraph_all_st_mincuts.
  destruct (negb (igraph_is_directed graph)); [done |].
  destruct (Z.ltb_spec source 0); [done |].
  destruct (Z.geb_spec source (igraph_vcount graph)); [done |]. cbn [orb].
  destruct ((target <? 0) || (target >=? igraph_vcount graph)); [done |].
  destruct (source =? target); [done |].
  destruct (match capacity with Some _ => _ | None => _ end); [done |].
  destruct (igraph_maxflow graph source target capacity) as [[value' flow] |]; [| done].
  destruct (Residual.igraph_reverse_residual_graph graph capacity flow) as [residual |];
    [| done].
  destruct (igraph_connected_components residual) as [[NtoL proj_nodes] |]; [| done].
  destruct (AllStMinCuts.igraph_contract_vertices residual NtoL) as [residual' |]; [| done].
  destruct (ProvanShier.igraph_provan_shier_list _ _ _ _ _ _ _ _)
    as [[[[S1 T1] closedsets] |] |]; [| done | done].
  assert (Hn : 0 <= igraph_vcount graph) by lia.
  pose proof (revmap_cells NtoL (igraph_vcount graph) (Vec.range (igraph_vcount graph))
                (Vec.init 0 (igraph_vcount (AllStMinCuts.igraph_simplify residual')))
                (Vec.init 0 (igraph_vcount graph)) Hn) as Hcells.
  destruct (fold_left (AllStMinCuts.revmap_step NtoL) _ _) as [revmap_ptr revmap_next].
  cbn [fst snd] in Hcells.
  destruct Hcells as [Hptr Hnext].
  { apply Forall_forall. intros x [-> _]%elem_of_replicate. lia. }
  { apply Forall_forall. intros x [-> _]%elem_of_replicate. lia. }
  { intros i. apply range_In. }
  set (parts := map _ closedsets).
  assert (Hparts : forall part, In part parts ->
            forall x, In x part -> 0 <= x < igraph_vcount graph).
  { intros part (supercut & <- & _)%in_map_iff x Hx.
    by apply (expand_fold_range (igraph_vcount graph) revmap_ptr revmap_next supercut []
                Hn Hptr Hnext). }
  assert (Hsize : Vec.size closedsets = Z.of_nat (length parts)).
  { subst parts. unfold Vec.size. by rewrite length_map. }
  destruct want_cuts.
  - destruct (mincut_steps_spec graph flow parts Hparts (length parts) ltac:(lia))
      as (memb & Hfold & _).
    rewrite Hsize, Hfold. rewrite firstn_all.
    intros [= <- <- <-]. exists flow. split; [done |]. split; [| done].
    apply Forall_forall. intros P HP%list_elem_of_In. by apply Hparts.
  - intros [= <- <- <-]. exists flow. split; [done |]. split; [| done].
    apply Forall_forall. intros P HP%list_elem_of_In. by apply Hparts.
Qed.

Lemma all_st_mincuts_cuts_of_partitions_witness :
  exists flow,
    Examples.maxflow_oracle 2 [1%Q; 1%Q; 1%Q; 1%Q] Examples.diamond 0 3 None =
      Ok (2%Q, flow) /\
    Forall (fun P => forall x, In x P -> 0 <= x < igraph_vcount Examples.diamond)
           [[0]; [0; 2]; [0; 1]; [0; 1; 2]] /\
    Some [[0; 1]; [0; 3]; [1; 2]; [2; 3]] =
      if true
      then Some (map (MinCutsSpec.flow_crossing_edges Examples.diamond flow)
                     [[0]; [0; 2]; [0; 1]; [0; 1; 2]])
      else None.
Proof.
  apply (all_st_mincuts_cuts_of_partitions
           (Examples.maxflow_oracle 2 [1%Q; 1%Q; 1%Q; 1%Q])
           (Examples.components_oracle [0; 1; 2; 3] 4) 5 Examples.diamond true 0 3 None
           2%Q (Some [[0; 1]; [0; 3]; [1; 2]; [2; 3]]) [[0]; [0; 2]; [0; 1]; [0; 1; 2]]).
  vm_compute. reflexivity.
Defined.

(** The argument checks of [igraph_all_st_mincuts] come before the maximum
    flow is computed: an undirected graph is refused as not implemented;
    on a directed graph a source or a target that is not a vertex, a source
    equal to the target, and a capacity vector whose least entry is not
    positive are refused as invalid arguments. *)
Theorem all_st_mincuts_refuses (igraph_maxflow : AllStMinCuts.maxflow_t)
    (igraph_connected_components : AllStMinCuts.components_t) (fuel : nat)
    (graph : igraph_t) (want_cuts : bool) (source target : Z) (capacity : option (list Q)) :
  igraph_is_directed graph = false \/
  ~ (0 <= source < igraph_vcount graph) \/ ~ (0 <= target < igraph_vcount graph) \/
  source = target \/
  (exists c m, capacity = Some c /\ AllStMinCuts.igraph_vector_min c = Some m /\ (m <= 0)%Q) ->
  AllStMinCuts.igraph_all_st_mincuts igraph_maxflow igraph_connected_components fuel graph
    want_cuts source target capacity =
  Some (IGRAPH_ERROR (if igraph_is_directed graph then IGRAPH_EINVAL
                      else IGRAPH_UNIMPLEMENTED)).
Proof.
  intros Hbad. unfold AllStMinCuts.igraph_all_st_mincuts.
  destruct (igraph_is_directed graph); [| done]. cbn [negb].
  destruct Hbad as [? | Hbad]; [done |].
  destruct (Z.ltb_spec source 0); [done |].
  destruct (Z.geb_spec source (igraph_vcount graph)); [done |]. cbn [orb].
  destruct (Z.ltb_spec target 0); [done |].
  destruct (Z.geb_spec target (igraph_vcount graph)); [done |]. cbn [orb].
  destruct (Z.eqb_spec source target); [done |].
  destruct Hbad as [? | [? | [? | (c & m & -> & -> & Hm)]]]; try lia.
  apply Qle_bool_iff in Hm. by rewrite Hm.
Qed.

Lemma all_st_mincuts_refuses_witness :
  AllStMinCuts.igraph_all_st_mincuts (Examples.maxflow_oracle 1 [1%Q])
    (Examples.components_oracle [0; 1] 2) 3 Examples.one_edge true 0 1 (Some [0%Q]) =
  Some (IGRAPH_ERROR (if igraph_is_directed Examples.one_edge then IGRAPH_EINVAL
                      else IGRAPH_UNIMPLEMENTED)).
Proof.
  apply (all_st_mincuts_refuses (Examples.maxflow_oracle 1 [1%Q])
           (Examples.components_oracle [0; 1] 2) 3 Examples.one_edge true 0 1 (Some [0%Q])).
  right. right. right. right. exists [0%Q], 0%Q.
  split; [reflexivity |]. split; [reflexivity |]. apply Qle_refl.
Defined.

(** The active vertices of the projection: component [c] is marked iff an
    edge that carries flow starts or ends in it. *)
Theorem all_st_mincuts_active (graph : igraph_t) (flow : list Q) (NtoL : list Z)
    (proj_nodes c : Z) :
  0 <= c < proj_nodes ->
  (VECTORB (fold_left (AllStMinCuts.active_step graph flow NtoL)
                      (Vec.range (igraph_ecount graph)) (Vec.init false proj_nodes)) c = true <->
   exists j, 0 <= j < igraph_ecount graph /\ (0 < Vec.get 0%Q flow j)%Q /\
     (VECTOR NtoL (IGRAPH_FROM graph j) = c \/ VECTOR NtoL (IGRAPH_TO graph j) = c)).
Proof.
  intros Hc.
  assert (Hgen : forall l VE1,
    length VE1 = Z.to_nat proj_nodes ->
    (VECTORB (fold_left (AllStMinCuts.active_step graph flow NtoL) l VE1) c = true <->
     VECTORB VE1 c = true \/
     exists j, In j l /\ (0 < Vec.get 0%Q flow j)%Q /\
       (VECTOR NtoL (IGRAPH_FROM graph j) = c \/ VECTOR NtoL (IGRAPH_TO graph j) = c))).
  { induction l as [| j l IH]; intros VE1 Hlen.
    - simpl. split; [by left | intros [? | (j & [] & _)]; done].
    - cbn [fold_left]. rewrite IH.
      2:{ unfold AllStMinCuts.active_step. destruct (Qltb 0 _); [| done].
          by rewrite !vset_length. }
      unfold AllStMinCuts.active_step.
      destruct (Qltb 0 (Vec.get 0%Q flow j)) eqn:Hq.
      + apply Qltb_lt in Hq. rewrite !vget_vset.
        unfold Vec.size. rewrite vset_length.
        destruct (Z.leb_spec 0 c); [| lia].
        destruct (Z.ltb_spec c (Z.of_nat (length VE1))); [| lia].
        rewrite !andb_true_r.
        destruct (Z.eqb_spec (VECTOR NtoL (IGRAPH_TO graph j)) c) as [Hto | Hto].
        * split; [| by left]. intros _. right. exists j. split; [by left |]. split; [done |].
          by right.
        * destruct (Z.eqb_spec (VECTOR NtoL (IGRAPH_FROM graph j)) c) as [Hfrom | Hfrom].
          -- split; [| by left]. intros _. right. exists j. split; [by left |].
             split; [done |]. by left.
          -- split.
             ++ intros [? | (j' & Hj' & Hrest)]; [by left |]. right. exists j'.
                split; [by right | done].
             ++ intros [? | (j' & [<- | Hj'] & Hf & Hor)]; [by left | | ].
                ** destruct Hor; congruence.
                ** right. by exists j'.
      + apply Qltb_ge in Hq. split.
        * intros [? | (j' & Hj' & Hrest)]; [by left |]. right. exists j'.
          split; [by right | done].
        * intros [? | (j' & [<- | Hj'] & Hf & Hor)]; [by left | | ].
          -- exfalso. apply (Qlt_not_le _ _ Hf Hq).
          -- right. by exists j'. }
  rewrite Hgen by apply vinit_length.
  rewrite vget_init by done. split.
  - intros [? | (j & Hj%range_In & Hrest)]; [done |]. by exists j.
  - intros (j & Hj & Hrest). right. exists j. split; [by apply range_In | done].
Qed.

Lemma all_st_mincuts_active_witness :
  VECTORB (fold_left (AllStMinCuts.active_step Examples.one_edge [1%Q] [0; 1])
                     (Vec.range (igraph_ecount Examples.one_edge)) (Vec.init false 2)) 0 = true <->
  exists j, 0 <= j < igraph_ecount Examples.one_edge /\ (0 < Vec.get 0%Q [1%Q] j)%Q /\
    (VECTOR [0; 1] (IGRAPH_FROM Examples.one_edge j) = 0 \/
     VECTOR [0; 1] (IGRAPH_TO Examples.one_edge j) = 0).
Proof.
  apply (all_st_mincuts_active Examples.one_edge [1%Q] [0; 1] 2 0). lia.
Defined.

(** ** Dominance and the dominator tree *)

Section DominanceOrder.
Import DominatorSpec.
Variables (graph : igraph_t) (mode : igraph_neimode_t) (root : Z).

Lemma dominates_self w : dominates graph mode root w w.
  Proof. intros l Hp. by apply (path_last graph mode). Qed.

Lemma dominates_trans d u w :
    dominates graph mode root d u -> dominates graph mode root u w ->
    dominates graph mode root d w.
  Proof.
    intros Hdu Huw l Hp. destruct (Huw l Hp) as [<- | Hin].
    - destruct (Hdu [] (path_nil graph mode root)) as [<- | []]. by left.
    - apply in_split in Hin as (l1 & l2 & ->).
      apply path_split in Hp as [Hp1 _].
      destruct (Hdu _ Hp1) as [<- | Hd]; [by left |]. right.
      apply in_app_iff in Hd as [Hd | [<- | []]]; apply in_app_iff; [by left |].
      right. by left.
  Qed.

Lemma dominates_root d : dominates graph mode root d root -> d = root.
  Proof. intros Hd. by destruct (Hd [] (path_nil graph mode root)) as [<- | []]. Qed.
End DominanceOrder.

(** The [dom] vector is the dominator tree: for a vertex [w] that can be
    reached from the root, [d] dominates [w] (every path from the root to
    [w] passes through [d]) iff [d] is [w] or comes up when [dom] is
    followed from [w] towards the root. *)
Theorem dominator_tree_ancestors (graph : igraph_t) (root : Z) (mode : igraph_neimode_t)
    (d0 : list Z) (dt : option (option igraph_t)) (lo : option (list Z)) :
  graph_wf graph -> igraph_is_directed graph = true ->
  0 <= root < igraph_vcount graph ->
  mode = IGRAPH_OUT \/ mode = IGRAPH_IN ->
  exists dom',
    Dominator.dom (snd (Dominator.igraph_dominator_tree graph root
                          (Dominator.mk_out (Some d0) dt lo) mode)) = Some dom' /\
    forall d w, DominatorSpec.reachable graph mode root w ->
      (DominatorSpec.dominates graph mode root d w <-> DominatorSpec.anc dom' d w).
Proof.
  intros Hwf Hdir Hroot Hmode.
  destruct (dominator_tree_run graph root (Dominator.mk_out (Some d0) dt lo) mode
              Hwf Hdir Hroot)
    as (ord & parents & md & Htree & _ & Hdom & _ & Hr & Hidom & _);
    [by destruct Hmode as [-> | ->] |].
  exists md. split; [exact Hdom |].
  assert (Hvis : forall v, In v ord -> v <> root -> In (VECTOR md v) ord).
  { intros v Hv Hvr. destruct (Hidom v Hv Hvr) as (_ & Hd & _).
    apply (anc_ord graph mode root ord parents Hdir Htree _ v); [| done].
    by apply (dom_anc graph mode root ord parents Hdir Htree). }
  intros d w Hw%(visited_reachable graph mode root ord parents Hdir Htree). split.
  - remember (DominatorSpec.rank ord w) as k eqn:Hk. revert w Hk Hw.
    induction k as [k IH] using lt_wf_ind. intros w Hk Hw Hd.
    destruct (decide (d = w)) as [-> | Hne]; [constructor |].
    assert (Hwr : w <> root).
    { intros ->. apply Hne. by apply (dominates_root graph mode root). }
    destruct (Hidom w Hw Hwr) as (Hmw & Hdomw & Hleast).
    pose proof (Hvis w Hw Hwr) as Hin.
    apply DominatorSpec.anc_step.
    + apply (DominatorSpec.st_range _ _ _ _ _ Htree) in Hin. lia.
    + apply (IH (DominatorSpec.rank ord (VECTOR md w))); [| done | done | by apply Hleast].
      subst k. apply (anc_proper graph mode root ord parents Hdir Htree); [| done | done].
      by apply (dom_anc graph mode root ord parents Hdir Htree).
  - intros Hanc. revert Hw. induction Hanc as [w | d w Hpos Hanc IH]; intros Hw.
    + apply dominates_self.
    + assert (Hwr : w <> root) by (intros ->; rewrite Hr in Hpos; lia).
      destruct (Hidom w Hw Hwr) as (_ & Hdomw & _).
      apply (dominates_trans graph mode root d (VECTOR md w) w); [| done].
      apply IH. by apply Hvis.
Qed.

Lemma dominator_tree_ancestors_witness :
  exists dom',
    Dominator.dom (snd (Dominator.igraph_dominator_tree Examples.diamond 0
                          (Dominator.mk_out (Some []) None None) IGRAPH_OUT)) = Some dom' /\
    forall d w, DominatorSpec.reachable Examples.diamond IGRAPH_OUT 0 w ->
      (DominatorSpec.dominates Examples.diamond IGRAPH_OUT 0 d w <->
       DominatorSpec.anc dom' d w).
Proof.
  apply (dominator_tree_ancestors Examples.diamond 0 IGRAPH_OUT [] None None).
  - exact diamond_wf.
  - reflexivity.
  - simpl. lia.
  - left. reflexivity.
Defined.

(** ** Gamma(S) *)

Section GammaS.
Import Visitor MarkedQueue AllStCuts.
Variables (graph : igraph_t) (S : igraph_marked_queue_int_t).

Lemma GammaS_inner l x : forall G,
    0 <= x < Vec.size G ->
    VECTORB (fold_left (fun G nei => if negb (igraph_marked_queue_int_iselement S nei)
                                     then vset G nei true else G) l G) x =
    VECTORB G x || (negb (igraph_marked_queue_int_iselement S x) && existsb (Z.eqb x) l).
  Proof.
    induction l as [| a l IH]; intros G Hx.
    - simpl. by rewrite andb_false_r, orb_false_r.
    - cbn [fold_left existsb]. rewrite IH.
      2:{ destruct (negb (igraph_marked_queue_int_iselement S a)); [| exact Hx].
          unfold Vec.size in *. by rewrite vset_length. }
      destruct (Z.eqb_spec x a) as [<- | Hne].
      + destruct (igraph_marked_queue_int_iselement S x) eqn:HS; cbn [negb andb orb].
        * by rewrite orb_false_r.
        * rewrite vget_vset_eq by done. by rewrite orb_true_r.
      + cbn [orb]. destruct (negb (igraph_marked_queue_int_iselement S a)); [| done].
        by rewrite vget_vset_ne by done.
  Qed.

Lemma GammaS_fold l x : forall G,
    0 <= x < Vec.size G ->
    (VECTORB (fold_left (GammaS_step graph S) l G) x = true <->
     VECTORB G x = true \/
     (igraph_marked_queue_int_iselement S x = false /\
      exists i, In i l /\ igraph_marked_queue_int_iselement S i = true /\
                In x (igraph_neighbors graph i IGRAPH_OUT))).
  Proof.
    induction l as [| i l IH]; intros G Hx.
    - simpl. split; [by left | intros [? | (_ & i & [] & _)]; done].
    - cbn [fold_left]. rewrite IH.
      2:{ unfold GammaS_step. destruct (igraph_marked_queue_int_iselement S i); [| done].
          clear -Hx. revert G Hx.
          induction (igraph_neighbors graph i IGRAPH_OUT) as [| a l' IHl]; intros G Hx; [done |].
          cbn [fold_left]. apply IHl.
          destruct (negb (igraph_marked_queue_int_iselement S a)); [| exact Hx].
          unfold Vec.size in *. by rewrite vset_length. }
      unfold GammaS_step at 1.
      destruct (igraph_marked_queue_int_iselement S i) eqn:HSi.
      + rewrite GammaS_inner by done. rewrite orb_true_iff, andb_true_iff, negb_true_iff.
        rewrite existsb_eqb_In. split.
        * intros [[? | [? ?]] | (? & j & ? & ? & ?)]; [by left | |].
          -- right. split; [done |]. exists i. split; [by left | done].
          -- right. split; [done |]. exists j. split; [by right | done].
        * intros [? | (HSx & j & [<- | Hj] & HSj & Hn)]; [left; by left | |].
          -- left. right. done.
          -- right. split; [done |]. by exists j.
      + split.
        * intros [? | (? & j & ? & ? & ?)]; [by left |].
          right. split; [done |]. exists j. split; [by right | done].
        * intros [? | (HSx & j & [<- | Hj] & HSj & Hn)]; [by left | congruence |].
          right. split; [done |]. by exists j.
  Qed.
End GammaS.

(** The set Gamma(S) that the pivot of [igraph_all_st_cuts] computes for a
    non-empty S on a directed graph: the vertices outside S that an edge
    reaches from a vertex of S. *)
Theorem all_st_cuts_GammaS (graph : igraph_t) (S : MarkedQueue.igraph_marked_queue_int_t)
    (x : Z) :
  igraph_is_directed graph = true ->
  0 <= x < igraph_vcount graph ->
  (VECTORB (fold_left (AllStCuts.GammaS_step graph S) (Vec.range (igraph_vcount graph))
                      (Vec.init false (igraph_vcount graph))) x = true <->
   MarkedQueue.igraph_marked_queue_int_iselement S x = false /\
   exists i, 0 <= i < igraph_vcount graph /\
     MarkedQueue.igraph_marked_queue_int_iselement S i = true /\
     In (i, x) (igraph_edges graph)).
Proof.
  intros Hdir Hx. rewrite GammaS_fold by (unfold Vec.size; rewrite vinit_length; lia).
  rewrite vget_init by done. split.
  - intros [? | (HSx & i & Hi%range_In & HSi & Hn)]; [done |].
    split; [done |]. exists i. split; [done |]. split; [done |].
    by apply neighbors_directed_out.
  - intros (HSx & i & Hi & HSi & He). right. split; [done |]. exists i.
    split; [by apply range_In |]. split; [done |]. by apply neighbors_directed_out.
Qed.

Lemma all_st_cuts_GammaS_witness :
  VECTORB (fold_left (AllStCuts.GammaS_step Examples.diamond
                        (MarkedQueue.mk_queue [0] [true; false; false; false] []))
                     (Vec.range (igraph_vcount Examples.diamond))
                     (Vec.init false (igraph_vcount Examples.diamond))) 1 = true <->
  MarkedQueue.igraph_marked_queue_int_iselement
    (MarkedQueue.mk_queue [0] [true; false; false; false] []) 1 = false /\
  exists i, 0 <= i < igraph_vcount Examples.diamond /\
    MarkedQueue.igraph_marked_queue_int_iselement
      (MarkedQueue.mk_queue [0] [true; false; false; false] []) i = true /\
    In (i, 1) (igraph_edges Examples.diamond).
Proof.
  apply (all_st_cuts_GammaS Examples.diamond
           (MarkedQueue.mk_queue [0] [true; false; false; false] []) 1).
  - reflexivity.
  - simpl. lia.
Defined.

(** ** Walks inside a set of vertices *)

Section ReachFacts.
Import MinimalCutSpec.
Variable graph : igraph_t.

Lemma reach_in_start A a c : reach_in graph A a c -> A a.
  Proof. by destruct 1. Qed.

Lemma reach_in_end A a c : reach_in graph A a c -> A c.
  Proof. induction 1; done. Qed.

Lemma reach_in_mono (A B : Z -> Prop) a c :
    (forall x, A x -> B x) -> reach_in graph A a c -> reach_in graph B a c.
  Proof.
    intros HAB. induction 1 as [a Ha | a b c Ha He _ IH].
    - apply reach_refl. by apply HAB.
    - apply (reach_step graph B a b c); [by apply HAB | done | done].
  Qed.

Lemma reach_in_trans A a b c :
    reach_in graph A a b -> reach_in graph A b c -> reach_in graph A a c.
  Proof.
    induction 1 as [a Ha | a b' b Ha He _ IH]; intros Hbc; [done |].
    apply (reach_step graph A a b' c); [done | done | by apply IH].
  Qed.

Lemma reach_in_snoc A a b c :
    reach_in graph A a b -> In (b, c) (igraph_edges graph) -> A c -> reach_in graph A a c.
  Proof.
    intros Hab He Hc. apply (reach_in_trans A a b c); [done |].
    apply (reach_step graph A b c c); [by apply (reach_in_end A a) | done |].
    by apply reach_refl.
  Qed.

  (** The first edge of a walk that leaves [B]. *)
Lemma reach_in_exit (A B : Z -> Prop) a c :
    (forall x, B x \/ ~ B x) ->
    reach_in graph A a c -> B a -> ~ B c ->
    exists u w, reach_in graph (fun x => A x /\ B x) a u /\
                In (u, w) (igraph_edges graph) /\ ~ B w /\ reach_in graph A w c.
  Proof.
    intros Hdec. induction 1 as [a Ha | a b c Ha He Hbc IH]; intros HBa HBc; [done |].
    destruct (Hdec b) as [HBb | HBb].
    - destruct (IH HBb HBc) as (u & w & Hau & Huw & Hw & Hwc).
      exists u, w. split; [| done].
      apply (reach_step graph _ a b u); done.
    - exists a, b. split; [by apply reach_refl |]. done.
  Qed.


  (** A walk stays off [B] or has a first vertex in [B]. *)
Lemma reach_in_first (A B : Z -> Prop) a c :
    (forall x, B x \/ ~ B x) ->
    reach_in graph A a c ->
    reach_in graph (fun y => A y /\ ~ B y) a c \/
    exists x, B x /\ reach_in graph A a x /\ reach_in graph A x c.
  Proof.
    intros Hdec. induction 1 as [a Ha | a b c Ha He Hbc IH].
    - destruct (Hdec a) as [HB | HB].
      + right. exists a. split; [done |]. split; by apply reach_refl.
      + left. by apply reach_refl.
    - destruct (Hdec a) as [HB | HB].
      + right. exists a. split; [done |]. split; [by apply reach_refl |].
        by apply (reach_step graph A a b c).
      + destruct IH as [IH | (x & Hx & Hbx & Hxc)].
        * left. by apply (reach_step graph _ a b c).
        * right. exists x. split; [done |]. split; [| done].
          by apply (reach_step graph A a b x).
  Qed.

Lemma reach_in_range A a c :
    graph_wf graph -> reach_in graph A a c -> 0 <= c < igraph_vcount graph ->
    0 <= a < igraph_vcount graph.
  Proof.
    intros [_ Hwf] Hr Hc. destruct Hr as [a _ | a b c _ He _]; [done |].
    rewrite Forall_forall in Hwf. apply list_elem_of_In, Hwf in He. simpl in He. lia.
  Qed.
End ReachFacts.

(** ** What a breadth-first search visits *)

Section BFSReach.
Import Visitor MinimalCutSpec.
Variable graph : igraph_t.
Hypothesis Hwf : graph_wf graph.
Hypothesis Hdir : igraph_is_directed graph = true.
Let n := igraph_vcount graph.
Variables (roots restricted : list Z).
Let Ar (x : Z) : Prop := In x restricted.
Let added0 := fold_left (fun added v => vset added v false) restricted (Vec.init true n).

Lemma bfs_enqueue_fold_sem neis : forall Q added,
    (exists l, fst (fold_left bfs_enqueue neis (Q, added)) = Q ++ l /\
       forall x, In x l -> In x neis /\ VECTORB added x = false) /\
    (forall y, VECTORB added y = true ->
       VECTORB (snd (fold_left bfs_enqueue neis (Q, added))) y = true) /\
    (forall y, In y neis -> 0 <= y < Vec.size added ->
       VECTORB (snd (fold_left bfs_enqueue neis (Q, added))) y = true).
  Proof.
    induction neis as [| nei neis IH]; intros Q added.
    - simpl. split; [exists []; split; [by rewrite app_nil_r | by intros x []] |].
      split; [done | by intros y []].
    - cbn [fold_left]. unfold bfs_enqueue at 2 4 6.
      destruct (VECTORB added nei) eqn:Hnei.
      + destruct (IH Q added) as ((l & Hl & Hlin) & Hmono & Hall).
        split; [exists l; split; [done |]; intros x Hx; destruct (Hlin x Hx); split;
                [by right | done] |].
        split; [done |]. intros y [<- | Hy] Hr; [by apply Hmono | by apply Hall].
      + destruct (IH (Q ++ [nei]) (vset added nei true)) as ((l & Hl & Hlin) & Hmono & Hall).
        assert (Hup : forall y, VECTORB added y = true -> VECTORB (vset added nei true) y = true).
        { intros y Hy. rewrite vget_vset. by destruct (_ && _). }
        split; [| split].
        * exists (nei :: l). split; [by rewrite Hl, <- app_assoc |].
          intros x [<- | Hx]; [split; [by left | done] |].
          destruct (Hlin x Hx) as [Hin Hf]. split; [by right |].
          destruct (VECTORB added x) eqn:Hax; [| done]. by rewrite (Hup x Hax) in Hf.
        * intros y Hy. by apply Hmono, Hup.
        * intros y [<- | Hy] Hr.
          -- apply Hmono. by apply vget_vset_eq.
          -- apply Hall; [done |]. unfold Vec.size in *. by rewrite vset_length.
  Qed.

  (** Every vertex in the queue or already visited is reached from a root
      inside [restricted], and the out-neighbours of a visited vertex are
      all marked. *)
Definition bfs_sem (Q : list Z) (added : list bool) (order : list Z) : Prop :=
    (forall x, In x (Q ++ order) -> exists r, In r roots /\ reach_in graph Ar r x) /\
    (forall x y, In x order -> In (x, y) (igraph_edges graph) -> VECTORB added y = true).

Lemma added0_restricted x : 0 <= x < n -> (VECTORB added0 x = false <-> In x restricted).
  Proof. apply (restricted_bitmap graph). Qed.

Lemma bfs_loop_sem fuel : forall Q added order,
    bfs_inv graph added0 Q added order -> bfs_sem Q added order ->
    (length Q + unmarked graph added <= fuel)%nat ->
    bfs_sem [] (fst (bfs_loop graph IGRAPH_OUT fuel Q added order))
               (snd (bfs_loop graph IGRAPH_OUT fuel Q added order)).
  Proof.
    induction fuel as [| fuel IH]; intros Q added order Hinv Hsem Hfuel.
    - destruct Q; [| simpl in Hfuel; lia]. done.
    - destruct Q as [| a Q]; [done |]. cbn [bfs_loop].
      assert (Hneis : forall y, In y (igraph_neighbors graph a IGRAPH_OUT) -> 0 <= y < n).
      { intros y Hy. by apply (neighbors_range graph a IGRAPH_OUT). }
      assert (Hinv' : bfs_inv graph added0 Q added (a :: order)).
      { destruct Hinv as [Hlen Hrange Hnodup Hmarked Hfound Hmono Hfresh].
        constructor; [done | | | | | done |].
        - intros x Hx. apply Hrange. apply in_app_iff in Hx. simpl in *.
          rewrite in_app_iff. intuition.
        - simpl in Hnodup. apply NoDup_cons in Hnodup as [Hna Hnd].
          apply NoDup_app in Hnd as (HQ & Hdisj & Ho).
          apply NoDup_app. split; [done |]. split.
          + intros x Hx [-> | Hxo]%list_elem_of_In%in_inv.
            * apply Hna, list_elem_of_In, in_app_iff. left. by apply list_elem_of_In.
            * by apply (Hdisj x), list_elem_of_In.
          + apply NoDup_cons. split; [| done].
            intros Hin. apply Hna. apply list_elem_of_In, in_app_iff. right.
            by apply list_elem_of_In.
        - intros x Hx. apply Hmarked. apply in_app_iff in Hx. simpl in *.
          rewrite in_app_iff. intuition.
        - intros x Hx H0 Ha. specialize (Hfound x Hx H0 Ha). simpl in *.
          rewrite in_app_iff in *. simpl. intuition.
        - intros x Hx. apply Hfresh. apply in_app_iff in Hx. simpl in *.
          rewrite in_app_iff. intuition. }
      destruct (bfs_enqueue_fold_inv graph added0 (a :: order)
                  (igraph_neighbors graph a IGRAPH_OUT) Q added Hinv' Hneis)
        as (Hinv2 & Hmeas2 & _).
      destruct (bfs_enqueue_fold_sem (igraph_neighbors graph a IGRAPH_OUT) Q added)
        as ((l & Hl & Hlin) & Hmono & Hall).
      destruct (fold_left bfs_enqueue _ (Q, added)) as [Q2 added2]. simpl in *.
      apply IH; [done | | lia].
      destruct Hsem as [Hreach Hclosed].
      destruct (Hreach a (or_introl eq_refl)) as (r & Hr & Hra).
      split.
      + subst Q2. intros x. rewrite <- app_assoc, !in_app_iff. simpl.
        intros [Hx | [Hx | [<- | Hx]]].
        * apply Hreach. right. apply in_app_iff. by left.
        * destruct (Hlin x Hx) as [Hxn Hxf]. exists r. split; [done |].
          apply (reach_in_snoc graph Ar r a x); [done | by apply neighbors_directed_out |].
          apply added0_restricted; [by apply Hneis |].
          destruct (VECTORB added0 x) eqn:H0; [| done].
          by rewrite (inv_mono _ _ _ _ _ Hinv x H0) in Hxf.
        * by exists r.
        * apply Hreach. right. apply in_app_iff. by right.
      + intros x y [<- | Hx] He.
        * apply Hall; [by apply neighbors_directed_out |].
          unfold Vec.size. rewrite (inv_len _ _ _ _ _ Hinv).
          assert (0 <= y < n); [| lia]. apply Hneis. by apply neighbors_directed_out.
        * apply Hmono. by apply (Hclosed x y).
  Qed.

Lemma bfs_root_sem added order r :
    bfs_inv graph added0 [] added order -> bfs_sem [] added order ->
    In r roots -> 0 <= r < n ->
    bfs_sem [] (fst (bfs_root graph IGRAPH_OUT (Z.to_nat n) (added, order) r))
               (snd (bfs_root graph IGRAPH_OUT (Z.to_nat n) (added, order) r)).
  Proof.
    intros Hinv Hsem Hroot Hr. unfold bfs_root.
    destruct (VECTORB added r) eqn:Hadded; [done |].
    assert (Hinv1 : bfs_inv graph added0 [r] (vset added r true) order).
    { destruct (bfs_enqueue_inv graph added0 [] added order r Hinv Hr) as [Hi _].
      unfold bfs_enqueue in Hi. by rewrite Hadded in Hi. }
    apply bfs_loop_sem; [done | | by apply (bfs_inv_unmarked_bound graph added0 _ _ order)].
    destruct Hsem as [Hreach Hclosed]. split.
    - intros x [<- | Hx].
      + exists r. split; [done |]. apply reach_refl. apply added0_restricted; [done |].
        apply (inv_fresh _ _ _ _ _ Hinv1). by left.
      + by apply Hreach.
    - intros x y Hx He. rewrite vget_vset. destruct (_ && _); [done |].
      by apply (Hclosed x y).
  Qed.

Lemma bfs_roots_sem rs : forall added order,
    bfs_inv graph added0 [] added order -> bfs_sem [] added order ->
    (forall r, In r rs -> In r roots /\ 0 <= r < n) ->
    bfs_sem [] (fst (fold_left (bfs_root graph IGRAPH_OUT (Z.to_nat n)) rs (added, order)))
               (snd (fold_left (bfs_root graph IGRAPH_OUT (Z.to_nat n)) rs (added, order))).
  Proof.
    induction rs as [| r rs IH]; intros added order Hinv Hsem Hrs; [done |].
    cbn [fold_left].
    destruct (Hrs r (or_introl eq_refl)) as [Hroot Hr].
    destruct (bfs_root_inv graph IGRAPH_OUT Hwf added0 added order r Hinv Hr) as (Hinv1 & _).
    fold n in Hinv1.
    pose proof (bfs_root_sem added order r Hinv Hsem Hroot Hr) as Hsem1.
    destruct (bfs_root graph IGRAPH_OUT (Z.to_nat n) (added, order) r) as [added1 order1].
    apply IH; [done | done |]. intros r' Hr'. apply Hrs. by right.
  Qed.

  (** The vertices a restricted search visits are the vertices reached
      from a root by a walk inside [restricted]. *)
Lemma igraph_bfs_reach order :
    igraph_bfs graph IGRAPH_OUT roots (Some restricted) = Ok order ->
    forall x, In x (AllStCuts.nonneg_prefix (take (Z.to_nat n) order)) <->
              exists r, In r roots /\ reach_in graph Ar r x.
  Proof.
    intros Hbfs.
    pose proof (igraph_bfs_restricted graph IGRAPH_OUT Hwf roots restricted order Hbfs)
      as (_ & Hvis & Hfound & _).
    fold n in Hvis, Hfound. revert Hbfs Hvis Hfound.
    unfold igraph_bfs. fold n.
    destruct (in_interval 0 (n - 1) roots) eqn:Hroots; [| done].
    destruct (in_interval 0 (n - 1) restricted) eqn:Hrestr; [| done].
    cbn [negb]. fold added0.
    assert (Hinv0 : bfs_inv graph added0 [] added0 []).
    { constructor; try done.
      - subst added0. by rewrite fold_vset_length, vinit_length.
      - simpl. constructor.
      - intros x _ H0 H1. congruence. }
    assert (Hroots' : forall r, In r roots -> In r roots /\ 0 <= r < n).
    { intros r Hr. split; [done |].
      pose proof (in_interval_In graph _ _ _ _ Hroots Hr). lia. }
    assert (Hsem0 : bfs_sem [] added0 []) by (split; [by intros x [] | by intros x y []]).
    pose proof (bfs_roots_sem roots added0 [] Hinv0 Hsem0 Hroots') as Hsem.
    destruct (bfs_roots_inv graph IGRAPH_OUT Hwf added0 roots added0 [] Hinv0)
      as (Hinv & _); [intros r Hr; by apply Hroots' |].
    fold n in Hinv.
    destruct (fold_left (bfs_root graph IGRAPH_OUT (Z.to_nat n)) roots (added0, []))
      as [added' order'] eqn:Hfold.
    cbn [fst snd] in *. intros [= <-] Hvis Hfound x.
    destruct Hinv as [Hlen Hrange Hnodup Hmarked Hfnd _ Hfresh]. simpl in *.
    assert (Hlenv : (length (rev order') <= Z.to_nat n)%nat).
    { rewrite length_rev. rewrite <- (range_length n).
      apply NoDup_incl_length; [by apply NoDup_ListNoDup |].
      intros y Hy. by apply range_In, Hrange. }
    rewrite firstn_all2 in * by (rewrite length_app, length_replicate; lia).
    rewrite (nonneg_prefix_padded graph) in *
      by (intros y Hy%in_rev; apply Hrange in Hy; lia).
    destruct Hsem as [Hreach Hclosed]. split.
    - intros Hx%in_rev. by apply Hreach.
    - intros (r & Hr & Hrx).
      assert (Hstart : In r (rev order')).
      { apply Hfound; [done |]. by apply (reach_in_start graph Ar r x). }
      clear Hr. induction Hrx as [a Ha | a b c Ha He Hbc IH]; [done |].
      apply IH. apply -> in_rev. apply in_rev in Hstart.
      assert (Hb : 0 <= b < n).
      { destruct Hwf as [_ Hall]. rewrite Forall_forall in Hall.
        apply list_elem_of_In, Hall in He. simpl in He. fold n in He. lia. }
      apply Hfnd; [done | | by apply (Hclosed a b)].
      apply added0_restricted; [done |]. by apply (reach_in_start graph Ar b c).
  Qed.
End BFSReach.

Section ReachDec.
Import Visitor MinimalCutSpec.
Variable graph : igraph_t.
Hypothesis Hwf : graph_wf graph.
Hypothesis Hdir : igraph_is_directed graph = true.
Let n := igraph_vcount graph.

Lemma in_interval_range v :
    (forall x, In x v -> 0 <= x < n) -> in_interval 0 (n - 1) v = true.
  Proof.
    intros Hv. unfold in_interval. apply forallb_forall. intros x Hx%Hv. lia.
  Qed.

Lemma igraph_bfs_ok roots restricted :
    (forall x, In x roots -> 0 <= x < n) -> (forall x, In x restricted -> 0 <= x < n) ->
    exists order, igraph_bfs graph IGRAPH_OUT roots (Some restricted) = Ok order.
  Proof.
    intros Hroots Hres. unfold igraph_bfs. fold n.
    rewrite (in_interval_range roots Hroots), (in_interval_range restricted Hres).
    cbn [negb]. destruct (fold_left _ roots _). by eexists.
  Qed.

  (** Whether a walk inside a list of vertices exists can be decided. *)
Lemma reach_in_list_dec (A : list Z) a c :
    (forall x, In x A -> 0 <= x < n) ->
    reach_in graph (fun x => In x A) a c \/ ~ reach_in graph (fun x => In x A) a c.
  Proof.
    intros HA.
    destruct (in_dec Z.eq_dec a A) as [Ha | Ha].
    2:{ right. intros Hr. by apply reach_in_start in Hr. }
    destruct (igraph_bfs_ok [a] A) as [order Hbfs]; [by intros x [<- | []]; apply HA | done |].
    pose proof (igraph_bfs_reach graph Hwf Hdir [a] A order Hbfs c) as Hiff. fold n in Hiff.
    destruct (in_dec Z.eq_dec c (AllStCuts.nonneg_prefix (take (Z.to_nat n) order)))
      as [Hin | Hout].
    - left. apply Hiff in Hin as (r & [<- | []] & Hr). done.
    - right. intros Hr. apply Hout, Hiff. exists a. split; [by left | done].
  Qed.
End ReachDec.

(** ** The search tree of Provan and Shier *)

Section ReachMore.
Import MinimalCutSpec.
Variable graph : igraph_t.

  (** Every vertex of a walk is reached by the walk. *)
Lemma reach_in_self A a c :
    reach_in graph A a c -> reach_in graph (fun y => reach_in graph A a y) a c.
  Proof.
    intros H.
    assert (Hgen : forall a0, reach_in graph A a0 a ->
              reach_in graph (fun y => reach_in graph A a0 y) a c).
    { induction H as [a Ha | a b c Ha He Hbc IH]; intros a0 H0.
      - by apply reach_refl.
      - apply (reach_step graph _ a b c); [done | done |].
        apply IH. by apply (reach_in_snoc graph A a0 a b); [| | apply (reach_in_start graph A b c)]. }
    apply Hgen. apply reach_refl. by apply (reach_in_start graph A a c).
  Qed.

  (** A property of the vertices from which the walk goes on to its end. *)
Lemma reach_in_suffix (A B : Z -> Prop) a c :
    reach_in graph A a c -> (forall y, reach_in graph A y c -> B y) ->
    reach_in graph B a c.
  Proof.
    intros H HB. induction H as [a Ha | a b c Ha He Hbc IH].
    - apply reach_refl. apply HB. by apply reach_refl.
    - apply (reach_step graph B a b c); [| done | by apply IH].
      apply HB. by apply (reach_step graph A a b c).
  Qed.
End ReachMore.

Section SearchTheory.
Import MinimalCutSpec.
Variables (graph : igraph_t) (s t : Z).
Hypothesis Hwf : graph_wf graph.
Hypothesis Hdir : igraph_is_directed graph = true.
Let n := igraph_vcount graph.
Hypothesis Ht : 0 <= t < n.

Lemma edge_range u w :
    In (u, w) (igraph_edges graph) -> 0 <= u < n /\ 0 <= w < n.
  Proof.
    intros He. destruct Hwf as [_ Hall]. rewrite Forall_forall in Hall.
    apply list_elem_of_In, Hall in He. done.
  Qed.

  (** A walk inside a set that is given by a test can be decided. *)
Lemma reach_dec_test (f : Z -> bool) a c :
    reach_in graph (fun x => 0 <= x < n /\ f x = true) a c \/
    ~ reach_in graph (fun x => 0 <= x < n /\ f x = true) a c.
  Proof.
    assert (Hiff : forall x, In x (List.filter f (Vec.range n)) <-> 0 <= x < n /\ f x = true).
    { intros x. by rewrite filter_In, range_In. }
    destruct (reach_in_list_dec graph Hwf Hdir (List.filter f (Vec.range n)) a c) as [H | H].
    - intros x Hx%Hiff. apply Hx.
    - left. eapply reach_in_mono; [| exact H]. intros x Hx. by apply Hiff.
    - right. intros H'. apply H. eapply reach_in_mono; [| exact H']. intros x Hx. by apply Hiff.
  Qed.

Lemma live_dec S x : live graph t S x \/ ~ live graph t S x.
  Proof.
    destruct (reach_dec_test (fun y => negb (CutsSpec.inb y S)) x t) as [H | H].
    - left. eapply reach_in_mono; [| exact H]. intros y [Hy Hf]. split; [done |].
      intros Hin%existsb_eqb_In. unfold CutsSpec.inb in Hf. by rewrite Hin in Hf.
    - right. intros H'. apply H. eapply reach_in_mono; [| exact H'].
      intros y [Hy Hf]. split; [done |]. apply negb_true_iff.
      destruct (CutsSpec.inb y S) eqn:Hin; [| done].
      by apply existsb_eqb_In in Hin.
  Qed.

  (** A vertex that reaches the target is dominated by [v] or reaches the
      target off [v]. *)
Lemma dominated_dec S v x :
    live graph t S x ->
    dominated graph t S v x \/
    reach_in graph (fun y => outside graph S y /\ y <> v) x t.
  Proof.
    intros Hlive.
    destruct (reach_dec_test (fun y => negb (CutsSpec.inb y S) && negb (y =? v)) x t)
      as [H | H].
    - right. eapply reach_in_mono; [| exact H]. intros y [Hy Hf].
      apply andb_true_iff in Hf as [Hf1%negb_true_iff Hf2%negb_true_iff%Z.eqb_neq].
      split; [| done]. split; [done |]. intros Hin%existsb_eqb_In.
      unfold CutsSpec.inb in Hf1. congruence.
    - left. split; [done |]. intros H'. apply H. eapply reach_in_mono; [| exact H'].
      intros y [[Hy Hf] Hne]. split; [done |]. apply andb_true_iff. split.
      + apply negb_true_iff. destruct (CutsSpec.inb y S) eqn:Hin; [| done].
        by apply existsb_eqb_In in Hin.
      + by apply negb_true_iff, Z.eqb_neq.
  Qed.

Lemma live_target S : ~ In t S -> live graph t S t.
  Proof. intros H. by apply reach_refl. Qed.

Lemma dominated_self S v : live graph t S v -> dominated graph t S v v.
  Proof.
    intros Hv. split; [done |]. intros H. apply reach_in_start in H. by destruct H.
  Qed.

  (** A walk to the target off [S] and [v] meets nothing of the closure of
      [v]. *)
Lemma off_closure S v x :
    reach_in graph (fun y => outside graph S y /\ y <> v) x t ->
    reach_in graph (fun y => outside graph S y /\ ~ closure graph t S v y) x t.
  Proof.
    intros H. apply (reach_in_suffix graph _ _ x t H). intros y Hy.
    split; [by destruct (reach_in_start graph _ y t Hy) |].
    intros Hc. apply reach_in_end in Hc. destruct Hc as [[_ Hd] | [_ Hk]].
    - by apply Hd.
    - apply Hk. eapply reach_in_mono; [| exact Hy]. by intros z [Hz _].
  Qed.

Section Step.
Variables (S : list Z) (T : Z -> Prop) (v : Z) (Isv : list Z).
Hypothesis Hinv : search_inv graph s t S T.
Hypothesis Hfound : pivot_found graph s t S T v Isv.

Let HSr : forall x, In x S -> 0 <= x < n := proj1 Hinv.
Let HtS : ~ In t S := proj1 (proj2 Hinv).

Lemma found_front : front graph s t S v.
    Proof. apply Hfound. Qed.

Lemma found_live : live graph t S v.
    Proof. apply Hfound. Qed.

Lemma found_in_Isv : In v Isv.
    Proof.
      apply Hfound. apply reach_refl. left. apply dominated_self, found_live.
    Qed.

Lemma found_not_T : ~ T v.
    Proof.
      pose proof Hfound as (_ & _ & _ & HT & _). apply HT.
      apply reach_refl. apply dominated_self, found_live.
    Qed.

Lemma found_outside : ~ In v S.
    Proof. pose proof found_live as H. apply reach_in_start in H. apply H. Qed.

    (** A vertex of Gamma(S) other than [v] reaches the target off the
        closure of [v]. *)
Lemma front_off w :
      front graph s t S w -> w <> v ->
      reach_in graph (fun y => outside graph S y /\ ~ closure graph t S v y) w t.
    Proof.
      intros Hw Hne. apply off_closure.
      destruct (dominated_dec S v w (proj1 Hw)) as [Hd | Hoff]; [| done].
      pose proof Hfound as (_ & _ & Hmin & _). by apply Hmin in Hd.
    Qed.

    (** Left branch: [v] joins T. *)
Lemma search_inv_left : search_inv graph s t S (fun x => T x \/ x = v).
    Proof.
      pose proof Hinv as (H1 & H2 & H3 & H4 & H5).
      split; [done |]. split; [done |]. split; [done |]. split; [done |].
      intros x [Hx | ->]; [by apply H5 | apply found_front].
    Qed.

    (** Right branch: the closure of [v] joins S. *)
Lemma search_inv_right S3 :
      (forall x, In x S3 <-> In x S \/ In x Isv) -> search_inv graph s t S3 T.
    Proof.
      intros HS3.
      pose proof Hinv as (_ & _ & Hgrown & Hlead & HTfront).
      pose proof Hfound as (Hfront & Hvt & Hmin & HbelowT & HIsv).
      assert (Hout3 : forall y, outside graph S y /\ ~ closure graph t S v y ->
                                outside graph S3 y).
      { intros y [[Hy HyS] Hyc]. split; [done |].
        intros [? | Hin%HIsv]%HS3; done. }
      assert (HvS3 : In v S3) by (apply HS3; right; apply found_in_Isv).
      assert (Hsv : S = [] -> v = s).
      { intros HS. destruct Hfront as [_ [[_ ->] | (u & Hu & _)]]; [done |].
        rewrite HS in Hu. done. }
      assert (Hdec3 : forall y, In y S3 \/ ~ In y S3).
      { intros y. destruct (in_dec Z.eq_dec y S3); tauto. }
      assert (HtS3 : ~ In t S3).
      { intros [? | Hin%HIsv]%HS3; [done |].
        apply reach_in_end in Hin. destruct Hin as [[_ Hd] | [_ Hk]].
        - apply Hd. apply reach_refl. split; [by split |]. congruence.
        - by apply Hk, live_target. }
      assert (Hclose : forall u w, closure graph t S v u -> In (u, w) (igraph_edges graph) ->
                ~ In w S3 -> live graph t S3 w).
      { intros u w Hu He Hw.
        assert (HwS : outside graph S w).
        { split; [apply (edge_range u w He) |]. intros Hin. apply Hw, HS3. by left. }
        assert (Hnc : ~ closure graph t S v w).
        { intros Hc. apply Hw, HS3. right. by apply HIsv. }
        destruct (live_dec S w) as [Hl | Hnl].
        - destruct (dominated_dec S v w Hl) as [Hd | Hoff].
          + exfalso. apply Hnc. apply (reach_in_snoc graph _ v u w); [done | done | by left].
          + eapply reach_in_mono; [exact Hout3 |]. by apply off_closure.
        - exfalso. apply Hnc. apply (reach_in_snoc graph _ v u w); [done | done |].
          right. done. }
      split; [| split; [| split; [| split]]].
      - intros x [Hx | Hx%HIsv]%HS3; [by apply HSr |].
        apply reach_in_end in Hx. destruct Hx as [[Hl _] | [[Hx _] _]]; [| done].
        apply reach_in_start in Hl. apply Hl.
      - done.
      - intros _.
        assert (Hs3 : In s S3).
        { destruct S as [| a S0] eqn:HS; [rewrite <- Hsv; done |].
          apply HS3. left. by apply Hgrown. }
        assert (Hsv3 : reach_in graph (fun y => In y S3) s v).
        { destruct S as [| a S0] eqn:HS; [rewrite Hsv by done; by apply reach_refl |].
          destruct Hfront as [_ [[? _] | (u & Hu & He)]]; [done |].
          apply (reach_in_snoc graph _ s u v); [| done | done].
          eapply reach_in_mono; [| apply Hgrown; [done | exact Hu]].
          intros y Hy. apply HS3. by left. }
        split; [done |]. split.
        + intros x [Hx | Hx%HIsv]%HS3.
          * eapply reach_in_mono; [| apply Hgrown; [by intros -> | exact Hx]].
            intros y Hy. apply HS3. by left.
          * apply (reach_in_trans graph _ s v x); [done |].
            eapply reach_in_mono; [| apply reach_in_self; exact Hx].
            intros y Hy. apply HS3. right. by apply HIsv.
        + destruct (reach_in_exit graph _ (fun y => In y S3) v t Hdec3 (proj1 Hfront))
            as (u & w & Hvu & He & Hw & _); [done | done |].
          exists u, w. split; [| done]. apply reach_in_end in Hvu. apply Hvu.
      - intros u w [Hu | Hu%HIsv]%HS3 He Hw.
        + assert (HwS : ~ In w S) by (intros Hin; apply Hw, HS3; by left).
          assert (Hfw : front graph s t S w).
          { split; [by apply (Hlead u w) |]. right. by exists u. }
          eapply reach_in_mono; [exact Hout3 |]. apply front_off; [done |].
          intros ->. done.
        + by apply (Hclose u w).
      - intros x Hx. pose proof (HTfront x Hx) as Hfx.
        assert (Hxv : x <> v) by (intros ->; by apply found_not_T).
        split.
        + eapply reach_in_mono; [exact Hout3 |]. by apply front_off.
        + right. destruct Hfx as [_ [[HS ->] | (u & Hu & He)]].
          * exfalso. apply Hxv. symmetry. by apply Hsv.
          * exists u. split; [| done]. apply HS3. by left.
    Qed.

    (** A minimal side that holds S and [v] holds the closure of [v]. *)
Lemma closure_in_side P :
      minimal_side graph s t P -> (forall x, In x S -> In x P) -> In v P ->
      forall x, In x Isv -> In x P.
    Proof.
      intros (HPr & HsP & HtP & Hconn & Hheads & _) HSP HvP x Hx.
      pose proof Hfound as (_ & _ & _ & _ & HIsv). apply HIsv in Hx.
      destruct (in_dec Z.eq_dec x P) as [| Hout]; [done |]. exfalso.
      assert (HdecP : forall y, In y P \/ ~ In y P).
      { intros y. destruct (in_dec Z.eq_dec y P); tauto. }
      destruct (reach_in_exit graph (region graph t S v) (fun y => In y P) v x HdecP Hx HvP Hout)
        as (u & w & Hvu & He & Hw & Hwx).
      apply reach_in_end in Hvu as [_ Hu].
      specialize (Hheads u w Hu He Hw).
      assert (Hoff : reach_in graph (fun y => outside graph S y /\ y <> v) w t).
      { apply (reach_in_suffix graph _ _ w t Hheads). intros y Hy.
        pose proof (reach_in_start graph _ y t Hy) as HyP. cbn beta in HyP.
        split; [split |].
        - apply (reach_in_range graph _ y t Hwf Hy Ht).
        - intros Hin. by apply HyP, HSP.
        - intros ->. done. }
      apply reach_in_start in Hwx. destruct Hwx as [[_ Hd] | [_ Hk]].
      - by apply Hd.
      - apply Hk. eapply reach_in_mono; [| exact Hoff]. by intros y [Hy _].
    Qed.
End Step.

  (** At a leaf, S is the source side of a minimal cut unless it is
      empty. *)
Lemma leaf_side S T : search_inv graph s t S T -> S <> [] -> minimal_side graph s t S.
  Proof.
    intros (Hr & HtS & Hgrown & Hlead & _) Hne.
    destruct (Hgrown Hne) as (Hs & Hconn & Hedge).
    split; [done |]. split; [done |]. split; [done |]. split; [done |]. split; [| done].
    intros u w Hu He Hw. eapply reach_in_mono; [| by apply (Hlead u w)].
    by intros y [_ Hy].
  Qed.

  (** A walk to the target outside a minimal side that holds S avoids S. *)
Lemma side_off S P v w :
    (forall x, In x S -> In x P) -> In v P ->
    reach_in graph (fun y => ~ In y P) w t ->
    reach_in graph (fun y => outside graph S y /\ y <> v) w t.
  Proof.
    intros HSP HvP Hw. apply (reach_in_suffix graph _ _ w t Hw). intros y Hy.
    pose proof (reach_in_start graph _ y t Hy) as HyP. cbn beta in HyP.
    split; [split |].
    - apply (reach_in_range graph _ y t Hwf Hy Ht).
    - intros Hin. by apply HyP, HSP.
    - intros ->. done.
  Qed.

  (** And at a leaf no minimal side that avoids T is larger than S. *)
Lemma leaf_complete S T P :
    search_inv graph s t S T -> pivot_none graph s t S T ->
    minimal_side graph s t P -> (forall x, In x S -> In x P) ->
    (forall x, In x P -> ~ T x) ->
    forall x, In x P -> In x S.
  Proof.
    intros (Hr & HtS & Hgrown & Hlead & _) Hnone HP HSP HPT x Hx.
    pose proof HP as (HPr & HsP & HtP & Hconn & Hheads & (u0 & w0 & Hu0 & He0 & Hw0)).
    destruct (in_dec Z.eq_dec x S) as [| Hout]; [done |]. exfalso.
    assert (HdecP : forall y, In y P \/ ~ In y P).
    { intros y. destruct (in_dec Z.eq_dec y P); tauto. }
    assert (HdecS : forall y, In y S \/ ~ In y S).
    { intros y. destruct (in_dec Z.eq_dec y S); tauto. }
    (* a vertex of Gamma(S) in P *)
    assert (Hw : exists w, front graph s t S w /\ In w P).
    { destruct S as [| a S0] eqn:HS.
      - exists s. split; [| done]. split; [| by left].
        apply (reach_in_trans graph _ s u0 t).
        + eapply reach_in_mono; [| by apply Hconn]. intros y Hy. split; [by apply HPr | by intros []].
        + apply (reach_step graph _ u0 w0 t); [split; [by apply HPr | by intros []] | done |].
          eapply reach_in_mono; [| apply (side_off [] P u0 w0); [by intros ? [] | done |
                                   by apply (Hheads u0 w0)]].
          by intros y [Hy _].
      - rewrite <- HS in *. assert (Hne : S <> []) by (by rewrite HS).
        destruct (Hgrown Hne) as (Hs & _ & _).
        destruct (reach_in_exit graph _ (fun y => In y S) s x HdecS (Hconn x Hx) Hs Hout)
          as (u & w & Hsu & He & Hw & Hwx).
        exists w. apply reach_in_end in Hsu as [_ Hu]. split.
        + split; [by apply (Hlead u w) |]. right. by exists u.
        + by apply reach_in_start in Hwx. }
    destruct Hw as (w & Hfw & HwP).
    destruct (Hnone w Hfw) as (m & Hfm & Hdm & Hfail).
    assert (HmP : In m P).
    { destruct (in_dec Z.eq_dec m P) as [| HmP]; [done |]. exfalso.
      destruct Hfm as [_ [[HS ->] | (u & Hu & He)]]; [done |].
      destruct Hdm as [_ Hdm]. apply Hdm.
      apply (side_off S P w m HSP HwP). apply (Hheads u m); [by apply HSP | done | done]. }
    destruct Hfail as [-> | (y & Hy & HTy)]; [done |].
    apply (HPT y); [| done].
    destruct (in_dec Z.eq_dec y P) as [| HyP]; [done |]. exfalso.
    destruct (reach_in_exit graph _ (fun z => In z P) m y HdecP Hy HmP HyP)
      as (u & z & Hmu & He & Hz & Hzy).
    apply reach_in_end in Hmu as [_ Hu].
    apply reach_in_start in Hzy. destruct Hzy as [_ Hd]. apply Hd.
    apply (side_off S P m z HSP HmP). by apply (Hheads u z).
  Qed.
End SearchTheory.

(** ** What the search lists *)

Section SearchRun.
Import MarkedQueue EStack ProvanShier SearchSpec CutsSpec MinimalCutSpec.
Variable pivot : igraph_provan_shier_pivot_t.
Variables (graph : igraph_t) (source target : Z).
Let n := igraph_vcount graph.
Hypothesis Hwf : graph_wf graph.
Hypothesis Hdir : igraph_is_directed graph = true.
Hypothesis Ht : 0 <= target < n.

Hypothesis Hpivot : forall S T code v Isv,
    queue_exact n S -> estack_wf n T ->
    search_inv graph source target (items S) (in_T T) ->
    pivot graph S T source target = (code, v, Isv) ->
    (Isv = [] -> pivot_none graph source target (items S) (in_T T)) /\
    (Isv <> [] -> pivot_found graph source target (items S) (in_T T) v Isv).

Lemma below_target_size (S : list Z) :
    List.NoDup S -> (forall x, In x S -> 0 <= x < n) -> ~ In target S -> Vec.size S <> n.
  Proof.
    intros Hnd Hr HtS Hsz.
    assert (Hle : (length (target :: S) <= length (Vec.range n))%nat).
    { apply NoDup_incl_length; [by constructor |].
      intros x [<- | Hx]; apply range_In; [done | by apply Hr]. }
    rewrite range_length in Hle. unfold Vec.size in Hsz. simpl in Hle. lia.
  Qed.

  (** Below a node of the search tree the search lists, each once, the
      source sides of minimal cuts that hold S and avoid T. *)
Lemma provan_shier_exact fuel : forall S T result_ S' T' result',
    queue_exact n S -> estack_wf n T ->
    search_inv graph source target (items S) (in_T T) ->
    igraph_provan_shier_list fuel graph S T source target result_ pivot =
      Some (Ok (S', T', result')) ->
    exists new, result' = result_ ++ new /\
      Forall (fun P => List.NoDup P /\ minimal_side graph source target P /\
                       (forall x, In x (items S) -> In x P) /\
                       (forall x, in_T T x -> ~ In x P)) new /\
      (forall P, minimal_side graph source target P ->
         (forall x, In x (items S) -> In x P) -> (forall x, In x P -> ~ in_T T x) ->
         exists P', In P' new /\ same_set P P') /\
      ForallOrdPairs (fun P P' => ~ same_set P P') new.
  Proof.
    induction fuel as [| fuel IH]; intros S T result_ S' T' result' HS HT Hinv Hrun; [done |].
    cbn [igraph_provan_shier_list] in Hrun.
    destruct (pivot graph S T source target) as [[code v] Isv] eqn:Hpiv.
    destruct (Hpivot S T code v Isv HS HT Hinv Hpiv) as [Hnone Hfound].
    pose proof Hinv as (HSr & HtS & Hgrown & Hlead & HTfront).
    assert (HTS : forall x, in_T T x -> ~ In x (items S)).
    { intros x Hx%HTfront Hin. destruct Hx as [Hl _]. apply reach_in_start in Hl.
      by destruct Hl. }
    destruct Isv as [| u Isv].
    { specialize (Hnone eq_refl). clear Hfound.
      destruct (_ && _) eqn:Hc; injection Hrun as <- <- <-.
      - apply andb_true_iff in Hc as [H0%negb_true_iff%Z.eqb_neq _].
        assert (Hne : items S <> []).
        { intros Hnil. apply H0. unfold igraph_marked_queue_int_size. by rewrite Hnil. }
        exists [items S]. split; [done |]. split; [| split].
        + constructor; [| constructor]. split; [apply HS |].
          split; [by apply (leaf_side graph source target (items S) (in_T T)) |].
          split; [done | done].
        + intros P HP HSP HPT. exists (items S). split; [by left |].
          intros x. split; [| by apply HSP].
          by apply (leaf_complete graph source target Hwf Ht (items S) (in_T T) P).
        + repeat constructor.
      - exists []. rewrite app_nil_r. split; [done |]. split; [constructor |].
        split; [| constructor].
        intros P HP HSP HPT. exfalso.
        pose proof (leaf_complete graph source target Hwf Ht (items S) (in_T T) P
                      Hinv Hnone HP HSP HPT) as HPS.
        destruct HP as (_ & HsP & _).
        apply andb_false_iff in Hc as [Hc | Hc]; apply negb_false_iff, Z.eqb_eq in Hc.
        + unfold igraph_marked_queue_int_size in Hc.
          destruct (items S) eqn:HitS; [by apply HPS in HsP | done].
        + apply (below_target_size (items S)); [apply HS | done | done | done]. }
    specialize (Hfound ltac:(done)). clear Hnone.
    set (Isv0 := u :: Isv) in *.
    pose proof (found_not_T graph source target _ _ _ _ Hfound) as HvT.
    pose proof (found_in_Isv graph source target _ _ _ _ Hfound) as HvIsv.
    pose proof (found_live graph source target _ _ _ _ Hfound) as Hvlive.
    assert (Hvr : 0 <= v < n) by (apply reach_in_start in Hvlive; apply Hvlive).
    assert (HIsvr : forall x, In x Isv0 -> 0 <= x < n).
    { intros x Hx. destruct Hfound as (_ & _ & _ & _ & HIsv). apply HIsv in Hx.
      apply reach_in_end in Hx. destruct Hx as [[Hl _] | [[Hx _] _]]; [| done].
      apply reach_in_start in Hl. apply Hl. }
    destruct (igraph_estack_push T v) as [T1 |] eqn:Hpush; [| done].
    pose proof (estack_push_wf n _ _ _ HT Hpush) as HT1.
    assert (HT1el : forall x, in_T T1 x <-> in_T T x \/ x = v).
    { intros x. unfold in_T in *. unfold igraph_estack_push in Hpush.
      destruct (igraph_estack_iselement T v) eqn:HTv; [done |].
      injection Hpush as <-. unfold igraph_estack_iselement in *. cbn [isin].
      rewrite vget_vset. destruct (Z.eqb_spec v x) as [-> | Hne].
      - unfold estack_wf in HT.
        destruct (Z.leb_spec 0 x); [| lia].
        destruct (Z.ltb_spec x (Vec.size (isin T))); [| lia]. simpl. tauto.
      - cbn [andb]. split; [tauto |]. intros [? | ->]; done. }
    destruct (igraph_provan_shier_list fuel graph S T1 source target result_ pivot)
      as [[[[S1 T2] result1] |] |] eqn:Hleft; [| done | done].
    pose proof (provan_shier_frame _ _ _ _ _ _ _ _ _ _ _ Hleft) as [-> ->].
    apply IH in Hleft as (new1 & -> & Hnew1 & Hall1 & Hord1); [| done | done |].
    2:{ pose proof (search_inv_left graph source target _ _ _ _ Hinv Hfound)
          as (H1 & H2 & H3 & H4 & H5).
        split; [done |]. split; [done |]. split; [done |]. split; [done |].
        intros x Hx%HT1el. by apply H5. }
    rewrite (estack_push_pop _ _ _ Hpush) in Hrun.
    destruct (fold_left add_Isv Isv0 _) as [S3 |] eqn:Hadd; [| done].
    apply (add_Isv_fold_exact n) in Hadd as [HS3 Hit];
      [| by apply start_batch_exact | done].
    cbn [items igraph_marked_queue_int_start_batch] in Hit.
    destruct (igraph_provan_shier_list fuel graph S3 T source target _ pivot)
      as [[[[S4 T4] result2] |] |] eqn:Hright; [| done | done].
    injection Hrun as <- <- <-.
    apply IH in Hright as (new2 & -> & Hnew2 & Hall2 & Hord2); [| done | done |].
    2:{ by apply (search_inv_right graph source target Hwf Hdir Ht (items S) (in_T T) v Isv0). }
    exists (new1 ++ new2). split; [by rewrite app_assoc |]. split; [| split].
    - apply Forall_app. split.
      + eapply Forall_impl; [exact Hnew1 |]. intros P (H1 & H2 & H3 & H4).
        split; [done |]. split; [done |]. split; [done |].
        intros x HTx. apply H4, HT1el. by left.
      + eapply Forall_impl; [exact Hnew2 |]. intros P (H1 & H2 & H3 & H4).
        split; [done |]. split; [done |]. split; [| done].
        intros x Hx. apply H3, Hit. by left.
    - intros P HP HSP HPT. destruct (in_dec Z.eq_dec v P) as [HvP | HvP].
      + destruct (Hall2 P HP) as (P' & HP' & Hsame); [| done |].
        * intros x [Hx | Hx]%Hit; [by apply HSP |].
          by apply (closure_in_side graph source target Hwf Ht (items S) (in_T T) v Isv0).
        * exists P'. split; [apply in_app_iff; by right | done].
      + destruct (Hall1 P HP HSP) as (P' & HP' & Hsame).
        * intros x Hx [HTx | ->]%HT1el; [by apply (HPT x) | done].
        * exists P'. split; [apply in_app_iff; by left | done].
    - apply ForallOrdPairs_app; [done | done |].
      intros P P' HP HP' Hsame.
      rewrite Forall_forall in Hnew1, Hnew2.
      destruct (Hnew1 P (proj2 (list_elem_of_In _ _) HP)) as (_ & _ & _ & Hout).
      destruct (Hnew2 P' (proj2 (list_elem_of_In _ _) HP')) as (_ & _ & Hin & _).
      apply (Hout v).
      + apply HT1el. by right.
      + apply Hsame, Hin, Hit. by right.
  Qed.
End SearchRun.

(** ** The dominator tree against the edges *)

Section DominatorTreeIn.
Import Visitor Dominator DominatorSpec DomtreeSpec.
Variables (g : igraph_t) (root : Z).
Hypothesis Hwf : graph_wf g.
Hypothesis Hdir : igraph_is_directed g = true.
Hypothesis Hroot : 0 <= root < igraph_vcount g.

Section Tree.
Variables (ord parents md : list Z).
Hypothesis Htree : search_tree g IGRAPH_IN root ord parents.
Hypothesis Hmdroot : VECTOR md root = -1.
Hypothesis Hidom : forall v, In v ord -> v <> root ->
      is_idom g IGRAPH_IN root (VECTOR md v) v.
Hypothesis Hun : forall x, 0 <= x < igraph_vcount g -> ~ In x ord -> VECTOR md x = -2.

Let domtree : igraph_t :=
      mk_graph (igraph_vcount g) true
        (map (tree_edge IGRAPH_IN md)
             (List.filter (tree_vertex root md) (Vec.range (igraph_vcount g)))).

Lemma md_visited v : In v ord -> v <> root -> In (VECTOR md v) ord.
    Proof. apply (idom_visited g IGRAPH_IN root ord parents md Hdir Htree Hidom). Qed.

    (** Dominance is ancestry in the tree of immediate dominators. *)
Lemma dominates_tree d w :
      In w ord -> (dominates g IGRAPH_IN root d w <-> anc md d w).
    Proof.
      intros Hw. split.
      - remember (rank ord w) as k eqn:Hk. revert w Hk Hw.
        induction k as [k IH] using lt_wf_ind. intros w Hk Hw Hd.
        destruct (decide (d = w)) as [-> | Hne]; [constructor |].
        assert (Hwr : w <> root).
        { intros ->. apply Hne. by apply (dominates_root g IGRAPH_IN root). }
        destruct (Hidom w Hw Hwr) as (Hmw & Hdomw & Hleast).
        pose proof (md_visited w Hw Hwr) as Hin.
        apply anc_step.
        + apply (st_range _ _ _ _ _ Htree) in Hin. lia.
        + apply (IH (rank ord (VECTOR md w))); [| done | done | by apply Hleast].
          subst k. apply (anc_proper g IGRAPH_IN root ord parents Hdir Htree); [| done | done].
          by apply (dom_anc g IGRAPH_IN root ord parents Hdir Htree).
      - intros Hanc. revert Hw. induction Hanc as [w | d w Hpos Hanc IH]; intros Hw.
        + apply dominates_self.
        + assert (Hwr : w <> root) by (intros ->; rewrite Hmdroot in Hpos; lia).
          destruct (Hidom w Hw Hwr) as (_ & Hdomw & _).
          apply (dominates_trans g IGRAPH_IN root d (VECTOR md w) w); [| done].
          apply IH. by apply md_visited.
    Qed.

Lemma domtree_arc u v :
      arc domtree IGRAPH_IN u v <-> In v ord /\ v <> root /\ u = VECTOR md v.
    Proof.
      unfold arc, domtree. cbn [igraph_edges]. rewrite in_map_iff. split.
      - intros (i & [= <- <-] & Hi).
        apply (tree_vertex_In g IGRAPH_IN root ord parents md Hdir Htree Hidom Hun) in Hi.
        tauto.
      - intros (Hv & Hne & ->). exists v. split; [done |].
        by apply (tree_vertex_In g IGRAPH_IN root ord parents md Hdir Htree Hidom Hun).
    Qed.

Lemma domtree_wf : graph_wf domtree.
    Proof.
      split; [apply Hwf |]. apply Forall_forall. intros [a b] Hin%list_elem_of_In.
      change (arc domtree IGRAPH_IN b a) in Hin. apply domtree_arc in Hin as (Ha & Hne & ->).
      cbn [fst snd igraph_vcount domtree]. split; [by apply (st_range _ _ _ _ _ Htree) |].
      apply (st_range _ _ _ _ _ Htree). by apply md_visited.
    Qed.

    (** Walking down the tree from a visited vertex reaches its
        descendants. *)
Lemma domtree_reachable x y :
      In x ord -> (reachable domtree IGRAPH_IN x y <-> anc md x y /\ In y ord).
    Proof.
      intros Hx. split.
      - intros [l Hp]. revert Hx.
        induction Hp as [x | x b l y He _ IH]; intros Hx; [split; [constructor | done] |].
        apply domtree_arc in He as (Hb & Hne & ->).
        destruct (IH Hb) as [Hanc Hy]. split; [| done].
        apply (anc_trans md _ b y); [| done].
        apply anc_step; [| constructor].
        apply (st_range _ _ _ _ _ Htree) in Hx. lia.
      - intros [Hanc Hy]. induction Hanc as [y | x y Hpos Hanc IH]; [exists []; constructor |].
        assert (Hyr : y <> root) by (intros ->; rewrite Hmdroot in Hpos; lia).
        destruct (IH Hx (md_visited y Hy Hyr)) as [l Hp].
        exists (l ++ [y]). apply (path_snoc domtree IGRAPH_IN x l (VECTOR md y)); [done |].
        by apply domtree_arc.
    Qed.

Lemma domtree_subtree x y :
      In x ord ->
      (reachable domtree IGRAPH_IN x y <->
       reachable g IGRAPH_IN root y /\ dominates g IGRAPH_IN root x y).
    Proof.
      intros Hx. rewrite (domtree_reachable x y Hx).
      rewrite <- (visited_reachable g IGRAPH_IN root ord parents Hdir Htree y). split.
      - intros [Hanc Hy]. split; [done |]. by apply dominates_tree.
      - intros [Hy Hdom]. split; [| done]. by apply dominates_tree.
    Qed.

Lemma domtree_unique u u' v :
      In (v, u) (igraph_edges domtree) -> In (v, u') (igraph_edges domtree) -> u = u'.
    Proof.
      intros Hu Hu'. change (arc domtree IGRAPH_IN u v) in Hu.
      change (arc domtree IGRAPH_IN u' v) in Hu'.
      apply domtree_arc in Hu as (_ & _ & ->). by apply domtree_arc in Hu' as (_ & _ & ->).
    Qed.

Lemma domtree_root_in u : ~ In (root, u) (igraph_edges domtree).
    Proof.
      intros Hu. change (arc domtree IGRAPH_IN u root) in Hu.
      apply domtree_arc in Hu as (_ & Hne & _). done.
    Qed.

Lemma domtree_edges_exist y :
      In y ord -> y <> root -> igraph_ecount domtree > 0.
    Proof.
      intros Hy Hne.
      assert (Hin : In (y, VECTOR md y) (igraph_edges domtree)).
      { change (arc domtree IGRAPH_IN (VECTOR md y) y). by apply domtree_arc. }
      unfold igraph_ecount, Vec.size. destruct (igraph_edges domtree); [done | simpl; lia].
    Qed.
End Tree.

  (** The call of the pivot: the tree and the vertices left out. *)
Lemma dominator_tree_in_run :
    exists ord parents md,
      search_tree g IGRAPH_IN root ord parents /\
      VECTOR md root = -1 /\
      (forall v, In v ord -> v <> root -> is_idom g IGRAPH_IN root (VECTOR md v) v) /\
      (forall x, 0 <= x < igraph_vcount g -> ~ In x ord -> VECTOR md x = -2) /\
      igraph_dominator_tree g root (mk_out None (Some None) (Some [])) IGRAPH_IN =
        (IGRAPH_SUCCESS,
         mk_out None
           (Some (Some (mk_graph (igraph_vcount g) true
              (map (tree_edge IGRAPH_IN md)
                   (List.filter (tree_vertex root md) (Vec.range (igraph_vcount g)))))))
           (Some (List.filter (fun j => (VECTOR parents j <? -1)%Z)
                              (Vec.range (igraph_vcount g))))).
  Proof.
    destruct (dominator_tree_unfold g root (mk_out None (Some None) (Some [])) IGRAPH_IN
                Hwf Hdir Hroot ltac:(done))
      as (ord & parents & md & Htree & _ & Hmdroot & Hidom & Hun & Hrun).
    exists ord, parents, md. split; [done |]. split; [done |]. split; [done |].
    split; [done |]. rewrite Hrun. cbv zeta. cbn [domtree leftout dom option_map].
    rewrite (domtree_graph g IGRAPH_IN root ord parents md Hwf Hdir Htree Hidom Hun).
    by rewrite (leftout_fold g IGRAPH_IN root ord parents Hwf Htree []).
  Qed.

Lemma leftout_unvisited ord parents j :
    search_tree g IGRAPH_IN root ord parents ->
    (In j (List.filter (fun j => (VECTOR parents j <? -1)%Z) (Vec.range (igraph_vcount g))) <->
     0 <= j < igraph_vcount g /\ ~ reachable g IGRAPH_IN root j).
  Proof.
    intros Htree. rewrite filter_In, range_In, Z.ltb_lt.
    rewrite <- (visited_reachable g IGRAPH_IN root ord parents Hdir Htree j).
    split; intros [Hj Hp]; (split; [done |]).
    - intros Hin. apply (visited_parent g IGRAPH_IN root ord parents Htree j Hj) in Hin. lia.
    - destruct (Z.lt_ge_cases (VECTOR parents j) (-1)); [done |]. exfalso. apply Hp.
      apply (visited_parent g IGRAPH_IN root ord parents Htree j Hj). lia.
  Qed.
End DominatorTreeIn.

(** ** The graph without S and its dominator tree *)

Section SbarGraph.
Import Visitor MarkedQueue SearchSpec DominatorSpec MinimalCutSpec.
Variables (graph : igraph_t) (S : igraph_marked_queue_int_t) (target : Z).
Let n := igraph_vcount graph.
Hypothesis Hwf : graph_wf graph.
Hypothesis Hdir : igraph_is_directed graph = true.
Hypothesis HS : queue_exact n S.
Hypothesis Ht : 0 <= target < n.
Hypothesis HtS : ~ In target (items S).

Let keep := List.filter (fun i => negb (igraph_marked_queue_int_iselement S i)) (Vec.range n).
Let Sbar_map := fst (fold_left subgraph_map_step keep (Vec.init 0 n, 0)).
Let Sbar := fst (fst (igraph_induced_subgraph_map graph keep)).
Let idx (x : Z) : Z := VECTOR Sbar_map x - 1.
Let root := idx target.

Lemma member_items x :
    0 <= x < n -> (igraph_marked_queue_int_iselement S x = true <-> In x (items S)).
  Proof.
    intros Hx. destruct HS as ([_ Hmem] & _ & Hin). split.
    - apply Hmem.
    - intros H. by apply Hin.
  Qed.

Lemma keep_outside x : In x keep <-> outside graph (items S) x.
  Proof.
    pose proof (keep_In graph S x) as Hk. fold n in Hk. fold keep in Hk.
    rewrite Hk. unfold outside. fold n. split.
    - intros [Hx Hf]. split; [done |]. intros Hin%member_items; [congruence | done].
    - intros [Hx Hout]. split; [done |].
      destruct (igraph_marked_queue_int_iselement S x) eqn:Hm; [| done].
      by apply member_items in Hm.
  Qed.

Lemma keep_idx x : In x keep -> 0 <= idx x < Vec.size keep /\ VECTOR keep (idx x) = x.
  Proof. apply (induced_map_inverse graph S). Qed.

Lemma idx_keep j : 0 <= j < Vec.size keep -> In (VECTOR keep j) keep /\ idx (VECTOR keep j) = j.
  Proof.
    intros Hj. destruct (induced_map_index graph S j Hj) as [Hin Hmap].
    split; [done |]. cbv zeta in Hmap. unfold idx, Sbar_map, keep, n. rewrite Hmap. lia.
  Qed.

Lemma keep_inj i j :
    0 <= i < Vec.size keep -> 0 <= j < Vec.size keep -> VECTOR keep i = VECTOR keep j -> i = j.
  Proof.
    intros Hi Hj Heq. destruct (idx_keep i Hi) as [_ <-]. destruct (idx_keep j Hj) as [_ <-].
    by rewrite Heq.
  Qed.

Lemma map_positive x : 0 < VECTOR Sbar_map x -> In x keep.
  Proof.
    intros Hx. destruct (in_dec Z.eq_dec x keep) as [| Hout]; [done |].
    apply (induced_map_outside graph S) in Hout. fold n keep Sbar_map in Hout. lia.
  Qed.

Lemma target_keep : In target keep.
  Proof. apply keep_outside. by split. Qed.

Lemma root_range : 0 <= root < Vec.size keep.
  Proof. apply keep_idx, target_keep. Qed.

Lemma keep_root : VECTOR keep root = target.
  Proof. apply keep_idx, target_keep. Qed.

Lemma Sbar_vcount : igraph_vcount Sbar = Vec.size keep.
  Proof. reflexivity. Qed.

Lemma Sbar_directed : igraph_is_directed Sbar = true.
  Proof. exact Hdir. Qed.

Lemma Sbar_wf : graph_wf Sbar.
  Proof. apply (induced_subgraph_wf graph S Hwf). Qed.

Lemma Sbar_edge a' b' :
    In (a', b') (igraph_edges Sbar) <->
    exists a b, In (a, b) (igraph_edges graph) /\ In a keep /\ In b keep /\
                a' = idx a /\ b' = idx b.
  Proof.
    unfold Sbar, igraph_induced_subgraph_map. cbn [fst igraph_edges]. fold n Sbar_map.
    rewrite in_map_iff. split.
    - intros ([a b] & [= <- <-] & [He Hk]%filter_In). cbn [fst snd] in *.
      apply andb_true_iff in Hk as [Ha%Z.ltb_lt Hb%Z.ltb_lt].
      exists a, b. split; [done |]. split; [by apply map_positive |].
      split; [by apply map_positive | done].
    - intros (a & b & He & Ha & Hb & -> & ->). exists (a, b). split; [done |].
      apply filter_In. split; [done |]. cbn [fst snd].
      destruct (keep_idx a Ha) as [Ha' _]. destruct (keep_idx b Hb) as [Hb' _].
      unfold idx in Ha', Hb'. apply andb_true_iff. split; apply Z.ltb_lt; lia.
  Qed.

Lemma Sbar_edge_keep a' b' :
    In (a', b') (igraph_edges Sbar) ->
    0 <= a' < Vec.size keep /\ 0 <= b' < Vec.size keep /\
    In (VECTOR keep a', VECTOR keep b') (igraph_edges graph).
  Proof.
    intros (a & b & He & Ha & Hb & -> & ->)%Sbar_edge.
    destruct (keep_idx a Ha) as [Ha' ->]. destruct (keep_idx b Hb) as [Hb' ->]. done.
  Qed.

  (** A path of the subgraph read against the edges is a walk of the graph. *)
Lemma Sbar_path_walk (A : Z -> Prop) r' l w' :
    path Sbar IGRAPH_IN r' l w' ->
    (forall x', In x' (r' :: l) -> A (VECTOR keep x')) ->
    reach_in graph A (VECTOR keep w') (VECTOR keep r').
  Proof.
    induction 1 as [r' | r' b l w' He _ IH]; intros HA.
    - apply reach_refl. apply HA. by left.
    - apply (reach_in_snoc graph A _ (VECTOR keep b)).
      + apply IH. intros x' Hx'. apply HA. by right.
      + unfold arc in He. apply Sbar_edge_keep in He. apply He.
      + apply HA. by left.
  Qed.

Lemma Sbar_walk_path (A : Z -> Prop) w c :
    reach_in graph A w c -> (forall x, A x -> In x keep) ->
    exists l, path Sbar IGRAPH_IN (idx c) l (idx w) /\
      forall x', In x' (idx c :: l) -> exists x, A x /\ x' = idx x.
  Proof.
    intros H HA. induction H as [w Hw | w b c Hw He Hbc IH].
    - exists []. split; [constructor |]. intros x' [<- | []]. by exists w.
    - destruct IH as (l & Hp & Hl). exists (l ++ [idx w]). split.
      + apply (path_snoc Sbar IGRAPH_IN _ l (idx b)); [done |].
        unfold arc. apply Sbar_edge. exists w, b. split; [done |].
        split; [by apply HA |]. split; [| done].
        apply HA. by apply (reach_in_start graph A b c).
      + intros x' [<- | [Hx' | [<- | []]]%in_app_iff].
        * apply Hl. by left.
        * apply Hl. by right.
        * by exists w.
  Qed.

Lemma Sbar_path_range r' l w' :
    0 <= r' < Vec.size keep -> path Sbar IGRAPH_IN r' l w' ->
    forall x', In x' (r' :: l) -> 0 <= x' < Vec.size keep.
  Proof.
    intros Hr Hp. induction Hp as [r' | r' b l w' He _ IH]; [by intros x' [<- | []] |].
    unfold arc in He. apply Sbar_edge_keep in He as (Hb & _ & _).
    intros x' [<- | Hx']; [done | by apply IH].
  Qed.

  (** The vertices of the subgraph from which the target is reached. *)
Lemma Sbar_reachable w' :
    0 <= w' < Vec.size keep ->
    (reachable Sbar IGRAPH_IN root w' <-> live graph target (items S) (VECTOR keep w')).
  Proof.
    intros Hw. split.
    - intros [l Hp]. unfold live. rewrite <- keep_root.
      apply (Sbar_path_walk _ root l w' Hp). intros x' Hx'.
      apply keep_outside, idx_keep. by apply (Sbar_path_range root l w' root_range Hp).
    - intros Hl. destruct (Sbar_walk_path _ _ _ Hl) as (l & Hp & _).
      { intros x Hx. by apply keep_outside. }
      destruct (idx_keep w' Hw) as [_ Hi]. rewrite Hi in Hp. by exists l.
  Qed.

  (** Dominance in the subgraph, for a vertex that reaches the target. *)
Lemma Sbar_dominates d' w' :
    0 <= d' < Vec.size keep -> 0 <= w' < Vec.size keep ->
    live graph target (items S) (VECTOR keep w') ->
    (dominates Sbar IGRAPH_IN root d' w' <->
     dominated graph target (items S) (VECTOR keep d') (VECTOR keep w')).
  Proof.
    intros Hd Hw Hlive. split.
    - intros Hdom. split; [done |]. intros Hoff.
      destruct (Sbar_walk_path _ _ _ Hoff) as (l & Hp & Hl).
      { intros x [Hx _]. by apply keep_outside. }
      fold root in Hp, Hl. destruct (idx_keep w' Hw) as [_ Hi]. rewrite Hi in Hp.
      destruct (Hl d' (Hdom l Hp)) as (x & [Hx Hne] & Hdx).
      apply Hne. apply keep_outside, keep_idx in Hx as [_ Hx]. by rewrite <- Hdx in Hx.
    - intros [_ Hnot] l Hp.
      destruct (in_dec Z.eq_dec d' (root :: l)) as [| Hout]; [done |]. exfalso.
      apply Hnot. rewrite <- keep_root.
      apply (Sbar_path_walk _ root l w' Hp). intros x' Hx'.
      pose proof (Sbar_path_range root l w' root_range Hp x' Hx') as Hxr.
      split; [by apply keep_outside, idx_keep |].
      intros Heq%keep_inj; [| done | done]. by subst.
  Qed.

  (** What the pivot gets from [igraph_dominator_tree]: the tree, in which
      the vertices below [x'] are the vertices that [x'] dominates, and the
      vertices that do not reach the target. *)
Lemma pivot_domtree :
    exists domtree leftout0,
      Dominator.igraph_dominator_tree Sbar root
        (Dominator.mk_out None (Some None) (Some [])) IGRAPH_IN =
        (IGRAPH_SUCCESS, Dominator.mk_out None (Some (Some domtree)) (Some leftout0)) /\
      graph_wf domtree /\ igraph_is_directed domtree = true /\
      igraph_vcount domtree = Vec.size keep /\
      (forall j, In j leftout0 <->
         0 <= j < Vec.size keep /\ ~ live graph target (items S) (VECTOR keep j)) /\
      (forall x' y', 0 <= x' < Vec.size keep -> live graph target (items S) (VECTOR keep x') ->
         (reachable domtree IGRAPH_IN x' y' <->
          0 <= y' < Vec.size keep /\
          dominated graph target (items S) (VECTOR keep x') (VECTOR keep y'))) /\
      (forall u u' v, In (v, u) (igraph_edges domtree) -> In (v, u') (igraph_edges domtree) ->
         u = u') /\
      (forall y', 0 <= y' < Vec.size keep -> live graph target (items S) (VECTOR keep y') ->
         y' <> root -> igraph_ecount domtree > 0) /\
      (forall u, ~ In (root, u) (igraph_edges domtree)).
  Proof.
    destruct (dominator_tree_in_run Sbar root Sbar_wf Sbar_directed root_range)
      as (ord & parents & md & Htree & Hmdroot & Hidom & Hun & Hrun).
    eexists _, _. split; [exact Hrun |].
    assert (Hvis : forall y', 0 <= y' < Vec.size keep ->
              (In y' ord <-> live graph target (items S) (VECTOR keep y'))).
    { intros y' Hy'. rewrite (visited_reachable Sbar IGRAPH_IN root ord parents Sbar_directed Htree).
      by apply Sbar_reachable. }
    split; [by apply (domtree_wf Sbar root Sbar_wf Sbar_directed root_range ord parents md) |].
    split; [done |]. split; [done |]. split; [| split; [| split; [| split]]].
    - intros j. rewrite (leftout_unvisited Sbar root Sbar_directed ord parents j Htree).
      split; intros [Hj Hn]; (split; [done |]); intros H; apply Hn; by apply Sbar_reachable.
    - intros x' y' Hx' Hlx.
      rewrite (domtree_subtree Sbar root Sbar_directed root_range ord parents md Htree Hmdroot Hidom Hun x' y')
        by (by apply Hvis).
      split.
      + intros [Hreach Hdom].
        assert (Hy' : 0 <= y' < Vec.size keep).
        { apply (visited_reachable Sbar IGRAPH_IN root ord parents Sbar_directed Htree) in Hreach.
          by apply (st_range _ _ _ _ _ Htree) in Hreach. }
        split; [done |]. apply Sbar_dominates; [done | done | by apply Sbar_reachable | done].
      + intros [Hy' Hd]. pose proof (proj1 Hd) as Hly.
        split; [by apply Sbar_reachable |]. by apply Sbar_dominates.
    - apply (domtree_unique Sbar root Sbar_directed root_range ord parents md Htree Hidom Hun).
    - intros y' Hy' Hly Hne.
      apply (domtree_edges_exist Sbar root Sbar_directed root_range ord parents md Htree Hidom Hun y');
        [by apply Hvis | done].
    - apply (domtree_root_in Sbar root Sbar_directed root_range ord parents md Htree Hidom Hun).
  Qed.
End SbarGraph.

(** ** The minimal elements of Gamma(S) *)

Section MinimalDFS.
Import Visitor AllStCuts DominatorSpec.
Variables (domtree : igraph_t) (root : Z) (GammaX : list bool) (invmap : list Z) (n : Z).
Hypothesis Hwf : graph_wf domtree.
Hypothesis Hdtdir : igraph_is_directed domtree = true.
Hypothesis Hroot : 0 <= root < igraph_vcount domtree.
Hypothesis Hinj : forall i j, 0 <= i < igraph_vcount domtree -> 0 <= j < igraph_vcount domtree ->
    VECTOR invmap i = VECTOR invmap j -> i = j.
Hypothesis Hreal : forall i, 0 <= i < igraph_vcount domtree -> 0 <= VECTOR invmap i < n.

Let gam (x : Z) : bool := VECTORB GammaX (VECTOR invmap x).
Let incb := igraph_i_all_st_cuts_minimal_dfs_incb GammaX invmap.
Let outcb := igraph_i_all_st_cuts_minimal_dfs_outcb invmap.

  (** The state of the callbacks during the search: the stack holds the
      vertices of Gamma on the tree path to the vertex at hand; all of them
      but the last are marked, and a vertex of Gamma is marked exactly when
      a vertex of Gamma has been found below it. *)
Record min_inv (st : @dfs_state igraph_i_all_st_cuts_minimal_dfs_data_t) : Prop :=
  mk_min_inv {
    m_len : length (nomark (dfs_extra st)) = Z.to_nat n;
    m_stack : stack (dfs_extra st) = map (VECTOR invmap) (List.filter gam (dfs_stack st));
    m_below : forall x, In x (tail (List.filter gam (dfs_stack st))) ->
      VECTORB (nomark (dfs_extra st)) (VECTOR invmap x) = true;
    m_anc : forall y x, In y (dfs_order st) -> gam y = true -> gam x = true -> x <> y ->
      anc (dfs_parents st) x y -> VECTORB (nomark (dfs_extra st)) (VECTOR invmap x) = true;
    m_sound : forall i, VECTORB GammaX i = true -> VECTORB (nomark (dfs_extra st)) i = true ->
      exists x y, VECTOR invmap x = i /\ In x (dfs_order st) /\ In y (dfs_order st) /\
                  gam y = true /\ x <> y /\ anc (dfs_parents st) x y
  }.

Lemma min_inv_step st st' :
    dfs_tree domtree IGRAPH_IN root st -> min_inv st ->
    dfs_step domtree IGRAPH_IN incb outcb st = Some st' -> min_inv st'.
  Proof.
    intros [Hbase Hchain Hpar _ _ _ _ _ _ _ _] [Hlen Hstk Hbelow Hanc Hsound] Hstep.
    destruct Hbase as [Hla Hlp [l Hl] Hrange Hstack Hnodup Hmarked Hproot Hpun Hpvis _ _].
    unfold dfs_step in Hstep. destruct (dfs_stack st) as [| a below] eqn:Hst; [done |].
    assert (Ha : In a (dfs_order st)) by (apply Hstack; by left).
    assert (Har : 0 <= a < igraph_vcount domtree) by (by apply Hrange).
    assert (Hpar0 : forall x, In x (dfs_order st) -> x <> root ->
              In (VECTOR (dfs_parents st) x) (dfs_order st) /\
              (rank (dfs_order st) (VECTOR (dfs_parents st) x) < rank (dfs_order st) x)%nat).
    { intros x Hx Hxr. destruct (Hpar x Hx Hxr) as (? & _ & ?). done. }
    assert (Hspos : forall x, In x (a :: below) -> 0 <= x).
    { intros x Hx. apply Hstack, Hrange in Hx. lia. }
    destruct (dfs_scan _ _ _) as [[z |] ptr'] eqn:Hsc; injection Hstep as <-;
      cbn [dfs_stack dfs_order dfs_parents dfs_nptr dfs_added dfs_extra] in *.
    - (* a new vertex is pushed *)
      apply dfs_scan_some_split in Hsc as (skipped & rest & Hdrop & Hsk & Hz & ->).
      assert (Hzn : In z (igraph_neighbors domtree a IGRAPH_IN)).
      { apply (In_drop _ (Z.to_nat (VECTOR (dfs_nptr st) a))). rewrite Hdrop.
        apply in_app_iff. right. by left. }
      assert (Hzr : 0 <= z < igraph_vcount domtree)
        by (by apply (neighbors_range domtree a IGRAPH_IN)).
      assert (Hzo : ~ In z (dfs_order st)).
      { intros Hin%Hmarked; [congruence | done]. }
      assert (Hlift : forall u v, In v (dfs_order st) ->
                (anc (vset (dfs_parents st) z a) u v <-> anc (dfs_parents st) u v)).
      { intros u v Hv. by apply (anc_vset _ root (dfs_order st)). }
      assert (Hnew : forall u, anc (vset (dfs_parents st) z a) u z <->
                               u = z \/ anc (dfs_parents st) u a).
      { intros u. apply (anc_new _ root (dfs_order st)); try done; [lia |].
        unfold Vec.size. lia. }
      assert (Hchain_a : forall u, anc (dfs_parents st) u a <-> In u (a :: below)).
      { by apply (chain_anc domtree root (dfs_parents st) (a :: below) Hproot Hspos Hchain a below). }
      set (F := List.filter gam (a :: below)) in *.
      assert (HF : forall x, In x F -> In x (a :: below) /\ gam x = true).
      { intros x Hx. by apply filter_In in Hx. }
      unfold incb, igraph_i_all_st_cuts_minimal_dfs_incb. fold (gam z).
      destruct (gam z) eqn:Hgz.
      + (* it belongs to Gamma *)
        set (nm := match stack (dfs_extra st) with
                   | top :: _ => vset (nomark (dfs_extra st)) top true
                   | [] => nomark (dfs_extra st)
                   end).
        assert (Hmono : forall i, VECTORB (nomark (dfs_extra st)) i = true ->
                  VECTORB nm i = true).
        { intros i Hi. subst nm. destruct (stack (dfs_extra st)); [done |].
          rewrite vget_vset. by destruct (_ && _). }
        assert (HFm : forall x, In x F -> VECTORB nm (VECTOR invmap x) = true).
        { intros x Hx. destruct F as [| x0 F0] eqn:HFeq; [done |].
          destruct Hx as [<- | Hx]; [| by apply Hmono, Hbelow].
          subst nm. rewrite Hstk. cbn [map]. apply vget_vset_eq.
          unfold Vec.size. rewrite Hlen.
          assert (Hx0 : In x0 (a :: below)) by (apply (HF x0); by left).
          apply Hstack, Hrange, Hreal in Hx0. lia. }
        constructor; cbn [dfs_stack dfs_order dfs_parents dfs_extra stack nomark].
        * subst nm. destruct (stack (dfs_extra st)); [done | by rewrite vset_length].
        * cbn [List.filter]. rewrite Hgz. cbn [map]. by rewrite Hstk.
        * cbn [List.filter]. rewrite Hgz. cbn [tail]. exact HFm.
        * intros y x [<- | Hy] Hgy Hgx Hne Hxy.
          -- apply Hnew in Hxy as [-> | Hxa]; [done |].
             apply HFm. apply filter_In. split; [by apply Hchain_a | done].
          -- apply Hmono. apply (Hanc y x); try done. by apply Hlift.
        * intros i HGi Hi.
          destruct (VECTORB (nomark (dfs_extra st)) i) eqn:Hold.
          -- destruct (Hsound i HGi Hold) as (x & y & Hx1 & Hx2 & Hy1 & Hy2 & Hne & Hxy).
             exists x, y. split; [done |]. split; [by right |]. split; [by right |].
             split; [done |]. split; [done |]. by apply Hlift.
          -- subst nm. rewrite Hstk in Hi.
             destruct F as [| x0 F0] eqn:HFeq; [cbn [map] in Hi; congruence |].
             cbn [map] in Hi. rewrite vget_vset in Hi.
             destruct (Z.eqb_spec (VECTOR invmap x0) i) as [Hx0i | Hne];
               [| cbn [andb] in Hi; congruence].
             assert (Hx0 : In x0 (a :: below)) by (apply (HF x0); by left).
             exists x0, z. split; [done |]. split; [right; by apply Hstack |].
             split; [by left |]. split; [done |]. split.
             ++ intros ->. by apply Hzo, Hstack.
             ++ apply Hnew. right. by apply Hchain_a.
      + (* it does not *)
        constructor; cbn [dfs_stack dfs_order dfs_parents dfs_extra].
        * done.
        * cbn [List.filter]. by rewrite Hgz.
        * cbn [List.filter]. by rewrite Hgz.
        * intros y x [<- | Hy] Hgy Hgx Hne Hxy; [congruence |].
          apply (Hanc y x); try done. by apply Hlift.
        * intros i HGi Hi.
          destruct (Hsound i HGi Hi) as (x & y & Hx1 & Hx2 & Hy1 & Hy2 & Hne & Hxy).
          exists x, y. split; [done |]. split; [by right |]. split; [by right |].
          split; [done |]. split; [done |]. by apply Hlift.
    - (* the vertex at hand is finished *)
      unfold outcb, igraph_i_all_st_cuts_minimal_dfs_outcb. rewrite Hstk.
      cbn [List.filter] in *. destruct (gam a) eqn:Hga.
      + cbn [map]. rewrite Z.eqb_refl.
        constructor; cbn [dfs_stack dfs_order dfs_parents dfs_extra stack nomark]; try done.
        intros x Hx. apply Hbelow. cbn [tail].
        destruct (List.filter gam below); [done | by right].
      + assert (Hsame : match map (VECTOR invmap) (List.filter gam below) with
                        | [] => dfs_extra st
                        | top :: rest =>
                            if top =? VECTOR invmap a then mk_data rest (nomark (dfs_extra st))
                            else dfs_extra st
                        end = dfs_extra st).
        { destruct (List.filter gam below) as [| x0 F0] eqn:HFeq; [done |]. cbn [map].
          destruct (Z.eqb_spec (VECTOR invmap x0) (VECTOR invmap a)) as [Heq | Hne]; [| done].
          exfalso.
          assert (Hx0 : In x0 below /\ gam x0 = true).
          { apply filter_In. rewrite HFeq. by left. }
          destruct Hx0 as [Hx0 Hgx0].
          apply Hinj in Heq; [congruence | | done].
          apply Hrange, Hstack. by right. }
        rewrite Hsame.
        constructor; cbn [dfs_stack dfs_order dfs_parents dfs_extra]; done.
  Qed.

Lemma min_inv_loop fuel : forall st,
    dfs_tree domtree IGRAPH_IN root st -> min_inv st ->
    min_inv (dfs_loop domtree IGRAPH_IN incb outcb fuel st).
  Proof.
    induction fuel as [| fuel IH]; intros st Htree Hinv; [done |].
    simpl. destruct (dfs_step _ _ _ _ st) as [st' |] eqn:Hstep; [| done].
    apply IH; [by eapply dfs_step_tree | by eapply min_inv_step].
  Qed.

Let nomark0 := map (fun i => negb (VECTORB GammaX i)) (Vec.range n).

Lemma min_inv_init :
    min_inv (mk_dfs [root] (vset (Vec.init false (igraph_vcount domtree)) root true)
                    (Vec.init 0 (igraph_vcount domtree)) [root]
                    (vset (Vec.init (-2) (igraph_vcount domtree)) root (-1))
                    (incb root (mk_data [] nomark0))).
  Proof.
    assert (Hdata : incb root (mk_data [] nomark0) =
                    mk_data (if gam root then [VECTOR invmap root] else []) nomark0).
    { unfold incb, igraph_i_all_st_cuts_minimal_dfs_incb. fold (gam root).
      by destruct (gam root). }
    rewrite Hdata.
    constructor; cbn [dfs_stack dfs_order dfs_parents dfs_extra stack nomark].
    - unfold nomark0. by rewrite length_map, range_length.
    - cbn [List.filter]. by destruct (gam root).
    - cbn [List.filter]. by destruct (gam root).
    - intros y x [<- | []] _ _ Hne Hanc.
      inversion Hanc as [| u v Hp _]; subst; [done |].
      rewrite vget_vset_eq in Hp by (unfold Vec.size; rewrite vinit_length; lia). lia.
    - intros i HGi Hi. exfalso. unfold nomark0 in Hi.
      destruct (decide (0 <= i < n)) as [Hr | Hr].
      + rewrite vget_map_range in Hi by done. by rewrite HGi in Hi.
      + unfold VECTORB, Vec.get in Hi. destruct (Z.ltb_spec i 0); [done |].
        rewrite nth_overflow in Hi; [done |]. rewrite length_map, range_length. lia.
  Qed.

Lemma dfs_tree_search_tree {X} (st : @dfs_state X) g mode r :
    dfs_tree g mode r st -> dfs_stack st = [] ->
    search_tree g mode r (dfs_order st) (dfs_parents st).
  Proof.
    intros Hinv Hdone.
    destruct Hinv as [[Hla Hlp Hl Hrange Hstack Hnodup Hmarked Hproot Hpun Hpvis _ _]
                        Hchain Hpar Hdesc Hint Hfin Hnptr Hnlen Hn0 Hscan Hcross].
    rewrite Hdone in *.
    constructor; try done.
    intros x y Hx Hy. apply (Hfin x y); [done | by intros [] | done].
  Qed.

  (** The minimal elements: a vertex of Gamma is kept when no vertex of
      Gamma lies below it, and below every vertex of Gamma one is kept. *)
Lemma minimal_spec graph :
    n = igraph_vcount graph ->
    exists M ord par,
      igraph_i_all_st_cuts_minimal graph domtree root GammaX invmap = Ok M /\
      search_tree domtree IGRAPH_IN root ord par /\
      (forall m, In m M -> 0 <= m < n /\ VECTORB GammaX m = true) /\
      (forall m x y, In m M -> In x ord -> VECTOR invmap x = m -> In y ord ->
         gam y = true -> anc par x y -> y = x) /\
      (forall x, In x ord -> gam x = true ->
         exists y, In y ord /\ anc par x y /\ gam y = true /\ In (VECTOR invmap y) M) /\
      StronglySorted Z.lt M.
  Proof.
    intros Hn. unfold igraph_i_all_st_cuts_minimal. rewrite <- Hn. fold nomark0 incb outcb.
    unfold igraph_dfs.
    destruct (Z.ltb_spec root 0); [lia |].
    destruct (Z.geb_spec root (igraph_vcount domtree)); [lia |].
    cbn [orb]. set (st0 := mk_dfs _ _ _ _ _ _).
    assert (Htree0 : dfs_tree domtree IGRAPH_IN root st0) by (by apply dfs_tree_init).
    pose proof (dfs_loop_tree domtree IGRAPH_IN incb outcb Hwf root
                  (2 * Z.to_nat (igraph_vcount domtree)) st0 Htree0) as Htree.
    pose proof (dfs_loop_done domtree IGRAPH_IN incb outcb Hwf root
                  (2 * Z.to_nat (igraph_vcount domtree)) st0 Htree0) as Hdone.
    pose proof (min_inv_loop (2 * Z.to_nat (igraph_vcount domtree)) st0 Htree0 min_inv_init)
      as Hmin.
    set (st := dfs_loop _ _ _ _ _ st0) in *.
    specialize (Hdone ltac:(simpl; lia)).
    pose proof (dfs_tree_search_tree st domtree IGRAPH_IN root Htree Hdone) as Hst.
    cbn [IGRAPH_CHECK snd].
    eexists _, (dfs_order st), (dfs_parents st). split; [reflexivity |].
    split; [done |].
    destruct Hmin as [Hlen _ _ Hanc Hsound].
    assert (HM : forall m, In m (List.filter (fun i => negb (VECTORB (nomark (dfs_extra st)) i))
                                             (Vec.range n)) <->
                           0 <= m < n /\ VECTORB (nomark (dfs_extra st)) m = false).
    { intros m. by rewrite filter_In, range_In, negb_true_iff. }
    assert (HG : forall m, 0 <= m < n -> VECTORB (nomark (dfs_extra st)) m = false ->
                           VECTORB GammaX m = true).
    { intros m Hm Hnm.
      destruct (igraph_dfs_basic domtree IGRAPH_IN incb outcb (fun _ => True)
                  (fun data => forall i, 0 <= i < n ->
                     VECTORB (nomark data) i = false -> VECTORB GammaX i = true)
                  ltac:(done)) with
        (root := root) (extra := mk_data [] nomark0)
        (order := rev (dfs_order st) ++
                  replicate (Z.to_nat (igraph_vcount domtree) - length (rev (dfs_order st)))%nat (-1))
        (parents := dfs_parents st) (extra' := dfs_extra st) as (_ & _ & Hdata); try done.
      - intros v data' Hd i Hi. unfold incb, igraph_i_all_st_cuts_minimal_dfs_incb.
        destruct (VECTORB GammaX (VECTOR invmap v)); [| by apply Hd]. simpl.
        destruct (AllStCuts.stack data') as [| top rest]; [by apply Hd |].
        rewrite vget_vset. destruct (_ && _); [done | by apply Hd].
      - intros v data' Hd i Hi. unfold outcb, igraph_i_all_st_cuts_minimal_dfs_outcb.
        destruct (AllStCuts.stack data') as [| top rest]; [by apply Hd |].
        destruct (top =? _); by apply Hd.
      - intros i Hi. simpl. unfold nomark0. rewrite vget_map_range by done.
        by intros ->%negb_false_iff.
      - unfold igraph_dfs.
        destruct (Z.ltb_spec root 0); [lia |].
        destruct (Z.geb_spec root (igraph_vcount domtree)); [lia |]. done.
      - by apply Hdata. }
    split; [| split; [| split]].
    - intros m [Hm Hnm]%HM. split; [done | by apply HG].
    - intros m x y [Hm Hnm]%HM Hx Hxm Hy Hgy Hxy.
      destruct (decide (y = x)) as [| Hne]; [done |]. exfalso.
      assert (Hgx : gam x = true) by (unfold gam; rewrite Hxm; by apply HG).
      rewrite <- Hxm in Hnm. rewrite (Hanc y x Hy Hgy Hgx ltac:(congruence) Hxy) in Hnm. done.
    - intros x Hx Hgx.
      remember (length (dfs_order st) - rank (dfs_order st) x)%nat as k eqn:Hk.
      revert x Hx Hgx Hk. induction k as [k IH] using lt_wf_ind. intros x Hx Hgx Hk.
      assert (Hxr : 0 <= VECTOR invmap x < n).
      { apply Hreal. by apply (st_range _ _ _ _ _ Hst). }
      destruct (VECTORB (nomark (dfs_extra st)) (VECTOR invmap x)) eqn:Hnm.
      + destruct (Hsound _ Hgx Hnm) as (x' & y & Hx1 & Hx2 & Hy1 & Hy2 & Hne & Hxy).
        assert (x' = x).
        { apply Hinj; [by apply (st_range _ _ _ _ _ Hst) | by apply (st_range _ _ _ _ _ Hst) |
                       done]. }
        subst x'.
        pose proof (anc_proper domtree IGRAPH_IN root _ _ Hdtdir Hst x y
                      Hxy Hne Hy1) as Hlt.
        pose proof (rank_lt _ _ Hy1) as Hlt2.
        destruct (IH (length (dfs_order st) - rank (dfs_order st) y)%nat ltac:(lia) y Hy1 Hy2
                     eq_refl) as (z & Hz1 & Hz2 & Hz3 & Hz4).
        exists z. split; [done |]. split; [by apply (anc_trans _ x y z) |]. done.
      + exists x. split; [done |]. split; [constructor |]. split; [done |]. by apply HM.
    - apply filter_sorted, range_sorted.
  Qed.
End MinimalDFS.

(** ** The pivot of [igraph_all_st_cuts] *)

Section RelabelAll.
Import AllStCuts.
Variable keep : list Z.

Lemma relabel_leftout_fold l0 G0 :
    fold_left (relabel_leftout keep) (Vec.range (Vec.size l0)) (l0, G0) =
    (map (VECTOR keep) l0, fold_left (fun G u => vset G u false) (map (VECTOR keep) l0) G0).
  Proof.
    assert (Hk : forall k : nat, (k <= length l0)%nat ->
              fold_left (relabel_leftout keep) (Vec.range (Z.of_nat k)) (l0, G0) =
              (map (VECTOR keep) (take k l0) ++ drop k l0,
               fold_left (fun G u => vset G u false) (map (VECTOR keep) (take k l0)) G0)).
    { induction k as [| k IH]; intros Hle; [done |].
      rewrite range_succ, fold_left_app, IH by lia.
      cbn [fold_left]. unfold relabel_leftout.
      destruct (lookup_lt_is_Some_2 l0 k) as [y Hy]; [lia |].
      rewrite (drop_S _ _ _ Hy).
      assert (Hsz : Vec.size (map (VECTOR keep) (take k l0)) = Z.of_nat k).
      { unfold Vec.size. rewrite length_map, length_take. lia. }
      assert (Hget : VECTOR (map (VECTOR keep) (take k l0) ++ y :: drop (S k) l0)
                            (Z.of_nat k) = y).
      { rewrite vget_of_nat, app_nth2 by (rewrite length_map, length_take; lia).
        rewrite length_map, length_take.
        by replace (k - k `min` length l0)%nat with 0%nat by lia. }
      rewrite Hget.
      assert (Hset : vset (map (VECTOR keep) (take k l0) ++ y :: drop (S k) l0) (Z.of_nat k)
                          (VECTOR keep y) =
                     map (VECTOR keep) (take (S k) l0) ++ drop (S k) l0).
      { rewrite <- Hsz at 1. rewrite vset_next_cell.
        by rewrite (take_S_r _ _ _ Hy), map_app. }
      rewrite Hset. f_equal.
      assert (Hk1 : VECTOR (map (VECTOR keep) (take (S k) l0) ++ drop (S k) l0) (Z.of_nat k) =
                    VECTOR keep y).
      { rewrite (take_S_r _ _ _ Hy), map_app, <- app_assoc. cbn [map app].
        rewrite vget_of_nat, app_nth2 by (rewrite length_map, length_take; lia).
        rewrite length_map, length_take.
        by replace (k - k `min` length l0)%nat with 0%nat by lia. }
      rewrite Hk1, (take_S_r _ _ _ Hy), map_app, fold_left_app. done. }
    unfold Vec.size. rewrite Hk by lia.
    by rewrite firstn_all, drop_all, app_nil_r.
  Qed.
End RelabelAll.

(** In a tree whose arcs lead away from the root, a vertex that reaches a
    visited vertex is one of its ancestors in the search tree. *)
Section TreeAnc.
Import DominatorSpec.
Variables (g : igraph_t) (root : Z) (ord par : list Z).
Hypothesis Hdir : igraph_is_directed g = true.
Hypothesis Htree : search_tree g IGRAPH_IN root ord par.
Hypothesis Huniq : forall u u' v,
    In (v, u) (igraph_edges g) -> In (v, u') (igraph_edges g) -> u = u'.
Hypothesis Hnoroot : forall u, ~ In (root, u) (igraph_edges g).

Lemma tree_reach_anc x y : In y ord -> reachable g IGRAPH_IN x y -> anc par x y.
  Proof.
    intros Hy [l Hp]. revert y Hy Hp.
    induction l as [| z l IH] using rev_ind; intros y Hy Hp.
    - inversion Hp; subst. constructor.
    - pose proof (path_end _ _ _ _ _ _ Hp) as ->.
      apply path_pred in Hp as (b & _ & Harc & Hpb).
      assert (Hne : y <> root).
      { intros ->. by apply (Hnoroot b). }
      destruct (tree_par g IGRAPH_IN root ord par Hdir Htree y Hy Hne)
        as (Hpin & Hparc & _ & Hpos).
      assert (Hb : b = VECTOR par y) by (by apply (Huniq _ _ y)).
      apply anc_step; [done |]. rewrite <- Hb. apply IH; [by rewrite Hb | done].
  Qed.
End TreeAnc.

(** The search from a vertex of the dominator tree. *)
Section TreeSearch.
Import Visitor DominatorSpec.
Variables (g : igraph_t) (r : Z).
Hypothesis Hwf : graph_wf g.
Hypothesis Hdir : igraph_is_directed g = true.
Hypothesis Hr : 0 <= r < igraph_vcount g.

Lemma dfs_reach :
    exists order par,
      igraph_dfs g IGRAPH_IN (fun (_ : Z) (x : unit) => x) (fun _ x => x) r tt =
        Ok (order, par, tt) /\
      forall x, In x (AllStCuts.nonneg_prefix (take (Z.to_nat (igraph_vcount g)) order)) <->
                reachable g IGRAPH_IN r x.
  Proof.
    destruct (igraph_dfs g IGRAPH_IN (fun (_ : Z) (x : unit) => x) (fun _ x => x) r tt)
      as [[[order par] []] | e] eqn:Hdfs.
    2:{ unfold igraph_dfs in Hdfs.
        destruct (Z.ltb_spec r 0); [lia |].
        destruct (Z.geb_spec r (igraph_vcount g)); [lia | done]. }
    exists order, par. split; [done |].
    pose proof (dfs_search_tree g IGRAPH_IN _ _ r tt tt order par Hwf Hdfs) as Htree.
    apply (igraph_dfs_tree g IGRAPH_IN _ _ Hwf) in Hdfs as (_ & ord & Hord & Htree').
    intros x.
    assert (Hlen : length order = Z.to_nat (igraph_vcount g)).
    { rewrite Hord, length_app, length_rev, length_replicate.
      pose proof (NoDup_incl_length (l := ord) (l' := Vec.range (igraph_vcount g))) as Hle.
      rewrite range_length in Hle.
      assert ((length ord <= Z.to_nat (igraph_vcount g))%nat); [| lia].
      apply Hle; [apply NoDup_ListNoDup, (st_nodup _ _ _ _ _ Htree') |].
      intros y Hin. apply range_In. by apply (st_range _ _ _ _ _ Htree'). }
    rewrite <- Hlen, firstn_all.
    rewrite <- (visited_reachable g IGRAPH_IN r _ par Hdir Htree).
    by rewrite <- in_rev.
  Qed.
End TreeSearch.

(** ** The pivot meets its specification *)

Section PivotSpec.
Import Visitor MarkedQueue EStack AllStCuts SearchSpec DominatorSpec MinimalCutSpec.
Variables (graph : igraph_t) (source target : Z).
Variables (S : igraph_marked_queue_int_t) (T : igraph_estack_t).
Let n := igraph_vcount graph.
Hypothesis Hwf : graph_wf graph.
Hypothesis Hdir : igraph_is_directed graph = true.
Hypothesis Hs : 0 <= source < n.
Hypothesis Ht : 0 <= target < n.
Hypothesis HS : queue_exact n S.
Hypothesis HtS : ~ In target (items S).

Let keep := List.filter (fun i => negb (igraph_marked_queue_int_iselement S i)) (Vec.range n).
Let Sbar_map := fst (fold_left subgraph_map_step keep (Vec.init 0 n, 0)).
Let idx (x : Z) : Z := VECTOR Sbar_map x - 1.
Let root := idx target.

Lemma outside_idx x :
    outside graph (items S) x -> 0 <= idx x < Vec.size keep /\ VECTOR keep (idx x) = x.
  Proof. intros Hx. apply (keep_idx graph S). by apply (keep_outside graph S HS). Qed.

Lemma index_outside j :
    0 <= j < Vec.size keep -> outside graph (items S) (VECTOR keep j) /\ idx (VECTOR keep j) = j.
  Proof.
    intros Hj. destruct (idx_keep graph S target j Hj) as [Hin Hidx].
    split; [by apply (keep_outside graph S HS) | done].
  Qed.

Lemma live_outside x : live graph target (items S) x -> outside graph (items S) x.
  Proof. apply reach_in_start. Qed.

Lemma outside_range x : outside graph (items S) x -> 0 <= x < n.
  Proof. by intros [Hx _]. Qed.

  (** Gamma(S) before the vertices that do not reach the target leave it. *)
Let G0 := if igraph_marked_queue_int_size S =? 0
            then vset (Vec.init false n) (VECTOR Sbar_map source - 1) true
            else fold_left (GammaS_step graph S) (Vec.range n) (Vec.init false n).

Lemma G0_length : length G0 = Z.to_nat n.
  Proof.
    unfold G0. destruct (_ =? 0).
    - by rewrite vset_length, vinit_length.
    - by rewrite (GammaS_fold_length graph S), vinit_length.
  Qed.

Lemma G0_spec x :
    0 <= x < n ->
    (VECTORB G0 x = true <->
     outside graph (items S) x /\
     ((items S = [] /\ x = source) \/ exists u, In u (items S) /\ In (u, x) (igraph_edges graph))).
  Proof.
    intros Hx. unfold G0.
    destruct (Z.eqb_spec (igraph_marked_queue_int_size S) 0) as [Hz | Hnz].
    - assert (Hnil : items S = []).
      { unfold igraph_marked_queue_int_size, Vec.size in Hz. destruct (items S); [done | simpl in Hz; lia]. }
      assert (Hout : forall y, 0 <= y < n -> outside graph (items S) y).
      { intros y Hy. split; [done |]. rewrite Hnil. by intros []. }
      assert (Hkeep : keep = Vec.range n).
      { apply filter_all. intros y Hy%range_In. apply negb_true_iff.
        apply (queue_empty_no_member n); [apply HS | done]. }
      assert (Hsrc : VECTOR Sbar_map source - 1 = source).
      { destruct (outside_idx source (Hout source Hs)) as [Hr Hk]. fold (idx source).
        rewrite Hkeep in Hk, Hr. rewrite vget_range in Hk; [done |].
        unfold Vec.size in Hr. rewrite range_length in Hr. lia. }
      rewrite Hsrc, vget_vset. unfold Vec.size. rewrite vinit_length.
      destruct (Z.eqb_spec source x) as [Heq | Hne]; simpl.
      + destruct (Z.leb_spec 0 x); [| lia]. destruct (Z.ltb_spec x (Z.of_nat (Z.to_nat n))); [| lia].
        simpl. split; [| done]. intros _. split; [by apply Hout |]. by left.
      + rewrite vget_init by done. split; [done |].
        intros [_ [[_ Heq] | (u & Hu & _)]]; [done |]. by rewrite Hnil in Hu.
    - rewrite (GammaS_fold graph S) by (unfold Vec.size; rewrite vinit_length; lia).
      rewrite vget_init by done. split.
      + intros [? | (Hm & i & Hi%range_In & Him & Hnei)]; [done |].
        apply neighbors_directed_out in Hnei; [| done].
        split.
        * split; [done |]. intros Hin. apply (member_items graph S HS) in Hin; [| done].
          fold n in Hin. congruence.
        * right. exists i. split; [| done]. by apply (member_items graph S HS).
      + intros [[_ Hout] [[Hnil _] | (u & Hu & He)]].
        { exfalso. apply Hnz. unfold igraph_marked_queue_int_size. by rewrite Hnil. }
        right. split.
        * destruct (igraph_marked_queue_int_iselement S x) eqn:Hm; [| done].
          exfalso. apply Hout. by apply (member_items graph S HS).
        * exists u. destruct HS as (_ & _ & Hin). destruct (Hin u Hu) as [Hur Hum].
          split; [by apply range_In |]. split; [done |].
          by apply neighbors_directed_out.
  Qed.

Section WithTree.
Variables (domtree : igraph_t) (leftout0 : list Z).
Hypothesis Hdwf : graph_wf domtree.
Hypothesis Hddir : igraph_is_directed domtree = true.
Hypothesis Hdn : igraph_vcount domtree = Vec.size keep.
Hypothesis Hleft : forall j, In j leftout0 <->
      0 <= j < Vec.size keep /\ ~ live graph target (items S) (VECTOR keep j).
Hypothesis Hsub : forall x' y',
      0 <= x' < Vec.size keep -> live graph target (items S) (VECTOR keep x') ->
      (reachable domtree IGRAPH_IN x' y' <->
       0 <= y' < Vec.size keep /\
       dominated graph target (items S) (VECTOR keep x') (VECTOR keep y')).

Let leftout := map (VECTOR keep) leftout0.
Let G := fold_left (fun G u => vset G u false) leftout G0.
Let GammaS_vec := List.filter (VECTORB G) (Vec.range n).

Lemma leftout_spec x :
      In x leftout <-> outside graph (items S) x /\ ~ live graph target (items S) x.
    Proof.
      unfold leftout. rewrite in_map_iff. split.
      - intros (j & <- & [Hj Hn]%Hleft). split; [by apply index_outside | done].
      - intros [Hout Hn]. destruct (outside_idx x Hout) as [Hr Hk].
        exists (idx x). split; [done |]. apply Hleft. split; [done |]. by rewrite Hk.
    Qed.

Lemma G_spec x : VECTORB G x = true <-> front graph source target (items S) x.
    Proof.
      destruct (decide (0 <= x < n)) as [Hx | Hx].
      - unfold G. rewrite fold_vset_get by (unfold Vec.size; rewrite G0_length; lia).
        destruct (existsb (Z.eqb x) leftout) eqn:Hex.
        + apply existsb_eqb_In, leftout_spec in Hex as [_ Hn].
          split; [done |]. by intros [Hl _].
        + assert (Hnl : ~ In x leftout).
          { intros Hin%existsb_eqb_In. congruence. }
          rewrite (G0_spec x Hx). split.
          * intros [Hout Hor]. split; [| done].
            destruct (live_dec graph target Hwf Hdir (items S) x) as [Hl | Hl]; [done |].
            exfalso. apply Hnl. by apply leftout_spec.
          * intros [Hl Hor]. split; [by apply live_outside | done].
      - unfold G. rewrite fold_vset_get_out by (unfold Vec.size; rewrite G0_length; lia).
        split; [done |]. intros [Hl _]. exfalso. by apply Hx, outside_range, live_outside.
    Qed.

Lemma GammaS_vec_spec x : In x GammaS_vec <-> front graph source target (items S) x.
    Proof.
      unfold GammaS_vec. rewrite filter_In, range_In, G_spec. split; [by intros [_ H] |].
      intros H. split; [| done]. destruct H as [Hl _]. by apply outside_range, live_outside.
    Qed.

    (** The vertices below [m] in the dominator tree, with their names in
        the graph: the vertices that [m] dominates. *)
Lemma Nuv_spec m :
      live graph target (items S) m ->
      exists order par,
        igraph_dfs domtree IGRAPH_IN (fun (_ : Z) (x : unit) => x) (fun _ x => x)
                   (VECTOR Sbar_map m - 1) tt = Ok (order, par, tt) /\
        forall x,
          In x (map (VECTOR keep)
                    (nonneg_prefix (take (Z.to_nat (Vec.size keep)) order))) <->
          dominated graph target (items S) m x.
    Proof.
      intros Hm. destruct (outside_idx m (live_outside m Hm)) as [Hr Hk].
      destruct (dfs_reach domtree (idx m) Hdwf Hddir) as (order & par & Hdfs & Hreach);
        [by rewrite Hdn |].
      exists order, par. split; [exact Hdfs |].
      intros x. rewrite Hdn in Hreach. rewrite in_map_iff. split.
      - intros (x' & <- & Hin%Hreach). apply Hsub in Hin as [_ Hd]; [| done | by rewrite Hk].
        by rewrite Hk in Hd.
      - intros Hd. pose proof (proj1 Hd) as Hl.
        destruct (outside_idx x (live_outside x Hl)) as [Hxr Hxk].
        exists (idx x). split; [done |]. apply Hreach, Hsub; [done | by rewrite Hk |].
        split; [done |]. by rewrite Hk, Hxk.
    Qed.

Lemma dominated_range v x : dominated graph target (items S) v x -> 0 <= x < n.
    Proof. intros [Hl _]. by apply outside_range, live_outside. Qed.

    (** The loop over the minimal elements. *)
Lemma pivot_loop_exact M : forall code v Isv,
      (forall m, In m M -> front graph source target (items S) m) ->
      (forall m w, In m M -> front graph source target (items S) w ->
         dominated graph target (items S) m w -> w = m) ->
      pivot_loop graph domtree T target Sbar_map keep leftout GammaS_vec (Vec.size keep) M =
        (code, v, Isv) ->
      (Isv = [] ->
         forall m, In m M ->
           m = target \/ exists x, below graph target (items S) m x /\ in_T T x) /\
      (Isv <> [] ->
         In v M /\ v <> target /\
         (forall x, below graph target (items S) v x -> ~ in_T T x) /\
         (forall x, In x Isv <-> closure graph target (items S) v x)).
    Proof.
      induction M as [| m M IH]; intros code v Isv Hfront Hmin Hloop.
      { injection Hloop as <- <- <-. split; [by intros _ m [] | done]. }
      cbn [pivot_loop] in Hloop.
      assert (Hfm : front graph source target (items S) m) by (apply Hfront; by left).
      pose proof (proj1 Hfm) as Hlm.
      destruct (Nuv_spec m Hlm) as (order & par & Hdfs & HNuv).
      rewrite Hdfs in Hloop.
      set (Nuv := map (VECTOR keep) _) in Hloop.
      change (forall x, In x Nuv <-> dominated graph target (items S) m x) in HNuv.
      assert (HNr : forall x, In x Nuv -> 0 <= x < n).
      { intros x Hx%HNuv. by apply (dominated_range m). }
      destruct (igraph_bfs_ok graph GammaS_vec Nuv) as [order1 Hbfs1].
      { intros x [Hl _]%GammaS_vec_spec. by apply outside_range, live_outside. }
      { exact HNr. }
      rewrite Hbfs1 in Hloop.
      pose proof (igraph_bfs_reach graph Hwf Hdir GammaS_vec Nuv order1 Hbfs1) as Hone.
      set (Isv_min := nonneg_prefix _) in Hloop.
      change (forall x, In x Isv_min <->
                exists r, In r GammaS_vec /\ reach_in graph (fun y => In y Nuv) r x) in Hone.
      assert (Hbelow : forall x, In x Isv_min <-> below graph target (items S) m x).
      { intros x. rewrite Hone. split.
        - intros (r & Hr%GammaS_vec_spec & Hreach).
          assert (r = m) as ->.
          { apply (Hmin m r); [by left | done |]. apply HNuv.
            apply (reach_in_start graph _ r x Hreach). }
          eapply reach_in_mono; [| exact Hreach]. intros y Hy. by apply HNuv.
        - intros Hb. exists m. split; [by apply GammaS_vec_spec |].
          eapply reach_in_mono; [| exact Hb]. intros y Hy. by apply HNuv. }
      destruct (existsb _ Isv_min) eqn:Hex.
      - (* this one fails *)
        destruct (IH code v Isv) as [Hnone Hfound];
          [by intros m' Hm'; apply Hfront; right
          | by intros m' w Hm'; apply Hmin; right | done |].
        split.
        + intros Hnil m' [<- | Hm']; [| by apply Hnone].
          apply existsb_exists in Hex as (u & Hu%Hbelow & Hor).
          apply orb_true_iff in Hor as [HT | Heq%Z.eqb_eq].
          * right. by exists u.
          * left. subst u. apply reach_in_end in Hu. destruct Hu as [_ Hno].
            destruct (decide (m = target)) as [| Hne]; [done |].
            exfalso. apply Hno. apply reach_refl. split; [| done].
            split; [exact Ht | exact HtS].
        + intros Hne. destruct (Hfound Hne) as (Hv & Hrest). split; [by right | done].
      - (* the pivot *)
        assert (Hall : forall u, In u Isv_min ->
                  igraph_estack_iselement T u = false /\ u <> target).
        { intros u Hu. destruct (igraph_estack_iselement T u || (u =? target)) eqn:Hc.
          - assert (existsb (fun u => igraph_estack_iselement T u || (u =? target)) Isv_min
                    = true); [| congruence].
            apply existsb_exists. by exists u.
          - apply orb_false_iff in Hc as [HT Hne%Z.eqb_neq]. done. }
        assert (Hr2 : forall x, In x (Nuv ++ leftout) <-> region graph target (items S) m x).
        { intros x. rewrite in_app_iff, HNuv, leftout_spec. done. }
        destruct (igraph_bfs_ok graph [m] (Nuv ++ leftout)) as [order2 Hbfs2].
        { intros x [<- | []]. by apply outside_range, live_outside. }
        { intros x [Hd | [Ho _]]%Hr2; [by apply (dominated_range m) | by apply outside_range]. }
        rewrite Hbfs2 in Hloop.
        pose proof (igraph_bfs_reach graph Hwf Hdir [m] (Nuv ++ leftout) order2 Hbfs2) as Htwo.
        injection Hloop as <- <- <-.
        assert (Hclos : forall x, In x (nonneg_prefix (take (Z.to_nat (igraph_vcount graph)) order2))
                          <-> closure graph target (items S) m x).
        { intros x. rewrite Htwo. split.
          - intros (r & [<- | []] & Hreach).
            eapply reach_in_mono; [| exact Hreach]. intros y Hy. by apply Hr2.
          - intros Hc. exists m. split; [by left |].
            eapply reach_in_mono; [| exact Hc]. intros y Hy. by apply Hr2. }
        assert (Hself : dominated graph target (items S) m m) by (by apply dominated_self).
        split.
        + intros Hnil. exfalso.
          assert (Hin : In m (nonneg_prefix (take (Z.to_nat (igraph_vcount graph)) order2))).
          { apply Hclos. apply reach_refl. by left. }
          by rewrite Hnil in Hin.
        + intros _. split; [by left |]. split; [| split; [| exact Hclos]].
          * apply (Hall m), Hbelow. by apply reach_refl.
          * intros x Hx%Hbelow%Hall. unfold in_T. destruct Hx as [Hx _]. by rewrite Hx.
    Qed.

Hypothesis Huniq : forall u u' v,
      In (v, u) (igraph_edges domtree) -> In (v, u') (igraph_edges domtree) -> u = u'.
Hypothesis Hedges : forall y',
      0 <= y' < Vec.size keep -> live graph target (items S) (VECTOR keep y') ->
      y' <> root -> igraph_ecount domtree > 0.
Hypothesis Hnoroot : forall u, ~ In (root, u) (igraph_edges domtree).

Lemma root_spec : 0 <= root < Vec.size keep /\ VECTOR keep root = target.
    Proof. apply outside_idx. by split. Qed.

Lemma dominated_target x :
      dominated graph target (items S) target x <-> live graph target (items S) x.
    Proof.
      split; [by intros [Hl _] |]. intros Hl. split; [done |].
      intros Hr. apply reach_in_end in Hr. by destruct Hr.
    Qed.

    (** What the pivot does once it has the dominator tree. *)
Lemma pivot_tail code v Isv :
      match (if igraph_ecount domtree >? 0
             then igraph_i_all_st_cuts_minimal graph domtree root G keep
             else Ok []) with
      | IGRAPH_ERROR e => (e, 0, [])
      | Ok M => pivot_loop graph domtree T target Sbar_map keep leftout GammaS_vec
                           (Vec.size keep) M
      end = (code, v, Isv) ->
      (Isv = [] -> pivot_none graph source target (items S) (in_T T)) /\
      (Isv <> [] -> pivot_found graph source target (items S) (in_T T) v Isv).
    Proof.
      destruct root_spec as [Hroot Hkroot].
      destruct (Z.gtb_spec (igraph_ecount domtree) 0) as [Hpos | Hzero].
      - destruct (minimal_spec domtree root G keep n Hdwf Hddir) with (graph := graph)
          as (M & ord & par & HM & Htree & HM1 & HU1 & HU2 & _).
        { by rewrite Hdn. }
        { intros i j Hi Hj. rewrite Hdn in Hi, Hj. by apply (keep_inj graph S target). }
        { intros i Hi. rewrite Hdn in Hi. by apply outside_range, index_outside. }
        { done. }
        rewrite HM.
        assert (Hord : forall x, live graph target (items S) x -> In (idx x) ord).
        { intros x Hl. destruct (outside_idx x (live_outside x Hl)) as [Hr Hk].
          apply (visited_reachable domtree IGRAPH_IN root ord par Hddir Htree).
          apply Hsub; [done | rewrite Hkroot; by apply live_target |].
          split; [done |]. rewrite Hkroot, Hk. by apply dominated_target. }
        assert (Hfront : forall m, In m M -> front graph source target (items S) m).
        { intros m Hm. apply G_spec. by apply HM1. }
        assert (Hmin : forall m w, In m M -> front graph source target (items S) w ->
                  dominated graph target (items S) m w -> w = m).
        { intros m w Hm Hw Hd.
          pose proof (proj1 (Hfront m Hm)) as Hlm. pose proof (proj1 Hw) as Hlw.
          destruct (outside_idx m (live_outside m Hlm)) as [Hmr Hmk].
          destruct (outside_idx w (live_outside w Hlw)) as [Hwr Hwk].
          assert (Heq : idx w = idx m).
          { apply (HU1 m (idx m) (idx w)); [done | by apply Hord | done | by apply Hord | |].
            - rewrite Hwk. by apply G_spec.
            - apply (tree_reach_anc domtree root ord par Hddir Htree Huniq Hnoroot);
                [by apply Hord |].
              apply Hsub; [done | by rewrite Hmk |]. split; [done |]. by rewrite Hmk, Hwk. }
          by rewrite <- Hwk, <- Hmk, Heq. }
        intros Hloop.
        destruct (pivot_loop_exact M code v Isv Hfront Hmin Hloop) as [Hnone Hfound].
        split.
        + intros Hnil w Hw. pose proof (proj1 Hw) as Hlw.
          destruct (outside_idx w (live_outside w Hlw)) as [Hwr Hwk].
          destruct (HU2 (idx w)) as (y & Hy & Hanc & Hgy & HyM);
            [by apply Hord | rewrite Hwk; by apply G_spec |].
          exists (VECTOR keep y). split; [by apply Hfront |]. split; [| by apply Hnone].
          destruct (tree_path domtree IGRAPH_IN root ord par Hddir Htree _ _ Hanc Hy)
            as (l & Hp & _).
          assert (Hreach : reachable domtree IGRAPH_IN (idx w) y) by (by exists l).
          apply Hsub in Hreach as [_ Hd]; [| done | by rewrite Hwk].
          by rewrite Hwk in Hd.
        + intros Hne. destruct (Hfound Hne) as (HvM & Hvt & HvT & Hclos).
          split; [by apply Hfront |]. split; [done |]. split; [| done].
          intros w Hw Hd. by apply (Hmin v w).
      - intros Hloop. cbn [pivot_loop] in Hloop. injection Hloop as <- <- <-.
        split; [| done]. intros _ w Hw. pose proof (proj1 Hw) as Hlw.
        destruct (outside_idx w (live_outside w Hlw)) as [Hwr Hwk].
        assert (Heq : idx w = root).
        { destruct (decide (idx w = root)) as [| Hne]; [done |].
          pose proof (Hedges (idx w) Hwr) as He. rewrite Hwk in He.
          specialize (He Hlw Hne). lia. }
        assert (w = target) as -> by (by rewrite <- Hwk, Heq).
        exists target. split; [done |]. split; [by apply dominated_self | by left].
    Qed.
End WithTree.

  (** The pivot of [igraph_all_st_cuts]: it finds nothing when every
      vertex of Gamma(S) dominates a minimal one that is the target or has
      a vertex of T below it; otherwise it returns a minimal vertex of
      Gamma(S) with no vertex of T below it, and the closure of it. *)
Lemma all_st_cuts_pivot_spec code v Isv :
    igraph_i_all_st_cuts_pivot graph S T source target = (code, v, Isv) ->
    (Isv = [] -> pivot_none graph source target (items S) (in_T T)) /\
    (Isv <> [] -> pivot_found graph source target (items S) (in_T T) v Isv).
  Proof.
    unfold igraph_i_all_st_cuts_pivot.
    rewrite (induced_subgraph_map_eq graph S). cbv zeta.
    destruct (pivot_domtree graph S target Hwf Hdir HS Ht HtS)
      as (domtree & leftout0 & Hrun & Hdwf & Hddir & Hdn & Hleft & Hsub & Huniq & Hedges & Hnoroot).
    rewrite Hrun, relabel_leftout_fold.
    apply (pivot_tail domtree leftout0 Hdwf Hddir Hdn Hleft Hsub Huniq Hedges Hnoroot).
  Qed.
End PivotSpec.

(** ** What [igraph_all_st_cuts] lists *)

Section AllCutsExact.
Import Visitor MarkedQueue EStack ProvanShier AllStCuts SearchSpec CutsSpec MinimalCutSpec.
Variables (graph : igraph_t) (source target : Z).
Hypothesis Hwf : graph_wf graph.
Hypothesis Hdir : igraph_is_directed graph = true.
Hypothesis Hs : 0 <= source < igraph_vcount graph.
Hypothesis Ht : 0 <= target < igraph_vcount graph.

Lemma search_inv_init :
    search_inv graph source target
      (items (igraph_marked_queue_int_init (igraph_vcount graph)))
      (in_T (igraph_estack_init (igraph_vcount graph))).
  Proof.
    split; [by intros x [] |]. split; [by intros [] |]. split; [done |].
    split; [by intros u w [] |].
    intros x Hx. unfold in_T, igraph_estack_iselement, igraph_estack_init in Hx. simpl in Hx.
    destruct (decide (0 <= x < igraph_vcount graph)) as [Hr | Hr].
    - by rewrite vget_init in Hx.
    - destruct (Z.ltb_spec x 0); [by rewrite vget_neg in Hx |].
      rewrite vget_out in Hx; [done |]. unfold Vec.size. rewrite vinit_length. lia.
  Qed.

Lemma all_st_cuts_search fuel S' T' parts :
    igraph_provan_shier_list fuel graph (igraph_marked_queue_int_init (igraph_vcount graph))
      (igraph_estack_init (igraph_vcount graph)) source target []
      igraph_i_all_st_cuts_pivot = Some (Ok (S', T', parts)) ->
    Forall (fun P => List.NoDup P /\ minimal_side graph source target P) parts /\
    (forall P, minimal_side graph source target P ->
       exists P', In P' parts /\ same_set P P') /\
    ForallOrdPairs (fun P P' => ~ same_set P P') parts.
  Proof.
    intros Hrun.
    apply (provan_shier_exact igraph_i_all_st_cuts_pivot graph source target Hwf Hdir Ht)
      in Hrun as (new & Hnew & Hall & Hcomplete & Hdistinct).
    - simpl in Hnew. subst new. split; [| split; [| done]].
      + eapply Forall_impl; [exact Hall |]. intros P (Hnd & Hmin & _). done.
      + intros P HP. apply Hcomplete; [done | by intros x [] |].
        intros x _ Hx. pose proof (proj2 (proj2 (proj2 (proj2 search_inv_init))) x Hx) as Hf.
        destruct Hf as [_ [[_ ->] | (u & [] & _)]].
        clear -Hx Hs. unfold in_T, igraph_estack_iselement, igraph_estack_init in Hx.
        simpl in Hx. by rewrite vget_init in Hx.
    - intros S T code v Isv HS HT Hinv.
      apply (all_st_cuts_pivot_spec graph source target S T Hwf Hdir Hs Ht HS).
      apply Hinv.
    - apply queue_exact_init, Hwf.
    - apply estack_wf_init, Hwf.
    - exact search_inv_init.
  Qed.
End AllCutsExact.

(** C2, amended.  On a directed graph with source and target among its
    vertices [igraph_all_st_cuts] returns its lists, and the sets it lists
    are exactly the source sides of the minimal cuts: the sets of vertices
    (no vertex twice) with the source and without the target, every vertex
    of which is reached from the source inside the set, such that some edge
    leaves the set and the head of every edge that leaves it reaches the
    target outside the set.  Every such set is listed, no set is listed
    twice, and the cut listed with a set is the list of the edges that leave
    it, in increasing order of edge id. *)
Theorem all_st_cuts_exact (graph : igraph_t) (source target : Z) :
  graph_wf graph -> igraph_is_directed graph = true ->
  0 <= source < igraph_vcount graph -> 0 <= target < igraph_vcount graph ->
  (exists cuts partition1s,
     AllStCuts.igraph_all_st_cuts (S (Z.to_nat (igraph_vcount graph))) graph true
       source target = Some (Ok (Some cuts, partition1s))) /\
  forall fuel cuts partition1s,
    AllStCuts.igraph_all_st_cuts fuel graph true source target =
      Some (Ok (Some cuts, partition1s)) ->
    (forall P, In P partition1s ->
       List.NoDup P /\ MinimalCutSpec.minimal_side graph source target P) /\
    (forall P, MinimalCutSpec.minimal_side graph source target P ->
       exists P', In P' partition1s /\ CutsSpec.same_set P P') /\
    ForallOrdPairs (fun P P' => ~ CutsSpec.same_set P P') partition1s /\
    cuts = map (CutsSpec.crossing_edges graph) partition1s.
Proof.
  intros Hwf Hdir Hs Ht. split.
  - unfold AllStCuts.igraph_all_st_cuts. rewrite Hdir. cbn [negb].
    destruct (provan_shier_fuel AllStCuts.igraph_i_all_st_cuts_pivot graph source target
                all_st_cuts_pivot_contract Hwf (S (Z.to_nat (igraph_vcount graph)))
                (MarkedQueue.igraph_marked_queue_int_init (igraph_vcount graph))
                (EStack.igraph_estack_init (igraph_vcount graph)) [])
      as [r Hr].
    { apply queue_wf_init, Hwf. }
    { apply estack_wf_init, Hwf. }
    { pose proof (free_length_le (igraph_vcount graph)
                    (MarkedQueue.igraph_marked_queue_int_init (igraph_vcount graph))
                    (EStack.igraph_estack_init (igraph_vcount graph)) (proj1 Hwf)). lia. }
    destruct (provan_shier_no_error _ graph source target all_st_cuts_pivot_contract Hwf
                _ _ _ _ _ (queue_wf_init _ (proj1 Hwf)) (estack_wf_init _ (proj1 Hwf)) Hr)
      as (S' & T' & parts & ->).
    rewrite Hr.
    destruct (fold_left (AllStCuts.cut_step graph parts) _ _) as [[inS cut] cuts].
    by eexists _, _.
  - intros fuel cuts partition1s. unfold AllStCuts.igraph_all_st_cuts.
    rewrite Hdir. cbn [negb].
    destruct (ProvanShier.igraph_provan_shier_list _ _ _ _ _ _ _ _)
      as [[[[S1 T1] parts] |] |] eqn:Hrun; [| done | done].
    destruct (fold_left (AllStCuts.cut_step graph parts) _ _) as [[inS cut] cuts'] eqn:Hcuts.
    intros [= <- <-].
    destruct (all_st_cuts_search graph source target Hwf Hdir Hs Ht fuel S1 T1 parts Hrun)
      as (Hall & Hcomplete & Hdistinct).
    rewrite Forall_forall in Hall.
    split; [intros P HP; by apply Hall, list_elem_of_In |].
    split; [done |]. split; [done |].
    destruct (cut_steps_spec graph parts) with (k := length parts)
      as (inS' & cut' & Hfold & _); [| done |].
    + intros part Hpart x Hx. apply list_elem_of_In, Hall in Hpart as [_ Hmin].
      by apply Hmin.
    + unfold Vec.size in Hcuts. rewrite Hfold in Hcuts. injection Hcuts as _ _ <-.
      by rewrite firstn_all.
Qed.

Lemma funnel_wf : graph_wf Examples.funnel.
Proof. split; [simpl; lia |]. repeat constructor; simpl; lia. Defined.

Lemma all_st_cuts_exact_witness :
  (exists cuts partition1s,
     AllStCuts.igraph_all_st_cuts 5 Examples.funnel true 0 3 =
       Some (Ok (Some cuts, partition1s))) /\
  (forall P, In P [[0]; [0; 1]; [0; 1; 2]] ->
     List.NoDup P /\ MinimalCutSpec.minimal_side Examples.funnel 0 3 P) /\
  (forall P, MinimalCutSpec.minimal_side Examples.funnel 0 3 P ->
     exists P', In P' [[0]; [0; 1]; [0; 1; 2]] /\ CutsSpec.same_set P P') /\
  ForallOrdPairs (fun P P' => ~ CutsSpec.same_set P P') [[0]; [0; 1]; [0; 1; 2]] /\
  [[0; 1]; [1; 2]; [3]] = map (CutsSpec.crossing_edges Examples.funnel) [[0]; [0; 1]; [0; 1; 2]].
Proof.
  destruct (all_st_cuts_exact Examples.funnel 0 3) as [Hex Hall];
    [exact funnel_wf | reflexivity | simpl; lia | simpl; lia |].
  split; [exact Hex |]. apply (Hall 5%nat). vm_compute. reflexivity.
Defined.

